(** * ToyC compiler: shallow embedding and verification of its stages

    The repository holds two ToyC compilers that share a language:

    - the IR pipeline ([parser/ast.h], [semantic/semantic.h] with its
      [semantic.cpp], [ir/ir.h], [codegen/codegen.h] with its [codegen.cpp],
      and the hand-written lexer), embedded below in the modules [Ast],
      [Analyze], [Lexer], [IR], [Codegen], [Peephole] and [RegAlloc];
    - the TOYC2 compiler ([src/ast.h], [TOYC2/src/semantic.cpp],
      [src/symbol_table.cpp], [optimizer.cpp], [src/code_generator.cpp]),
      embedded in the module [Toyc2].

    Integers of the compiled language and of the compiler ([int]) are
    32-bit two's-complement values, modelled as [Z] with the wrap-around
    written out in [Int32]. *)

From Stdlib Require Import ZArith Lia List Bool Ascii String.
From stdpp Require Import base option list strings gmap pretty.

Import ListNotations.

Set Warnings "-register-all".


(** ** 32-bit integers *)

Module Int32.
Local Open Scope Z_scope.

Definition min_signed : Z := - 2 ^ 31.
Definition max_signed : Z := 2 ^ 31 - 1.

(** Two's-complement wrap-around of an unbounded integer into [int]. *)
Definition wrap (z : Z) : Z := (z + 2 ^ 31) mod 2 ^ 32 - 2 ^ 31.

Definition in_range (z : Z) : Prop := min_signed <= z <= max_signed.

Definition add (a b : Z) : Z := wrap (a + b).
Definition sub (a b : Z) : Z := wrap (a - b).
Definition mul (a b : Z) : Z := wrap (a * b).
(** The C++ [/] and [%] on [int] truncate toward zero. They are
    undefined for a zero divisor and for [min_signed / -1] and
    [min_signed % -1], whose quotient is no [int]; the division
    instruction of the host raises SIGFPE on these, which kills the
    process: [None]. *)
Definition division_traps (a b : Z) : bool :=
  (b =? 0) || ((a =? min_signed) && (b =? -1)).
Definition div (a b : Z) : option Z :=
  if division_traps a b then None else Some (Z.quot a b).
Definition rem (a b : Z) : option Z :=
  if division_traps a b then None else Some (Z.rem a b).
Definition neg (a : Z) : Z := wrap (- a).

Definition of_bool (b : bool) : Z := if b then 1 else 0.
(** C truth value of an [int]. *)
Definition truth (a : Z) : bool := negb (a =? 0).

Lemma wrap_in_range z : in_range (wrap z).
Proof.
  unfold in_range, wrap, min_signed, max_signed.
  pose proof (Z.mod_pos_bound (z + 2 ^ 31) (2 ^ 32) ltac:(lia)). lia.
Qed.

Lemma wrap_id z : in_range z -> wrap z = z.
Proof.
  unfold in_range, wrap, min_signed, max_signed. intros H.
  rewrite Z.mod_small by lia. lia.
Qed.

Lemma of_bool_in_range b : in_range (of_bool b).
Proof. destruct b; unfold in_range, min_signed, max_signed; simpl; lia. Qed.

Lemma add_0_r a : in_range a -> add a 0 = a.
Proof. intros H. unfold add. rewrite Z.add_0_r. by apply wrap_id. Qed.

Lemma add_0_l a : in_range a -> add 0 a = a.
Proof. intros H. unfold add. rewrite Z.add_0_l. by apply wrap_id. Qed.

Lemma sub_0_r a : in_range a -> sub a 0 = a.
Proof. intros H. unfold sub. rewrite Z.sub_0_r. by apply wrap_id. Qed.

Lemma mul_1_r a : in_range a -> mul a 1 = a.
Proof. intros H. unfold mul. rewrite Z.mul_1_r. by apply wrap_id. Qed.

Lemma mul_1_l a : in_range a -> mul 1 a = a.
Proof. intros H. unfold mul. rewrite Z.mul_1_l. by apply wrap_id. Qed.

Lemma mul_0_r a : mul a 0 = 0.
Proof. unfold mul. rewrite Z.mul_0_r. reflexivity. Qed.

Lemma mul_0_l a : mul 0 a = 0.
Proof. unfold mul. rewrite Z.mul_0_l. reflexivity. Qed.

Lemma quot_abs_le a b : b <> 0 -> Z.abs (Z.quot a b) <= Z.abs a.
Proof.
  intros Hb. rewrite <- Z.quot_abs by exact Hb.
  rewrite Z.quot_div_nonneg by lia.
  apply Z.div_le_upper_bound; [lia |]. nia.
Qed.

Lemma div_in_range a b q : in_range a -> div a b = Some q -> in_range q.
Proof.
  unfold div, division_traps, in_range, min_signed, max_signed. intros Ha H.
  destruct (b =? 0) eqn:Hb; [discriminate |]. apply Z.eqb_neq in Hb.
  destruct ((a =? - 2 ^ 31) && (b =? -1)) eqn:Ho; [discriminate |].
  cbn [orb] in H. injection H as <-.
  pose proof (quot_abs_le a b Hb) as H.
  destruct (Z.eq_dec a (- 2 ^ 31)) as [-> | Hne]; [| lia].
  destruct (Z.eq_dec b 1) as [-> | H1]; [rewrite Z.quot_1_r; lia |].
  destruct (Z.eq_dec b (-1)) as [-> | H2]; [discriminate |].
  assert (Z.abs (Z.quot (- 2 ^ 31) b) <= 2 ^ 30); [| lia].
  rewrite <- Z.quot_abs by exact Hb.
  rewrite Z.quot_div_nonneg by lia.
  apply Z.div_le_upper_bound; [lia |].
  change (Z.abs (- 2 ^ 31)) with (2 ^ 31). lia.
Qed.

Lemma rem_in_range a b q : in_range a -> rem a b = Some q -> in_range q.
Proof.
  unfold rem, division_traps, in_range, min_signed, max_signed. intros Ha H.
  destruct (b =? 0) eqn:Hb; [discriminate |]. apply Z.eqb_neq in Hb.
  destruct ((a =? - 2 ^ 31) && (b =? -1)) eqn:Ho; [discriminate |].
  cbn [orb] in H. injection H as <-.
  assert (H : Z.abs (Z.rem a b) <= Z.abs a).
  { rewrite <- Z.rem_abs by exact Hb. apply Z.rem_le; lia. }
  destruct (Z.le_gt_cases a 0) as [Hneg | Hpos].
  - pose proof (Z.rem_nonpos a b Hb Hneg). lia.
  - lia.
Qed.

Lemma neg_neg a : in_range a -> neg (neg a) = a.
Proof.
  unfold neg, wrap, in_range, min_signed, max_signed. intros H.
  destruct (Z.eq_dec a (- 2 ^ 31)) as [-> | Hne]; [reflexivity |].
  rewrite (Z.mod_small (- a + 2 ^ 31)) by lia.
  replace (- (- a + 2 ^ 31 - 2 ^ 31) + 2 ^ 31) with (a + 2 ^ 31) by lia.
  rewrite Z.mod_small by lia. lia.
Qed.

End Int32.

(** ** The TOYC2 compiler *)

Module Toyc2.

(** *** AST ([src/ast.h]) *)

Inductive BinaryOperator : Set :=
  ADD | SUB | MUL | DIV | MOD | LT | GT | LE | GE | EQ | NE | AND | OR.

Inductive UnaryOperator : Set := PLUS | MINUS | NOT.

#[global] Instance BinaryOperator_eq_dec : EqDecision BinaryOperator.
Proof. solve_decision. Defined.

#[global] Instance UnaryOperator_eq_dec : EqDecision UnaryOperator.
Proof. solve_decision. Defined.

Inductive Expr : Type :=
| NumberExpr (value : Z)
| VarExpr (name : string)
| BinaryExpr (op : BinaryOperator) (lhs rhs : Expr)
| UnaryExpr (op : UnaryOperator) (operand : Expr)
| CallExpr (name : string) (args : list Expr).

(** Statements. Every child is a [std::unique_ptr]; [else_stmt] and the
    expression of [ExprStmt] and [ReturnStmt] may be null, so these three
    are options. *)
Inductive Stmt : Type :=
| Block (statements : list Stmt)
| ExprStmt (expression : option Expr)
| VarDecl (name : string) (init_expr : Expr)
| AssignStmt (name : string) (value : Expr)
| IfStmt (condition : Expr) (then_stmt : Stmt) (else_stmt : option Stmt)
| WhileStmt (condition : Expr) (body : Stmt)
| BreakStmt
| ContinueStmt
| ReturnStmt (value : option Expr).

Inductive ReturnType : Set := INT | VOID.

#[global] Instance ReturnType_eq_dec : EqDecision ReturnType.
Proof. solve_decision. Defined.

Record FuncDef : Type := mkFuncDef {
  return_type : ReturnType;
  fname : string;
  params : list string;
  fbody : list Stmt   (* the statements of the body [Block] *)
}.

Definition CompUnit : Type := list FuncDef.

(** Induction principle that reaches the arguments of a call. *)
Lemma Expr_ind' (P : Expr -> Prop) :
  (forall v, P (NumberExpr v)) ->
  (forall x, P (VarExpr x)) ->
  (forall op l r, P l -> P r -> P (BinaryExpr op l r)) ->
  (forall op e, P e -> P (UnaryExpr op e)) ->
  (forall f args, Forall P args -> P (CallExpr f args)) ->
  forall e, P e.
Proof.
  intros HN HV HB HU HC.
  fix IH 1. intros [v | x | op l r | op e | f args].
  - apply HN.
  - apply HV.
  - apply HB; apply IH.
  - apply HU; apply IH.
  - apply HC. induction args as [| a args IHargs]; constructor; [apply IH | exact IHargs].
Qed.

(** Induction principle that reaches the statements of a block and the
    [else] branch. *)
Lemma Stmt_ind' (P : Stmt -> Prop) :
  (forall ss, Forall P ss -> P (Block ss)) ->
  (forall oe, P (ExprStmt oe)) ->
  (forall x e, P (VarDecl x e)) ->
  (forall x e, P (AssignStmt x e)) ->
  (forall c t, P t -> P (IfStmt c t None)) ->
  (forall c t e, P t -> P e -> P (IfStmt c t (Some e))) ->
  (forall c b, P b -> P (WhileStmt c b)) ->
  P BreakStmt -> P ContinueStmt ->
  (forall oe, P (ReturnStmt oe)) ->
  forall s, P s.
Proof.
  intros HB HE HV HA HI1 HI2 HW HBr HC HR.
  fix IH 1. intros [ss | oe | x e | x e | c t [e |] | c b | | | oe].
  - apply HB. induction ss as [| s ss IHss]; constructor; [apply IH | exact IHss].
  - apply HE.
  - apply HV.
  - apply HA.
  - apply HI2; apply IH.
  - apply HI1; apply IH.
  - apply HW; apply IH.
  - apply HBr.
  - apply HC.
  - apply HR.
Qed.

(** The functions called somewhere in an expression or statement are all
    among [names]. *)
Fixpoint calls_defined_expr (names : list string) (e : Expr) : bool :=
  match e with
  | NumberExpr _ | VarExpr _ => true
  | BinaryExpr _ l r => calls_defined_expr names l && calls_defined_expr names r
  | UnaryExpr _ e1 => calls_defined_expr names e1
  | CallExpr f args =>
      existsb (String.eqb f) names && forallb (calls_defined_expr names) args
  end.

Definition calls_defined_opt (names : list string) (oe : option Expr) : bool :=
  match oe with
  | Some e => calls_defined_expr names e
  | None => true
  end.

Fixpoint calls_defined_stmt (names : list string) (s : Stmt) : bool :=
  match s with
  | Block ss => forallb (calls_defined_stmt names) ss
  | ExprStmt oe => calls_defined_opt names oe
  | VarDecl _ e => calls_defined_expr names e
  | AssignStmt _ e => calls_defined_expr names e
  | IfStmt c t oe =>
      calls_defined_expr names c && calls_defined_stmt names t
      && match oe with
         | Some e => calls_defined_stmt names e
         | None => true
         end
  | WhileStmt c b => calls_defined_expr names c && calls_defined_stmt names b
  | BreakStmt | ContinueStmt => true
  | ReturnStmt oe => calls_defined_opt names oe
  end.

(** Every call in the unit names a function the unit defines, be it
    before or after the call. *)
Definition calls_defined (fs : CompUnit) : bool :=
  forallb (fun f => forallb (calls_defined_stmt (map fname fs)) (fbody f)) fs.


(** *** The AST optimizer ([optimizer.cpp]) *)

Module Optimizer.

Fixpoint is_constant_expr (expr : Expr) : bool :=
  match expr with
  | NumberExpr _ => true
  | BinaryExpr _ l r => is_constant_expr l && is_constant_expr r
  | UnaryExpr _ e => is_constant_expr e
  | _ => false
  end.

(** The value computed for a binary operator once both sides are known;
    division and modulo by zero yield 0 here, as in
    [evaluate_constant_expr]. The divisions [min_signed / -1] and
    [min_signed % -1] raise SIGFPE and have no value:
    [evaluate_constant_expr_traps] tells when the evaluation runs into
    one, and the 0 given here for that case is the value of no run. *)
Definition eval_binary (op : BinaryOperator) (left_val right_val : Z) : Z :=
  match op with
  | ADD => Int32.add left_val right_val
  | SUB => Int32.sub left_val right_val
  | MUL => Int32.mul left_val right_val
  | DIV => if right_val =? 0 then 0 else default 0 (Int32.div left_val right_val)
  | MOD => if right_val =? 0 then 0 else default 0 (Int32.rem left_val right_val)
  | LT => Int32.of_bool (left_val <? right_val)
  | GT => Int32.of_bool (left_val >? right_val)
  | LE => Int32.of_bool (left_val <=? right_val)
  | GE => Int32.of_bool (left_val >=? right_val)
  | EQ => Int32.of_bool (left_val =? right_val)
  | NE => Int32.of_bool (negb (left_val =? right_val))
  | AND => Int32.of_bool (Int32.truth left_val && Int32.truth right_val)
  | OR => Int32.of_bool (Int32.truth left_val || Int32.truth right_val)
  end%Z.

Definition eval_unary (op : UnaryOperator) (operand_val : Z) : Z :=
  match op with
  | PLUS => operand_val
  | MINUS => Int32.neg operand_val
  | NOT => if Int32.truth operand_val then 0 else 1
  end%Z.

Fixpoint evaluate_constant_expr (expr : Expr) : Z :=
  match expr with
  | NumberExpr v => v
  | BinaryExpr op l r =>
      eval_binary op (evaluate_constant_expr l) (evaluate_constant_expr r)
  | UnaryExpr op e => eval_unary op (evaluate_constant_expr e)
  | _ => 0
  end.

(** Does the division of [op] on the two values raise SIGFPE? A zero
    divisor never reaches the division. *)
Definition overflows (op : BinaryOperator) (left_val right_val : Z) : bool :=
  (bool_decide (op = DIV) || bool_decide (op = MOD))
  && (left_val =? Int32.min_signed)%Z && (right_val =? -1)%Z.

(** Is a call of [evaluate_constant_expr] killed by SIGFPE? Both operands
    are evaluated, the left one first, before the operator is applied. *)
Fixpoint evaluate_constant_expr_traps (expr : Expr) : bool :=
  match expr with
  | BinaryExpr op l r =>
      evaluate_constant_expr_traps l
      || evaluate_constant_expr_traps r
      || overflows op (evaluate_constant_expr l) (evaluate_constant_expr r)
  | UnaryExpr _ e => evaluate_constant_expr_traps e
  | _ => false
  end.

(** [constant_folding(BinaryExpr&)]: [None] is the null pointer. *)
Definition constant_folding_binary (op : BinaryOperator) (l r : Expr) : option Expr :=
  if negb (is_constant_expr l) || negb (is_constant_expr r) then None
  else
    let left_val := evaluate_constant_expr l in
    let right_val := evaluate_constant_expr r in
    match op with
    | DIV | MOD =>
        if (right_val =? 0)%Z then None
        else Some (NumberExpr (eval_binary op left_val right_val))
    | _ => Some (NumberExpr (eval_binary op left_val right_val))
    end.

(** [constant_folding(UnaryExpr&)]. *)
Definition constant_folding_unary (op : UnaryOperator) (e : Expr) : option Expr :=
  if negb (is_constant_expr e) then None
  else Some (NumberExpr (eval_unary op (evaluate_constant_expr e))).

(** [simplify_expression]. The second component threads
    [optimizations_applied]; every [record_optimization] adds one. The
    rules are tried in the order of the source; the function does not
    descend into the operands. *)
Definition simplify_expression (expr : Expr) (applied : nat) : Expr * nat :=
  match expr with
  | BinaryExpr op l r =>
      match constant_folding_binary op l r with
      | Some folded => (folded, S applied)
      | None =>
          if bool_decide (op = ADD) && is_constant_expr r
             && (evaluate_constant_expr r =? 0)%Z then (l, S applied)
          else if bool_decide (op = ADD) && is_constant_expr l
             && (evaluate_constant_expr l =? 0)%Z then (r, S applied)
          else if bool_decide (op = MUL) && is_constant_expr r
             && (evaluate_constant_expr r =? 1)%Z then (l, S applied)
          else if bool_decide (op = MUL) && is_constant_expr l
             && (evaluate_constant_expr l =? 1)%Z then (r, S applied)
          else if bool_decide (op = MUL)
             && ((is_constant_expr l && (evaluate_constant_expr l =? 0)%Z)
                 || (is_constant_expr r && (evaluate_constant_expr r =? 0)%Z))
          then (NumberExpr 0, S applied)
          else if bool_decide (op = SUB) && is_constant_expr r
             && (evaluate_constant_expr r =? 0)%Z then (l, S applied)
          else (expr, applied)
      end
  | UnaryExpr op e =>
      match constant_folding_unary op e with
      | Some folded => (folded, S applied)
      | None =>
          match op, e with
          | MINUS, UnaryExpr MINUS inner => (inner, S applied)
          | NOT, UnaryExpr NOT inner =>
              (BinaryExpr NE inner (NumberExpr 0), S applied)
          | _, _ => (expr, applied)
          end
      end
  | _ => (expr, applied)
  end.

(** Is a call of [simplify_expression] killed by SIGFPE? When both
    operands are constant, [constant_folding] evaluates them and divides;
    otherwise the rules for [+], [*] and [-] evaluate the operand that
    is constant. *)
Definition simplify_expression_traps (expr : Expr) : bool :=
  match expr with
  | BinaryExpr op l r =>
      if is_constant_expr l && is_constant_expr r then
        evaluate_constant_expr_traps l
        || evaluate_constant_expr_traps r
        || overflows op (evaluate_constant_expr l) (evaluate_constant_expr r)
      else
        match op with
        | ADD | MUL =>
            (is_constant_expr r && evaluate_constant_expr_traps r)
            || (is_constant_expr l && evaluate_constant_expr_traps l)
        | SUB => is_constant_expr r && evaluate_constant_expr_traps r
        | _ => false
        end
  | UnaryExpr _ e => is_constant_expr e && evaluate_constant_expr_traps e
  | _ => false
  end.

Fixpoint has_side_effects (expr : Expr) : bool :=
  match expr with
  | CallExpr _ _ => true
  | BinaryExpr _ l r => has_side_effects l || has_side_effects r
  | UnaryExpr _ e => has_side_effects e
  | _ => false
  end.

Definition is_unreachable_after (stmt : Stmt) : bool :=
  match stmt with
  | ReturnStmt _ | BreakStmt | ContinueStmt => true
  | _ => false
  end.

(** [eliminate_dead_code]: one pass with an iterator. [kept] holds, in
    reverse, the statements before the iterator, so [it != begin] is
    [kept <> []] and [*(it - 1)] is its head. *)
Fixpoint eliminate_dead_code_from (kept : list Stmt) (rest : list Stmt)
    (applied : nat) : list Stmt * nat :=
  match rest with
  | [] => (rev kept, applied)
  | s :: rest' =>
      match kept with
      | prev :: _ =>
          if is_unreachable_after prev
          then eliminate_dead_code_from kept rest' (S applied)
          else match s with
               | ExprStmt (Some e) =>
                   if negb (has_side_effects e)
                   then eliminate_dead_code_from kept rest' (S applied)
                   else eliminate_dead_code_from (s :: kept) rest' applied
               | _ => eliminate_dead_code_from (s :: kept) rest' applied
               end
      | [] =>
          match s with
          | ExprStmt (Some e) =>
              if negb (has_side_effects e)
              then eliminate_dead_code_from kept rest' (S applied)
              else eliminate_dead_code_from (s :: kept) rest' applied
          | _ => eliminate_dead_code_from (s :: kept) rest' applied
          end
      end
  end.

Definition eliminate_dead_code (statements : list Stmt) (applied : nat)
  : list Stmt * nat :=
  eliminate_dead_code_from [] statements applied.

(** [optimize_if_statement] returns the replacement statement (or null)
    and, because it [std::move]s a branch out of the node it was given,
    the two branch pointers the node is left with: a moved-from
    [unique_ptr] is null. *)
Definition optimize_if_statement (condition : Expr)
    (then_stmt : Stmt) (else_stmt : option Stmt)
  : option Stmt * (option Stmt * option Stmt) :=
  if is_constant_expr condition then
    if Int32.truth (evaluate_constant_expr condition)
    then (Some then_stmt, (None, else_stmt))
    else match else_stmt with
         | Some _ => (else_stmt, (Some then_stmt, None))
         | None => (Some (ExprStmt None), (Some then_stmt, else_stmt))
         end
  else (None, (Some then_stmt, else_stmt)).

Definition optimize_while_statement (condition : Expr) : option Stmt :=
  if is_constant_expr condition then
    if (evaluate_constant_expr condition =? 0)%Z
    then Some (ExprStmt None)
    else None
  else None.

(** The statement visitors. The result is the node as the visitor leaves
    it and the new value of [optimizations_applied]; [None] stands for a
    call through a null pointer, which the C++ program does not survive. *)
Fixpoint visit (node : Stmt) (applied : nat) : option (Stmt * nat) :=
  match node with
  | Block statements =>
      let visit_all :=
        fix visit_all (l : list Stmt) (n : nat) : option (list Stmt * nat) :=
          match l with
          | [] => Some ([], n)
          | s :: l' =>
              match visit s n with
              | None => None
              | Some (s', n1) =>
                  match visit_all l' n1 with
                  | None => None
                  | Some (l'', n2) => Some (s' :: l'', n2)
                  end
              end
          end in
      match visit_all statements applied with
      | None => None
      | Some (statements', n) =>
          let '(kept, n') := eliminate_dead_code statements' n in
          Some (Block kept, n')
      end
  | ExprStmt (Some e) =>
      let '(e', n) := simplify_expression e applied in
      Some (ExprStmt (Some e'), n)
  | ExprStmt None => Some (node, applied)
  | VarDecl x init =>
      let '(init', n) := simplify_expression init applied in
      Some (VarDecl x init', n)
  | AssignStmt x value =>
      let '(value', n) := simplify_expression value applied in
      Some (AssignStmt x value', n)
  | IfStmt condition then_stmt else_stmt =>
      let '(condition', n1) := simplify_expression condition applied in
      let '(optimized_if, (then_left, else_left)) :=
        optimize_if_statement condition' then_stmt else_stmt in
      (* the replacement is only counted, never installed *)
      let n2 := match optimized_if with Some _ => S n1 | None => n1 end in
      match then_left with
      | Some _ =>
          match visit then_stmt n2 with
          | None => None
          | Some (t', n3) =>
              match else_left, else_stmt with
              | Some _, Some e =>
                  match visit e n3 with
                  | None => None
                  | Some (e', n4) => Some (IfStmt condition' t' (Some e'), n4)
                  end
              | _, _ => Some (IfStmt condition' t' None, n3)
              end
          end
      | None => None   (* node.then_stmt->accept(...) on a null pointer *)
      end
  | WhileStmt condition body =>
      let '(condition', n1) := simplify_expression condition applied in
      let n2 := match optimize_while_statement condition' with
                | Some _ => S n1
                | None => n1
                end in
      match visit body n2 with
      | None => None
      | Some (body', n3) => Some (WhileStmt condition' body', n3)
      end
  | BreakStmt | ContinueStmt => Some (node, applied)
  | ReturnStmt (Some e) =>
      let '(e', n) := simplify_expression e applied in
      Some (ReturnStmt (Some e'), n)
  | ReturnStmt None => Some (node, applied)
  end.

Definition visit_FuncDef (f : FuncDef) (applied : nat) : option (FuncDef * nat) :=
  match visit (Block (fbody f)) applied with
  | Some (Block statements, n) =>
      Some (mkFuncDef (return_type f) (fname f) (params f) statements, n)
  | _ => None
  end.

Fixpoint visit_CompUnit (fs : CompUnit) (applied : nat) : option (CompUnit * nat) :=
  match fs with
  | [] => Some ([], applied)
  | f :: fs' =>
      match visit_FuncDef f applied with
      | None => None
      | Some (f', n) =>
          match visit_CompUnit fs' n with
          | None => None
          | Some (fs'', n') => Some (f' :: fs'', n')
          end
      end
  end.

(** [optimize]: nothing happens unless optimization is enabled. *)
Definition optimize (optimization_enabled : bool) (root : CompUnit)
  : option (CompUnit * nat) :=
  if optimization_enabled then visit_CompUnit root 0 else Some (root, 0).

End Optimizer.

(** *** Reference semantics of expressions

    The meaning the language gives to an expression without calls: the
    operands are 32-bit integers, arithmetic wraps, [&&] and [||]
    short-circuit and yield 0 or 1, a division or modulo whose right
    operand evaluates to zero signals [DivisionByZero], and the division
    of the least integer by -1 signals [DivisionOverflow]. The
    definitions stand on their own: they use nothing of the optimizer
    they are compared with. *)

Module Semantics.

Inductive outcome : Type :=
| Value (v : Z)
| DivisionByZero
| DivisionOverflow
| CallNotModelled.

(** The operators of the language on two [int] values: arithmetic wraps
    around, a comparison gives 0 or 1, and a division has a value only
    where the quotient is an [int]. *)
Definition apply_binary (op : BinaryOperator) (a b : Z) : outcome :=
  match op with
  | ADD => Value (Int32.wrap (a + b))
  | SUB => Value (Int32.wrap (a - b))
  | MUL => Value (Int32.wrap (a * b))
  | DIV =>
      if (b =? 0)%Z then DivisionByZero
      else if (a =? Int32.min_signed)%Z && (b =? -1)%Z then DivisionOverflow
      else Value (Z.quot a b)
  | MOD =>
      if (b =? 0)%Z then DivisionByZero
      else if (a =? Int32.min_signed)%Z && (b =? -1)%Z then DivisionOverflow
      else Value (Z.rem a b)
  | LT => Value (if (a <? b)%Z then 1 else 0)
  | GT => Value (if (b <? a)%Z then 1 else 0)
  | LE => Value (if (a <=? b)%Z then 1 else 0)
  | GE => Value (if (b <=? a)%Z then 1 else 0)
  | EQ => Value (if (a =? b)%Z then 1 else 0)
  | NE => Value (if (a =? b)%Z then 0 else 1)
  | AND | OR => CallNotModelled   (* short-circuited in [eval] *)
  end%Z.

Definition apply_unary (op : UnaryOperator) (a : Z) : Z :=
  match op with
  | PLUS => a
  | MINUS => Int32.wrap (- a)
  | NOT => if (a =? 0)%Z then 1 else 0
  end%Z.

(** Is the value true? *)
Definition is_true (a : Z) : bool := negb (a =? 0)%Z.

Fixpoint eval (env : string -> Z) (e : Expr) : outcome :=
  match e with
  | NumberExpr v => Value v
  | VarExpr x => Value (env x)
  | BinaryExpr AND l r =>
      match eval env l with
      | Value a =>
          if is_true a then
            match eval env r with
            | Value b => Value (if is_true b then 1 else 0)%Z
            | o => o
            end
          else Value 0%Z
      | o => o
      end
  | BinaryExpr OR l r =>
      match eval env l with
      | Value a =>
          if is_true a then Value 1%Z
          else
            match eval env r with
            | Value b => Value (if is_true b then 1 else 0)%Z
            | o => o
            end
      | o => o
      end
  | BinaryExpr op l r =>
      match eval env l with
      | Value a =>
          match eval env r with
          | Value b => apply_binary op a b
          | o => o
          end
      | o => o
      end
  | UnaryExpr op e1 =>
      match eval env e1 with
      | Value a => Value (apply_unary op a)
      | o => o
      end
  | CallExpr _ _ => CallNotModelled
  end.

(** Every literal of the expression fits in an [int], as the field
    [NumberExpr::value] guarantees. *)
Fixpoint literals_in_range (e : Expr) : bool :=
  match e with
  | NumberExpr v => (Int32.min_signed <=? v)%Z && (v <=? Int32.max_signed)%Z
  | VarExpr _ => true
  | BinaryExpr _ l r => literals_in_range l && literals_in_range r
  | UnaryExpr _ e1 => literals_in_range e1
  | CallExpr _ args => forallb literals_in_range args
  end.

Definition env_in_range (env : string -> Z) : Prop :=
  forall x, Int32.in_range (env x).

End Semantics.

(** *** Symbol table ([TOYC2/src/symbol_table.h], [symbol_table.cpp]) *)

Inductive SymbolType : Set := VARIABLE | FUNCTION | PARAMETER.
Inductive DataType : Set := DT_INT | DT_VOID.

#[global] Instance SymbolType_eq_dec : EqDecision SymbolType.
Proof. solve_decision. Defined.
#[global] Instance DataType_eq_dec : EqDecision DataType.
Proof. solve_decision. Defined.

Record Symbol : Type := mkSymbol {
  sym_name : string;
  symbol_type : SymbolType;
  data_type : DataType;
  scope_level : nat;
  stack_offset : Z;
  param_types : list DataType
}.

Record Scope : Type := mkScope {
  level : nat;
  symbols : gmap string Symbol
}.

(** The chain of scopes from [current_scope] up to [global_scope]:
    [inner_scopes] lists the scopes below the global one, innermost
    first, each one's parent being the next. *)
Record SymbolTable : Type := mkSymbolTable {
  inner_scopes : list Scope;
  global_scope : Scope;
  next_scope_level : nat;
  scope_stack_size : list Z   (* a vector; its back is the last element *)
}.

Module SymbolTableOps.

Definition init : SymbolTable :=
  mkSymbolTable [] (mkScope 0 ∅) 1 [0%Z].

Definition lookup_local (sc : Scope) (name : string) : option Symbol :=
  symbols sc !! name.

(** [Scope::define]: [None] when the name is already in the scope. *)
Definition define (sc : Scope) (symbol : Symbol) : option Scope :=
  match symbols sc !! sym_name symbol with
  | Some _ => None
  | None => Some (mkScope (level sc) (<[sym_name symbol := symbol]> (symbols sc)))
  end.

Definition current_scope (t : SymbolTable) : Scope :=
  match inner_scopes t with
  | sc :: _ => sc
  | [] => global_scope t
  end.

Definition enter_scope (t : SymbolTable) : SymbolTable :=
  mkSymbolTable (mkScope (next_scope_level t) ∅ :: inner_scopes t)
    (global_scope t) (S (next_scope_level t)) (scope_stack_size t ++ [0%Z]).

Definition exit_scope (t : SymbolTable) : SymbolTable :=
  match inner_scopes t with
  | _ :: rest =>
      mkSymbolTable rest (global_scope t) (next_scope_level t)
        (removelast (scope_stack_size t))
  | [] => t
  end.

(** [++scope_stack_size.back()], returning the new value of the back. *)
Definition bump_back (sizes : list Z) : list Z * Z :=
  let n := (List.last sizes 0 + 1)%Z in
  (removelast sizes ++ [n], n).

(** [allocate_stack_space] for a symbol of the given kind: the new sizes
    and the stack offset it assigns. *)
Definition allocate_stack_space (kind : SymbolType) (sizes : list Z)
  : list Z * Z :=
  match kind with
  | VARIABLE => let '(sizes', n) := bump_back sizes in (sizes', (- n * 4)%Z)
  | PARAMETER => let '(sizes', n) := bump_back sizes in (sizes', (n * 4)%Z)
  | FUNCTION => (sizes, 0%Z)
  end.

(** Replaces the current scope. *)
Definition set_current_scope (t : SymbolTable) (sc : Scope) : SymbolTable :=
  match inner_scopes t with
  | _ :: rest =>
      mkSymbolTable (sc :: rest) (global_scope t) (next_scope_level t)
        (scope_stack_size t)
  | [] =>
      mkSymbolTable [] sc (next_scope_level t) (scope_stack_size t)
  end.

(** [define_variable] and [define_parameter]: the table afterwards and
    whether the definition succeeded. The stack space is allocated before
    the scope is consulted, so it is consumed also on failure. *)
Definition define_local (kind : SymbolType) (name : string) (type : DataType)
    (t : SymbolTable) : SymbolTable * bool :=
  let '(sizes, offset) := allocate_stack_space kind (scope_stack_size t) in
  let t1 := mkSymbolTable (inner_scopes t) (global_scope t)
              (next_scope_level t) sizes in
  let symbol := mkSymbol name kind type (level (current_scope t)) offset [] in
  match define (current_scope t1) symbol with
  | Some sc => (set_current_scope t1 sc, true)
  | None => (t1, false)
  end.

Definition define_variable := define_local VARIABLE.
Definition define_parameter := define_local PARAMETER.

Definition define_function (name : string) (return_type : DataType)
    (ptypes : list DataType) (t : SymbolTable) : SymbolTable * bool :=
  let symbol := mkSymbol name FUNCTION return_type 0 0 ptypes in
  match define (global_scope t) symbol with
  | Some sc =>
      (mkSymbolTable (inner_scopes t) sc (next_scope_level t)
         (scope_stack_size t), true)
  | None => (t, false)
  end.

(** [Scope::lookup] from the current scope through the parents. *)
Fixpoint lookup_chain (chain : list Scope) (global : Scope) (name : string)
  : option Symbol :=
  match chain with
  | sc :: parents =>
      match lookup_local sc name with
      | Some s => Some s
      | None => lookup_chain parents global name
      end
  | [] => lookup_local global name
  end.

Definition lookup_symbol (t : SymbolTable) (name : string) : option Symbol :=
  lookup_chain (inner_scopes t) (global_scope t) name.

Definition lookup_function (t : SymbolTable) (name : string) : option Symbol :=
  match lookup_local (global_scope t) name with
  | Some s => if decide (symbol_type s = FUNCTION) then Some s else None
  | None => None
  end.

End SymbolTableOps.

(** *** Semantic analyzer ([TOYC2/src/semantic.cpp]) *)

Module Semantic.
Import SymbolTableOps.

Inductive SemanticErrorType : Set :=
| UNDEFINED_VARIABLE
| UNDEFINED_FUNCTION
| REDEFINED_VARIABLE
| REDEFINED_FUNCTION
| TYPE_MISMATCH
| INVALID_RETURN_TYPE
| MISSING_RETURN_STATEMENT
| BREAK_OUTSIDE_LOOP
| CONTINUE_OUTSIDE_LOOP
| FUNCTION_CALL_ARGUMENT_MISMATCH
| DIVISION_BY_ZERO
| VOID_FUNCTION_RETURN_VALUE
| NON_VOID_FUNCTION_NO_RETURN.

#[global] Instance SemanticErrorType_eq_dec : EqDecision SemanticErrorType.
Proof. solve_decision. Defined.

Record SemanticError : Type := mkSemanticError {
  err_type : SemanticErrorType;
  message : string;
  line : Z;
  column : Z
}.

Record SemanticAnalyzer : Type := mkSemanticAnalyzer {
  symbol_table : SymbolTable;
  errors : list SemanticError;
  in_loop_stack : list bool;     (* a stack; its top is the head *)
  current_function_name : string;
  current_function_return_type : DataType;
  current_function_has_return : bool;
  last_expr_type : DataType
}.

Definition init : SemanticAnalyzer :=
  mkSemanticAnalyzer SymbolTableOps.init [] [] "" DT_VOID false DT_INT.

Definition with_table (f : SymbolTable -> SymbolTable) (st : SemanticAnalyzer) :=
  mkSemanticAnalyzer (f (symbol_table st)) (errors st) (in_loop_stack st)
    (current_function_name st) (current_function_return_type st)
    (current_function_has_return st) (last_expr_type st).

Definition set_table (t : SymbolTable) := with_table (fun _ => t).

Definition set_last_expr_type (ty : DataType) (st : SemanticAnalyzer) :=
  mkSemanticAnalyzer (symbol_table st) (errors st) (in_loop_stack st)
    (current_function_name st) (current_function_return_type st)
    (current_function_has_return st) ty.

Definition set_in_loop_stack (l : list bool) (st : SemanticAnalyzer) :=
  mkSemanticAnalyzer (symbol_table st) (errors st) l
    (current_function_name st) (current_function_return_type st)
    (current_function_has_return st) (last_expr_type st).

Definition set_has_return (b : bool) (st : SemanticAnalyzer) :=
  mkSemanticAnalyzer (symbol_table st) (errors st) (in_loop_stack st)
    (current_function_name st) (current_function_return_type st)
    b (last_expr_type st).

(** [report_error]: the error is appended with the default position. *)
Definition report_error (ty : SemanticErrorType) (msg : string)
    (st : SemanticAnalyzer) : SemanticAnalyzer :=
  mkSemanticAnalyzer (symbol_table st)
    (errors st ++ [mkSemanticError ty msg (-1) (-1)]) (in_loop_stack st)
    (current_function_name st) (current_function_return_type st)
    (current_function_has_return st) (last_expr_type st).

Definition data_type_to_string (ty : DataType) : string :=
  match ty with DT_INT => "int" | DT_VOID => "void" end.

Definition check_type_compatibility (expected actual : DataType) : bool :=
  bool_decide (expected = actual).

Definition enter_loop (st : SemanticAnalyzer) :=
  set_in_loop_stack (true :: in_loop_stack st) st.
Definition exit_loop (st : SemanticAnalyzer) :=
  set_in_loop_stack (tail (in_loop_stack st)) st.
Definition is_in_loop (st : SemanticAnalyzer) : bool :=
  match in_loop_stack st with
  | top :: _ => top
  | [] => false
  end.

Definition enter_function_scope (func_name : string) (ret : DataType)
    (st : SemanticAnalyzer) :=
  mkSemanticAnalyzer (symbol_table st) (errors st) (in_loop_stack st)
    func_name ret false (last_expr_type st).

Definition exit_function_scope (st : SemanticAnalyzer) :=
  mkSemanticAnalyzer (symbol_table st) (errors st) (in_loop_stack st)
    "" DT_VOID false (last_expr_type st).

(** The expression visitors; [analyze_expression] is the visit followed
    by a read of [last_expr_type]. *)
Fixpoint visit_Expr (e : Expr) (st : SemanticAnalyzer) : SemanticAnalyzer :=
  match e with
  | NumberExpr _ => set_last_expr_type DT_INT st
  | VarExpr name =>
      match lookup_symbol (symbol_table st) name with
      | None =>
          set_last_expr_type DT_INT
            (report_error UNDEFINED_VARIABLE
               ("Variable '" +:+ name +:+ "' is not defined") st)
      | Some var =>
          if negb (bool_decide (symbol_type var = VARIABLE))
             && negb (bool_decide (symbol_type var = PARAMETER))
          then set_last_expr_type DT_INT
                 (report_error TYPE_MISMATCH
                    ("'" +:+ name +:+ "' is not a variable") st)
          else set_last_expr_type (data_type var) st
      end
  | BinaryExpr op l r =>
      let st1 := visit_Expr l st in
      let st2 := visit_Expr r st1 in
      let st3 := set_last_expr_type DT_INT st2 in
      if bool_decide (op = DIV) || bool_decide (op = MOD) then
        match r with
        | NumberExpr value =>
            if (value =? 0)%Z
            then report_error DIVISION_BY_ZERO "Division by zero" st3
            else st3
        | _ => st3
        end
      else st3
  | UnaryExpr _ operand =>
      set_last_expr_type DT_INT (visit_Expr operand st)
  | CallExpr name args =>
      match lookup_function (symbol_table st) name with
      | None =>
          set_last_expr_type DT_INT
            (report_error UNDEFINED_FUNCTION
               ("Function '" +:+ name +:+ "' is not defined") st)
      | Some func =>
          if negb (length args =? length (param_types func))%nat then
            set_last_expr_type (data_type func)
              (report_error FUNCTION_CALL_ARGUMENT_MISMATCH
                 ("Function '" +:+ name +:+ "' expects "
                  +:+ pretty (length (param_types func)) +:+ " arguments, got "
                  +:+ pretty (length args)) st)
          else
            let check_args :=
              fix check_args (l : list Expr) (i : nat) (s : SemanticAnalyzer)
                : SemanticAnalyzer :=
                match l with
                | [] => s
                | a :: l' =>
                    let s1 := visit_Expr a s in
                    let arg_type := last_expr_type s1 in
                    let expected := nth i (param_types func) DT_INT in
                    let s2 :=
                      if check_type_compatibility expected arg_type then s1
                      else report_error FUNCTION_CALL_ARGUMENT_MISMATCH
                             ("Argument " +:+ pretty (S i)
                              +:+ " type mismatch: expected "
                              +:+ data_type_to_string expected +:+ ", got "
                              +:+ data_type_to_string arg_type) s1 in
                    check_args l' (S i) s2
                end in
            set_last_expr_type (data_type func) (check_args args 0%nat st)
      end
  end.

Definition analyze_expression (e : Expr) (st : SemanticAnalyzer)
  : DataType * SemanticAnalyzer :=
  let st' := visit_Expr e st in (last_expr_type st', st').

(** [has_return_statement]. *)
Fixpoint has_return_statement (stmt : Stmt) : bool :=
  match stmt with
  | ReturnStmt _ => true
  | Block statements => existsb has_return_statement statements
  | IfStmt _ then_stmt (Some else_stmt) =>
      has_return_statement then_stmt && has_return_statement else_stmt
  | _ => false
  end.

Fixpoint visit_Stmt (node : Stmt) (st : SemanticAnalyzer) : SemanticAnalyzer :=
  match node with
  | Block statements =>
      let st1 := with_table enter_scope st in
      let st2 := fold_left (fun s stmt => visit_Stmt stmt s) statements st1 in
      with_table exit_scope st2
  | ExprStmt (Some e) => (analyze_expression e st).2
  | ExprStmt None => st
  | VarDecl name init_expr =>
      let '(t, ok) := define_variable name DT_INT (symbol_table st) in
      let st1 := set_table t st in
      if negb ok then
        report_error REDEFINED_VARIABLE
          ("Variable '" +:+ name +:+ "' is already defined in current scope") st1
      else
        let '(init_type, st2) := analyze_expression init_expr st1 in
        if check_type_compatibility DT_INT init_type then st2
        else report_error TYPE_MISMATCH
               ("Cannot initialize int variable '" +:+ name +:+ "' with "
                +:+ data_type_to_string init_type) st2
  | AssignStmt name value =>
      match lookup_symbol (symbol_table st) name with
      | None =>
          report_error UNDEFINED_VARIABLE
            ("Variable '" +:+ name +:+ "' is not defined") st
      | Some var =>
          if negb (bool_decide (symbol_type var = VARIABLE))
             && negb (bool_decide (symbol_type var = PARAMETER))
          then report_error TYPE_MISMATCH
                 ("'" +:+ name +:+ "' is not a variable") st
          else
            let '(value_type, st1) := analyze_expression value st in
            if check_type_compatibility (data_type var) value_type then st1
            else report_error TYPE_MISMATCH
                   ("Cannot assign " +:+ data_type_to_string value_type
                    +:+ " to " +:+ data_type_to_string (data_type var)
                    +:+ " variable '" +:+ name +:+ "'") st1
      end
  | IfStmt condition then_stmt else_stmt =>
      let '(cond_type, st1) := analyze_expression condition st in
      let st2 :=
        if bool_decide (cond_type = DT_INT) then st1
        else report_error TYPE_MISMATCH "If condition must be of int type" st1 in
      let st3 := visit_Stmt then_stmt st2 in
      match else_stmt with
      | Some e => visit_Stmt e st3
      | None => st3
      end
  | WhileStmt condition body =>
      let '(cond_type, st1) := analyze_expression condition st in
      let st2 :=
        if bool_decide (cond_type = DT_INT) then st1
        else report_error TYPE_MISMATCH "While condition must be of int type" st1 in
      exit_loop (visit_Stmt body (enter_loop st2))
  | BreakStmt =>
      if is_in_loop st then st
      else report_error BREAK_OUTSIDE_LOOP
             "Break statement can only be used inside a loop" st
  | ContinueStmt =>
      if is_in_loop st then st
      else report_error CONTINUE_OUTSIDE_LOOP
             "Continue statement can only be used inside a loop" st
  | ReturnStmt value =>
      let st1 := set_has_return true st in
      match value with
      | Some e =>
          if bool_decide (current_function_return_type st1 = DT_VOID) then
            report_error VOID_FUNCTION_RETURN_VALUE
              "Void function cannot return a value" st1
          else
            let '(return_ty, st2) := analyze_expression e st1 in
            if check_type_compatibility (current_function_return_type st2) return_ty
            then st2
            else report_error INVALID_RETURN_TYPE
                   ("Return type mismatch: expected "
                    +:+ data_type_to_string (current_function_return_type st2)
                    +:+ ", got " +:+ data_type_to_string return_ty) st2
      | None =>
          if bool_decide (current_function_return_type st1 = DT_VOID) then st1
          else report_error NON_VOID_FUNCTION_NO_RETURN
                 "Non-void function must return a value" st1
      end
  end.

Definition data_type_of (r : ReturnType) : DataType :=
  match r with INT => DT_INT | VOID => DT_VOID end.

Definition define_parameters (ps : list string) (st : SemanticAnalyzer)
  : SemanticAnalyzer :=
  fold_left
    (fun s param_name =>
       let '(t, ok) := define_parameter param_name DT_INT (symbol_table s) in
       let s1 := set_table t s in
       if ok then s1
       else report_error REDEFINED_VARIABLE
              ("Parameter '" +:+ param_name +:+ "' is already defined") s1)
    ps st.

Definition visit_FuncDef (node : FuncDef) (st : SemanticAnalyzer)
  : SemanticAnalyzer :=
  let st1 := enter_function_scope (fname node) (data_type_of (return_type node)) st in
  let st2 := with_table enter_scope st1 in
  let st3 := define_parameters (params node) st2 in
  let st4 := visit_Stmt (Block (fbody node)) st3 in
  let st5 :=
    if bool_decide (current_function_return_type st4 = DT_INT)
       && negb (current_function_has_return st4)
    then
      if negb (has_return_statement (Block (fbody node)))
      then report_error MISSING_RETURN_STATEMENT
             ("Function '" +:+ fname node +:+ "' must return a value") st4
      else st4
    else st4 in
  exit_function_scope (with_table exit_scope st5).

(** First pass of [visit(CompUnit&)]: every function is entered in the
    global scope. *)
Definition register_functions (functions : CompUnit) (st : SemanticAnalyzer)
  : SemanticAnalyzer :=
  fold_left
    (fun s func =>
       let ptypes := map (fun _ => DT_INT) (params func) in
       let '(t, ok) := define_function (fname func)
                         (data_type_of (return_type func)) ptypes
                         (symbol_table s) in
       let s1 := set_table t s in
       if ok then s1
       else report_error REDEFINED_FUNCTION
              ("Function '" +:+ fname func +:+ "' is already defined") s1)
    functions st.

(** Second pass: the bodies. *)
Definition analyze_bodies (functions : CompUnit) (st : SemanticAnalyzer)
  : SemanticAnalyzer :=
  fold_left (fun s func => visit_FuncDef func s) functions st.

Definition visit_CompUnit (node : CompUnit) (st : SemanticAnalyzer)
  : SemanticAnalyzer :=
  analyze_bodies node (register_functions node st).

(** [analyze]: the final state and the verdict [errors.empty()]. *)
Definition analyze (root : CompUnit) : SemanticAnalyzer * bool :=
  let st1 := visit_CompUnit root init in
  let st2 :=
    match lookup_function (symbol_table st1) "main" with
    | None =>
        report_error UNDEFINED_FUNCTION "Program must have a 'main' function" st1
    | Some main_func =>
        if negb (bool_decide (data_type main_func = DT_INT))
           || negb (bool_decide (param_types main_func = []))
        then report_error INVALID_RETURN_TYPE
               "Main function must be 'int main()' with no parameters" st1
        else st1
    end in
  (st2, bool_decide (errors st2 = [])).

Definition has_error (ty : SemanticErrorType) (st : SemanticAnalyzer) : bool :=
  existsb (fun e => bool_decide (err_type e = ty)) (errors st).

End Semantic.

End Toyc2.


(** ** The IR-pipeline compiler *)

(** *** AST ([parser/ast.h]) *)

Module Ast.

(** Every node records its source position. Operators are strings. *)
Inductive Expr : Type :=
| NumberExpr (value : Z) (line column : Z)
| VariableExpr (name : string) (line column : Z)
| BinaryExpr (left : Expr) (op : string) (right : Expr) (line column : Z)
| UnaryExpr (op : string) (operand : Expr) (line column : Z)
| CallExpr (callee : string) (arguments : list Expr) (line column : Z).

Inductive Stmt : Type :=
| ExprStmt (expression : option Expr) (line column : Z)
| VarDeclStmt (name : string) (initializer : option Expr) (line column : Z)
| AssignStmt (name : string) (value : Expr) (line column : Z)
| BlockStmt (statements : list Stmt) (line column : Z)
| IfStmt (condition : Expr) (thenBranch : Stmt) (elseBranch : option Stmt)
    (line column : Z)
| WhileStmt (condition : Expr) (body : Stmt) (line column : Z)
| BreakStmt (line column : Z)
| ContinueStmt (line column : Z)
| ReturnStmt (value : option Expr) (line column : Z).

Record Param : Type := mkParam {
  param_name : string;
  param_line : Z;
  param_column : Z
}.

Record FunctionDef : Type := mkFunctionDef {
  returnType : string;
  name : string;
  params : list Param;
  body : list Stmt;        (* the statements of the body [BlockStmt] *)
  body_line : Z;
  body_column : Z;
  line : Z;
  column : Z
}.

Definition CompUnit : Type := list FunctionDef.

Definition expr_line (e : Expr) : Z :=
  match e with
  | NumberExpr _ l _ | VariableExpr _ l _ | BinaryExpr _ _ _ l _
  | UnaryExpr _ _ l _ | CallExpr _ _ l _ => l
  end.

Definition expr_column (e : Expr) : Z :=
  match e with
  | NumberExpr _ _ c | VariableExpr _ _ c | BinaryExpr _ _ _ _ c
  | UnaryExpr _ _ _ c | CallExpr _ _ _ c => c
  end.

Definition stmt_line (s : Stmt) : Z :=
  match s with
  | ExprStmt _ l _ | VarDeclStmt _ _ l _ | AssignStmt _ _ l _
  | BlockStmt _ l _ | IfStmt _ _ _ l _ | WhileStmt _ _ l _
  | BreakStmt l _ | ContinueStmt l _ | ReturnStmt _ l _ => l
  end.

Definition stmt_column (s : Stmt) : Z :=
  match s with
  | ExprStmt _ _ c | VarDeclStmt _ _ _ c | AssignStmt _ _ _ c
  | BlockStmt _ _ c | IfStmt _ _ _ _ c | WhileStmt _ _ _ c
  | BreakStmt _ c | ContinueStmt _ c | ReturnStmt _ _ c => c
  end.

Lemma Expr_nested_ind (P : Expr -> Prop) :
  (forall v l c, P (NumberExpr v l c)) ->
  (forall x l c, P (VariableExpr x l c)) ->
  (forall a op b l c, P a -> P b -> P (BinaryExpr a op b l c)) ->
  (forall op e l c, P e -> P (UnaryExpr op e l c)) ->
  (forall f args l c, Forall P args -> P (CallExpr f args l c)) ->
  forall e, P e.
Proof.
  intros HN HV HB HU HC.
  fix IH 1. intros [v l c | x l c | a op b l c | op e l c | f args l c].
  - apply HN.
  - apply HV.
  - apply HB; apply IH.
  - apply HU; apply IH.
  - apply HC. induction args as [| a args IHargs]; constructor; [apply IH | exact IHargs].
Qed.

(** Induction principle that reaches the statements of a block and the
    [else] branch. *)
Lemma Stmt_nested_ind (P : Stmt -> Prop) :
  (forall oe l c, P (ExprStmt oe l c)) ->
  (forall x oe l c, P (VarDeclStmt x oe l c)) ->
  (forall x e l c, P (AssignStmt x e l c)) ->
  (forall ss l c, Forall P ss -> P (BlockStmt ss l c)) ->
  (forall cond t l c, P t -> P (IfStmt cond t None l c)) ->
  (forall cond t e l c, P t -> P e -> P (IfStmt cond t (Some e) l c)) ->
  (forall cond b l c, P b -> P (WhileStmt cond b l c)) ->
  (forall l c, P (BreakStmt l c)) ->
  (forall l c, P (ContinueStmt l c)) ->
  (forall oe l c, P (ReturnStmt oe l c)) ->
  forall s, P s.
Proof.
  intros HE HV HA HB HI1 HI2 HW HBr HC HR.
  fix IH 1.
  intros [oe l c | x oe l c | x e l c | ss l c | cond t [e |] l c | cond b l c
         | l c | l c | oe l c].
  - apply HE.
  - apply HV.
  - apply HA.
  - apply HB. induction ss as [| s ss IHss]; constructor; [apply IH | exact IHss].
  - apply HI2; apply IH.
  - apply HI1; apply IH.
  - apply HW; apply IH.
  - apply HBr.
  - apply HC.
  - apply HR.
Qed.

(** Does a [return] statement occur anywhere in the statement? *)
Fixpoint contains_return (s : Stmt) : bool :=
  match s with
  | ReturnStmt _ _ _ => true
  | BlockStmt ss _ _ => existsb contains_return ss
  | IfStmt _ t oe _ _ =>
      contains_return t
      || match oe with
         | Some e => contains_return e
         | None => false
         end
  | WhileStmt _ b _ _ => contains_return b
  | _ => false
  end.

End Ast.

(** *** Semantic analyzer of the IR pipeline ([semantic/semantic.h],
    [semantic.cpp], [infos.h]) *)

Module Analyze.
Import Ast.

Inductive Kind : Set := VARIABLE | FUNCTION | PARAMETER.

#[global] Instance Kind_eq_dec : EqDecision Kind.
Proof. solve_decision. Defined.

Record Symbol : Type := mkSymbol {
  kind : Kind;
  type : string;
  sym_line : Z;
  sym_column : Z;
  paramIndex : Z;
  used : bool
}.

Record FunctionInfo : Type := mkFunctionInfo {
  fi_returnType : string;
  paramTypes : list string;
  paramNames : list string;
  fi_line : Z;
  fi_column : Z
}.

(** What [analyzeHelper::error] and [warning] write to: the lists and the
    flag of the [analyzeVisitor], the sets of messages already reported,
    and the copies kept by the [SemanticAnalyzer] registered as
    [semanticOwner]. *)
Record Diagnostics : Type := mkDiagnostics {
  success : bool;
  errorMessages : list string;
  warningMessages : list string;
  reportedErrors : gset string;
  reportedWarnings : gset string;
  owner_success : bool;
  owner_errorMessages : list string;
  owner_warningMessages : list string
}.

(** The scopes are a vector whose back is the innermost scope; the list
    below starts at the back. [killed] records that a division of
    [evaluateConstant] has raised SIGFPE: the process is dead from then
    on, prints nothing more and returns no verdict, and what the other
    fields hold afterwards describes no run of the program. *)
Record State : Type := mkState {
  symbolTables : list (gmap string Symbol);
  functionTable : gmap string FunctionInfo;
  currentFunction : string;
  currentFunctionReturnType : string;
  hasReturn : bool;
  loopDepth : Z;
  diag : Diagnostics;
  killed : bool
}.

Definition with_diag (f : Diagnostics -> Diagnostics) (st : State) : State :=
  mkState (symbolTables st) (functionTable st) (currentFunction st)
    (currentFunctionReturnType st) (hasReturn st) (loopDepth st) (f (diag st))
    (killed st).

Definition set_symbolTables (ts : list (gmap string Symbol)) (st : State) :=
  mkState ts (functionTable st) (currentFunction st)
    (currentFunctionReturnType st) (hasReturn st) (loopDepth st) (diag st)
    (killed st).

Definition set_functionTable (ft : gmap string FunctionInfo) (st : State) :=
  mkState (symbolTables st) ft (currentFunction st)
    (currentFunctionReturnType st) (hasReturn st) (loopDepth st) (diag st)
    (killed st).

Definition set_function_context (f ret : string) (hr : bool) (st : State) :=
  mkState (symbolTables st) (functionTable st) f ret hr (loopDepth st) (diag st)
    (killed st).

Definition set_hasReturn (hr : bool) (st : State) :=
  mkState (symbolTables st) (functionTable st) (currentFunction st)
    (currentFunctionReturnType st) hr (loopDepth st) (diag st) (killed st).

Definition set_loopDepth (d : Z) (st : State) :=
  mkState (symbolTables st) (functionTable st) (currentFunction st)
    (currentFunctionReturnType st) (hasReturn st) d (diag st) (killed st).

(** The process receives SIGFPE. *)
Definition sigfpe (st : State) : State :=
  mkState (symbolTables st) (functionTable st) (currentFunction st)
    (currentFunctionReturnType st) (hasReturn st) (loopDepth st) (diag st) true.

(** The message with its position, as [error] and [warning] build it. *)
Definition full_message (message : string) (line column : Z) : string :=
  if (0 <? line)%Z then
    message +:+ " at line " +:+ pretty line
    +:+ (if (0 <? column)%Z then ", column " +:+ pretty column else "")
  else message.

Definition diag_error (message : string) (line column : Z) (d : Diagnostics)
  : Diagnostics :=
  let fullMessage := full_message message line column in
  if bool_decide (fullMessage ∈ reportedErrors d) then
    mkDiagnostics false (errorMessages d) (warningMessages d)
      (reportedErrors d) (reportedWarnings d)
      (owner_success d) (owner_errorMessages d) (owner_warningMessages d)
  else
    mkDiagnostics false (errorMessages d ++ [fullMessage]) (warningMessages d)
      ({[fullMessage]} ∪ reportedErrors d) (reportedWarnings d)
      false (owner_errorMessages d ++ [fullMessage]) (owner_warningMessages d).

Definition diag_warning (message : string) (line column : Z) (d : Diagnostics)
  : Diagnostics :=
  let fullMessage := full_message message line column in
  if bool_decide (fullMessage ∈ reportedWarnings d) then d
  else
    mkDiagnostics (success d) (errorMessages d)
      (warningMessages d ++ [fullMessage])
      (reportedErrors d) ({[fullMessage]} ∪ reportedWarnings d)
      (owner_success d) (owner_errorMessages d)
      (owner_warningMessages d ++ [fullMessage]).

Definition error (message : string) (line column : Z) : State -> State :=
  with_diag (diag_error message line column).
Definition warning (message : string) (line column : Z) : State -> State :=
  with_diag (diag_warning message line column).

Definition mark (s : Symbol) : Symbol :=
  mkSymbol (kind s) (type s) (sym_line s) (sym_column s) (paramIndex s) true.

(** [findSymbol]: the innermost symbol of that name, which is marked used
    on the way when it is a variable. *)
Fixpoint findSymbol (name : string) (tables : list (gmap string Symbol))
  : option Symbol * list (gmap string Symbol) :=
  match tables with
  | [] => (None, [])
  | t :: outer =>
      match t !! name with
      | Some s =>
          let s' := if decide (kind s = VARIABLE) then mark s else s in
          (Some s', <[name := s']> t :: outer)
      | None =>
          let '(r, outer') := findSymbol name outer in (r, t :: outer')
      end
  end.

(** [symbol->used = true] through the pointer [findSymbol] returned. *)
Fixpoint mark_used (name : string) (tables : list (gmap string Symbol))
  : list (gmap string Symbol) :=
  match tables with
  | [] => []
  | t :: outer =>
      match t !! name with
      | Some s => <[name := mark s]> t :: outer
      | None => t :: mark_used name outer
      end
  end.

Definition enterScope (st : State) : State :=
  set_symbolTables (∅ :: symbolTables st) st.

(** [analyzeHelper::checkUnusedVariables]: the innermost scope only. The
    C++ map is unordered; the model walks the entries in the order of
    [map_to_list]. *)
Definition helper_checkUnusedVariables (st : State) : State :=
  match symbolTables st with
  | [] => st
  | currentScope :: _ =>
      fold_left
        (fun s '(name, symbol) =>
           if bool_decide (kind symbol = VARIABLE) && negb (used symbol)
           then warning ("Variable '" +:+ name +:+ "' declared but never used")
                  (sym_line symbol) (sym_column symbol) s
           else s)
        (map_to_list currentScope) st
  end.

Definition exitScope (st : State) : State :=
  match symbolTables st with
  | [] => st
  | _ :: _ =>
      let st1 := helper_checkUnusedVariables st in
      set_symbolTables (tail (symbolTables st1)) st1
  end.

(** [declareSymbol]: the state afterwards and whether the name was new in
    the innermost scope. *)
Definition declareSymbol (name : string) (symbol : Symbol) (st : State)
  : State * bool :=
  match symbolTables st with
  | t :: outer =>
      match t !! name with
      | Some _ => (st, false)
      | None => (set_symbolTables (<[name := symbol]> t :: outer) st, true)
      end
  | [] => (st, false)
  end.

Definition enterLoop (st : State) : State := set_loopDepth (loopDepth st + 1)%Z st.
Definition exitLoop (st : State) : State := set_loopDepth (loopDepth st - 1)%Z st.
Definition isInLoop (st : State) : bool := (0 <? loopDepth st)%Z.

(** What a call of [evaluateConstant] comes to: an [OptionalInt] with a
    value, the empty [OptionalInt], or the death of the process in one of
    its divisions. *)
Inductive Evaluation : Type :=
| Constant (value : Z)
| NoConstant
| Sigfpe.

#[global] Instance Evaluation_eq_dec : EqDecision Evaluation.
Proof. solve_decision. Defined.

(** [evaluateConstant]. Both operands of a binary expression are
    evaluated, the left one first, before either is looked at. *)
Fixpoint evaluateConstant (expr : Expr) : Evaluation :=
  match expr with
  | NumberExpr value _ _ => Constant value
  | UnaryExpr op operand _ _ =>
      match evaluateConstant operand with
      | Constant v =>
          if String.eqb op "+" then Constant v
          else if String.eqb op "-" then Constant (Int32.neg v)
          else if String.eqb op "!" then Constant (Int32.of_bool (negb (Int32.truth v)))
          else NoConstant
      | NoConstant => NoConstant
      | Sigfpe => Sigfpe
      end
  | BinaryExpr l op r _ _ =>
      match evaluateConstant l with
      | Sigfpe => Sigfpe
      | leftValue =>
          match evaluateConstant r with
          | Sigfpe => Sigfpe
          | rightValue =>
              match leftValue, rightValue with
              | Constant a, Constant b =>
                  if String.eqb op "+" then Constant (Int32.add a b)
                  else if String.eqb op "-" then Constant (Int32.sub a b)
                  else if String.eqb op "*" then Constant (Int32.mul a b)
                  else if String.eqb op "/" then
                    if (b =? 0)%Z then NoConstant
                    else match Int32.div a b with
                         | Some q => Constant q
                         | None => Sigfpe
                         end
                  else if String.eqb op "%" then
                    if (b =? 0)%Z then NoConstant
                    else match Int32.rem a b with
                         | Some q => Constant q
                         | None => Sigfpe
                         end
                  else if String.eqb op "<" then Constant (Int32.of_bool (a <? b)%Z)
                  else if String.eqb op ">" then Constant (Int32.of_bool (a >? b)%Z)
                  else if String.eqb op "<=" then Constant (Int32.of_bool (a <=? b)%Z)
                  else if String.eqb op ">=" then Constant (Int32.of_bool (a >=? b)%Z)
                  else if String.eqb op "==" then Constant (Int32.of_bool (a =? b)%Z)
                  else if String.eqb op "!=" then
                    Constant (Int32.of_bool (negb (a =? b)%Z))
                  else if String.eqb op "&&" then
                    Constant (Int32.of_bool (Int32.truth a && Int32.truth b))
                  else if String.eqb op "||" then
                    Constant (Int32.of_bool (Int32.truth a || Int32.truth b))
                  else NoConstant
              | _, _ => NoConstant
              end
          end
      end
  | _ => NoConstant
  end.

Definition isValidMainFunction (funcDef : FunctionDef) (st : State)
  : State * bool :=
  if negb (String.eqb (returnType funcDef) "int") then
    (error "main function must return int" (line funcDef) (column funcDef) st, false)
  else if negb (bool_decide (params funcDef = [])) then
    (error "main function cannot have parameters" (line funcDef) (column funcDef) st,
     false)
  else (st, true).

(** The [typeVisitor] on expressions: [getExprType] returns the type it
    computes and the state it leaves. *)
Fixpoint getExprType (expr : Expr) (st : State) : string * State :=
  match expr with
  | NumberExpr _ _ _ => ("int", st)
  | VariableExpr name _ _ =>
      match findSymbol name (symbolTables st) with
      | (None, _) => ("error", st)
      | (Some symbol, tables) =>
          (type symbol, set_symbolTables (mark_used name tables) st)
      end
  | BinaryExpr l op r line column =>
      let '(leftType, st1) := getExprType l st in
      let '(rightType, st2) := getExprType r st1 in
      if negb (String.eqb leftType "int") || negb (String.eqb rightType "int")
      then ("error",
            error ("Binary operator '" +:+ op +:+ "' requires integer operands")
              line column st2)
      else ("int", st2)
  | UnaryExpr op operand line column =>
      let '(ty, st1) := getExprType operand st in
      if negb (String.eqb ty "int")
      then ("error",
            error ("Unary operator '" +:+ op +:+ "' requires integer operand")
              line column st1)
      else ("int", st1)
  | CallExpr callee arguments line column =>
      match functionTable st !! callee with
      | None => ("error", st)
      | Some info =>
          let st1 :=
            match findSymbol callee (symbolTables st) with
            | (Some symbol, tables) =>
                if decide (kind symbol = FUNCTION)
                then set_symbolTables (mark_used callee tables) st
                else set_symbolTables tables st
            | (None, _) => st
            end in
          if negb (length arguments =? length (paramTypes info))%nat then
            (fi_returnType info,
             error ("Incorrect number of arguments for function '" +:+ callee +:+ "'")
               line column st1)
          else
            let check_args :=
              fix check_args (l : list Expr) (i : nat) (s : State) : State :=
                match l with
                | [] => s
                | a :: l' =>
                    let '(argType, s1) := getExprType a s in
                    let s2 :=
                      if String.eqb argType (nth i (paramTypes info) "")
                      then s1
                      else error ("Function '" +:+ callee +:+ "' argument "
                                  +:+ pretty (S i) +:+ " type mismatch")
                             line column s1 in
                    check_args l' (S i) s2
                end in
            (fi_returnType info, check_args arguments 0%nat st1)
      end
  end.

(** Is the comparison or logical operator [op] true of the two constants? *)
Definition isAlwaysTrue (op : string) (leftVal rightVal : Z) : bool :=
  if String.eqb op "==" then (leftVal =? rightVal)%Z
  else if String.eqb op "!=" then negb (leftVal =? rightVal)%Z
  else if String.eqb op "<" then (leftVal <? rightVal)%Z
  else if String.eqb op ">" then (leftVal >? rightVal)%Z
  else if String.eqb op "<=" then (leftVal <=? rightVal)%Z
  else if String.eqb op ">=" then (leftVal >=? rightVal)%Z
  else if String.eqb op "&&" then Int32.truth leftVal && Int32.truth rightVal
  else if String.eqb op "||" then Int32.truth leftVal || Int32.truth rightVal
  else false.

Definition is_condition_operator (op : string) : bool :=
  String.eqb op "==" || String.eqb op "!=" || String.eqb op "<"
  || String.eqb op ">" || String.eqb op "<=" || String.eqb op ">="
  || String.eqb op "&&" || String.eqb op "||".

(** The division check of [analyzeVisitor::visit(BinaryExpr&)]. *)
Definition check_division (op : string) (right : Expr) (line column : Z)
    (st : State) : State :=
  if String.eqb op "/" || String.eqb op "%" then
    match evaluateConstant right with
    | Constant rval =>
        if (rval =? 0)%Z then error "Division by zero" line column st else st
    | NoConstant => st
    | Sigfpe => sigfpe st
    end
  else st.

(** The constant-condition warning of the same visitor. *)
Definition check_constant_condition (l : Expr) (op : string) (r : Expr)
    (line column : Z) (st : State) : State :=
  if is_condition_operator op then
    match evaluateConstant l with
    | Sigfpe => sigfpe st
    | leftVal =>
        match evaluateConstant r with
        | Sigfpe => sigfpe st
        | rightVal =>
            match leftVal, rightVal with
            | Constant leftVal, Constant rightVal =>
                if isAlwaysTrue op leftVal rightVal
                then warning "Condition expression is always true" line column st
                else warning "Condition expression is always false" line column st
            | _, _ => st
            end
        end
    end
  else st.

(** The operand checks of [analyzeVisitor::visit(BinaryExpr&)], run after
    both operands have been visited. *)
Definition check_operand_types (l : Expr) (op : string) (r : Expr)
    (line column : Z) (st : State) : State :=
  let '(leftType, st1) := getExprType l st in
  let '(rightType, st2) := getExprType r st1 in
  if negb (String.eqb leftType "int") || negb (String.eqb rightType "int")
  then error ("Binary operator '" +:+ op +:+ "' requires int operands")
         line column st2
  else st2.

(** The [FunctionInfo] a call site reads through
    [functionTable.find(callee)->second]. The entry exists whenever the
    visitor gets this far from [visit(FunctionDef&)]; the default stands
    for the dereference of [end()] otherwise. *)
Definition function_info (callee : string) (st : State) : FunctionInfo :=
  default (mkFunctionInfo "void" [] [] 0 0) (functionTable st !! callee).

(** The [analyzeVisitor] on expressions. *)
Fixpoint visit_Expr (expr : Expr) (st : State) : State :=
  match expr with
  | NumberExpr _ _ _ => st
  | VariableExpr name line column =>
      match findSymbol name (symbolTables st) with
      | (None, _) => error ("Undefined variable: " +:+ name) line column st
      | (Some _, tables) => set_symbolTables (mark_used name tables) st
      end
  | BinaryExpr l op r line column =>
      let st1 := visit_Expr l st in
      let st2 := visit_Expr r st1 in
      let st3 := check_operand_types l op r line column st2 in
      let st4 := check_division op r line column st3 in
      check_constant_condition l op r line column st4
  | UnaryExpr op operand line column =>
      let st1 := visit_Expr operand st in
      let '(operandType, st2) := getExprType operand st1 in
      if negb (String.eqb operandType "int")
      then error ("Unary operator '" +:+ op +:+ "' requires int operand")
             line column st2
      else st2
  | CallExpr callee arguments line column =>
      if bool_decide (functionTable st !! callee = None)
         && negb (String.eqb callee (currentFunction st))
      then error ("Undefined function: " +:+ callee) line column st
      else
        let st1 :=
          match findSymbol callee (symbolTables st) with
          | (Some symbol, tables) =>
              if decide (kind symbol = FUNCTION)
              then set_symbolTables (mark_used callee tables) st
              else set_symbolTables tables st
          | (None, _) => st
          end in
        let funcInfo := function_info callee st1 in
        let st2 :=
          if negb (length (paramTypes funcInfo) =? length arguments)%nat
          then error ("Incorrect number of arguments for function '"
                      +:+ callee +:+ "'") line column st1
          else st1 in
        let visit_args :=
          fix visit_args (l : list Expr) (i : nat) (s : State) : State :=
            match l with
            | [] => s
            | a :: l' =>
                let s1 := visit_Expr a s in
                let s2 :=
                  if (i <? length (paramTypes funcInfo))%nat then
                    let '(argType, s') := getExprType a s1 in
                    let expected := nth i (paramTypes funcInfo) "" in
                    if negb (String.eqb argType expected)
                    then error ("Function '" +:+ callee +:+ "' argument "
                                +:+ pretty (S i)
                                +:+ " type mismatch, expected '" +:+ expected
                                +:+ "', got '" +:+ argType +:+ "'")
                           line column s'
                    else s'
                  else s1 in
                visit_args l' (S i) s2
            end in
        let st3 := visit_args arguments 0%nat st2 in
        let '(callType, st4) := getExprType expr st3 in
        if negb (String.eqb callType (fi_returnType funcInfo))
        then error ("Function '" +:+ callee +:+ "' return type mismatch")
               line column st4
        else st4
  end.

(** The [analyzeVisitor] on statements. *)
Fixpoint visit_Stmt (stmt : Stmt) (st : State) : State :=
  match stmt with
  | ExprStmt (Some e) _ _ => visit_Expr e st
  | ExprStmt None _ _ => st
  | VarDeclStmt name initializer line column =>
      let st1 :=
        match symbolTables st with
        | t :: _ =>
            if bool_decide (is_Some (t !! name))
            then error ("Variable '" +:+ name
                        +:+ "' already declared in current scope") line column st
            else st
        | [] => st
        end in
      let st2 :=
        match initializer with
        | Some init =>
            let s1 := visit_Expr init st1 in
            let '(initType, s2) := getExprType init s1 in
            if negb (String.eqb initType "int")
            then error "Cannot initialize int variable with non-integer expression"
                   line column s2
            else s2
        | None => st1
        end in
      (declareSymbol name (mkSymbol VARIABLE "int" line column (-1) false) st2).1
  | AssignStmt name value line column =>
      match findSymbol name (symbolTables st) with
      | (None, _) => error ("Undefined variable: " +:+ name) line column st
      | (Some symbol, tables) =>
          let st1 := set_symbolTables (mark_used name tables) st in
          let st2 :=
            if negb (bool_decide (kind symbol = VARIABLE))
               && negb (bool_decide (kind symbol = PARAMETER))
            then error ("Cannot assign to '" +:+ name +:+ "' (not a variable)")
                   line column st1
            else st1 in
          let st3 := visit_Expr value st2 in
          let '(valueType, st4) := getExprType value st3 in
          if negb (String.eqb valueType "int")
          then error ("Type mismatch in assignment to '" +:+ name +:+ "'")
                 line column st4
          else st4
      end
  | BlockStmt statements _ _ =>
      let st1 := enterScope st in
      let st2 := fold_left (fun s x => visit_Stmt x s) statements st1 in
      exitScope st2
  | IfStmt condition thenBranch elseBranch line column =>
      let st1 := visit_Expr condition st in
      let '(condType, st2) := getExprType condition st1 in
      let st3 :=
        if negb (String.eqb condType "int")
        then error "If condition must be integer (used as boolean)" line column st2
        else st2 in
      let st4 :=
        match evaluateConstant condition with
        | Constant condValue =>
            if negb (condValue =? 0)%Z then
              match elseBranch with
              | Some e =>
                  warning "This else branch will never execute (condition always true)"
                    (stmt_line e) (stmt_column e) st3
              | None => st3
              end
            else
              warning "This if branch will never execute (condition always false)"
                (stmt_line thenBranch) (stmt_column thenBranch) st3
        | NoConstant => st3
        | Sigfpe => sigfpe st3
        end in
      let st5 := visit_Stmt thenBranch st4 in
      match elseBranch with
      | Some e => visit_Stmt e st5
      | None => st5
      end
  | WhileStmt condition body line column =>
      let st1 := visit_Expr condition st in
      let '(condType, st2) := getExprType condition st1 in
      let st3 :=
        if negb (String.eqb condType "int")
        then error "While condition must be integer (used as boolean)"
               line column st2
        else st2 in
      let st4 :=
        match evaluateConstant condition with
        | Constant condValue =>
            if (condValue =? 0)%Z
            then warning "This while loop will never execute (condition always false)"
                   line column st3
            else st3
        | NoConstant => st3
        | Sigfpe => sigfpe st3
        end in
      exitLoop (visit_Stmt body (enterLoop st4))
  | BreakStmt line column =>
      if isInLoop st then st
      else error "Break statement must be inside loop" line column st
  | ContinueStmt line column =>
      if isInLoop st then st
      else error "Continue statement must be inside loop" line column st
  | ReturnStmt value line column =>
      let st1 :=
        match value with
        | Some e =>
            let s1 := visit_Expr e st in
            let '(returnTy, s2) := getExprType e s1 in
            if negb (String.eqb returnTy (currentFunctionReturnType s2))
            then error ("Return type mismatch: expected '"
                        +:+ currentFunctionReturnType s2 +:+ "', got '"
                        +:+ returnTy +:+ "'") line column s2
            else s2
        | None =>
            if negb (String.eqb (currentFunctionReturnType st) "void")
            then error ("Function with return type '"
                        +:+ currentFunctionReturnType st
                        +:+ "' must return a value") line column st
            else st
        end in
      set_hasReturn true st1
  end.

(** [analyzeVisitor::checkUnusedVariables]: every scope, from the
    outermost, variables and parameters. *)
Definition checkUnusedVariables (st : State) : State :=
  fold_left
    (fun s scope =>
       fold_left
         (fun s' '(name, symbol) =>
            if (bool_decide (kind symbol = VARIABLE)
                || bool_decide (kind symbol = PARAMETER)) && negb (used symbol)
            then warning ("Variable '" +:+ name +:+ "' declared but never used")
                   (sym_line symbol) (sym_column symbol) s'
            else s')
         (map_to_list scope) s)
    (rev (symbolTables st)) st.

Definition declare_params (ps : list Param) (line column : Z) (st : State)
  : State :=
  (fold_left
     (fun '(s, i) param =>
        let paramSymbol := mkSymbol PARAMETER "int" line column (Z.of_nat i) false in
        let '(s1, ok) := declareSymbol (param_name param) paramSymbol s in
        let s2 :=
          if ok then s1
          else error ("Parameter '" +:+ param_name param +:+ "' already declared")
                 line column s1 in
        (s2, S i))
     ps (st, 0%nat)).1.

Definition visit_FunctionDef (funcDef : FunctionDef) (st : State) : State :=
  let line := line funcDef in
  let column := column funcDef in
  let name := name funcDef in
  let st1 :=
    if bool_decide (is_Some (functionTable st !! name))
    then error "Duplicate function name" line column st
    else st in
  let info :=
    mkFunctionInfo (returnType funcDef)
      (map (fun _ => "int") (params funcDef))
      (map param_name (params funcDef)) line column in
  let st2 := set_functionTable (<[name := info]> (functionTable st1)) st1 in
  let st3 :=
    if String.eqb name "main" then
      let '(s, valid) := isValidMainFunction funcDef st2 in
      if valid then s
      else error "Invalid main function declaration" line column s
    else st2 in
  let st4 := set_function_context name (returnType funcDef) false st3 in
  let st5 := enterScope st4 in
  let funcSymbol :=
    mkSymbol FUNCTION (returnType funcDef) line column (-1)
      (String.eqb name "main") in
  let st6 := (declareSymbol name funcSymbol st5).1 in
  let st7 := declare_params (params funcDef) line column st6 in
  let st8 :=
    visit_Stmt (BlockStmt (body funcDef) (body_line funcDef) (body_column funcDef))
      st7 in
  let st9 :=
    if negb (String.eqb (returnType funcDef) "void") && negb (hasReturn st8)
    then error ("Function '" +:+ name +:+ "' has no return statement")
           line column st8
    else st8 in
  let st10 := checkUnusedVariables st9 in
  let st11 := exitScope st10 in
  set_function_context "" "" false st11.

(** [analyzeVisitor::detectDeadCode]. *)
Definition detectDeadCode (st : State) : State :=
  fold_left
    (fun s '(name, info) =>
       if negb (String.eqb name "main") then
         let is_used :=
           existsb
             (fun scope : gmap string Symbol =>
                match scope !! name with
                | Some sym => bool_decide (kind sym = FUNCTION) && used sym
                | None => false
                end)
             (symbolTables s) in
         if is_used then s
         else warning ("Function '" +:+ name +:+ "' defined but never used")
                (fi_line info) 0 s
       else s)
    (map_to_list (functionTable st)) st.

Definition visit_functions (functions : CompUnit) (st : State) : State :=
  fold_left (fun s func => visit_FunctionDef func s) functions st.

Definition visit_CompUnit (compUnit : CompUnit) (st : State) : State :=
  let hasMain := existsb (fun func => String.eqb (name func) "main") compUnit in
  let st1 :=
    if hasMain then st
    else error "Program must have a main function" 0 0 st in
  detectDeadCode (visit_functions compUnit st1).

(** A freshly constructed [analyzeVisitor]: the constructor opens the
    global scope. *)
Definition init : State :=
  mkState [∅] ∅ "" "" false 0
    (mkDiagnostics true [] [] ∅ ∅ true [] []) false.

(** [SemanticAnalyzer::analyze] on a fresh analyzer: the final state and
    the verdict. When the final state is [killed] the process has died
    on the way and the verdict is never returned. *)
Definition analyze (ast : CompUnit) : State * bool :=
  let st1 := visit_CompUnit ast init in
  let st2 :=
    if owner_success (diag st1)
    then detectDeadCode (checkUnusedVariables st1)
    else st1 in
  (st2, owner_success (diag st2)).

End Analyze.

(** *** Lexer ([lexer.h], [lexer.cpp]) *)

Module Lexer.

Inductive TokenType : Set :=
| INT | VOID | IF | ELSE | WHILE | BREAK | CONTINUE | RETURN
| IDENTIFIER | NUMBER
| PLUS | MINUS | MULTIPLY | DIVIDE | MODULO
| ASSIGN
| EQ | NEQ | LT | GT | LE | GE
| AND | OR | NOT
| LPAREN | RPAREN | LBRACE | RBRACE | SEMICOLON | COMMA
| END_OF_FILE | UNKNOWN.

#[global] Instance TokenType_eq_dec : EqDecision TokenType.
Proof. solve_decision. Defined.

Record Token : Type := mkToken {
  tok_type : TokenType;
  lexeme : string;
  tok_line : Z;
  tok_column : Z
}.

(** The mutable fields of the [Lexer]; [source] is fixed. *)
Record LexState : Type := mkLexState {
  position : nat;
  line : Z;
  column : Z
}.

Definition NUL : ascii := "000"%char.

Definition char_code (c : ascii) : nat := nat_of_ascii c.

(** [isalpha], [isdigit] and [isalnum] in the C locale. *)
Definition isalpha (c : ascii) : bool :=
  ((65 <=? char_code c) && (char_code c <=? 90))
  || ((97 <=? char_code c) && (char_code c <=? 122)).
Definition isdigit (c : ascii) : bool :=
  (48 <=? char_code c) && (char_code c <=? 57).
Definition isalnum (c : ascii) : bool := isalpha c || isdigit c.

Definition is_char (c d : ascii) : bool := Ascii.eqb c d.

Definition keywords (lexeme : string) : option TokenType :=
  if String.eqb lexeme "int" then Some INT
  else if String.eqb lexeme "void" then Some VOID
  else if String.eqb lexeme "if" then Some IF
  else if String.eqb lexeme "else" then Some ELSE
  else if String.eqb lexeme "while" then Some WHILE
  else if String.eqb lexeme "break" then Some BREAK
  else if String.eqb lexeme "continue" then Some CONTINUE
  else if String.eqb lexeme "return" then Some RETURN
  else None.

Section WithSource.
Variable source : string.

Definition peek (st : LexState) (offset : nat) : ascii :=
  match String.get (position st + offset) source with
  | Some c => c
  | None => NUL
  end.

Definition isAtEnd (st : LexState) : bool :=
  (String.length source <=? position st)%nat.

(** [advance]: the character read and the state after it. *)
Definition advance (st : LexState) : ascii * LexState :=
  let current := peek st 0 in
  (current,
   if is_char current "010"
   then mkLexState (S (position st)) (line st + 1) 1
   else mkLexState (S (position st)) (line st) (column st + 1)).

(** [position += 2; column += 2]. *)
Definition skip_two (st : LexState) : LexState :=
  mkLexState (position st + 2) (line st) (column st + 2).

(** The loop of a [//] comment: up to the end of the line. Loops take a
    number of iterations they may use and yield [None] when it runs out. *)
Fixpoint line_comment_loop (fuel : nat) (st : LexState) : option LexState :=
  match fuel with
  | O => None
  | S fuel' =>
      if negb (isAtEnd st) && negb (is_char (peek st 0) "010")
      then line_comment_loop fuel' (advance st).2
      else Some st
  end.

(** The loop of a block comment: up to the closing [*/] or the end of the
    input. *)
Fixpoint block_comment_loop (fuel : nat) (st : LexState) : option LexState :=
  match fuel with
  | O => None
  | S fuel' =>
      if negb (isAtEnd st) then
        if is_char (peek st 0) "*" && is_char (peek st 1) "/"
        then Some (skip_two st)
        else if is_char (peek st 0) "010"
        then block_comment_loop fuel'
               (mkLexState (S (position st)) (line st + 1) 1)
        else block_comment_loop fuel'
               (mkLexState (S (position st)) (line st) (column st + 1))
      else Some st
  end.

Definition skipComment (fuel : nat) (st : LexState) : option LexState :=
  if is_char (peek st 0) "/" then
    if is_char (peek st 1) "/" then line_comment_loop fuel (skip_two st)
    else if is_char (peek st 1) "*" then block_comment_loop fuel (skip_two st)
    else Some st
  else Some st.

Fixpoint skipWhitespace (fuel : nat) (st : LexState) : option LexState :=
  match fuel with
  | O => None
  | S fuel' =>
      if negb (isAtEnd st) then
        let c := peek st 0 in
        if is_char c " " || is_char c "009" || is_char c "013"
        then skipWhitespace fuel' (advance st).2
        else if is_char c "010"
        then skipWhitespace fuel' (advance st).2
        else if is_char c "/" then
          if is_char (peek st 1) "/" || is_char (peek st 1) "*" then
            match skipComment (S (String.length source)) st with
            | Some st' => skipWhitespace fuel' st'
            | None => None
            end
          else Some st
        else Some st
      else Some st
  end.

Fixpoint identifier_loop (fuel : nat) (st : LexState) : option LexState :=
  match fuel with
  | O => None
  | S fuel' =>
      if negb (isAtEnd st)
         && (isalnum (peek st 0) || is_char (peek st 0) "_")
      then identifier_loop fuel' (advance st).2
      else Some st
  end.

Definition scanIdentifier (st : LexState) : option (Token * LexState) :=
  let startPos := position st in
  let startColumn := column st in
  let startLine := line st in
  let st1 :=
    if isalpha (peek st 0) || is_char (peek st 0) "_"
    then (advance st).2 else st in
  match identifier_loop (S (String.length source)) st1 with
  | None => None
  | Some st2 =>
      let lexeme := String.substring startPos (position st2 - startPos) source in
      match keywords lexeme with
      | Some ty => Some (mkToken ty lexeme startLine startColumn, st2)
      | None => Some (mkToken IDENTIFIER lexeme startLine startColumn, st2)
      end
  end.

Fixpoint number_loop (fuel : nat) (st : LexState) : option LexState :=
  match fuel with
  | O => None
  | S fuel' =>
      if negb (isAtEnd st) && isdigit (peek st 0)
      then number_loop fuel' (advance st).2
      else Some st
  end.

Definition scanNumber (st : LexState) : option (Token * LexState) :=
  let startPos := position st in
  let startColumn := column st in
  let startLine := line st in
  let st1 := if is_char (peek st 0) "-" then (advance st).2 else st in
  match number_loop (S (String.length source)) st1 with
  | None => None
  | Some st2 =>
      let lexeme := String.substring startPos (position st2 - startPos) source in
      Some (mkToken NUMBER lexeme startLine startColumn, st2)
  end.

(** A one- or two-character operator: [second] is the character that
    completes the longer form. *)
Definition two_char (st : LexState) (second : ascii)
    (long : TokenType) (long_lexeme : string)
    (short : TokenType) (short_lexeme : string) (tokenLine tokenColumn : Z)
  : Token * LexState :=
  if is_char (peek st 0) second
  then (mkToken long long_lexeme tokenLine tokenColumn, (advance st).2)
  else (mkToken short short_lexeme tokenLine tokenColumn, st).

Definition scanToken (st0 : LexState) : option (Token * LexState) :=
  let '(c, st) := advance st0 in
  if isalpha c || is_char c "_" then
    scanIdentifier (mkLexState (position st - 1) (line st) (column st - 1))
  else if isdigit c then
    scanNumber (mkLexState (position st - 1) (line st) (column st - 1))
  else
    let tokenLine := line st in
    let tokenColumn := (column st - 1)%Z in
    let single ty lx := Some (mkToken ty lx tokenLine tokenColumn, st) in
    if is_char c "(" then single LPAREN "("
    else if is_char c ")" then single RPAREN ")"
    else if is_char c "{" then single LBRACE "{"
    else if is_char c "}" then single RBRACE "}"
    else if is_char c ";" then single SEMICOLON ";"
    else if is_char c "," then single COMMA ","
    else if is_char c "+" then single PLUS "+"
    else if is_char c "-" then single MINUS "-"
    else if is_char c "*" then single MULTIPLY "*"
    else if is_char c "%" then single MODULO "%"
    else if is_char c "/" then single DIVIDE "/"
    else if is_char c "=" then
      Some (two_char st "=" EQ "==" ASSIGN "=" tokenLine tokenColumn)
    else if is_char c "!" then
      Some (two_char st "=" NEQ "!=" NOT "!" tokenLine tokenColumn)
    else if is_char c "<" then
      Some (two_char st "=" LE "<=" LT "<" tokenLine tokenColumn)
    else if is_char c ">" then
      Some (two_char st "=" GE ">=" GT ">" tokenLine tokenColumn)
    else if is_char c "&" then
      Some (two_char st "&" AND "&&" UNKNOWN "&" tokenLine tokenColumn)
    else if is_char c "|" then
      Some (two_char st "|" OR "||" UNKNOWN "|" tokenLine tokenColumn)
    else single UNKNOWN (String c EmptyString).

(** The loop of [tokenize]; [tokens] is the vector built so far. *)
Fixpoint tokenize_loop (fuel : nat) (st : LexState) (tokens : list Token)
  : option (list Token * LexState) :=
  match fuel with
  | O => None
  | S fuel' =>
      if negb (isAtEnd st) then
        match skipWhitespace (S (String.length source)) st with
        | None => None
        | Some st1 =>
            if isAtEnd st1 then Some (tokens, st1)
            else
              match scanToken st1 with
              | None => None
              | Some (tok, st2) => tokenize_loop fuel' st2 (tokens ++ [tok])
              end
        end
      else Some (tokens, st)
  end.

(** [Lexer::tokenize] on a lexer freshly constructed from [source]. *)
Definition tokenize : option (list Token) :=
  match tokenize_loop (S (String.length source)) (mkLexState 0 1 1) [] with
  | None => None
  | Some (tokens, st) =>
      Some (tokens ++ [mkToken END_OF_FILE "" (line st) (column st)])
  end.

End WithSource.

End Lexer.

(** *** Peephole pass of the code generator ([codegen.cpp]) *)

Module Peephole.

(** [std::string::find(pattern)]: [None] is [npos]. *)
Definition find (pattern s : string) : option nat := String.index 0 pattern s.

(** [s.find(pattern) == 0]. *)
Definition find_is_0 (pattern s : string) : bool :=
  match find pattern s with
  | Some O => true
  | _ => false
  end.

(** [s.substr(pos)]; [None] is the [std::out_of_range] it throws when
    [pos] exceeds the length. *)
Definition substr_from (pos : nat) (s : string) : option string :=
  if (pos <=? String.length s)%nat
  then Some (String.substring pos (String.length s - pos) s)
  else None.

(** [s.substr(3, s.find(",") - 3)] on a string that starts with a
    three-character mnemonic: up to the comma, or to the end when there
    is none ([npos - 3] is larger than any length). *)
Definition operand_before_comma (s : string) : string :=
  match find "," s with
  | Some i => String.substring 3 (i - 3) s
  | None => String.substring 3 (String.length s - 3) s
  end.

(** [s.substr(0, s.find(","))]. *)
Definition before_comma (s : string) : string :=
  match find "," s with
  | Some i => String.substring 0 i s
  | None => s
  end.

(** [s.substr(s.find(",") + 1)]: after the comma, or the whole string when
    there is none ([npos + 1] wraps to 0). *)
Definition after_comma (s : string) : string :=
  match find "," s with
  | Some i => String.substring (S i) (String.length s - S i) s
  | None => s
  end.

Definition is_blank (c : ascii) : bool :=
  Ascii.eqb c " " || Ascii.eqb c "009".

(** [s.find_first_not_of(" \t")]. *)
Fixpoint find_first_not_of_blank (s : string) : option nat :=
  match s with
  | EmptyString => None
  | String c s' =>
      if is_blank c then option_map S (find_first_not_of_blank s') else Some O
  end.

(** [s.substr(s.find_first_not_of(" \t"))], which throws when the string
    holds blanks only. *)
Definition trim_left (s : string) : option string :=
  match find_first_not_of_blank s with
  | Some i => substr_from i s
  | None => None
  end.

(** A handler receives the window and answers whether it fired, leaving
    the replacement in the window. [None] is an exception thrown by a
    string operation. *)
Definition handler : Type := list string -> option (bool * list string).

Definition load_store_same : handler := fun instrs =>
  match instrs with
  | load :: store :: _ =>
      if find_is_0 "lw " load && find_is_0 "sw " store then
        let loadReg := operand_before_comma load in
        let loadMem := after_comma load in
        let storeReg := operand_before_comma store in
        let storeMem := after_comma store in
        if String.eqb loadReg storeReg && String.eqb loadMem storeMem
        then Some (true, [])
        else Some (false, instrs)
      else Some (false, instrs)
  | _ => Some (false, instrs)
  end.

Definition li_compare : handler := fun instrs =>
  match instrs with
  | li :: branch :: _ =>
      if find_is_0 "li " li then
        let reg := operand_before_comma li in
        match trim_left (after_comma li) with
        | None => None
        | Some imm =>
            if String.eqb imm "0" then
              if find_is_0 "beq " branch then
                match substr_from 4 branch with
                | None => None
                | Some branchParts =>
                    match trim_left (before_comma branchParts) with
                    | None => None
                    | Some reg1 =>
                        let rest := after_comma branchParts in
                        match trim_left (before_comma rest) with
                        | None => None
                        | Some reg2 =>
                            match trim_left (after_comma rest) with
                            | None => None
                            | Some label =>
                                if String.eqb reg2 reg
                                then Some (true, ["beqz " +:+ reg1 +:+ ", " +:+ label])
                                else if String.eqb reg1 reg
                                then Some (true, ["beqz " +:+ reg2 +:+ ", " +:+ label])
                                else Some (false, instrs)
                            end
                        end
                    end
                end
              else Some (false, instrs)
            else Some (false, instrs)
        end
      else Some (false, instrs)
  | _ => Some (false, instrs)
  end.

Definition redundant_move : handler := fun instrs =>
  match instrs with
  | move :: _ =>
      if find_is_0 "mv " move then
        let dst := operand_before_comma move in
        match trim_left (after_comma move) with
        | None => None
        | Some src =>
            if String.eqb dst src then Some (true, []) else Some (false, instrs)
        end
      else Some (false, instrs)
  | [] => Some (false, instrs)
  end.

(** [peepholePatterns] is a [std::map] keyed by the pattern's name, so the
    handlers are tried in the order of their names. *)
Definition peepholePatterns : list handler :=
  [li_compare; load_store_same; redundant_move].

(** The loop over the patterns at one position: the first handler that
    fires decides the replacement of the window. *)
Fixpoint apply_patterns (patterns : list handler) (window : list string)
  : option (option (list string)) :=
  match patterns with
  | [] => Some None
  | h :: patterns' =>
      match h window with
      | None => None
      | Some (true, window') => Some (Some window')
      | Some (false, _) => apply_patterns patterns' window
      end
  end.

(** One run of the [for] loop over the positions. [before] holds the
    instructions in front of [i], [rest] those from [i] on. The result
    carries the flag [changed]. *)
Fixpoint scan (fuel : nat) (before rest : list string) (changed : bool)
  : option (list string * bool) :=
  match fuel with
  | O => None
  | S fuel' =>
      match rest with
      | [] => Some (before, changed)
      | first :: rest' =>
          let windowSize := Nat.min 3 (length rest) in
          let window := firstn windowSize rest in
          match apply_patterns peepholePatterns window with
          | None => None
          | Some (Some window') =>
              scan fuel' (before ++ window') (skipn windowSize rest) true
          | Some None => scan fuel' (before ++ [first]) rest' changed
          end
      end
  end.

(** The [while (changed)] loop. *)
Fixpoint until_unchanged (fuel : nat) (instructions : list string)
  : option (list string) :=
  match fuel with
  | O => None
  | S fuel' =>
      match scan (S (length instructions)) [] instructions false with
      | None => None
      | Some (instructions', true) => until_unchanged fuel' instructions'
      | Some (instructions', false) => Some instructions'
      end
  end.

(** [peepholeOptimize]. Every firing shortens the vector, so the number
    of passes is bounded by its length. [None] is an exception escaping
    from a handler. *)
Definition peepholeOptimize (instructions : list string) : option (list string) :=
  until_unchanged (S (length instructions)) instructions.

End Peephole.

(** *** Ordered maps

    A [std::map<std::string, V>] is walked in the order of its keys, and
    the allocators depend on that order; it is modelled as an association
    list kept sorted by key. *)

Module SMap.

Definition t (V : Type) : Type := list (string * V).

Definition key_ltb (a b : string) : bool := String.ltb a b.

Fixpoint find {V} (k : string) (m : t V) : option V :=
  match m with
  | [] => None
  | (k', v) :: m' => if String.eqb k k' then Some v else find k m'
  end.

(** [m[k] = v]. *)
Fixpoint insert {V} (k : string) (v : V) (m : t V) : t V :=
  match m with
  | [] => [(k, v)]
  | (k', v') :: m' =>
      if String.eqb k k' then (k, v) :: m'
      else if key_ltb k k' then (k, v) :: (k', v') :: m'
      else (k', v') :: insert k v m'
  end.

Fixpoint erase {V} (k : string) (m : t V) : t V :=
  match m with
  | [] => []
  | (k', v') :: m' =>
      if String.eqb k k' then m' else (k', v') :: erase k m'
  end.

Lemma find_insert_eq {V} k (v : V) m : find k (insert k v m) = Some v.
Proof.
  induction m as [| [k' v'] m IH]; simpl.
  - by rewrite String.eqb_refl.
  - destruct (String.eqb k k') eqn:E; simpl.
    + by rewrite String.eqb_refl.
    + destruct (key_ltb k k'); simpl.
      * by rewrite String.eqb_refl.
      * by rewrite E.
Qed.

Lemma find_insert_ne {V} k k' (v : V) m :
  k <> k' -> find k' (insert k v m) = find k' m.
Proof.
  intros Hne. induction m as [| [k0 v0] m IH]; simpl.
  - destruct (String.eqb k' k) eqn:E; [| reflexivity].
    apply String.eqb_eq in E. congruence.
  - destruct (String.eqb k k0) eqn:E; simpl.
    + apply String.eqb_eq in E. subst k0.
      destruct (String.eqb k' k) eqn:E'; [| reflexivity].
      apply String.eqb_eq in E'. congruence.
    + destruct (key_ltb k k0); simpl.
      * destruct (String.eqb k' k) eqn:E'; [| reflexivity].
        apply String.eqb_eq in E'. congruence.
      * by rewrite IH.
Qed.

End SMap.

(** *** IR ([ir/ir.h]) *)

Module IR.

Inductive OperandType : Set := VARIABLE | TEMP | CONSTANT | LABEL.

#[global] Instance OperandType_eq_dec : EqDecision OperandType.
Proof. solve_decision. Defined.

Record Operand : Type := mkOperand {
  op_type : OperandType;
  op_name : string;
  op_value : Z
}.

Definition Var (name : string) : Operand := mkOperand VARIABLE name 0.
Definition Temp (name : string) : Operand := mkOperand TEMP name 0.
Definition Const (value : Z) : Operand := mkOperand CONSTANT "" value.
Definition Label (name : string) : Operand := mkOperand LABEL name 0.

Inductive OpCode : Set :=
| ADD | SUB | MUL | DIV | MOD
| NEG | NOT
| LT | GT | LE | GE | EQ | NE
| AND | OR
| ASSIGN
| GOTO | IF_GOTO
| PARAM | CALL | RETURN
| LABEL_OP
| FUNCTION_BEGIN | FUNCTION_END.

#[global] Instance OpCode_eq_dec : EqDecision OpCode.
Proof. solve_decision. Defined.

Inductive IRInstr : Type :=
| BinaryOpInstr (opcode : OpCode) (result left right : Operand)
| UnaryOpInstr (opcode : OpCode) (result operand : Operand)
| AssignInstr (target source : Operand)
| GotoInstr (target : Operand)
| IfGotoInstr (condition target : Operand)
| ParamInstr (param : Operand)
| CallInstr (result : option Operand) (funcName : string) (paramCount : Z)
    (params : list Operand)
| ReturnInstr (value : option Operand)
| LabelInstr (label : string)
| FunctionBeginInstr (funcName : string) (paramNames : list string)
    (returnType : string)
| FunctionEndInstr (funcName : string).

(** Modelled from the spec: [extractReg], declared in [ir.h] and defined
    in the absent [ir.cpp]. A live interval belongs to a variable or a
    temporary, so the names an operand contributes are its own name when
    it is one of the two and nothing for a constant or a label. *)
Definition extractReg (op : Operand) : list string :=
  match op_type op with
  | VARIABLE | TEMP => [op_name op]
  | _ => []
  end.

(** Modelled from the spec: [IRAnalyzer::getDefinedVariables], defined in
    the absent [ir.cpp]: the destination of the instruction, as the
    [getDefRegisters] methods of [ir.h] list it. *)
Definition getDefinedVariables (instr : IRInstr) : list string :=
  match instr with
  | BinaryOpInstr _ result _ _ => extractReg result
  | UnaryOpInstr _ result _ => extractReg result
  | AssignInstr target _ => extractReg target
  | CallInstr (Some result) _ _ _ => extractReg result
  | _ => []
  end.

(** Modelled from the spec: [IRAnalyzer::getUsedVariables], defined in
    the absent [ir.cpp]: the sources of the instruction, as the
    [getUseRegisters] methods of [ir.h] list them. *)
Definition getUsedVariables (instr : IRInstr) : list string :=
  match instr with
  | BinaryOpInstr _ _ l r => extractReg l ++ extractReg r
  | UnaryOpInstr _ _ operand => extractReg operand
  | AssignInstr _ source => extractReg source
  | IfGotoInstr condition _ => extractReg condition
  | ParamInstr param => extractReg param
  | CallInstr _ _ _ params => concat (map extractReg params)
  | ReturnInstr (Some value) => extractReg value
  | _ => []
  end.

End IR.

(** *** Register allocators ([codegen/codegen.h], [codegen.cpp]) *)

Module RegAlloc.

Record Register : Type := mkRegister {
  name : string;
  isCallerSaved : bool;
  isCalleeSaved : bool;
  isAllocatable : bool;
  isReserved : bool;
  purpose : string;
  isUsed : bool
}.

(** [CodeGenerator::initializeRegisters]. *)
Definition registers : list Register :=
  [ mkRegister "zero" false false false true "zero" false;
    mkRegister "t0" true false true false "t0" false;
    mkRegister "t1" true false true false "t1" false;
    mkRegister "t2" true false true false "t2" false;
    mkRegister "t3" true false true false "t3" false;
    mkRegister "t4" true false true false "t4" false;
    mkRegister "t5" true false true false "t5" false;
    mkRegister "t6" true false true false "t6" false;
    mkRegister "s0" false true true false "s0/fp" false;
    mkRegister "s1" false true true false "s1" false;
    mkRegister "s2" false true true false "s2" false;
    mkRegister "s3" false true true false "s3" false;
    mkRegister "s4" false true true false "s4" false;
    mkRegister "s5" false true true false "s5" false;
    mkRegister "s6" false true true false "s6" false;
    mkRegister "s7" false true true false "s7" false;
    mkRegister "s8" false true true false "s8" false;
    mkRegister "s9" false true true false "s9" false;
    mkRegister "s10" false true true false "s10" false;
    mkRegister "s11" false true true false "s11" false;
    mkRegister "a0" true false true false "a0" false;
    mkRegister "a1" true false true false "a1" false;
    mkRegister "a2" true false true false "a2" false;
    mkRegister "a3" true false true false "a3" false;
    mkRegister "a4" true false true false "a4" false;
    mkRegister "a5" true false true false "a5" false;
    mkRegister "a6" true false true false "a6" false;
    mkRegister "a7" true false true false "a7" false;
    mkRegister "ra" true false false true "ra" false;
    mkRegister "sp" false false false true "sp" false;
    mkRegister "gp" false false false true "gp" false;
    mkRegister "tp" false false false true "tp" false;
    mkRegister "fp" false true false true "fp/s0" false ].

(** The registers [linearScanRegisterAllocation] and
    [graphColoringRegisterAllocation] hand to the allocator. *)
Definition allocatableRegs : list Register :=
  List.filter (fun reg => isAllocatable reg && negb (isReserved reg)) registers.

Record LiveInterval : Type := mkLiveInterval {
  var : string;
  start : Z;
  end_ : Z
}.

Section Allocators.

(** The instructions are seen only through the two analyses of
    [IRAnalyzer], whose definitions are not part of the sources at hand. *)
Context {Instr : Type}.
Variable getDefinedVariables : Instr -> list string.
Variable getUsedVariables : Instr -> list string.

(** The lifetimes [computeLiveIntervals], [buildInterferenceGraph] and
    [analyzeVariableLifetimes] all compute: for each name its first and
    last position. *)
Definition record_def (i : Z) (m : SMap.t (Z * Z)) (v : string) : SMap.t (Z * Z) :=
  match SMap.find v m with
  | None => SMap.insert v (i, i) m
  | Some (s, e) => SMap.insert v (Z.min s i, e) m
  end.

Definition record_use (i : Z) (m : SMap.t (Z * Z)) (v : string) : SMap.t (Z * Z) :=
  match SMap.find v m with
  | None => SMap.insert v (i, Z.max i i) m
  | Some (s, e) => SMap.insert v (s, Z.max e i) m
  end.

Fixpoint lifetimes_from (i : Z) (instructions : list Instr) (m : SMap.t (Z * Z))
  : SMap.t (Z * Z) :=
  match instructions with
  | [] => m
  | instr :: rest =>
      let m1 := fold_left (record_def i) (getDefinedVariables instr) m in
      let m2 := fold_left (record_use i) (getUsedVariables instr) m1 in
      lifetimes_from (i + 1) rest m2
  end.

Definition lifetimes (instructions : list Instr) : SMap.t (Z * Z) :=
  lifetimes_from 0 instructions [].

Definition computeLiveIntervals (instructions : list Instr) : list LiveInterval :=
  map (fun '(v, (s, e)) => mkLiveInterval v s e) (lifetimes instructions).

(** [std::sort] with [operator<], which compares the starts. The order of
    intervals with equal starts is unspecified in C++; this insertion
    sort takes the intervals from the first to the last and puts each one
    behind those that do not start later, so intervals with equal starts
    stay in the order of the map they come from. *)
Fixpoint insert_sorted (x : LiveInterval) (l : list LiveInterval)
  : list LiveInterval :=
  match l with
  | [] => [x]
  | y :: l' =>
      if (start x <? start y)%Z then x :: y :: l' else y :: insert_sorted x l'
  end.

Definition sort_intervals (l : list LiveInterval) : list LiveInterval :=
  fold_left (fun sorted x => insert_sorted x sorted) l [].

(** The state of the scan: [freeRegs] is a vector used as a stack whose
    top is its last element. *)
Record ScanState : Type := mkScanState {
  allocation : SMap.t string;
  freeRegs : list string;
  active : SMap.t (LiveInterval * string)
}.

(** Frees the registers of the active intervals that end before
    [interval] starts. *)
Definition expire (interval : LiveInterval) (st : ScanState) : ScanState :=
  let expired :=
    List.filter (fun '(_, (iv, _)) => (end_ iv <? start interval)%Z) (active st) in
  mkScanState (allocation st)
    (freeRegs st ++ map (fun '(_, (_, reg)) => reg) expired)
    (fold_left (fun a '(v, _) => SMap.erase v a) expired (active st)).

(** The active interval that ends last: the first one, in key order, whose
    end exceeds every earlier one. *)
Definition find_victim (act : SMap.t (LiveInterval * string)) : string * Z :=
  fold_left
    (fun '(victimVar, latestEnd) '(v, (iv, _)) =>
       if (latestEnd <? end_ iv)%Z then (v, end_ iv) else (victimVar, latestEnd))
    act ("", (-1)%Z).

Definition scan_interval (st0 : ScanState) (interval : LiveInterval) : ScanState :=
  let st := expire interval st0 in
  match freeRegs st with
  | [] =>
      let '(victimVar, latestEnd) := find_victim (active st) in
      if (end_ interval <? latestEnd)%Z && negb (String.eqb victimVar "") then
        let reg :=
          match SMap.find victimVar (active st) with
          | Some (_, r) => r
          | None => ""
          end in
        let allocation' := SMap.insert (var interval) reg (allocation st) in
        let active1 := SMap.erase victimVar (active st) in
        mkScanState allocation' (freeRegs st ++ [reg])
          (SMap.insert (var interval) (interval, reg) active1)
      else st
  | _ :: _ =>
      let reg := List.last (freeRegs st) "" in
      mkScanState (SMap.insert (var interval) reg (allocation st))
        (removelast (freeRegs st))
        (SMap.insert (var interval) (interval, reg) (active st))
  end.

(** [LinearScanRegisterAllocator::allocate]. *)
Definition linear_scan_allocate (instructions : list Instr)
    (availableRegs : list Register) : SMap.t string :=
  let intervals := sort_intervals (computeLiveIntervals instructions) in
  let freeRegs0 :=
    map name
      (List.filter (fun reg => isCalleeSaved reg && negb (String.eqb (name reg) "fp")
                          && negb (String.eqb (name reg) "s0"))
         availableRegs) in
  allocation (fold_left scan_interval intervals (mkScanState [] freeRegs0 [])).

(** [GraphColoringRegisterAllocator::buildInterferenceGraph]: two names
    interfere when their lifetimes overlap. *)
Definition overlap (l1 l2 : Z * Z) : bool :=
  (Z.max l1.1 l2.1 <=? Z.min l1.2 l2.2)%Z.

Definition add_edge (g : SMap.t (gset string)) (a b : string)
  : SMap.t (gset string) :=
  let na := default ∅ (SMap.find a g) in
  let g1 := SMap.insert a ({[b]} ∪ na) g in
  let nb := default ∅ (SMap.find b g1) in
  SMap.insert b ({[a]} ∪ nb) g1.

Definition buildInterferenceGraph (instructions : list Instr)
  : SMap.t (gset string) :=
  let varLifetimes := lifetimes instructions in
  let graph0 :=
    fold_left (fun g '(v, _) => SMap.insert v (∅ : gset string) g)
      varLifetimes [] in
  fold_left
    (fun g '(var1, lifetime1) =>
       fold_left
         (fun g' '(var2, lifetime2) =>
            if negb (String.eqb var1 var2) && overlap lifetime1 lifetime2
            then add_edge g' var1 var2
            else g')
         varLifetimes g)
    varLifetimes graph0.

(** [simplify]: repeatedly removes the first node of minimum degree. The
    loop runs once per node of the graph. *)
Definition min_degree_node (workGraph : SMap.t (gset string)) : string :=
  (fold_left
     (fun '(nodeToRemove, minDegree) '(node, neighbors) =>
        if (Z.of_nat (size neighbors) <? minDegree)%Z
        then (node, Z.of_nat (size neighbors))
        else (nodeToRemove, minDegree))
     workGraph ("", Int32.max_signed)).1.

Fixpoint simplify_loop (fuel : nat) (workGraph : SMap.t (gset string))
    (simplifiedOrder : list string) : list string :=
  match fuel with
  | O => simplifiedOrder
  | S fuel' =>
      match workGraph with
      | [] => simplifiedOrder
      | _ :: _ =>
          let nodeToRemove := min_degree_node workGraph in
          let g1 := map (fun '(k, neighbors) => (k, neighbors ∖ {[nodeToRemove]}))
                      workGraph in
          let g2 := SMap.erase nodeToRemove g1 in
          simplify_loop fuel' g2 (simplifiedOrder ++ [nodeToRemove])
      end
  end.

Definition simplify (graph : SMap.t (gset string)) : list string :=
  rev (simplify_loop (length graph) graph []).

(** [color]: each name, in the given order, takes the first register that
    none of its already coloured neighbours holds. *)
Definition color_step (originalGraph : SMap.t (gset string))
    (regNames : list string) (allocation : SMap.t string) (v : string)
  : SMap.t string :=
  match SMap.find v originalGraph with
  | None => allocation
  | Some neighbors =>
      let usedColors : gset string :=
        list_to_set
          (omap (fun neighbor => SMap.find neighbor allocation)
             (elements neighbors)) in
      let selectedReg :=
        default "" (List.find (fun reg => bool_decide (reg ∉ usedColors)) regNames) in
      if negb (String.eqb selectedReg "")
      then SMap.insert v selectedReg allocation
      else allocation
  end.

Definition color (simplifiedOrder : list string)
    (originalGraph : SMap.t (gset string)) (availableRegs : list Register)
  : SMap.t string :=
  let regNames :=
    map name (List.filter (fun reg => isAllocatable reg && negb (isReserved reg))
                availableRegs) in
  fold_left (color_step originalGraph regNames) simplifiedOrder [].

(** [GraphColoringRegisterAllocator::allocate]. *)
Definition graph_coloring_allocate (instructions : list Instr)
    (availableRegs : list Register) : SMap.t string :=
  let interferenceGraph := buildInterferenceGraph instructions in
  match interferenceGraph with
  | [] => []
  | _ :: _ => color (simplify interferenceGraph) interferenceGraph availableRegs
  end.

(** Two names whose lifetimes overlap hold the same register. *)
Definition conflict (instructions : list Instr) (alloc : SMap.t string)
    (a b : string) : bool :=
  match SMap.find a (lifetimes instructions), SMap.find b (lifetimes instructions),
        SMap.find a alloc, SMap.find b alloc with
  | Some la, Some lb, Some ra, Some rb =>
      negb (String.eqb a b) && overlap la lb && String.eqb ra rb
  | _, _, _, _ => false
  end.

End Allocators.

End RegAlloc.

(** *** The naive allocator ([NaiveRegisterAllocator::allocate]) *)

Module NaiveAlloc.
Import RegAlloc.

Section Allocator.

Context {Instr : Type}.
Variable getDefinedVariables : Instr -> list string.
Variable getUsedVariables : Instr -> list string.

(** The [std::set] of the names the instructions define or use, walked
    in the order of its keys. *)
Definition variables (instructions : list Instr) : list string :=
  map fst
    (fold_left
       (fun (vars : SMap.t unit) instr =>
          fold_left (fun s v => SMap.insert v tt s) (getUsedVariables instr)
            (fold_left (fun s v => SMap.insert v tt s) (getDefinedVariables instr)
               vars))
       instructions []).

(** The registers to hand out: the allocatable callee-saved ones, and
    after them, when these are fewer than [count], the allocatable
    caller-saved ones that are not in the list yet. *)
Definition candidates (availableRegs : list Register) (count : nat) : list string :=
  let allocatableRegs :=
    map name
      (List.filter (fun reg => isAllocatable reg && isCalleeSaved reg) availableRegs) in
  if (length allocatableRegs <? count)%nat then
    fold_left
      (fun regs reg =>
         if isAllocatable reg && isCallerSaved reg
            && negb (existsb (String.eqb (name reg)) regs)
         then regs ++ [name reg]
         else regs)
      availableRegs allocatableRegs
  else allocatableRegs.

(** The last loop: the variables take the registers in turn until one
    of the two lists ends. *)
Fixpoint assign (vars regs : list string) (allocation : SMap.t string)
  : SMap.t string :=
  match vars, regs with
  | var :: vars', reg :: regs' => assign vars' regs' (SMap.insert var reg allocation)
  | _, _ => allocation
  end.

Definition naive_allocate (instructions : list Instr)
    (availableRegs : list Register) : SMap.t string :=
  let vars := variables instructions in
  assign vars (candidates availableRegs (length vars)) [].

End Allocator.

End NaiveAlloc.

(** *** RV32 assembly

    Both code generators write assembly text; the lines they write are
    kept here as instructions, [Asm.text] giving back the text handed to
    [emit] / [emitInstruction]. *)

Module Asm.

Inductive Instr : Type :=
| Li (rd : string) (imm : Z)
| Mv (rd rs : string)
| Addi (rd rs : string) (imm : Z)
| Add (rd rs1 rs2 : string)
| Sub (rd rs1 rs2 : string)
| Mul (rd rs1 rs2 : string)
| Div (rd rs1 rs2 : string)
| Rem (rd rs1 rs2 : string)
| Slt (rd rs1 rs2 : string)
| Xor (rd rs1 rs2 : string)
| Xori (rd rs : string) (imm : Z)
| Seqz (rd rs : string)
| Snez (rd rs : string)
| Neg (rd rs : string)
| Lw (rd : string) (offset : Z) (base : string)
| Sw (rs : string) (offset : Z) (base : string)
| Beqz (rs label : string)
| Bnez (rs label : string)
| J (label : string)
| Call (callee : string)
| Ret
| LabelDef (label : string)
| Comment (text : string).

Definition text (i : Instr) : string :=
  match i with
  | Li rd imm => "li " +:+ rd +:+ ", " +:+ pretty imm
  | Mv rd rs => "mv " +:+ rd +:+ ", " +:+ rs
  | Addi rd rs imm => "addi " +:+ rd +:+ ", " +:+ rs +:+ ", " +:+ pretty imm
  | Add rd a b => "add " +:+ rd +:+ ", " +:+ a +:+ ", " +:+ b
  | Sub rd a b => "sub " +:+ rd +:+ ", " +:+ a +:+ ", " +:+ b
  | Mul rd a b => "mul " +:+ rd +:+ ", " +:+ a +:+ ", " +:+ b
  | Div rd a b => "div " +:+ rd +:+ ", " +:+ a +:+ ", " +:+ b
  | Rem rd a b => "rem " +:+ rd +:+ ", " +:+ a +:+ ", " +:+ b
  | Slt rd a b => "slt " +:+ rd +:+ ", " +:+ a +:+ ", " +:+ b
  | Xor rd a b => "xor " +:+ rd +:+ ", " +:+ a +:+ ", " +:+ b
  | Xori rd rs imm => "xori " +:+ rd +:+ ", " +:+ rs +:+ ", " +:+ pretty imm
  | Seqz rd rs => "seqz " +:+ rd +:+ ", " +:+ rs
  | Snez rd rs => "snez " +:+ rd +:+ ", " +:+ rs
  | Neg rd rs => "neg " +:+ rd +:+ ", " +:+ rs
  | Lw rd off base => "lw " +:+ rd +:+ ", " +:+ pretty off +:+ "(" +:+ base +:+ ")"
  | Sw rs off base => "sw " +:+ rs +:+ ", " +:+ pretty off +:+ "(" +:+ base +:+ ")"
  | Beqz rs l => "beqz " +:+ rs +:+ ", " +:+ l
  | Bnez rs l => "bnez " +:+ rs +:+ ", " +:+ l
  | J l => "j " +:+ l
  | Call f => "call " +:+ f
  | Ret => "ret"
  | LabelDef l => l +:+ ":"
  | Comment t => "# " +:+ t
  end.

(** **** Execution of a straight piece of code

    Registers hold 32-bit values and are known under two names, [x0] to
    [x31] and the names of the calling convention; [x0] reads as 0 and
    ignores writes. A branch goes to the position of its label. [call]
    and [ret] leave the piece of code and are not run. *)

Record Machine : Type := mkMachine {
  pc : nat;
  regs : string -> Z;
  mem : Z -> Z;
  executed : list nat   (* the positions executed so far *)
}.

(** The names of the calling convention, with the register each one
    stands for. *)
Definition abi_names : list (string * string) :=
  [("zero", "x0"); ("ra", "x1"); ("sp", "x2"); ("gp", "x3"); ("tp", "x4");
   ("t0", "x5"); ("t1", "x6"); ("t2", "x7"); ("s0", "x8"); ("fp", "x8");
   ("s1", "x9"); ("a0", "x10"); ("a1", "x11"); ("a2", "x12"); ("a3", "x13");
   ("a4", "x14"); ("a5", "x15"); ("a6", "x16"); ("a7", "x17"); ("s2", "x18");
   ("s3", "x19"); ("s4", "x20"); ("s5", "x21"); ("s6", "x22"); ("s7", "x23");
   ("s8", "x24"); ("s9", "x25"); ("s10", "x26"); ("s11", "x27"); ("t3", "x28");
   ("t4", "x29"); ("t5", "x30"); ("t6", "x31")].

Definition canon (r : string) : string :=
  match List.find (fun p => String.eqb r p.1) abi_names with
  | Some p => p.2
  | None => r
  end.

Definition get (m : Machine) (r : string) : Z :=
  if String.eqb (canon r) "x0" then 0%Z else regs m (canon r).

Definition set_reg (r : string) (v : Z) (m : Machine) : string -> Z :=
  if String.eqb (canon r) "x0" then regs m
  else fun r' => if String.eqb r' (canon r) then Int32.wrap v else regs m r'.

Fixpoint label_position (l : string) (code : list Instr) : option nat :=
  match code with
  | [] => None
  | LabelDef l' :: code' =>
      if String.eqb l l' then Some O else option_map S (label_position l code')
  | _ :: code' => option_map S (label_position l code')
  end.

Definition next (m : Machine) (rs : string -> Z) (mm : Z -> Z) : Machine :=
  mkMachine (S (pc m)) rs mm (executed m ++ [pc m]).

Definition jump (m : Machine) (target : nat) : Machine :=
  mkMachine target (regs m) (mem m) (executed m ++ [pc m]).

Definition step (code : list Instr) (m : Machine) : option Machine :=
  match nth_error code (pc m) with
  | None => None
  | Some i =>
      let write (rd : string) (v : Z) := Some (next m (set_reg rd v m) (mem m)) in
      let branch (taken : bool) (l : string) :=
        if taken then option_map (jump m) (label_position l code)
        else Some (next m (regs m) (mem m)) in
      match i with
      | Li rd imm => write rd imm
      | Mv rd rs => write rd (get m rs)
      | Addi rd rs imm => write rd (get m rs + imm)%Z
      | Add rd a b => write rd (get m a + get m b)%Z
      | Sub rd a b => write rd (get m a - get m b)%Z
      | Mul rd a b => write rd (get m a * get m b)%Z
      | Div rd a b =>
          write rd (if (get m b =? 0)%Z then (-1)%Z else Z.quot (get m a) (get m b))
      | Rem rd a b =>
          write rd (if (get m b =? 0)%Z then get m a else Z.rem (get m a) (get m b))
      | Slt rd a b => write rd (Int32.of_bool (get m a <? get m b)%Z)
      | Xor rd a b => write rd (Z.lxor (get m a) (get m b))
      | Xori rd rs imm => write rd (Z.lxor (get m rs) imm)
      | Seqz rd rs => write rd (Int32.of_bool (get m rs =? 0)%Z)
      | Snez rd rs => write rd (Int32.of_bool (negb (get m rs =? 0)%Z))
      | Neg rd rs => write rd (- get m rs)%Z
      | Lw rd off base => write rd (mem m (get m base + off)%Z)
      | Sw rs off base =>
          let a := (get m base + off)%Z in
          Some (next m (regs m)
                  (fun a' => if (a' =? a)%Z then get m rs else mem m a'))
      | Beqz rs l => branch (get m rs =? 0)%Z l
      | Bnez rs l => branch (negb (get m rs =? 0)%Z) l
      | J l => branch true l
      | LabelDef _ | Comment _ => Some (next m (regs m) (mem m))
      | Call _ | Ret => None
      end
  end.

(** Runs until the position falls off the end of the code. *)
Fixpoint run (fuel : nat) (code : list Instr) (m : Machine) : option Machine :=
  match fuel with
  | O => None
  | S fuel' =>
      if (length code <=? pc m)%nat then Some m
      else match step code m with
           | None => None
           | Some m' => run fuel' code m'
           end
  end.

Definition start (rs : string -> Z) (mm : Z -> Z) : Machine :=
  mkMachine 0 rs mm [].

End Asm.

(** *** Code generator of the TOYC2 compiler ([src/code_generator.cpp]) *)

Module Toyc2Codegen.
Import Toyc2.

Record CodeGenerator : Type := mkCodeGenerator {
  output : list Asm.Instr;
  next_label_id : nat;
  register_used : list bool;
  symbol_table : SymbolTable
}.

(** The registers under the names [code_generator.h] gives them in
    [namespace RISCV]. *)
Definition T0 : string := "x5".
Definition T1 : string := "x6".
Definition T2 : string := "x7".
Definition T3 : string := "x28".
Definition T4 : string := "x29".
Definition T5 : string := "x30".
Definition T6 : string := "x31".
Definition A0 : string := "x10".

Definition temp_registers : list string := [T0; T1; T2; T3; T4; T5; T6].

(** The generator as its constructor leaves it. *)
Definition init (sym_table : SymbolTable) : CodeGenerator :=
  mkCodeGenerator [] 0 (replicate (length temp_registers) false) sym_table.

Definition emit (i : Asm.Instr) (g : CodeGenerator) : CodeGenerator :=
  mkCodeGenerator (output g ++ [i]) (next_label_id g) (register_used g)
    (symbol_table g).

Definition emit_label (label : string) : CodeGenerator -> CodeGenerator :=
  emit (Asm.LabelDef label).

Definition generate_label (prefix : string) (g : CodeGenerator)
  : string * CodeGenerator :=
  (prefix +:+ "_" +:+ pretty (next_label_id g),
   mkCodeGenerator (output g) (S (next_label_id g)) (register_used g)
     (symbol_table g)).

Definition set_register_used (used : list bool) (g : CodeGenerator) :=
  mkCodeGenerator (output g) (next_label_id g) used (symbol_table g).

Definition push_register (reg : string) (g : CodeGenerator) : CodeGenerator :=
  emit (Asm.Sw reg 0 "sp") (emit (Asm.Addi "sp" "sp" (-4)) g).

Definition pop_register (reg : string) (g : CodeGenerator) : CodeGenerator :=
  emit (Asm.Addi "sp" "sp" 4) (emit (Asm.Lw reg 0 "sp") g).

(** Index of the first element for which [p] holds. *)
Fixpoint index_where {A} (p : A -> bool) (l : list A) : option nat :=
  match l with
  | [] => None
  | x :: l' => if p x then Some O else option_map S (index_where p l')
  end.

Definition allocate_temp_register (g : CodeGenerator) : string * CodeGenerator :=
  match index_where negb (register_used g) with
  | Some i =>
      (nth i temp_registers "", set_register_used (<[i := true]> (register_used g)) g)
  | None =>
      (* no free temporary: [t0] is pushed and handed out again *)
      let reg := nth 0 temp_registers "" in
      (reg, push_register reg g)
  end.

Definition free_temp_register (reg : string) (g : CodeGenerator) : CodeGenerator :=
  match index_where (String.eqb reg) temp_registers with
  | Some index => set_register_used (<[index := false]> (register_used g)) g
  | None => g
  end.

Definition load_variable (name : string) (g : CodeGenerator)
  : string * CodeGenerator :=
  match SymbolTableOps.lookup_symbol (symbol_table g) name with
  | None =>
      let '(reg, g1) := allocate_temp_register g in
      (reg, emit (Asm.Li reg 0) g1)
  | Some symbol =>
      let '(reg, g1) := allocate_temp_register g in
      (reg, emit (Asm.Lw reg (stack_offset symbol) "sp") g1)
  end.

(** The temporaries in use, with their registers, in index order. *)
Definition used_temporaries (g : CodeGenerator) : list string :=
  map fst (List.filter (fun p => p.2) (zip temp_registers (register_used g))).

Definition save_caller_saved_registers (g : CodeGenerator) : CodeGenerator :=
  fold_left (fun g' reg => push_register reg g') (used_temporaries g) g.

Definition restore_caller_saved_registers (g : CodeGenerator) : CodeGenerator :=
  fold_left (fun g' reg => pop_register reg g') (rev (used_temporaries g)) g.

(** The instruction(s) of an operator that is not short-circuited. *)
Definition binary_instructions (op : BinaryOperator)
    (result_reg left_reg right_reg : string) : list Asm.Instr :=
  match op with
  | ADD => [Asm.Add result_reg left_reg right_reg]
  | SUB => [Asm.Sub result_reg left_reg right_reg]
  | MUL => [Asm.Mul result_reg left_reg right_reg]
  | DIV => [Asm.Div result_reg left_reg right_reg]
  | MOD => [Asm.Rem result_reg left_reg right_reg]
  | LT => [Asm.Slt result_reg left_reg right_reg]
  | GT => [Asm.Slt result_reg right_reg left_reg]
  | LE => [Asm.Slt result_reg right_reg left_reg; Asm.Xori result_reg result_reg 1]
  | GE => [Asm.Slt result_reg left_reg right_reg; Asm.Xori result_reg result_reg 1]
  | EQ => [Asm.Sub result_reg left_reg right_reg; Asm.Seqz result_reg result_reg]
  | NE => [Asm.Sub result_reg left_reg right_reg; Asm.Snez result_reg result_reg]
  | AND | OR => []
  end.

Definition unary_instruction (op : UnaryOperator) (result_reg operand_reg : string)
  : Asm.Instr :=
  match op with
  | PLUS => Asm.Mv result_reg operand_reg
  | MINUS => Asm.Neg result_reg operand_reg
  | NOT => Asm.Seqz result_reg operand_reg
  end.

Definition emit_all (instrs : list Asm.Instr) (g : CodeGenerator) : CodeGenerator :=
  fold_left (fun g' i => emit i g') instrs g.

(** [generate_expr], with [generate_short_circuit_and],
    [generate_short_circuit_or] and [generate_function_call] in place:
    the register that holds the value, and the generator afterwards. *)
Fixpoint generate_expr (expr : Expr) (g : CodeGenerator) : string * CodeGenerator :=
  match expr with
  | NumberExpr value =>
      let '(reg, g1) := allocate_temp_register g in
      (reg, emit (Asm.Li reg value) g1)
  | VarExpr name => load_variable name g
  | BinaryExpr AND l r =>
      let '(false_label, g1) := generate_label "and_false" g in
      let '(end_label, g2) := generate_label "and_end" g1 in
      let '(result_reg, g3) := allocate_temp_register g2 in
      let '(left_reg, g4) := generate_expr l g3 in
      let g5 := emit (Asm.Beqz left_reg false_label) g4 in
      let '(right_reg, g6) := generate_expr r g5 in
      let g7 := emit (Asm.Mv result_reg right_reg) g6 in
      let g8 := emit (Asm.J end_label) g7 in
      let g9 := emit_label false_label g8 in
      let g10 := emit (Asm.Li result_reg 0) g9 in
      let g11 := emit_label end_label g10 in
      (result_reg, free_temp_register right_reg (free_temp_register left_reg g11))
  | BinaryExpr OR l r =>
      let '(true_label, g1) := generate_label "or_true" g in
      let '(end_label, g2) := generate_label "or_end" g1 in
      let '(result_reg, g3) := allocate_temp_register g2 in
      let '(left_reg, g4) := generate_expr l g3 in
      let g5 := emit (Asm.Bnez left_reg true_label) g4 in
      let '(right_reg, g6) := generate_expr r g5 in
      let g7 := emit (Asm.Mv result_reg right_reg) g6 in
      let g8 := emit (Asm.J end_label) g7 in
      let g9 := emit_label true_label g8 in
      let g10 := emit (Asm.Li result_reg 1) g9 in
      let g11 := emit_label end_label g10 in
      (result_reg, free_temp_register right_reg (free_temp_register left_reg g11))
  | BinaryExpr op l r =>
      let '(left_reg, g1) := generate_expr l g in
      let '(right_reg, g2) := generate_expr r g1 in
      let '(result_reg, g3) := allocate_temp_register g2 in
      let g4 := emit_all (binary_instructions op result_reg left_reg right_reg) g3 in
      (result_reg, free_temp_register right_reg (free_temp_register left_reg g4))
  | UnaryExpr op operand =>
      let '(operand_reg, g1) := generate_expr operand g in
      let '(result_reg, g2) := allocate_temp_register g1 in
      let g3 := emit (unary_instruction op result_reg operand_reg) g2 in
      (result_reg, free_temp_register operand_reg g3)
  | CallExpr name args =>
      let g1 := save_caller_saved_registers g in
      let pass_args :=
        fix pass_args (l : list Expr) (i : nat) (s : CodeGenerator) : CodeGenerator :=
          match l with
          | [] => s
          | a :: l' =>
              if (i <? 8)%nat then
                let '(arg_reg, s1) := generate_expr a s in
                let param_reg := "a" +:+ pretty i in
                let s2 :=
                  if String.eqb arg_reg param_reg then s1
                  else emit (Asm.Mv param_reg arg_reg) s1 in
                pass_args l' (S i) (free_temp_register arg_reg s2)
              else s
          end in
      let g2 := pass_args args 0%nat g1 in
      let g3 := emit (Asm.Call name) g2 in
      (A0, restore_caller_saved_registers g3)
  end.

End Toyc2Codegen.

(** *** Code generator of the IR pipeline ([codegen/codegen.h],
    [codegen.cpp]): the lowering of binary operations *)

Module Codegen.
Import IR.

Record CodeGenerator : Type := mkCodeGenerator {
  output : list Asm.Instr;
  registers : list RegAlloc.Register;
  nextTempReg : nat;
  usedCallerSavedRegs : gset string;
  labelCount : nat;
  regAlloc : SMap.t string;
  localVars : SMap.t Z;
  currentFunctionParams : list string;
  currentStackOffset : Z;
  localVarsSize : Z
}.

Definition tempRegs : list string :=
  ["t0"; "t1"; "t2"; "t3"; "t4"; "t5"; "t6"].

Definition emit (i : Asm.Instr) (g : CodeGenerator) : CodeGenerator :=
  mkCodeGenerator (output g ++ [i]) (registers g) (nextTempReg g)
    (usedCallerSavedRegs g) (labelCount g) (regAlloc g) (localVars g)
    (currentFunctionParams g) (currentStackOffset g) (localVarsSize g).

Definition emitInstruction := emit.
Definition emitLabel (label : string) := emit (Asm.LabelDef label).
Definition emitComment (comment : string) := emit (Asm.Comment comment).

Definition genLabel (g : CodeGenerator) : string * CodeGenerator :=
  ("L" +:+ pretty (labelCount g),
   mkCodeGenerator (output g) (registers g) (nextTempReg g)
     (usedCallerSavedRegs g) (S (labelCount g)) (regAlloc g) (localVars g)
     (currentFunctionParams g) (currentStackOffset g) (localVarsSize g)).

Definition set_used (b : bool) (r : RegAlloc.Register) : RegAlloc.Register :=
  RegAlloc.mkRegister (RegAlloc.name r) (RegAlloc.isCallerSaved r)
    (RegAlloc.isCalleeSaved r) (RegAlloc.isAllocatable r)
    (RegAlloc.isReserved r) (RegAlloc.purpose r) b.

(** Marks the first register of that name as used; [None] when it
    already is. *)
Fixpoint claim (name : string) (rs : list RegAlloc.Register)
  : option (list RegAlloc.Register * bool) :=
  match rs with
  | [] => Some ([], false)
  | r :: rs' =>
      if String.eqb (RegAlloc.name r) name then
        if RegAlloc.isUsed r then None
        else Some (set_used true r :: rs', true)
      else
        match claim name rs' with
        | None => None
        | Some (rs'', found) => Some (r :: rs'', found)
        end
  end.

(** [allocTempReg]: the temporaries are handed out in turn; the name is
    empty when the register is found in use. *)
Definition allocTempReg (g : CodeGenerator) : string * CodeGenerator :=
  let '(next, regs) :=
    if (length tempRegs <=? nextTempReg g)%nat
    then (0%nat, map (set_used false) (registers g))
    else (nextTempReg g, registers g) in
  let reg := nth next tempRegs "" in
  match claim reg regs with
  | None =>
      ("", mkCodeGenerator (output g) regs next (usedCallerSavedRegs g)
             (labelCount g) (regAlloc g) (localVars g)
             (currentFunctionParams g) (currentStackOffset g) (localVarsSize g))
  | Some (regs', found) =>
      (reg,
       mkCodeGenerator (output g) regs' (S next)
         (if found then {[reg]} ∪ usedCallerSavedRegs g else usedCallerSavedRegs g)
         (labelCount g) (regAlloc g) (localVars g)
         (currentFunctionParams g) (currentStackOffset g) (localVarsSize g))
  end.

(** [freeTempReg] has an empty body. *)
Definition freeTempReg (reg : string) (g : CodeGenerator) : CodeGenerator := g.

Definition isValidRegister (reg : string) (g : CodeGenerator) : bool :=
  existsb (fun r => String.eqb (RegAlloc.name r) reg) (registers g).

(** [getOperandOffset] of a variable or temporary: the slot it has, or a
    new one below the last. *)
Definition getOperandOffset (op : Operand) (g : CodeGenerator) : Z * CodeGenerator :=
  if negb (bool_decide (op_type op = VARIABLE)) && negb (bool_decide (op_type op = TEMP))
  then (0%Z, g)
  else
    match SMap.find (op_name op) (localVars g) with
    | Some offset => (offset, g)
    | None =>
        let offset := currentStackOffset g in
        let is_param := existsb (String.eqb (op_name op)) (currentFunctionParams g) in
        (offset,
         mkCodeGenerator (output g) (registers g) (nextTempReg g)
           (usedCallerSavedRegs g) (labelCount g) (regAlloc g)
           (SMap.insert (op_name op) offset (localVars g))
           (currentFunctionParams g) (offset - 4)%Z
           (if is_param then localVarsSize g else (localVarsSize g + 4)%Z))
    end.

(** The register a name was allocated, when it is a known register. *)
Definition allocated_register (name : string) (g : CodeGenerator) : option string :=
  match SMap.find name (regAlloc g) with
  | Some r => if isValidRegister r g then Some r else None
  | None => None
  end.

Definition loadOperand (op : Operand) (reg : string) (g : CodeGenerator)
  : CodeGenerator :=
  match op_type op with
  | CONSTANT => emitInstruction (Asm.Li reg (op_value op)) g
  | VARIABLE | TEMP =>
      match allocated_register (op_name op) g with
      | Some r => emitInstruction (Asm.Addi reg r 0) g
      | None =>
          let '(offset, g1) := getOperandOffset op g in
          if (Z.abs offset <=? 2047)%Z
          then emitInstruction (Asm.Lw reg offset "fp") g1
          else
            let tempReg := if negb (String.eqb reg "t0") then "t0" else "t1" in
            emitInstruction (Asm.Lw reg 0 tempReg)
              (emitInstruction (Asm.Add tempReg "fp" tempReg)
                 (emitInstruction (Asm.Li tempReg offset) g1))
      end
  | LABEL => g
  end.

Definition storeRegister (reg : string) (op : Operand) (g : CodeGenerator)
  : CodeGenerator :=
  if bool_decide (op_type op = VARIABLE) || bool_decide (op_type op = TEMP) then
    match allocated_register (op_name op) g with
    | Some r =>
        if negb (String.eqb reg r) then emitInstruction (Asm.Addi r reg 0) g else g
    | None =>
        let '(offset, g1) := getOperandOffset op g in
        if (Z.abs offset <=? 2047)%Z
        then emitInstruction (Asm.Sw reg offset "fp") g1
        else
          let tempReg := if negb (String.eqb reg "t0") then "t0" else "t1" in
          emitInstruction (Asm.Sw reg 0 tempReg)
            (emitInstruction (Asm.Add tempReg "fp" tempReg)
               (emitInstruction (Asm.Li tempReg offset) g1))
    end
  else g.

Definition arithmetic_instructions (opcode : OpCode)
    (resultReg leftReg rightReg : string) : list Asm.Instr :=
  match opcode with
  | ADD => [Asm.Add resultReg leftReg rightReg]
  | SUB => [Asm.Sub resultReg leftReg rightReg]
  | MUL => [Asm.Mul resultReg leftReg rightReg]
  | DIV => [Asm.Div resultReg leftReg rightReg]
  | MOD => [Asm.Rem resultReg leftReg rightReg]
  | LT => [Asm.Slt resultReg leftReg rightReg]
  | GT => [Asm.Slt resultReg rightReg leftReg]
  | LE => [Asm.Slt resultReg rightReg leftReg; Asm.Xori resultReg resultReg 1]
  | GE => [Asm.Slt resultReg leftReg rightReg; Asm.Xori resultReg resultReg 1]
  | EQ => [Asm.Xor resultReg leftReg rightReg; Asm.Seqz resultReg resultReg]
  | NE => [Asm.Xor resultReg leftReg rightReg; Asm.Snez resultReg resultReg]
  | _ => []
  end.

Section WithToString.

(** [IRInstr::toString], used for the comment in front of the code of an
    instruction, is defined in the absent [ir.cpp]. *)
Variable toString : IRInstr -> string.

(** [processBinaryOp] for [BinaryOpInstr(opcode, result, left, right)]. *)
Definition processBinaryOp (opcode : OpCode) (result l r : Operand)
    (g : CodeGenerator) : CodeGenerator :=
  let g0 := emitComment (toString (BinaryOpInstr opcode result l r)) g in
  let '(resultReg, g1) := allocTempReg g0 in
  let g_done :=
    if bool_decide (opcode = AND) || bool_decide (opcode = OR) then
      let '(leftReg, g2) := allocTempReg g1 in
      let g3 := loadOperand l leftReg g2 in
      let '(endLabel, g4) := genLabel g3 in
      let '(shortCircuitLabel, g5) := genLabel g4 in
      let g6 :=
        if bool_decide (opcode = AND) then
          let s1 := emitInstruction (Asm.Beqz leftReg shortCircuitLabel) g5 in
          let '(rightReg, s2) := allocTempReg s1 in
          let s3 := loadOperand r rightReg s2 in
          let s4 := emitInstruction (Asm.Snez resultReg rightReg) s3 in
          let s5 := freeTempReg rightReg s4 in
          let s6 := emitInstruction (Asm.J endLabel) s5 in
          let s7 := emitLabel shortCircuitLabel s6 in
          emitInstruction (Asm.Li resultReg 0) s7
        else
          let s1 := emitInstruction (Asm.Bnez leftReg shortCircuitLabel) g5 in
          let '(rightReg, s2) := allocTempReg s1 in
          let s3 := loadOperand r rightReg s2 in
          let s4 := emitInstruction (Asm.Snez resultReg rightReg) s3 in
          let s5 := freeTempReg rightReg s4 in
          let s6 := emitInstruction (Asm.J endLabel) s5 in
          let s7 := emitLabel shortCircuitLabel s6 in
          emitInstruction (Asm.Li resultReg 1) s7 in
      freeTempReg leftReg (emitLabel endLabel g6)
    else
      let '(leftReg, g2) := allocTempReg g1 in
      let '(rightReg, g3) := allocTempReg g2 in
      let g4 := loadOperand l leftReg g3 in
      let g5 := loadOperand r rightReg g4 in
      let g6 :=
        fold_left (fun s i => emitInstruction i s)
          (arithmetic_instructions opcode resultReg leftReg rightReg) g5 in
      freeTempReg leftReg (freeTempReg rightReg g6) in
  freeTempReg resultReg (storeRegister resultReg result g_done).

End WithToString.

(** The generator inside a function whose prologue has been emitted:
    [resetStackOffset] has put the next slot at [-12]. *)
Definition in_function (params : list string) : CodeGenerator :=
  mkCodeGenerator [] RegAlloc.registers 0 ∅ 0 [] [] params (-12) 0.

End Codegen.

(** *** [CodeGenerator::generate] ([codegen.cpp]): the way the text of
    the instructions reaches the output stream

    [generate] has every IR instruction processed into a stream of its
    own, reads that text line by line, and either writes a line to the
    output at once or keeps it back in the vector [asmInstructions], which
    is handed to the peephole pass and written at the very end. *)

Module Generate.

Definition newline : string := String "010" EmptyString.
Definition tab : string := String "009" EmptyString.

(** The output helpers: the text each of them writes. *)
Definition emitComment (comment : string) : string := "# " +:+ comment +:+ newline.
Definition emitInstruction (instr : string) : string := tab +:+ instr +:+ newline.
Definition emitLabel (label : string) : string := label +:+ ":" +:+ newline.
Definition emitGlobal (name : string) : string :=
  tab +:+ ".global " +:+ name +:+ newline.

(** The lines [std::getline] reads from a text until it fails: every
    line that a newline ends, and what is left behind the last newline
    when that is not empty. *)
Fixpoint getlines (text : string) : list string :=
  match text with
  | EmptyString => []
  | String c text' =>
      if Ascii.eqb c "010" then EmptyString :: getlines text'
      else match getlines text' with
           | [] => [String c EmptyString]
           | line :: lines => String c line :: lines
           end
  end.

(** [line[0]] and [line.back()] of a line that is not empty. *)
Definition front (line : string) : ascii :=
  match line with
  | String c _ => c
  | EmptyString => "000"
  end.

Fixpoint back (line : string) : ascii :=
  match line with
  | EmptyString => "000"
  | String c line' =>
      match line' with
      | EmptyString => c
      | String _ _ => back line'
      end
  end.

(** The test of [generate] on a line that is not empty: is the line
    kept back in [asmInstructions]? *)
Definition is_queued (line : string) : bool :=
  negb (Ascii.eqb (front line) "#")
  && negb (Ascii.eqb (front line) "009")
  && negb (Ascii.eqb (back line) ":").

(** The body of the [getline] loop, on the text written to [output] so
    far and the vector [asmInstructions]. *)
Definition handle_line (acc : string * list string) (line : string)
  : string * list string :=
  if String.eqb line "" then acc
  else if is_queued line then (acc.1, acc.2 ++ [line])
  else (acc.1 +:+ line +:+ newline, acc.2).

(** The loop over the IR instructions; [asmCode] is the text
    [processInstructionToStream] has written for an instruction. *)
Definition collect (asmCodes : list string) : string * list string :=
  fold_left (fun acc asmCode => fold_left handle_line (getlines asmCode) acc)
    asmCodes (EmptyString, []).

(** [generate] with [optimizeStackLayout] off, as a function of the text
    written for each IR instruction: the text it appends to the output
    stream. [None] is an exception escaping from the peephole pass. *)
Definition generate (enablePeepholeOptimizations : bool) (asmCodes : list string)
  : option string :=
  let '(output, asmInstructions) := collect asmCodes in
  match (if enablePeepholeOptimizations
         then Peephole.peepholeOptimize asmInstructions
         else Some asmInstructions) with
  | None => None
  | Some instructions =>
      Some (fold_left (fun out instr => out +:+ tab +:+ instr +:+ newline)
              instructions output)
  end.

(** What the handlers of [processInstruction] write: each of them writes
    through the helpers, and [processFunctionEnd] ends with an empty
    line. *)
Inductive Write : Type :=
| Comment (comment : string)
| Instruction (instr : string)
| Label (label : string)
| Global (name : string)
| EmptyLine.

Definition written (w : Write) : string :=
  match w with
  | Comment comment => emitComment comment
  | Instruction instr => emitInstruction instr
  | Label label => emitLabel label
  | Global name => emitGlobal name
  | EmptyLine => newline
  end.

Definition asmCode (writes : list Write) : string :=
  fold_right (fun w text => written w +:+ text) EmptyString writes.

Fixpoint has_newline (s : string) : bool :=
  match s with
  | EmptyString => false
  | String c s' => Ascii.eqb c "010" || has_newline s'
  end.

(** The comments, instructions, labels and names handed to the helpers
    hold no newline. *)
Definition on_one_line (w : Write) : bool :=
  match w with
  | Comment s | Instruction s | Label s | Global s => negb (has_newline s)
  | EmptyLine => true
  end.

Definition is_empty_line (w : Write) : bool :=
  match w with
  | EmptyLine => true
  | _ => false
  end.

(** The text of the writes without the empty lines. *)
Definition lines_written (writes : list Write) : string :=
  asmCode (List.filter (fun w => negb (is_empty_line w)) writes).

End Generate.

(* ===================================================================== *)
(** * Verification *)
(* ===================================================================== *)

(** ** The AST optimizer: folding and simplification *)

Section OptimizerFacts.
Import Toyc2 Toyc2.Optimizer Toyc2.Semantics.

Lemma zero_in_range : Int32.in_range 0.
Proof. unfold Int32.in_range, Int32.min_signed, Int32.max_signed. lia. Qed.

Lemma eval_binary_in_range op a b :
  Int32.in_range a -> Int32.in_range (eval_binary op a b).
Proof.
  intros Ha. destruct op; simpl;
    try apply Int32.wrap_in_range; try apply Int32.of_bool_in_range.
  - destruct (b =? 0)%Z; [apply zero_in_range |].
    destruct (Int32.div a b) as [q |] eqn:E; [| apply zero_in_range].
    by apply (Int32.div_in_range a b).
  - destruct (b =? 0)%Z; [apply zero_in_range |].
    destruct (Int32.rem a b) as [q |] eqn:E; [| apply zero_in_range].
    by apply (Int32.rem_in_range a b).
Qed.

Lemma eval_unary_in_range op a :
  Int32.in_range a -> Int32.in_range (eval_unary op a).
Proof.
  intros Ha. destruct op; simpl; [exact Ha | apply Int32.wrap_in_range |].
  destruct (Int32.truth a);
    unfold Int32.in_range, Int32.min_signed, Int32.max_signed; lia.
Qed.

(** The optimizer computes each operator as the language defines it,
    wherever the language gives the operation a value. *)
Lemma apply_binary_value op a b v :
  apply_binary op a b = Value v -> eval_binary op a b = v.
Proof.
  unfold apply_binary, eval_binary, Int32.add, Int32.sub, Int32.mul,
    Int32.div, Int32.rem, Int32.division_traps, Int32.of_bool.
  destruct op; try discriminate; try (by intros [= <-]).
  - destruct (b =? 0)%Z; [discriminate |].
    destruct ((a =? Int32.min_signed)%Z && (b =? -1)%Z); [discriminate |].
    by intros [= <-].
  - destruct (b =? 0)%Z; [discriminate |].
    destruct ((a =? Int32.min_signed)%Z && (b =? -1)%Z); [discriminate |].
    by intros [= <-].
  - intros [= <-]. by rewrite Z.gtb_ltb.
  - intros [= <-]. by rewrite Z.geb_leb.
  - intros [= <-]. by destruct (a =? b)%Z.
Qed.

Lemma apply_unary_value op a : eval_unary op a = apply_unary op a.
Proof.
  destruct op; try reflexivity.
  unfold eval_unary, apply_unary, Int32.truth. by destruct (a =? 0)%Z.
Qed.

Lemma apply_binary_in_range op a b v :
  Int32.in_range a -> apply_binary op a b = Value v -> Int32.in_range v.
Proof.
  intros Ha H. rewrite <- (apply_binary_value op a b v H).
  by apply eval_binary_in_range.
Qed.

(** The shape of [eval] on the operators that evaluate both operands. *)
Definition eval_strict (env : string -> Z) (op : BinaryOperator) (l r : Expr)
  : outcome :=
  match eval env l with
  | Value a =>
      match eval env r with
      | Value b => apply_binary op a b
      | o => o
      end
  | o => o
  end.

Lemma eval_BinaryExpr_strict env op l r :
  op <> AND -> op <> OR ->
  eval env (BinaryExpr op l r) = eval_strict env op l r.
Proof. intros H1 H2. destruct op; try reflexivity; congruence. Qed.

Lemma truth_value_in_range (b : bool) : Int32.in_range (if b then 1 else 0).
Proof. destruct b; unfold Int32.in_range, Int32.min_signed, Int32.max_signed; lia. Qed.

Lemma eval_in_range env e v :
  env_in_range env -> literals_in_range e = true ->
  eval env e = Value v -> Int32.in_range v.
Proof.
  intros Henv. revert v.
  induction e as [n | x | op l r IHl IHr | op e IHe | f args _] using Expr_ind';
    intros v Hlit Hev.
  - simpl in *. injection Hev as <-. apply andb_true_iff in Hlit as [H1 H2].
    unfold Int32.in_range. lia.
  - simpl in *. injection Hev as <-. apply Henv.
  - simpl in Hlit. apply andb_true_iff in Hlit as [Hl Hr].
    destruct (decide (op = AND)) as [-> | HnA]; [| destruct (decide (op = OR)) as [-> | HnO]].
    + simpl in Hev. destruct (eval env l) as [a | | |]; try discriminate.
      destruct (is_true a).
      * destruct (eval env r) as [b | | |]; try discriminate.
        injection Hev as <-. apply truth_value_in_range.
      * injection Hev as <-. apply zero_in_range.
    + simpl in Hev. destruct (eval env l) as [a | | |]; try discriminate.
      destruct (is_true a).
      * injection Hev as <-. apply (truth_value_in_range true).
      * destruct (eval env r) as [b | | |]; try discriminate.
        injection Hev as <-. apply truth_value_in_range.
    + rewrite eval_BinaryExpr_strict in Hev by assumption.
      unfold eval_strict in Hev.
      destruct (eval env l) as [a | | |] eqn:El; try discriminate.
      destruct (eval env r) as [b | | |]; try discriminate.
      eapply apply_binary_in_range; [| exact Hev]. by apply IHl.
  - simpl in *. destruct (eval env e) as [a | | |] eqn:Ee; try discriminate.
    injection Hev as <-. rewrite <- apply_unary_value.
    apply eval_unary_in_range. by apply IHe.
  - discriminate.
Qed.

(** On a constant expression whose evaluation is defined, the optimizer's
    evaluator computes the value of the reference semantics. *)
Lemma evaluate_constant_expr_eval env e v :
  is_constant_expr e = true -> eval env e = Value v ->
  evaluate_constant_expr e = v.
Proof.
  revert v.
  induction e as [n | x | op l r IHl IHr | op e IHe | f args _] using Expr_ind';
    intros v Hc Hev; try discriminate.
  - simpl in *. by injection Hev.
  - simpl in Hc. apply andb_true_iff in Hc as [Hl Hr].
    destruct (decide (op = AND)) as [-> | HnA]; [| destruct (decide (op = OR)) as [-> | HnO]].
    + simpl in *. destruct (eval env l) as [a | | |]; try discriminate.
      rewrite (IHl a Hl eq_refl). unfold is_true in Hev. unfold Int32.truth.
      destruct (negb (a =? 0)%Z).
      * destruct (eval env r) as [b | | |]; try discriminate.
        rewrite (IHr b Hr eq_refl). injection Hev as <-.
        by destruct (negb (b =? 0)%Z).
      * by injection Hev.
    + simpl in *. destruct (eval env l) as [a | | |]; try discriminate.
      rewrite (IHl a Hl eq_refl). unfold is_true in Hev. unfold Int32.truth.
      destruct (negb (a =? 0)%Z).
      * by injection Hev.
      * destruct (eval env r) as [b | | |]; try discriminate.
        rewrite (IHr b Hr eq_refl). injection Hev as <-.
        by destruct (negb (b =? 0)%Z).
    + rewrite eval_BinaryExpr_strict in Hev by assumption.
      unfold eval_strict in Hev. simpl.
      destruct (eval env l) as [a | | |]; try discriminate.
      destruct (eval env r) as [b | | |]; try discriminate.
      rewrite (IHl a Hl eq_refl), (IHr b Hr eq_refl).
      by apply apply_binary_value.
  - simpl in *. destruct (eval env e) as [a | | |]; try discriminate.
    rewrite (IHe a Hc eq_refl), apply_unary_value. by injection Hev.
Qed.

Lemma eval_strict_inv env op l r v :
  eval_strict env op l r = Value v ->
  exists a b, eval env l = Value a /\ eval env r = Value b
              /\ apply_binary op a b = Value v.
Proof.
  unfold eval_strict.
  destruct (eval env l) as [a | | |]; try discriminate.
  destruct (eval env r) as [b | | |]; try discriminate.
  intros H. by exists a, b.
Qed.

(** Wherever the original expression evaluates to a value, the expression
    returned by [simplify_expression] evaluates to the same value. *)
Lemma simplify_expression_preserves_value env e applied v :
  env_in_range env -> literals_in_range e = true ->
  eval env e = Value v ->
  eval env (simplify_expression e applied).1 = Value v.
Proof.
  intros Henv Hlit Hev.
  destruct e as [n | x | op l r | op e | f args]; try exact Hev.
  - (* BinaryExpr *)
    unfold simplify_expression.
    destruct (constant_folding_binary op l r) as [folded |] eqn:Hfold.
    { unfold constant_folding_binary in Hfold.
      destruct (negb (is_constant_expr l) || negb (is_constant_expr r)) eqn:Hc;
        [discriminate |].
      apply orb_false_iff in Hc as [Hcl Hcr].
      apply negb_false_iff in Hcl, Hcr.
      assert (Hwhole : evaluate_constant_expr (BinaryExpr op l r) = v).
      { apply (evaluate_constant_expr_eval env); [| exact Hev].
        simpl. by rewrite Hcl, Hcr. }
      simpl in Hwhole.
      destruct op; try (injection Hfold as <-; rewrite <- Hwhole; reflexivity);
        destruct (evaluate_constant_expr r =? 0)%Z; try discriminate;
        injection Hfold as <-; rewrite <- Hwhole; reflexivity. }
    simpl in Hlit. apply andb_true_iff in Hlit as [Hll Hlr].
    assert (Hstrict : op <> AND -> op <> OR ->
              exists a b, eval env l = Value a /\ eval env r = Value b
                          /\ eval_binary op a b = v
                          /\ Int32.in_range a /\ Int32.in_range b).
    { intros H1 H2. rewrite eval_BinaryExpr_strict in Hev by assumption.
      destruct (eval_strict_inv _ _ _ _ _ Hev) as (a & b & Ha & Hb & Hab).
      exists a, b.
      exact (conj Ha (conj Hb (conj (apply_binary_value _ _ _ _ Hab)
               (conj (eval_in_range env l a Henv Hll Ha)
                     (eval_in_range env r b Henv Hlr Hb))))). }
    repeat match goal with
    | |- context [if ?c then _ else _] =>
        let E := fresh "E" in destruct c eqn:E; simpl
    end; try exact Hev;
    repeat match goal with
    | H : _ && _ = true |- _ => apply andb_true_iff in H as [? ?]
    | H : bool_decide _ = true |- _ => apply bool_decide_eq_true in H; subst op
    | H : (_ =? _)%Z = true |- _ => apply Z.eqb_eq in H
    end;
    destruct Hstrict as (a & b & Ha & Hb & Hab & Ra & Rb); try discriminate;
    simpl in Hab; subst v.
    + (* x + 0 *)
      rewrite (evaluate_constant_expr_eval env r b) in * by assumption. subst b.
      by rewrite Int32.add_0_r.
    + (* 0 + x *)
      rewrite (evaluate_constant_expr_eval env l a) in * by assumption. subst a.
      by rewrite Int32.add_0_l.
    + (* x * 1 *)
      rewrite (evaluate_constant_expr_eval env r b) in * by assumption. subst b.
      by rewrite Int32.mul_1_r.
    + (* 1 * x *)
      rewrite (evaluate_constant_expr_eval env l a) in * by assumption. subst a.
      by rewrite Int32.mul_1_l.
    + (* x * 0 and 0 * x *)
      match goal with
      | H : _ || _ = true |- _ =>
          apply orb_true_iff in H as [H | H];
          apply andb_true_iff in H as [Hc Hz]; apply Z.eqb_eq in Hz
      end.
      * rewrite (evaluate_constant_expr_eval env l a) in Hz by assumption. subst a.
        by rewrite Int32.mul_0_l.
      * rewrite (evaluate_constant_expr_eval env r b) in Hz by assumption. subst b.
        by rewrite Int32.mul_0_r.
    + (* x - 0 *)
      rewrite (evaluate_constant_expr_eval env r b) in * by assumption. subst b.
      by rewrite Int32.sub_0_r.
  - (* UnaryExpr *)
    unfold simplify_expression.
    destruct (constant_folding_unary op e) as [folded |] eqn:Hfold.
    { unfold constant_folding_unary in Hfold.
      destruct (negb (is_constant_expr e)) eqn:Hc; [discriminate |].
      apply negb_false_iff in Hc. injection Hfold as <-.
      pose proof (evaluate_constant_expr_eval env (UnaryExpr op e) v Hc Hev) as H.
      simpl in *. by rewrite H. }
    destruct op; try exact Hev;
      destruct e as [n | x | op' l r | op' e | f args]; try exact Hev;
      destruct op'; try exact Hev; simpl in *.
    + (* - - x *)
      destruct (eval env e) as [a | | |] eqn:Ee; try discriminate.
      injection Hev as <-. f_equal. symmetry. apply Int32.neg_neg.
      by eapply eval_in_range.
    + (* ! ! x *)
      destruct (eval env e) as [a | | |] eqn:Ee; try discriminate.
      injection Hev as <-. unfold apply_binary. simpl. f_equal.
      by destruct (a =? 0)%Z.
Qed.

End OptimizerFacts.

(** ** Claims about the AST optimizer *)

Section OptimizerClaims.
Import Toyc2 Toyc2.Optimizer Toyc2.Semantics.

(** The optimizer never changes the kind of an [if] or [while] node: the
    statement computed by [optimize_if_statement] or
    [optimize_while_statement] is dropped after it has been counted. *)
Lemma visit_keeps_if_and_while node applied node' applied' :
  visit node applied = Some (node', applied') ->
  match node with
  | IfStmt _ _ _ => exists c t e, node' = IfStmt c t e
  | WhileStmt _ _ => exists c b, node' = WhileStmt c b
  | _ => True
  end.
Proof.
  destruct node as [ss | oe | x e | x e | c t e | c b | | | oe]; try done.
  - simpl. destruct (simplify_expression c applied) as [c' n1].
    destruct (optimize_if_statement c' t e) as [opt [tl el]].
    destruct tl; try discriminate.
    destruct (visit t _) as [[t' n3] |]; try discriminate.
    destruct el, e as [e |]; try (intros [= <- <-]; by eauto).
    destruct (visit e n3) as [[e' n4] |]; try discriminate.
    intros [= <- <-]; by eauto.
  - simpl. destruct (simplify_expression c applied) as [c' n1].
    destruct (visit b _) as [[b' n3] |]; try discriminate.
    intros [= <- <-]; by eauto.
Qed.

(** C2 — folding soundness requires that an expression whose evaluation
    divides by zero is never rewritten into one that does not. For
    [x + (1/0)], which contains no call, the reference semantics signals
    [DivisionByZero], yet [simplify_expression] treats the constant right
    operand [1/0] as the value 0 and returns [x], which evaluates to a
    value in every environment. *)
Theorem C2_simplify_drops_division_by_zero :
  forall (env : string -> Z) (applied : nat),
    let E := BinaryExpr ADD (VarExpr "x")
               (BinaryExpr DIV (NumberExpr 1) (NumberExpr 0)) in
    has_side_effects E = false /\
    eval env E = DivisionByZero /\
    simplify_expression E applied = (VarExpr "x", S applied) /\
    eval env (VarExpr "x") = Value (env "x").
Proof. intros env applied. repeat split. Qed.

(** C4 — with optimization enabled, a [while] whose condition is the
    constant 0 and an [if] whose condition is the constant 0 are counted
    as simplified but stay in the tree; when the [if] has an [else]
    branch, that branch is moved out of the node and lost; and when the
    condition is a non-zero constant the then branch is moved out and the
    visitor goes on to call through the null pointer left behind. *)
Theorem C4_dead_branch_rewrites_not_installed :
  let t := AssignStmt "x" (NumberExpr 1) in
  let e := AssignStmt "x" (NumberExpr 2) in
  visit (WhileStmt (NumberExpr 0) t) 0 = Some (WhileStmt (NumberExpr 0) t, 1) /\
  visit (IfStmt (NumberExpr 0) t None) 0
    = Some (IfStmt (NumberExpr 0) t None, 1) /\
  visit (IfStmt (NumberExpr 0) t (Some e)) 0
    = Some (IfStmt (NumberExpr 0) t None, 1) /\
  visit (IfStmt (NumberExpr 1) t (Some e)) 0 = None /\
  optimize true
    [mkFuncDef INT "main" [] [WhileStmt (NumberExpr 0) t; ReturnStmt (Some (NumberExpr 0))]]
    = Some ([mkFuncDef INT "main" []
               [WhileStmt (NumberExpr 0) t; ReturnStmt (Some (NumberExpr 0))]], 1).
Proof. repeat split. Qed.

(** C5 — a multiplication by the constant 0 is rewritten to the literal 0
    whatever the other operand is: [f(args) * 0] and [0 * f(args)] both
    become [0], so the call is deleted although [has_side_effects] reports
    it. *)
Theorem C5_call_times_zero_is_deleted :
  forall (f : string) (args : list Expr) (applied : nat),
    has_side_effects (BinaryExpr MUL (CallExpr f args) (NumberExpr 0)) = true /\
    simplify_expression (BinaryExpr MUL (CallExpr f args) (NumberExpr 0)) applied
      = (NumberExpr 0, S applied) /\
    simplify_expression (BinaryExpr MUL (NumberExpr 0) (CallExpr f args)) applied
      = (NumberExpr 0, S applied) /\
    has_side_effects (NumberExpr 0) = false.
Proof. intros f args applied. repeat split. Qed.

End OptimizerClaims.

(** ** The lexer terminates *)

Section LexerFacts.
Import Lexer.
Variable source : string.

#[local] Arguments advance : simpl never.
#[local] Arguments skip_two : simpl never.

Let len := String.length source.

Lemma get_Some_lt (s : string) n c : String.get n s = Some c -> (n < String.length s)%nat.
Proof.
  revert n. induction s as [| a s IH]; intros [| n] H; simpl in *; try discriminate.
  - lia.
  - apply IH in H. lia.
Qed.

Lemma peek_char_lt st k c :
  c <> NUL -> is_char (peek source st k) c = true -> (position st + k < len)%nat.
Proof.
  intros Hc H. apply Ascii.eqb_eq in H. unfold peek in H.
  destruct (String.get (position st + k) source) as [d |] eqn:E.
  - by apply get_Some_lt in E.
  - congruence.
Qed.

Lemma not_at_end_lt st : isAtEnd source st = false -> (position st < len)%nat.
Proof. unfold isAtEnd. intros H. apply Nat.leb_gt in H. exact H. Qed.

Lemma position_advance st : position (advance source st).2 = S (position st).
Proof. unfold advance. simpl. by destruct (is_char _ _). Qed.

(** A state is [within] when the position has not run past the input. *)
Definition within (st : LexState) : Prop := (position st <= len)%nat.

(** [st'] is reached from [st] without moving backwards. *)
Definition forward (st st' : LexState) : Prop :=
  (position st <= position st')%nat /\ within st'.

(** One unfolding of each loop. *)
Ltac unfold_loop :=
  match goal with
  | |- context [line_comment_loop ?s (S ?f) ?st] =>
      change (line_comment_loop s (S f) st) with
        (if negb (isAtEnd s st) && negb (is_char (peek s st 0) "010")
         then line_comment_loop s f (advance s st).2 else Some st)
  | |- context [block_comment_loop ?s (S ?f) ?st] =>
      change (block_comment_loop s (S f) st) with
        (if negb (isAtEnd s st) then
           if is_char (peek s st 0) "*" && is_char (peek s st 1) "/"
           then Some (skip_two st)
           else if is_char (peek s st 0) "010"
           then block_comment_loop s f
                  (mkLexState (S (position st)) (line st + 1) 1)
           else block_comment_loop s f
                  (mkLexState (S (position st)) (line st) (column st + 1))
         else Some st)
  | |- context [skipWhitespace ?s (S ?f) ?st] =>
      change (skipWhitespace s (S f) st) with
        (if negb (isAtEnd s st) then
           if is_char (peek s st 0) " " || is_char (peek s st 0) "009"
              || is_char (peek s st 0) "013"
           then skipWhitespace s f (advance s st).2
           else if is_char (peek s st 0) "010"
           then skipWhitespace s f (advance s st).2
           else if is_char (peek s st 0) "/" then
             if is_char (peek s st 1) "/" || is_char (peek s st 1) "*" then
               match skipComment s (S (String.length s)) st with
               | Some st' => skipWhitespace s f st'
               | None => None
               end
             else Some st
           else Some st
         else Some st)
  | |- context [identifier_loop ?s (S ?f) ?st] =>
      change (identifier_loop s (S f) st) with
        (if negb (isAtEnd s st)
            && (isalnum (peek s st 0) || is_char (peek s st 0) "_")
         then identifier_loop s f (advance s st).2 else Some st)
  | |- context [number_loop ?s (S ?f) ?st] =>
      change (number_loop s (S f) st) with
        (if negb (isAtEnd s st) && isdigit (peek s st 0)
         then number_loop s f (advance s st).2 else Some st)
  end.

Lemma line_comment_loop_total fuel st :
  within st -> (len - position st < fuel)%nat ->
  exists st', line_comment_loop source fuel st = Some st' /\ forward st st'.
Proof.
  revert st. induction fuel as [| fuel IH]; intros st Hw Hf; [lia |].
  unfold_loop. destruct (isAtEnd source st) eqn:Hend; cbn [negb andb].
  - exists st. unfold forward. auto.
  - apply not_at_end_lt in Hend.
    destruct (is_char (peek source st 0) "010"); cbn [negb].
    + exists st. unfold forward. auto.
    + destruct (IH (advance source st).2) as (st' & Hr & Hp & Hw').
      * unfold within. rewrite position_advance. lia.
      * rewrite position_advance. lia.
      * exists st'. split; [exact Hr |]. rewrite position_advance in Hp.
        unfold forward. split; [lia | exact Hw'].
Qed.

Lemma block_comment_loop_total fuel st :
  within st -> (len - position st < fuel)%nat ->
  exists st', block_comment_loop source fuel st = Some st' /\ forward st st'.
Proof.
  revert st. induction fuel as [| fuel IH]; intros st Hw Hf; [lia |].
  unfold_loop. destruct (isAtEnd source st) eqn:Hend; cbn [negb andb].
  - exists st. unfold forward. auto.
  - apply not_at_end_lt in Hend.
    destruct (is_char (peek source st 0) "*" && is_char (peek source st 1) "/") eqn:Hclose.
    + apply andb_true_iff in Hclose as [_ H1].
      apply peek_char_lt in H1; [| discriminate].
      exists (skip_two st). split; [reflexivity |].
      unfold forward, within, skip_two; simpl. lia.
    + destruct (is_char (peek source st 0) "010").
      * destruct (IH (mkLexState (S (position st)) (line st + 1) 1))
          as (st' & Hr & Hp & Hw'); [unfold within; simpl; lia | simpl; lia |].
        exists st'. split; [exact Hr |]. simpl in Hp. unfold forward. split; [lia | exact Hw'].
      * destruct (IH (mkLexState (S (position st)) (line st) (column st + 1)))
          as (st' & Hr & Hp & Hw'); [unfold within; simpl; lia | simpl; lia |].
        exists st'. split; [exact Hr |]. simpl in Hp. unfold forward. split; [lia | exact Hw'].
Qed.

(** A comment that starts at the position is skipped, and the position
    moves past its two opening characters. *)
Lemma skipComment_total st :
  within st ->
  is_char (peek source st 0) "/" = true ->
  is_char (peek source st 1) "/" || is_char (peek source st 1) "*" = true ->
  exists st', skipComment source (S len) st = Some st'
              /\ (position st + 2 <= position st')%nat /\ within st'.
Proof.
  intros Hw H0 H1. unfold skipComment. rewrite H0.
  assert (Hlt : (position st + 1 < len)%nat).
  { apply orb_true_iff in H1 as [H1 | H1];
      apply peek_char_lt in H1; try discriminate; exact H1. }
  assert (Hw2 : within (skip_two st)) by (unfold within, skip_two; simpl; lia).
  destruct (is_char (peek source st 1) "/") eqn:Hs.
  - destruct (line_comment_loop_total (S len) (skip_two st) Hw2) as (st' & Hr & Hp & Hw');
      [simpl; lia |].
    exists st'. split; [exact Hr |]. simpl in Hp. split; [lia | exact Hw'].
  - simpl in H1. rewrite H1.
    destruct (block_comment_loop_total (S len) (skip_two st) Hw2) as (st' & Hr & Hp & Hw');
      [simpl; lia |].
    exists st'. split; [exact Hr |]. simpl in Hp. split; [lia | exact Hw'].
Qed.

Lemma skipWhitespace_total fuel st :
  within st -> (len - position st < fuel)%nat ->
  exists st', skipWhitespace source fuel st = Some st' /\ forward st st'.
Proof.
  revert st. induction fuel as [| fuel IH]; intros st Hw Hf; [lia |].
  unfold_loop. destruct (isAtEnd source st) eqn:Hend; cbn [negb andb].
  - exists st. unfold forward. auto.
  - apply not_at_end_lt in Hend.
    assert (Hadv : exists st', skipWhitespace source fuel (advance source st).2 = Some st'
                               /\ forward st st').
    { destruct (IH (advance source st).2) as (st' & Hr & Hp & Hw').
      - unfold within. rewrite position_advance. lia.
      - rewrite position_advance. lia.
      - exists st'. split; [exact Hr |]. rewrite position_advance in Hp.
        unfold forward. split; [lia | exact Hw']. }
    destruct (is_char (peek source st 0) " " || is_char (peek source st 0) "009"
              || is_char (peek source st 0) "013"); [exact Hadv |].
    destruct (is_char (peek source st 0) "010"); [exact Hadv |].
    destruct (is_char (peek source st 0) "/") eqn:H0;
      [| exists st; unfold forward; auto].
    destruct (is_char (peek source st 1) "/" || is_char (peek source st 1) "*") eqn:H1;
      [| exists st; unfold forward; auto].
    destruct (skipComment_total st Hw H0 H1) as (st1 & Hr1 & Hp1 & Hw1).
    fold len. rewrite Hr1.
    destruct (IH st1 Hw1) as (st' & Hr & Hp & Hw'); [lia |].
    exists st'. split; [exact Hr |]. unfold forward. split; [lia | exact Hw'].
Qed.

Lemma identifier_loop_total fuel st :
  within st -> (len - position st < fuel)%nat ->
  exists st', identifier_loop source fuel st = Some st' /\ forward st st'.
Proof.
  revert st. induction fuel as [| fuel IH]; intros st Hw Hf; [lia |].
  unfold_loop. destruct (isAtEnd source st) eqn:Hend; cbn [negb andb].
  - exists st. unfold forward. auto.
  - apply not_at_end_lt in Hend.
    destruct (isalnum (peek source st 0) || is_char (peek source st 0) "_").
    + destruct (IH (advance source st).2) as (st' & Hr & Hp & Hw').
      * unfold within. rewrite position_advance. lia.
      * rewrite position_advance. lia.
      * exists st'. split; [exact Hr |]. rewrite position_advance in Hp.
        unfold forward. split; [lia | exact Hw'].
    + exists st. unfold forward. auto.
Qed.

Lemma number_loop_total fuel st :
  within st -> (len - position st < fuel)%nat ->
  exists st', number_loop source fuel st = Some st' /\ forward st st'.
Proof.
  revert st. induction fuel as [| fuel IH]; intros st Hw Hf; [lia |].
  unfold_loop. destruct (isAtEnd source st) eqn:Hend; cbn [negb andb].
  - exists st. unfold forward. auto.
  - apply not_at_end_lt in Hend.
    destruct (isdigit (peek source st 0)).
    + destruct (IH (advance source st).2) as (st' & Hr & Hp & Hw').
      * unfold within. rewrite position_advance. lia.
      * rewrite position_advance. lia.
      * exists st'. split; [exact Hr |]. rewrite position_advance in Hp.
        unfold forward. split; [lia | exact Hw'].
    + exists st. unfold forward. auto.
Qed.

Lemma scanIdentifier_total st :
  within st ->
  exists tok st', scanIdentifier source st = Some (tok, st')
                  /\ (position st <= position st')%nat /\ within st'
                  /\ (isalpha (peek source st 0) || is_char (peek source st 0) "_" = true ->
                      position st < len -> position st < position st')%nat.
Proof.
  intros Hw. unfold scanIdentifier.
  set (st1 := if isalpha (peek source st 0) || is_char (peek source st 0) "_"
              then (advance source st).2 else st).
  assert (H1 : (position st <= position st1)%nat /\
               ((position st < len)%nat -> within st1) /\
               (isalpha (peek source st 0) || is_char (peek source st 0) "_" = true ->
                (position st < position st1)%nat)).
  { subst st1. destruct (isalpha (peek source st 0) || is_char (peek source st 0) "_").
    - rewrite position_advance. unfold within. rewrite position_advance.
      repeat split; intros; lia.
    - repeat split; intros; try lia; try discriminate. exact Hw. }
  destruct H1 as (Hle & Hw1 & Hlt).
  destruct (Nat.eq_dec (position st) len) as [Heq | Hne].
  - (* at the end of the input the first character is NUL *)
    assert (Hnul : peek source st 0 = NUL).
    { unfold peek. destruct (String.get (position st + 0) source) eqn:E; [| reflexivity].
      apply get_Some_lt in E. fold len in E. lia. }
    assert (Hst1 : st1 = st) by (subst st1; rewrite Hnul; reflexivity).
    rewrite Hst1.
    destruct (identifier_loop_total (S len) st Hw) as (st2 & Hr & Hp & Hw2); [lia |].
    fold len. rewrite Hr.
    destruct (keywords _); do 2 eexists; (split; [reflexivity |]);
      (split; [exact Hp |]); (split; [exact Hw2 |]); intros; lia.
  - assert (Hlt' : (position st < len)%nat) by (unfold within in Hw; lia).
    destruct (identifier_loop_total (S len) st1 (Hw1 Hlt')) as (st2 & Hr & Hp & Hw2); [lia |].
    fold len. rewrite Hr.
    destruct (keywords _); do 2 eexists; (split; [reflexivity |]);
      (split; [lia |]); (split; [exact Hw2 |]); intros H _; specialize (Hlt H); lia.
Qed.

Lemma scanNumber_total st :
  within st ->
  exists tok st', scanNumber source st = Some (tok, st')
                  /\ (position st <= position st')%nat /\ within st'
                  /\ (isdigit (peek source st 0) = true ->
                      position st < len -> position st < position st')%nat.
Proof.
  intros Hw. unfold scanNumber.
  destruct (is_char (peek source st 0) "-") eqn:Hminus.
  - pose proof (peek_char_lt st 0 "-" ltac:(discriminate) Hminus) as Hlt.
    rewrite Nat.add_0_r in Hlt.
    assert (Hw1 : within (advance source st).2)
      by (unfold within; rewrite position_advance; lia).
    destruct (number_loop_total (S len) _ Hw1) as (st2 & Hr & Hp & Hw2); [lia |].
    fold len. rewrite Hr. rewrite position_advance in Hp.
    do 2 eexists. split; [reflexivity |]. split; [lia |]. split; [exact Hw2 |].
    intros; lia.
  - destruct (number_loop_total (S len) st Hw) as (st2 & Hr & Hp & Hw2); [lia |].
    fold len. rewrite Hr.
    do 2 eexists. split; [reflexivity |]. split; [exact Hp |]. split; [exact Hw2 |].
    intros Hd Hlt.
    (* the first iteration of the loop consumes the digit *)
    assert (Hend : isAtEnd source st = false)
      by (unfold isAtEnd; apply Nat.leb_gt; exact Hlt).
    revert Hr. unfold_loop. rewrite Hend, Hd. cbn [negb andb]. intros Hr.
    assert (Hw1 : within (advance source st).2)
      by (unfold within; rewrite position_advance; lia).
    destruct (number_loop_total len _ Hw1) as (st3 & Hr3 & Hp3 & _).
    { rewrite position_advance. lia. }
    rewrite Hr3 in Hr. injection Hr as <-. rewrite position_advance in Hp3. lia.
Qed.

Lemma peek_position st1 st2 k :
  position st1 = position st2 -> peek source st1 k = peek source st2 k.
Proof. unfold peek. by intros ->. Qed.

Lemma two_char_total st second long ll short sl tl tc :
  second <> NUL -> within st ->
  let r := two_char source st second long ll short sl tl tc in
  (position st <= position r.2)%nat /\ within r.2.
Proof.
  intros Hs Hw. unfold two_char.
  destruct (is_char (peek source st 0) second) eqn:E; cbn [snd].
  - apply peek_char_lt in E; [| exact Hs]. rewrite Nat.add_0_r in E.
    rewrite position_advance. unfold within. rewrite position_advance. lia.
  - auto.
Qed.

(** Away from the end of the input, [scanToken] returns a token and
    consumes at least one character. *)
Lemma scanToken_total st0 :
  (position st0 < len)%nat ->
  exists tok st', scanToken source st0 = Some (tok, st')
                  /\ (position st0 < position st')%nat /\ within st'.
Proof.
  intros Hlt. unfold scanToken.
  destruct (advance source st0) as [c st] eqn:Hadv.
  assert (Hc : c = peek source st0 0) by (unfold advance in Hadv; by injection Hadv).
  assert (Hpos : position st = S (position st0)).
  { pose proof (position_advance st0) as H. by rewrite Hadv in H. }
  assert (Hw : within st) by (unfold within; lia).
  set (back := mkLexState (position st - 1) (line st) (column st - 1)).
  assert (Hback : position back = position st0) by (subst back; simpl; lia).
  assert (Hwb : within back) by (unfold within; lia).
  assert (Hpeek : peek source back 0 = c) by (rewrite Hc; by apply peek_position).
  destruct (isalpha c || is_char c "_") eqn:Hid.
  { destruct (scanIdentifier_total back Hwb) as (tok & st' & Hr & _ & Hw' & Hprog).
    exists tok, st'. split; [exact Hr |]. split; [| exact Hw'].
    rewrite <- Hback. apply Hprog; [by rewrite Hpeek | lia]. }
  destruct (isdigit c) eqn:Hdig.
  { destruct (scanNumber_total back Hwb) as (tok & st' & Hr & _ & Hw' & Hprog).
    exists tok, st'. split; [exact Hr |]. split; [| exact Hw'].
    rewrite <- Hback. apply Hprog; [by rewrite Hpeek | lia]. }
  repeat match goal with
  | |- context [if is_char c ?d then _ else _] => destruct (is_char c d)
  end;
  try (do 2 eexists; split; [reflexivity |]; split; [lia | exact Hw]);
  match goal with
  | |- context [two_char source st ?second ?long ?ll ?short ?sl ?tl ?tc] =>
      pose proof (two_char_total st second long ll short sl tl tc
                    ltac:(discriminate) Hw) as [Hp2 Hw2];
      destruct (two_char source st second long ll short sl tl tc) as [tok st'];
      exists tok, st'; simpl in *; split; [reflexivity |]; split; [lia | exact Hw2]
  end.
Qed.

Lemma tokenize_loop_total fuel st tokens :
  within st -> (len - position st < fuel)%nat ->
  exists tokens' st', tokenize_loop source fuel st tokens = Some (tokens', st').
Proof.
  revert st tokens. induction fuel as [| fuel IH]; intros st tokens Hw Hf; [lia |].
  cbn [tokenize_loop]. destruct (isAtEnd source st) eqn:Hend; cbn [negb].
  - by eauto.
  - destruct (skipWhitespace_total (S len) st Hw) as (st1 & Hr1 & Hp1 & Hw1); [lia |].
    fold len. rewrite Hr1.
    destruct (isAtEnd source st1) eqn:Hend1; [by eauto |].
    apply not_at_end_lt in Hend1.
    destruct (scanToken_total st1 Hend1) as (tok & st2 & Hr2 & Hp2 & Hw2).
    rewrite Hr2. apply IH; [exact Hw2 | lia].
Qed.

End LexerFacts.

(** C10 — [Lexer::tokenize] terminates on every input string: the model,
    whose loops are bounded by the length of the input, always returns a
    token sequence, and that sequence is non-empty and ends with a token
    of type [END_OF_FILE]. Unterminated block comments and characters of
    no token class are inputs like any other. *)
Theorem C10_tokenize_terminates_with_eof :
  forall source : string,
    exists tokens : list Lexer.Token,
      Lexer.tokenize source = Some tokens /\
      tokens <> [] /\
      Lexer.tok_type <$> last tokens = Some Lexer.END_OF_FILE.
Proof.
  intros source. unfold Lexer.tokenize.
  destruct (tokenize_loop_total source (S (String.length source))
              (Lexer.mkLexState 0 1 1) [])
    as (tokens & st & Hr).
  - unfold within. simpl. lia.
  - simpl. lia.
  - rewrite Hr. eexists. split; [reflexivity |]. split.
    + intros H. by apply app_eq_nil in H as [_ H].
    + by rewrite last_snoc.
Qed.


(** ** The lines [generate] keeps back for the peephole pass *)

Section GenerateFacts.
Import Generate.

Lemma append_cons c s t : String c s +:+ t = String c (s +:+ t).
Proof. reflexivity. Qed.

Lemma append_nil_r s : s +:+ "" = s.
Proof. induction s as [| c s IH]; [reflexivity |]. by rewrite append_cons, IH. Qed.

Lemma append_assoc s t u : (s +:+ t) +:+ u = s +:+ t +:+ u.
Proof.
  induction s as [| c s IH]; [reflexivity |]. by rewrite !append_cons, IH.
Qed.

Lemma has_newline_app s t : has_newline (s +:+ t) = has_newline s || has_newline t.
Proof.
  induction s as [| c s IH]; [reflexivity |].
  rewrite append_cons. simpl. by rewrite IH, orb_assoc.
Qed.

Lemma getlines_line line rest :
  has_newline line = false ->
  getlines (line +:+ newline +:+ rest) = line :: getlines rest.
Proof.
  induction line as [| c line IH]; intros H; [reflexivity |].
  simpl in H. apply orb_false_iff in H as [Hc Hl].
  rewrite append_cons. cbn [getlines]. rewrite Hc, (IH Hl). reflexivity.
Qed.

Lemma back_app_colon label : back (label +:+ ":") = ":"%char.
Proof.
  induction label as [| c label IH]; [reflexivity |].
  rewrite append_cons. cbn [back].
  destruct label as [| c' label]; [reflexivity | exact IH].
Qed.

(** The line a helper writes, without its newline. *)
Definition line_of (w : Write) : string :=
  match w with
  | Comment comment => "# " +:+ comment
  | Instruction instr => tab +:+ instr
  | Label label => label +:+ ":"
  | Global name => tab +:+ ".global " +:+ name
  | EmptyLine => ""
  end.

Lemma written_line_of w : written w = line_of w +:+ newline.
Proof.
  destruct w; unfold written, line_of, emitComment, emitInstruction, emitLabel,
    emitGlobal; by rewrite ?append_assoc.
Qed.

Lemma has_newline_line_of w : on_one_line w = true -> has_newline (line_of w) = false.
Proof.
  destruct w; simpl; intros H; try apply negb_true_iff in H;
    rewrite ?has_newline_app, ?H; reflexivity.
Qed.

Lemma handle_line_line_of acc w :
  handle_line acc (line_of w)
  = if is_empty_line w then acc else (acc.1 +:+ written w, acc.2).
Proof.
  unfold handle_line. destruct w as [c | i | l | n |]; cbn [is_empty_line].
  - rewrite written_line_of. reflexivity.
  - rewrite written_line_of. reflexivity.
  - rewrite written_line_of.
    assert (Hq : is_queued (line_of (Label l)) = false).
    { unfold is_queued. cbn [line_of]. rewrite back_app_colon.
      by rewrite andb_false_r. }
    rewrite Hq. by destruct l.
  - rewrite written_line_of. reflexivity.
  - reflexivity.
Qed.

Lemma handle_asmCode writes acc :
  forallb on_one_line writes = true ->
  fold_left handle_line (getlines (asmCode writes)) acc
  = (acc.1 +:+ lines_written writes, acc.2).
Proof.
  revert acc. induction writes as [| w writes IH]; intros acc H.
  - unfold lines_written. simpl. rewrite append_nil_r. by destruct acc.
  - simpl in H. apply andb_true_iff in H as [Hw H].
    cbn [asmCode fold_right]. fold (asmCode writes).
    rewrite written_line_of, append_assoc, getlines_line
      by by apply has_newline_line_of.
    cbn [fold_left]. rewrite IH, handle_line_line_of by exact H.
    unfold lines_written. cbn [List.filter].
    destruct (is_empty_line w); cbn [negb fst snd]; [reflexivity |].
    cbn [asmCode fold_right]. by rewrite append_assoc.
Qed.

Lemma asmCode_app writes1 writes2 :
  asmCode (writes1 ++ writes2) = asmCode writes1 +:+ asmCode writes2.
Proof.
  induction writes1 as [| w writes1 IH]; [reflexivity |].
  cbn [app asmCode fold_right]. fold (asmCode (writes1 ++ writes2)).
  fold (asmCode writes1). by rewrite IH, append_assoc.
Qed.

Lemma lines_written_app writes1 writes2 :
  lines_written (writes1 ++ writes2)
  = lines_written writes1 +:+ lines_written writes2.
Proof. unfold lines_written. by rewrite List.filter_app, asmCode_app. Qed.

Lemma lines_written_cons w writes :
  Generate.is_empty_line w = false ->
  lines_written (w :: writes) = written w +:+ lines_written writes.
Proof. intros H. unfold lines_written. cbn [List.filter]. by rewrite H. Qed.

Lemma collect_from code acc :
  forallb (forallb on_one_line) code = true ->
  fold_left (fun acc asmCode => fold_left handle_line (getlines asmCode) acc)
    (map asmCode code) acc
  = (acc.1 +:+ lines_written (concat code), acc.2).
Proof.
  revert acc. induction code as [| writes code IH]; intros acc H.
  - simpl. unfold lines_written. simpl. rewrite append_nil_r. by destruct acc.
  - simpl in H. apply andb_true_iff in H as [Hw H].
    cbn [map fold_left]. rewrite handle_asmCode, IH by assumption.
    cbn [fst snd concat]. by rewrite lines_written_app, append_assoc.
Qed.

Lemma collect_asmCode code :
  forallb (forallb on_one_line) code = true ->
  collect (map asmCode code) = (lines_written (concat code), []).
Proof. intros H. unfold collect. by rewrite collect_from. Qed.

Lemma generate_asmCode enable code :
  forallb (forallb on_one_line) code = true ->
  generate enable (map asmCode code) = Some (lines_written (concat code)).
Proof.
  intros H. unfold generate. rewrite (collect_asmCode code H). by destruct enable.
Qed.

End GenerateFacts.

(** ** Claims about the back end *)

Section BackEndClaims.

(** C7 — the claim asks for a result normalized to 0 or 1. The TOYC2
    code generator copies the value of the right operand into the result
    ([mv]) instead of normalizing it: the code it generates for [1 && 5]
    and for [0 || 5] leaves 5 in the result register, where the language
    (and the constant folder of the same compiler) gives 1. The right
    operand is run only when the left one does not decide the result, and
    the IR pipeline's [processBinaryOp] normalizes with [snez]: its code
    for the same operands stores 1. *)
Theorem C7_short_circuit_result_not_normalized :
  let cg := Toyc2Codegen.init Toyc2.SymbolTableOps.init in
  let and_expr := Toyc2.BinaryExpr Toyc2.AND (Toyc2.NumberExpr 1) (Toyc2.NumberExpr 5) in
  let or_expr := Toyc2.BinaryExpr Toyc2.OR (Toyc2.NumberExpr 0) (Toyc2.NumberExpr 5) in
  let run_expr e :=
    let r := Toyc2Codegen.generate_expr e cg in
    option_map (fun m => Asm.get m r.1)
      (Asm.run 100 (Toyc2Codegen.output r.2)
         (Asm.start (fun _ => 0%Z) (fun _ => 0%Z))) in
  map Asm.text (Toyc2Codegen.output (Toyc2Codegen.generate_expr and_expr cg).2)
    = ["li x6, 1"; "beqz x6, and_false_0"; "li x7, 5"; "mv x5, x7";
       "j and_end_1"; "and_false_0:"; "li x5, 0"; "and_end_1:"] /\
  run_expr and_expr = Some 5%Z /\
  run_expr or_expr = Some 5%Z /\
  Toyc2.Semantics.eval (fun _ => 0%Z) and_expr = Toyc2.Semantics.Value 1 /\
  Toyc2.Semantics.eval (fun _ => 0%Z) or_expr = Toyc2.Semantics.Value 1 /\
  Toyc2.Optimizer.simplify_expression and_expr 0 = (Toyc2.NumberExpr 1, 1%nat) /\
  let run_ir opcode a b :=
    let g :=
      Codegen.processBinaryOp (fun _ => "t9 = a op b") opcode (IR.Temp "t9")
        (IR.Const a) (IR.Const b) (Codegen.in_function []) in
    option_map (fun m => Asm.mem m (Asm.get m "fp" - 12)%Z)
      (Asm.run 100 (Codegen.output g)
         (Asm.start (fun _ => 0%Z) (fun _ => 0%Z))) in
  run_ir IR.AND 1%Z 5%Z = Some 1%Z /\
  run_ir IR.OR 0%Z 5%Z = Some 1%Z.
Proof. vm_compute. repeat split. Qed.

(** C8 — no pair [sw rX, k(fp); lw rX, k(fp)] is rewritten. [generate]
    hands to the peephole pass the lines that start with neither [#] nor
    a tab and do not end with a colon; the helpers that write the code
    put a tab in front of every instruction, so whatever the handlers
    write (comments, instructions, labels and names holding no newline),
    the vector handed to the pass is empty and the output is the text the
    handlers wrote, its empty lines dropped, whether
    [enablePeepholeOptimizations] is set or not. In particular, when the
    text of an IR instruction ends with a store and the text of the next
    one starts, behind its comment, with the load of the same register
    from the same slot, as the texts of [processFunctionBegin] for a
    function with the parameter [x] and of [processReturn] for [return x]
    do, both lines are in the output. The pass would not collapse the
    pair either: the pattern [load_store_same] looks for a load followed
    by a store, and where it fires it empties the whole window of three
    instructions. *)
Theorem C8_store_then_load_is_not_collapsed :
  (forall (enablePeepholeOptimizations : bool) (code : list (list Generate.Write)),
     forallb (forallb Generate.on_one_line) code = true ->
     (Generate.collect (map Generate.asmCode code)).2 = []
     /\ Generate.generate enablePeepholeOptimizations (map Generate.asmCode code)
        = Some (Generate.lines_written (concat code)))
  /\ (forall (before after : list (list Generate.Write))
             (first rest : list Generate.Write) (rX k comment : string),
        forallb (forallb Generate.on_one_line) before = true ->
        forallb (forallb Generate.on_one_line) after = true ->
        forallb Generate.on_one_line first = true ->
        forallb Generate.on_one_line rest = true ->
        Generate.has_newline rX = false ->
        Generate.has_newline k = false ->
        Generate.has_newline comment = false ->
        let store := "sw " +:+ rX +:+ ", " +:+ k +:+ "(fp)" in
        let load := "lw " +:+ rX +:+ ", " +:+ k +:+ "(fp)" in
        Generate.generate true
          (map Generate.asmCode
             (before
              ++ [first ++ [Generate.Instruction store];
                  Generate.Comment comment :: Generate.Instruction load :: rest]
              ++ after))
        = Some (Generate.lines_written (concat before)
                +:+ Generate.lines_written first
                +:+ Generate.emitInstruction store
                +:+ Generate.emitComment comment
                +:+ Generate.emitInstruction load
                +:+ Generate.lines_written rest
                +:+ Generate.lines_written (concat after)))
  /\ Peephole.peepholeOptimize ["sw t0, -12(fp)"; "lw t0, -12(fp)"]
     = Some ["sw t0, -12(fp)"; "lw t0, -12(fp)"]
  /\ Peephole.peepholeOptimize
       ["lw t0, -12(fp)"; "sw t0, -12(fp)"; "add t1, t0, t2"; "ret"]
     = Some ["ret"].
Proof.
  split; [| split; [| by vm_compute]].
  - intros enable code H. split.
    + by rewrite (collect_asmCode code H).
    + by apply generate_asmCode.
  - intros before after first rest rX k comment Hb Ha Hf Hr HrX Hk Hc store load.
    rewrite generate_asmCode.
    + rewrite concat_app, lines_written_app. cbn [concat app].
      rewrite !lines_written_app, !append_assoc.
      rewrite !lines_written_cons by reflexivity.
      change (Generate.lines_written []) with EmptyString.
      rewrite append_nil_r, lines_written_app. reflexivity.
    + rewrite forallb_app, Hb. cbn [andb]. rewrite forallb_app, Ha.
      cbn [forallb]. rewrite forallb_app, Hf, Hr.
      cbn [forallb Generate.on_one_line]. subst store load.
      rewrite !has_newline_app, HrX, Hk, Hc. reflexivity.
Qed.

(** An instance: the store of the parameter in [a0] at the end of one
    text, the load of the returned variable at the start of the next. *)
Lemma C8_store_then_load_is_not_collapsed_witness :
  Generate.generate true
    (map Generate.asmCode
       ([]
        ++ [[Generate.Global "f"; Generate.Label "f"]
            ++ [Generate.Instruction "sw a0, -12(fp)"];
            Generate.Comment "return x" :: Generate.Instruction "lw a0, -12(fp)"
            :: [Generate.Instruction "j f_epilogue"]]
        ++ [[Generate.Label "f_epilogue"; Generate.Instruction "ret";
             Generate.EmptyLine]]))
  = Some (Generate.emitGlobal "f" +:+ Generate.emitLabel "f"
          +:+ Generate.emitInstruction "sw a0, -12(fp)"
          +:+ Generate.emitComment "return x"
          +:+ Generate.emitInstruction "lw a0, -12(fp)"
          +:+ Generate.emitInstruction "j f_epilogue"
          +:+ Generate.emitLabel "f_epilogue"
          +:+ Generate.emitInstruction "ret").
Proof.
  exact (proj1 (proj2 C8_store_then_load_is_not_collapsed)
           []
           [[Generate.Label "f_epilogue"; Generate.Instruction "ret";
             Generate.EmptyLine]]
           [Generate.Global "f"; Generate.Label "f"]
           [Generate.Instruction "j f_epilogue"]
           "a0" "-12" "return x"
           eq_refl eq_refl eq_refl eq_refl eq_refl eq_refl eq_refl).
Defined.

(** A function that keeps twelve variables alive at once and calls
    [f(v11, v00, ..., v10)] with them. *)
Definition twelve_live_variables : list IR.IRInstr :=
  let vars := ["v00"; "v01"; "v02"; "v03"; "v04"; "v05"; "v06"; "v07"; "v08";
               "v09"; "v10"; "v11"] in
  [IR.FunctionBeginInstr "main" [] "int"]
  ++ map (fun v => IR.AssignInstr (IR.Var v) (IR.Const 1)) vars
  ++ [IR.ParamInstr (IR.Var "v11")]
  ++ map (fun v => IR.ParamInstr (IR.Var v)) (firstn 11 vars)
  ++ [IR.CallInstr (Some (IR.Temp "t0")) "f" 12 [];
      IR.ReturnInstr (Some (IR.Temp "t0"));
      IR.FunctionEndInstr "main"].

(** C9 — the linear-scan allocator has eleven registers ([s1] to [s11]).
    When a twelfth interval arrives and ends before the active interval
    that ends last, it takes that interval's register, but the victim
    keeps its entry in the returned map. In [twelve_live_variables] the
    lifetimes of [v10] (positions 11 to 24) and [v11] (12 to 13) overlap
    and both names are mapped to [s1]. The graph-colouring allocator
    gives the two names different registers on the same input. *)
Theorem C9_linear_scan_shares_a_register :
  let instrs := twelve_live_variables in
  let lifetimes := RegAlloc.lifetimes IR.getDefinedVariables IR.getUsedVariables instrs in
  let linear :=
    RegAlloc.linear_scan_allocate IR.getDefinedVariables IR.getUsedVariables
      instrs RegAlloc.allocatableRegs in
  let graph :=
    RegAlloc.graph_coloring_allocate IR.getDefinedVariables IR.getUsedVariables
      instrs RegAlloc.allocatableRegs in
  SMap.find "v10" lifetimes = Some (11, 24)%Z /\
  SMap.find "v11" lifetimes = Some (12, 13)%Z /\
  SMap.find "v10" linear = Some "s1" /\
  SMap.find "v11" linear = Some "s1" /\
  RegAlloc.conflict IR.getDefinedVariables IR.getUsedVariables instrs linear
    "v10" "v11" = true /\
  RegAlloc.conflict IR.getDefinedVariables IR.getUsedVariables instrs graph
    "v10" "v11" = false.
Proof. vm_compute. repeat split. Qed.

End BackEndClaims.

(** ** Claims about the semantic analyzers *)

Section AnalyzerExamples.

(** The unit
<<
int f(int x) { if (x) return 1; }
int g(int x) { while (x) { return 1; } }
int main() { return f(1) + g(1); }
>>
    in the two ASTs. In [f] and in [g] a path falls off the end of the
    function. *)
Definition falls_off_the_end : Ast.CompUnit :=
  [ Ast.mkFunctionDef "int" "f" [Ast.mkParam "x" 1 11]
      [Ast.IfStmt (Ast.VariableExpr "x" 1 20)
         (Ast.ReturnStmt (Some (Ast.NumberExpr 1 1 30)) 1 23) None 1 16]
      1 14 1 1;
    Ast.mkFunctionDef "int" "g" [Ast.mkParam "x" 2 11]
      [Ast.WhileStmt (Ast.VariableExpr "x" 2 23)
         (Ast.BlockStmt [Ast.ReturnStmt (Some (Ast.NumberExpr 1 2 35)) 2 28] 2 26)
         2 16]
      2 14 2 1;
    Ast.mkFunctionDef "int" "main" []
      [Ast.ReturnStmt
         (Some (Ast.BinaryExpr
                  (Ast.CallExpr "f" [Ast.NumberExpr 1 3 23] 3 21) "+"
                  (Ast.CallExpr "g" [Ast.NumberExpr 1 3 30] 3 28) 3 26))
         3 14]
      3 12 3 1 ].

Definition falls_off_the_end_toyc2 : Toyc2.CompUnit :=
  [ Toyc2.mkFuncDef Toyc2.INT "f" ["x"]
      [Toyc2.IfStmt (Toyc2.VarExpr "x")
         (Toyc2.ReturnStmt (Some (Toyc2.NumberExpr 1))) None];
    Toyc2.mkFuncDef Toyc2.INT "g" ["x"]
      [Toyc2.WhileStmt (Toyc2.VarExpr "x")
         (Toyc2.Block [Toyc2.ReturnStmt (Some (Toyc2.NumberExpr 1))])];
    Toyc2.mkFuncDef Toyc2.INT "main" []
      [Toyc2.ReturnStmt
         (Some (Toyc2.BinaryExpr Toyc2.ADD
                  (Toyc2.CallExpr "f" [Toyc2.NumberExpr 1])
                  (Toyc2.CallExpr "g" [Toyc2.NumberExpr 1])))] ].

(** The unit
<<
int main() { return later(); }
int later() { return 1 / (2 - 2); }
>>
    in the two ASTs: a call to a function defined further down, and a
    division by a constant expression that is zero. *)
Definition forward_call : Ast.CompUnit :=
  [ Ast.mkFunctionDef "int" "main" []
      [Ast.ReturnStmt (Some (Ast.CallExpr "later" [] 1 21)) 1 14] 1 12 1 1;
    Ast.mkFunctionDef "int" "later" []
      [Ast.ReturnStmt
         (Some (Ast.BinaryExpr (Ast.NumberExpr 1 2 22) "/"
                  (Ast.BinaryExpr (Ast.NumberExpr 2 2 27) "-"
                     (Ast.NumberExpr 2 2 31) 2 29) 2 24))
         2 15]
      2 13 2 1 ].

Definition forward_call_toyc2 : Toyc2.CompUnit :=
  [ Toyc2.mkFuncDef Toyc2.INT "main" []
      [Toyc2.ReturnStmt (Some (Toyc2.CallExpr "later" []))];
    Toyc2.mkFuncDef Toyc2.INT "later" []
      [Toyc2.ReturnStmt
         (Some (Toyc2.BinaryExpr Toyc2.DIV (Toyc2.NumberExpr 1)
                  (Toyc2.BinaryExpr Toyc2.SUB (Toyc2.NumberExpr 2)
                     (Toyc2.NumberExpr 2))))] ].

(** The IR pipeline's analyzer has no pre-pass: in [forward_call] the
    call in [main] to the function defined after it is reported as
    undefined and the unit is rejected. *)
Lemma C3_forward_call_rejected :
  Analyze.errorMessages (Analyze.diag (Analyze.analyze forward_call).1)
    = ["Undefined function: later at line 1, column 21";
       "Return type mismatch: expected 'int', got 'error' at line 1, column 14";
       "Division by zero at line 2, column 24"] /\
  (Analyze.analyze forward_call).2 = false.
Proof. vm_compute. split; reflexivity. Qed.


End AnalyzerExamples.

(** ** The TOYC2 analyzer resolves forward calls *)

Section Toyc2AnalyzerFacts.
Import Toyc2 Toyc2.SymbolTableOps Toyc2.Semantic.

Lemma has_error_report T ty msg st :
  has_error T (report_error ty msg st) = has_error T st || bool_decide (ty = T).
Proof.
  unfold has_error, report_error. simpl.
  rewrite existsb_app. simpl. by rewrite orb_false_r.
Qed.

Lemma has_error_set_last T ty st :
  has_error T (set_last_expr_type ty st) = has_error T st.
Proof. reflexivity. Qed.

(** The expression visitors never touch the symbol table. *)
Lemma visit_Expr_table e : forall st,
  symbol_table (visit_Expr e st) = symbol_table st.
Proof.
  induction e as [n | x | op l r IHl IHr | op e IHe | f args IHargs] using Expr_ind';
    intros st; simpl.
  - reflexivity.
  - destruct (lookup_symbol _ _) as [var |]; [| reflexivity].
    by destruct (negb _ && negb _).
  - assert (H : symbol_table (set_last_expr_type DT_INT (visit_Expr r (visit_Expr l st)))
                = symbol_table st) by (simpl; by rewrite IHr, IHl).
    destruct (bool_decide (op = DIV) || bool_decide (op = MOD)); [| exact H].
    destruct r; try exact H. by destruct (_ =? _)%Z.
  - apply IHe.
  - destruct (lookup_function _ _) as [func |]; [| reflexivity].
    destruct (negb _); [reflexivity |]. simpl.
    generalize 0%nat as i. revert st.
    induction IHargs as [| a args Ha _ IH]; intros st i; simpl; [reflexivity |].
    rewrite IH. destruct (check_type_compatibility _ _); simpl; apply Ha.
Qed.

(** The names in [names] resolve to functions in the table of [st]. *)
Definition resolves (names : list string) (st : SemanticAnalyzer) : Prop :=
  forall n, In n names -> is_Some (lookup_function (symbol_table st) n).

Lemma resolves_same_table names st st' :
  symbol_table st' = symbol_table st -> resolves names st -> resolves names st'.
Proof. unfold resolves. intros -> H. exact H. Qed.

Lemma resolves_same_global names st st' :
  global_scope (symbol_table st') = global_scope (symbol_table st) ->
  resolves names st -> resolves names st'.
Proof.
  unfold resolves, lookup_function. intros Hg H n Hn.
  rewrite Hg. by apply H.
Qed.

Lemma existsb_eqb_In f names :
  existsb (String.eqb f) names = true -> In f names.
Proof.
  intros H. apply existsb_exists in H as (x & Hx & E).
  apply String.eqb_eq in E. by subst.
Qed.

(** Where every callee resolves, visiting an expression reports no
    undefined function. *)
Lemma visit_Expr_undefined names e : forall st,
  calls_defined_expr names e = true -> resolves names st ->
  has_error UNDEFINED_FUNCTION (visit_Expr e st) = has_error UNDEFINED_FUNCTION st.
Proof.
  induction e as [n | x | op l r IHl IHr | op e IHe | f args IHargs] using Expr_ind';
    intros st Hc Hres; simpl in *.
  - reflexivity.
  - destruct (lookup_symbol _ _) as [var |].
    + destruct (negb _ && negb _); [| reflexivity].
      rewrite has_error_set_last, has_error_report. simpl. by rewrite orb_false_r.
    + rewrite has_error_set_last, has_error_report. simpl. by rewrite orb_false_r.
  - apply andb_true_iff in Hc as [Hl Hr].
    assert (H : has_error UNDEFINED_FUNCTION
                  (set_last_expr_type DT_INT (visit_Expr r (visit_Expr l st)))
                = has_error UNDEFINED_FUNCTION st).
    { rewrite has_error_set_last, IHr, IHl; try done.
      eapply resolves_same_table; [apply visit_Expr_table | exact Hres]. }
    destruct (bool_decide (op = DIV) || bool_decide (op = MOD)); [| exact H].
    destruct r; try exact H. destruct (_ =? _)%Z; [| exact H].
    rewrite has_error_report, H. simpl. by rewrite orb_false_r.
  - rewrite has_error_set_last. by apply IHe.
  - apply andb_true_iff in Hc as [Hf Hargs].
    apply existsb_eqb_In in Hf. destruct (Hres f Hf) as [func Hfunc].
    rewrite Hfunc.
    destruct (negb _).
    { rewrite has_error_set_last, has_error_report. simpl. by rewrite orb_false_r. }
    rewrite has_error_set_last.
    generalize 0%nat as i. revert st Hres Hfunc.
    induction IHargs as [| a args Ha _ IH]; intros st Hres Hfunc i; simpl;
      [reflexivity |].
    simpl in Hargs. apply andb_true_iff in Hargs as [Hca Hcargs].
    assert (Hres1 : resolves names (visit_Expr a st))
      by (eapply resolves_same_table; [apply visit_Expr_table | exact Hres]).
    destruct (check_type_compatibility _ _).
    + rewrite IH; try done.
      * by apply Ha.
      * by rewrite visit_Expr_table.
    + rewrite IH; try done.
      * rewrite has_error_report. simpl. rewrite orb_false_r. by apply Ha.
      * simpl. by rewrite visit_Expr_table.
Qed.

(** What a statement leaves of the scopes it found: the global scope and
    the depth of the chain below it; and no new undefined-function error. *)
Definition keeps (st st' : SemanticAnalyzer) : Prop :=
  global_scope (symbol_table st') = global_scope (symbol_table st) /\
  length (inner_scopes (symbol_table st')) = length (inner_scopes (symbol_table st)) /\
  has_error UNDEFINED_FUNCTION st' = has_error UNDEFINED_FUNCTION st.

Lemma keeps_refl st : keeps st st.
Proof. by unfold keeps. Qed.

Lemma keeps_trans st1 st2 st3 : keeps st1 st2 -> keeps st2 st3 -> keeps st1 st3.
Proof.
  unfold keeps. intros (A1 & B1 & C1) (A2 & B2 & C2).
  repeat split; congruence.
Qed.

Lemma keeps_report ty msg st :
  ty <> UNDEFINED_FUNCTION -> keeps st (report_error ty msg st).
Proof.
  intros Hty. unfold keeps. repeat split.
  rewrite has_error_report. rewrite bool_decide_eq_false_2 by exact Hty.
  apply orb_false_r.
Qed.

Lemma keeps_visit_Expr names e st :
  calls_defined_expr names e = true -> resolves names st ->
  keeps st (visit_Expr e st).
Proof.
  intros Hc Hres. unfold keeps. rewrite visit_Expr_table.
  repeat split. by eapply visit_Expr_undefined.
Qed.

Lemma keeps_resolves names st st' :
  keeps st st' -> resolves names st -> resolves names st'.
Proof. intros (Hg & _). by apply resolves_same_global. Qed.

Definition nested (st : SemanticAnalyzer) : Prop :=
  inner_scopes (symbol_table st) <> [].

Lemma keeps_nested st st' : keeps st st' -> nested st -> nested st'.
Proof.
  unfold keeps, nested. intros (_ & Hl & _) H.
  destruct (inner_scopes (symbol_table st')); [| done].
  destruct (inner_scopes (symbol_table st)); [done | discriminate].
Qed.

(** Below the global scope, a local definition leaves the global scope
    and the depth as they are. *)
Lemma define_local_keeps kind name ty (t : SymbolTable) :
  inner_scopes t <> [] ->
  global_scope (define_local kind name ty t).1 = global_scope t /\
  length (inner_scopes (define_local kind name ty t).1) = length (inner_scopes t).
Proof.
  intros Hn. unfold define_local.
  destruct (allocate_stack_space kind (scope_stack_size t)) as [sizes offset].
  destruct (inner_scopes t) as [| sc rest] eqn:E; [done |].
  unfold current_scope, set_current_scope; simpl.
  destruct (define _ _); simpl; by rewrite ?E.
Qed.

Lemma keeps_set_table t st :
  global_scope t = global_scope (symbol_table st) ->
  length (inner_scopes t) = length (inner_scopes (symbol_table st)) ->
  keeps st (set_table t st).
Proof. intros H1 H2. by unfold keeps. Qed.

Lemma keeps_fold_left {A} (f : SemanticAnalyzer -> A -> SemanticAnalyzer)
    (Q : SemanticAnalyzer -> Prop) (l : list A) st :
  (forall s s', Q s -> keeps s s' -> Q s') ->
  Forall (fun x => forall s, Q s -> keeps s (f s x)) l ->
  Q st -> keeps st (fold_left f l st).
Proof.
  intros HQ Hl. revert st. induction Hl as [| x l Hx _ IH]; intros st Hst; simpl.
  - apply keeps_refl.
  - eapply keeps_trans; [apply Hx; exact Hst |].
    apply IH. eapply HQ; [exact Hst | by apply Hx].
Qed.

(** Inside a function, a statement whose calls all resolve keeps the
    global scope and reports no undefined function. *)
Lemma keeps_visit_Stmt names s : forall st,
  calls_defined_stmt names s = true -> resolves names st -> nested st ->
  keeps st (visit_Stmt s st).
Proof.
  induction s as [ss IHss | oe | x e | x e | c t IHt | c t e IHt IHe | c b IHb | | | oe]
    using Stmt_ind'; intros st Hc Hres Hn; simpl in Hc.
  - (* Block *)
    simpl.
    set (st1 := with_table enter_scope st).
    assert (K1 : global_scope (symbol_table st1) = global_scope (symbol_table st)
                 /\ length (inner_scopes (symbol_table st1))
                    = S (length (inner_scopes (symbol_table st)))
                 /\ has_error UNDEFINED_FUNCTION st1 = has_error UNDEFINED_FUNCTION st)
      by done.
    destruct K1 as (G1 & L1 & U1).
    assert (K2 : keeps st1 (fold_left (fun s stmt => visit_Stmt stmt s) ss st1)).
    { apply (keeps_fold_left _ (fun s => resolves names s /\ nested s)).
      - intros s s' [Hr Hne] Hk. split; [by eapply keeps_resolves | by eapply keeps_nested].
      - rewrite forallb_forall in Hc. rewrite Forall_forall in IHss |- *.
        intros stmt Hin s [Hr Hne]. apply IHss; auto.
        apply Hc. by apply list_elem_of_In.
      - split; [by eapply resolves_same_global | by unfold nested, st1]. }
    destruct K2 as (G2 & L2 & U2).
    set (st2 := fold_left _ ss st1) in *.
    unfold keeps. unfold with_table, exit_scope; simpl.
    destruct (inner_scopes (symbol_table st2)) as [| sc rest] eqn:E.
    { rewrite L1 in L2. discriminate. }
    simpl. rewrite L1 in L2. simpl in L2.
    split; [congruence | split; [lia |]].
    transitivity (has_error UNDEFINED_FUNCTION st2); [reflexivity | congruence].
  - (* ExprStmt *)
    destruct oe as [e |]; simpl; [| apply keeps_refl].
    by eapply keeps_visit_Expr.
  - (* VarDecl *)
    simpl. unfold define_variable.
    pose proof (define_local_keeps VARIABLE x DT_INT (symbol_table st) Hn) as [G L].
    destruct (define_local VARIABLE x DT_INT (symbol_table st)) as [t ok]; simpl in *.
    pose proof (keeps_set_table t st G L) as K1.
    destruct ok; simpl.
    + unfold analyze_expression.
      assert (K2 : keeps (set_table t st) (visit_Expr e (set_table t st))).
      { eapply keeps_visit_Expr; [exact Hc | by eapply keeps_resolves]. }
      destruct (check_type_compatibility _ _).
      * by eapply keeps_trans.
      * eapply keeps_trans; [exact K1 |]. eapply keeps_trans; [exact K2 |].
        by apply keeps_report.
    + eapply keeps_trans; [exact K1 |]. by apply keeps_report.
  - (* AssignStmt *)
    simpl. destruct (lookup_symbol _ _) as [var |]; [| by apply keeps_report].
    destruct (negb _ && negb _); [by apply keeps_report |].
    unfold analyze_expression.
    assert (K : keeps st (visit_Expr e st)) by (by eapply keeps_visit_Expr).
    destruct (check_type_compatibility _ _); [exact K |].
    eapply keeps_trans; [exact K |]. by apply keeps_report.
  - (* If without else *)
    simpl. apply andb_true_iff in Hc as [Hc _].
    apply andb_true_iff in Hc as [Hcc Hct].
    unfold analyze_expression.
    assert (K1 : keeps st (visit_Expr c st)) by (by eapply keeps_visit_Expr).
    set (st2 := if bool_decide _ then _ else _).
    assert (K2 : keeps st st2).
    { subst st2. destruct (bool_decide _); [exact K1 |].
      eapply keeps_trans; [exact K1 |]. by apply keeps_report. }
    eapply keeps_trans; [exact K2 |].
    apply IHt; [exact Hct | by eapply keeps_resolves | by eapply keeps_nested].
  - (* If with else *)
    simpl. apply andb_true_iff in Hc as [Hc Hce].
    apply andb_true_iff in Hc as [Hcc Hct].
    unfold analyze_expression.
    assert (K1 : keeps st (visit_Expr c st)) by (by eapply keeps_visit_Expr).
    set (st2 := if bool_decide _ then _ else _).
    assert (K2 : keeps st st2).
    { subst st2. destruct (bool_decide _); [exact K1 |].
      eapply keeps_trans; [exact K1 |]. by apply keeps_report. }
    assert (K3 : keeps st (visit_Stmt t st2)).
    { eapply keeps_trans; [exact K2 |].
      apply IHt; [exact Hct | by eapply keeps_resolves | by eapply keeps_nested]. }
    eapply keeps_trans; [exact K3 |].
    apply IHe; [exact Hce | by eapply keeps_resolves | by eapply keeps_nested].
  - (* While *)
    simpl. apply andb_true_iff in Hc as [Hcc Hcb].
    unfold analyze_expression.
    assert (K1 : keeps st (visit_Expr c st)) by (by eapply keeps_visit_Expr).
    set (st2 := if bool_decide _ then _ else _).
    assert (K2 : keeps st st2).
    { subst st2. destruct (bool_decide _); [exact K1 |].
      eapply keeps_trans; [exact K1 |]. by apply keeps_report. }
    assert (K3 : keeps st2 (enter_loop st2)) by done.
    assert (K4 : keeps (enter_loop st2) (visit_Stmt b (enter_loop st2))).
    { apply IHb; [exact Hcb | |].
      - eapply keeps_resolves; [| exact Hres]. by eapply keeps_trans.
      - eapply keeps_nested; [| exact Hn]. by eapply keeps_trans. }
    assert (K5 : keeps (visit_Stmt b (enter_loop st2))
                   (exit_loop (visit_Stmt b (enter_loop st2)))) by done.
    eapply keeps_trans; [exact K2 |]. eapply keeps_trans; [exact K3 |].
    by eapply keeps_trans.
  - simpl. destruct (is_in_loop st); [apply keeps_refl | by apply keeps_report].
  - simpl. destruct (is_in_loop st); [apply keeps_refl | by apply keeps_report].
  - (* Return *)
    simpl.
    assert (K0 : keeps st (set_has_return true st)) by done.
    destruct oe as [e |].
    + destruct (bool_decide (current_function_return_type _ = DT_VOID)).
      * eapply keeps_trans; [exact K0 |]. by apply keeps_report.
      * unfold analyze_expression.
        assert (K : keeps (set_has_return true st)
                      (visit_Expr e (set_has_return true st)))
          by (eapply keeps_visit_Expr; [exact Hc | exact Hres]).
        destruct (check_type_compatibility _ _).
        -- by eapply keeps_trans.
        -- eapply keeps_trans; [exact K0 |]. eapply keeps_trans; [exact K |].
           by apply keeps_report.
    + destruct (bool_decide _); [exact K0 |].
      eapply keeps_trans; [exact K0 |]. by apply keeps_report.
Qed.

Lemma keeps_define_parameters ps st :
  nested st -> keeps st (define_parameters ps st).
Proof.
  intros Hn. unfold define_parameters.
  apply (keeps_fold_left _ nested); [| | exact Hn].
  - intros s s' Hs Hk. by eapply keeps_nested.
  - apply Forall_forall. intros p _ s Hs. unfold define_parameter.
    pose proof (define_local_keeps PARAMETER p DT_INT (symbol_table s) Hs) as [G L].
    destruct (define_local PARAMETER p DT_INT (symbol_table s)) as [t ok]; simpl in *.
    pose proof (keeps_set_table t s G L) as K.
    destruct ok; [exact K |].
    eapply keeps_trans; [exact K |]. by apply keeps_report.
Qed.

(** The analysis of a function whose calls all resolve gives the table
    back as it found it, up to the counters, and reports no undefined
    function. *)
Lemma keeps_visit_FuncDef names f st :
  forallb (calls_defined_stmt names) (fbody f) = true -> resolves names st ->
  keeps st (visit_FuncDef f st).
Proof.
  intros Hc Hres. unfold visit_FuncDef.
  set (st1 := enter_function_scope _ _ st).
  set (st2 := with_table enter_scope st1).
  assert (G2 : global_scope (symbol_table st2) = global_scope (symbol_table st)) by done.
  assert (L2 : length (inner_scopes (symbol_table st2))
               = S (length (inner_scopes (symbol_table st)))) by done.
  assert (U2 : has_error UNDEFINED_FUNCTION st2 = has_error UNDEFINED_FUNCTION st) by done.
  assert (N2 : nested st2) by done.
  assert (R2 : resolves names st2) by (by apply (resolves_same_global names st)).
  pose proof (keeps_define_parameters (params f) st2 N2) as K3.
  set (st3 := define_parameters (params f) st2) in *.
  assert (K4 : keeps st3 (visit_Stmt (Block (fbody f)) st3)).
  { apply (keeps_visit_Stmt names); [exact Hc | by eapply keeps_resolves
                                             | by eapply keeps_nested]. }
  set (st4 := visit_Stmt (Block (fbody f)) st3) in *.
  set (st5 := if _ && _ then _ else _).
  assert (K5 : keeps st4 st5).
  { subst st5. destruct (_ && _); [| apply keeps_refl].
    destruct (negb _); [by apply keeps_report | apply keeps_refl]. }
  pose proof (keeps_trans _ _ _ K3 (keeps_trans _ _ _ K4 K5)) as (G & L & U).
  unfold keeps, exit_function_scope, with_table, exit_scope; simpl.
  destruct (inner_scopes (symbol_table st5)) as [| sc rest] eqn:E.
  { rewrite L2 in L. discriminate. }
  simpl. rewrite L2 in L. simpl in L.
  split; [congruence | split; [lia |]].
  transitivity (has_error UNDEFINED_FUNCTION st5); [reflexivity | congruence].
Qed.

Lemma keeps_analyze_bodies names fs st :
  forallb (fun f => forallb (calls_defined_stmt names) (fbody f)) fs = true ->
  resolves names st ->
  keeps st (analyze_bodies fs st).
Proof.
  intros Hc Hres. unfold analyze_bodies.
  apply (keeps_fold_left _ (resolves names)); [| | exact Hres].
  - intros s s' Hs Hk. by eapply keeps_resolves.
  - rewrite forallb_forall in Hc. apply Forall_forall.
    intros f Hf s Hs. apply (keeps_visit_FuncDef names); [| exact Hs].
    apply Hc. by apply list_elem_of_In.
Qed.

(** Every symbol of the global scope is a function. *)
Definition global_functions_only (st : SemanticAnalyzer) : Prop :=
  forall n s, symbols (global_scope (symbol_table st)) !! n = Some s ->
              symbol_type s = FUNCTION.

(** The first pass enters every function of the unit in the global scope
    and reports no undefined function. *)
Lemma register_functions_resolves fs : forall st,
  global_functions_only st ->
  global_functions_only (register_functions fs st) /\
  (forall n, In n (map fname fs) ->
             is_Some (lookup_function (symbol_table (register_functions fs st)) n)) /\
  (forall n, is_Some (lookup_function (symbol_table st) n) ->
             is_Some (lookup_function (symbol_table (register_functions fs st)) n)) /\
  has_error UNDEFINED_FUNCTION (register_functions fs st)
    = has_error UNDEFINED_FUNCTION st.
Proof.
  unfold register_functions.
  induction fs as [| f fs IH]; intros st Hg; simpl.
  - repeat split; [exact Hg | by intros n [] | auto].
  - set (step := define_function (fname f) (data_type_of (return_type f))
                   (map (fun _ => DT_INT) (params f)) (symbol_table st)).
    set (st1 := let '(t, ok) := step in
                let s1 := set_table t st in
                if ok then s1
                else report_error REDEFINED_FUNCTION
                       ("Function '" +:+ fname f +:+ "' is already defined") s1).
    assert (H1 : global_functions_only st1 /\
                 is_Some (lookup_function (symbol_table st1) (fname f)) /\
                 (forall n, is_Some (lookup_function (symbol_table st) n) ->
                            is_Some (lookup_function (symbol_table st1) n)) /\
                 has_error UNDEFINED_FUNCTION st1 = has_error UNDEFINED_FUNCTION st).
    { subst st1 step. unfold define_function, define. simpl.
      destruct (symbols (global_scope (symbol_table st)) !! fname f) as [s0 |] eqn:E.
      - (* already defined *)
        simpl. split; [exact Hg |]. split.
        + unfold lookup_function, lookup_local. rewrite E.
          rewrite (Hg _ _ E). by rewrite decide_True.
        + split; [auto |]. rewrite has_error_report. apply orb_false_r.
      - simpl. split.
        + intros n s. unfold global_functions_only in Hg. simpl.
          destruct (decide (fname f = n)) as [<- | Hne].
          * rewrite lookup_insert_eq. by intros [= <-].
          * rewrite lookup_insert_ne by exact Hne. apply Hg.
        + split.
          * unfold lookup_function, lookup_local. simpl.
            rewrite lookup_insert_eq. by rewrite decide_True.
          * split; [| reflexivity].
            intros n. unfold lookup_function, lookup_local. simpl.
            destruct (decide (fname f = n)) as [<- | Hne].
            -- by rewrite E.
            -- by rewrite lookup_insert_ne. }
    destruct H1 as (Hg1 & Hf & Hold & Hu).
    destruct (IH st1 Hg1) as (Hg' & Hnew' & Hold' & Hu').
    repeat split.
    + exact Hg'.
    + intros n [<- | Hn]; [by apply Hold' | by apply Hnew'].
    + intros n Hn. by apply Hold', Hold.
    + by rewrite Hu'.
Qed.

(** In the TOYC2 analyzer a call to any function of the unit, defined
    before or after the call, raises no [UNDEFINED_FUNCTION] error. *)
Lemma toyc2_forward_calls_resolve (fs : CompUnit) :
  calls_defined fs = true ->
  has_error UNDEFINED_FUNCTION (visit_CompUnit fs Semantic.init) = false.
Proof.
  intros Hc. unfold visit_CompUnit.
  destruct (register_functions_resolves fs Semantic.init) as (_ & Hnew & _ & Hu).
  { intros n s. simpl. by rewrite lookup_empty. }
  destruct (keeps_analyze_bodies (map fname fs) fs (register_functions fs Semantic.init))
    as (_ & _ & U); [exact Hc | exact Hnew |].
  by rewrite U, Hu.
Qed.

End Toyc2AnalyzerFacts.

(** ** The IR pipeline's analyzer: function table and return flag *)

Section AnalyzeFacts.
Import Ast Analyze.

(** The part of the state that only [visit(FunctionDef&)] and
    [visit(ReturnStmt&)] write. *)
Definition context (st : State) : gmap string FunctionInfo * string * string * bool :=
  (functionTable st, currentFunction st, currentFunctionReturnType st, hasReturn st).

Lemma context_error m l c st : context (error m l c st) = context st.
Proof. reflexivity. Qed.

Lemma context_warning m l c st : context (warning m l c st) = context st.
Proof. reflexivity. Qed.

Lemma context_set_symbolTables ts st : context (set_symbolTables ts st) = context st.
Proof. reflexivity. Qed.

Lemma context_getExprType e : forall st, context (getExprType e st).2 = context st.
Proof.
  induction e as [v l c | x l c | a op b l c IHa IHb | op e l c IHe | f args l c IHargs]
    using Expr_nested_ind; intros st; simpl.
  - reflexivity.
  - by destruct (findSymbol x (symbolTables st)) as [[s |] ts].
  - specialize (IHa st). destruct (getExprType a st) as [ta sa]. simpl in IHa.
    specialize (IHb sa). destruct (getExprType b sa) as [tb sb]. simpl in IHb.
    destruct (negb _ || negb _); cbn [snd]; rewrite ?context_error, ?context_warning; congruence.
  - specialize (IHe st). destruct (getExprType e st) as [te se]. simpl in IHe.
    destruct (negb _); cbn [snd]; rewrite ?context_error, ?context_warning; congruence.
  - destruct (functionTable st !! f) as [info |]; [| reflexivity].
    set (st1 := match findSymbol f (symbolTables st) with
                | (Some symbol, tables) => _
                | (None, _) => st
                end).
    assert (H1 : context st1 = context st).
    { subst st1. destruct (findSymbol f (symbolTables st)) as [[sym |] ts]; [| done].
      by destruct (decide _). }
    destruct (negb _); simpl; [exact H1 |].
    rewrite <- H1. generalize 0%nat as i. generalize st1 as s. clear H1 st1.
    induction IHargs as [| a args Ha _ IH]; intros s i; simpl; [reflexivity |].
    specialize (Ha s). destruct (getExprType a s) as [ta sa]. simpl in Ha.
    rewrite IH. destruct (String.eqb _ _); cbn [snd]; rewrite ?context_error, ?context_warning; congruence.
Qed.

Lemma context_check_operand_types a op b l c st :
  context (check_operand_types a op b l c st) = context st.
Proof.
  unfold check_operand_types.
  pose proof (context_getExprType a st) as Ha.
  destruct (getExprType a st) as [ta sa]. simpl in Ha.
  pose proof (context_getExprType b sa) as Hb.
  destruct (getExprType b sa) as [tb sb]. simpl in Hb.
  destruct (negb _ || negb _); cbn [snd]; rewrite ?context_error, ?context_warning; congruence.
Qed.

Lemma context_check_division op r l c st :
  context (check_division op r l c st) = context st.
Proof.
  unfold check_division. destruct (_ || _); [| reflexivity].
  destruct (evaluateConstant r) as [v | |]; [| reflexivity | reflexivity].
  by destruct (v =? 0)%Z.
Qed.

Lemma context_check_constant_condition a op b l c st :
  context (check_constant_condition a op b l c st) = context st.
Proof.
  unfold check_constant_condition. destruct (is_condition_operator op); [| reflexivity].
  destruct (evaluateConstant a), (evaluateConstant b); try reflexivity.
  by destruct (isAlwaysTrue _ _ _).
Qed.

Lemma context_visit_Expr e : forall st, context (visit_Expr e st) = context st.
Proof.
  induction e as [v l c | x l c | a op b l c IHa IHb | op e l c IHe | f args l c IHargs]
    using Expr_nested_ind; intros st.
  - reflexivity.
  - simpl. by destruct (findSymbol x (symbolTables st)) as [[s |] ts].
  - simpl. rewrite context_check_constant_condition, context_check_division,
      context_check_operand_types, IHb, IHa. reflexivity.
  - simpl. pose proof (context_getExprType e (visit_Expr e st)) as H.
    destruct (getExprType e (visit_Expr e st)) as [te se]. simpl in H.
    destruct (negb _); rewrite ?context_error, H; apply IHe.
  - cbn [visit_Expr].
    destruct (bool_decide _ && negb _); [reflexivity |].
    set (st1 := match findSymbol f (symbolTables st) with
                | (Some symbol, tables) => _
                | (None, _) => st
                end).
    assert (H1 : context st1 = context st).
    { subst st1. destruct (findSymbol f (symbolTables st)) as [[sym |] ts]; [| done].
      by destruct (decide _). }
    set (funcInfo := function_info f st1).
    match goal with
    | |- context [getExprType _ (?loop args 0%nat _)] =>
        assert (Hloop : forall s i, context (loop args i s) = context s)
    end.
    { clear H1. clearbody funcInfo. clear st1.
      induction IHargs as [| a args Ha _ IH]; intros s i; simpl; [reflexivity |].
      rewrite IH. destruct (i <? _)%nat; [| apply Ha].
      pose proof (context_getExprType a (visit_Expr a s)) as Hg.
      destruct (getExprType a (visit_Expr a s)) as [ta sa]. simpl in Hg.
      destruct (negb (ta =? _)%string); rewrite ?context_error, Hg; apply Ha. }
    set (st2 := if negb _ then _ else st1).
    assert (H2 : context st2 = context st).
    { subst st2. by destruct (negb _). }
    match goal with
    | |- context [getExprType ?e ?s3] =>
        pose proof (context_getExprType e s3) as H4;
        destruct (getExprType e s3) as [tc s4] eqn:E4
    end.
    simpl in H4. rewrite Hloop in H4.
    destruct (negb (tc =? _)%string); rewrite ?context_error; congruence.
Qed.

End AnalyzeFacts.

(** ** Division by zero in the two analyzers *)

Section DivisionFacts.
Import Ast Analyze.

(** The operators on which [visit(BinaryExpr&)] runs its division check. *)
Definition is_division (op : string) : bool :=
  String.eqb op "/" || String.eqb op "%".



Lemma errorMessages_error m l c st :
  errorMessages (diag (error m l c st))
  = errorMessages (diag st)
    ++ (if bool_decide (full_message m l c ∈ reportedErrors (diag st))
        then [] else [full_message m l c]).
Proof.
  unfold error, with_diag, diag_error. simpl.
  destruct (bool_decide _); simpl; by rewrite ?app_nil_r.
Qed.

Lemma errorMessages_warning m l c st :
  errorMessages (diag (warning m l c st)) = errorMessages (diag st).
Proof.
  unfold warning, with_diag, diag_warning. simpl. by destruct (bool_decide _).
Qed.



Lemma check_division_spec op r l c st :
  check_division op r l c st
  = if is_division op && bool_decide (evaluateConstant r = Constant 0%Z)
    then error "Division by zero" l c st
    else if is_division op && bool_decide (evaluateConstant r = Sigfpe)
    then sigfpe st else st.
Proof.
  unfold check_division, is_division.
  destruct (_ || _); [| reflexivity]. simpl.
  destruct (evaluateConstant r) as [v | |]; [| reflexivity | reflexivity].
  destruct (Z.eqb_spec v 0) as [-> | Hv]; [reflexivity |].
  rewrite bool_decide_eq_false_2; [reflexivity | congruence].
Qed.

Lemma errorMessages_sigfpe st :
  errorMessages (diag (sigfpe st)) = errorMessages (diag st).
Proof. reflexivity. Qed.

Lemma errorMessages_check_constant_condition a op b l c st :
  errorMessages (diag (check_constant_condition a op b l c st))
  = errorMessages (diag st).
Proof.
  unfold check_constant_condition. destruct (is_condition_operator op); [| reflexivity].
  destruct (evaluateConstant a), (evaluateConstant b); try reflexivity.
  destruct (isAlwaysTrue _ _ _); apply errorMessages_warning.
Qed.

End DivisionFacts.





(** The division [1 / ((-2147483647 - 1) % (-1))]: the evaluation of the
    right operand is killed, and with it the analyzer. *)
Lemma C6_overflowing_divisor_kills_the_analyzer :
  let least :=
    Ast.BinaryExpr (Ast.UnaryExpr "-" (Ast.NumberExpr 2147483647 1 11) 1 10) "-"
      (Ast.NumberExpr 1 1 22) 1 21 in
  let divisor :=
    Ast.BinaryExpr least "%" (Ast.UnaryExpr "-" (Ast.NumberExpr 1 1 29) 1 28) 1 25 in
  let e := Ast.BinaryExpr (Ast.NumberExpr 1 1 5) "/" divisor 1 7 in
  Analyze.evaluateConstant least = Analyze.Constant (-2147483648)%Z
  /\ Analyze.evaluateConstant divisor = Analyze.Sigfpe
  /\ Analyze.killed (Analyze.visit_Expr e Analyze.init) = true.
Proof. vm_compute. repeat split. Qed.

(** ** The function table and the return flag of the IR pipeline's analyzer *)

Section AnalyzeStatements.
Import Ast Analyze.

(** The write of [visit(ReturnStmt&)] on the [context]. *)
Definition with_return (b : bool)
    (c : gmap string FunctionInfo * string * string * bool)
  : gmap string FunctionInfo * string * string * bool :=
  (c.1.1.1, c.1.1.2, c.1.2, c.2 || b).

Lemma with_return_false c : with_return false c = c.
Proof. destruct c as [[[t f] r] h]. unfold with_return. simpl. by rewrite orb_false_r. Qed.

Lemma with_return_twice a b c :
  with_return b (with_return a c) = with_return (a || b) c.
Proof. unfold with_return. simpl. by rewrite orb_assoc. Qed.

Lemma context_fold_left {A} (f : State -> A -> State) (l : list A) :
  (forall s a, context (f s a) = context s) ->
  forall st, context (fold_left f l st) = context st.
Proof.
  intros Hf. induction l as [| a l IH]; intros st; simpl; [reflexivity |].
  by rewrite IH, Hf.
Qed.

Lemma context_helper_checkUnusedVariables st :
  context (helper_checkUnusedVariables st) = context st.
Proof.
  unfold helper_checkUnusedVariables.
  destruct (symbolTables st) as [| scope outer]; [reflexivity |].
  apply context_fold_left. intros s [name symbol].
  by destruct (_ && _).
Qed.

Lemma context_exitScope st : context (exitScope st) = context st.
Proof.
  unfold exitScope. destruct (symbolTables st) as [| scope outer]; [reflexivity |].
  rewrite context_set_symbolTables. apply context_helper_checkUnusedVariables.
Qed.

Lemma context_declareSymbol name symbol st :
  context (declareSymbol name symbol st).1 = context st.
Proof.
  unfold declareSymbol. destruct (symbolTables st) as [| t outer]; [reflexivity |].
  by destruct (t !! name).
Qed.

Lemma context_checkUnusedVariables st :
  context (checkUnusedVariables st) = context st.
Proof.
  unfold checkUnusedVariables. apply context_fold_left. intros s scope.
  apply context_fold_left. intros s' [name symbol]. by destruct (_ && _).
Qed.

Lemma context_declare_params ps l c st :
  context (declare_params ps l c st) = context st.
Proof.
  unfold declare_params. generalize 0%nat as i. revert st.
  induction ps as [| p ps IH]; intros st i; simpl; [reflexivity |].
  pose proof (context_declareSymbol (param_name p)
                (mkSymbol PARAMETER "int" l c (Z.of_nat i) false) st) as Hd.
  destruct (declareSymbol _ _ st) as [s1 ok]. simpl in Hd.
  rewrite IH. by destruct ok.
Qed.

(** A visit followed by the type visitor, as the statements run them. *)
Lemma context_typed_visit e st :
  context (getExprType e (visit_Expr e st)).2 = context st.
Proof. by rewrite context_getExprType, context_visit_Expr. Qed.

(** The statement visitor leaves the function table and the current
    function alone, and raises [hasReturn] exactly when a [return]
    statement occurs somewhere in the statement. *)
Lemma context_visit_Stmt s : forall st,
  context (visit_Stmt s st) = with_return (contains_return s) (context st).
Proof.
  induction s as [oe l c | x oe l c | x e l c | ss l c IHss | cond t l c IHt
                  | cond t e l c IHt IHe | cond b l c IHb | l c | l c | oe l c]
    using Stmt_nested_ind; intros st; cbn [visit_Stmt contains_return];
    rewrite ?with_return_false.
  - destruct oe as [e |]; [apply context_visit_Expr | reflexivity].
  - rewrite context_declareSymbol.
    set (st1 := match symbolTables st with [] => st | t :: _ => _ end).
    assert (H1 : context st1 = context st).
    { subst st1. destruct (symbolTables st) as [| t outer]; [reflexivity |].
      by destruct (bool_decide _). }
    destruct oe as [e |]; [| exact H1].
    pose proof (context_typed_visit e st1) as H.
    destruct (getExprType e (visit_Expr e st1)) as [ty s2]. simpl in H.
    destruct (negb _); rewrite ?context_error; congruence.
  - destruct (findSymbol x (symbolTables st)) as [[symbol |] tables]; [| reflexivity].
    set (st2 := if negb _ && negb _ then _ else _).
    assert (H2 : context st2 = context st).
    { subst st2. by destruct (negb _ && negb _). }
    pose proof (context_typed_visit e st2) as H.
    destruct (getExprType e (visit_Expr e st2)) as [ty s4]. simpl in H.
    destruct (negb (ty =? _)%string); rewrite ?context_error; congruence.
  - rewrite context_exitScope.
    change (context st) with (context (enterScope st)).
    generalize (enterScope st) as s0.
    induction IHss as [| s ss Hs _ IH]; intros s0; simpl.
    + by rewrite with_return_false.
    + by rewrite IH, Hs, with_return_twice.
  - rewrite orb_false_r.
    pose proof (context_typed_visit cond st) as H.
    destruct (getExprType cond (visit_Expr cond st)) as [ty s2]. simpl in H.
    rewrite IHt. f_equal. rewrite <- H.
    destruct (evaluateConstant cond) as [v | |].
    + destruct (negb (v =? 0)%Z); [| rewrite context_warning];
        by destruct (negb (ty =? _)%string).
    + by destruct (negb (ty =? _)%string).
    + by destruct (negb (ty =? _)%string).
  - pose proof (context_typed_visit cond st) as H.
    destruct (getExprType cond (visit_Expr cond st)) as [ty s2]. simpl in H.
    rewrite IHe, IHt, with_return_twice. f_equal. rewrite <- H.
    destruct (evaluateConstant cond) as [v | |].
    + destruct (negb (v =? 0)%Z); rewrite context_warning;
        by destruct (negb (ty =? _)%string).
    + by destruct (negb (ty =? _)%string).
    + by destruct (negb (ty =? _)%string).
  - pose proof (context_typed_visit cond st) as H.
    destruct (getExprType cond (visit_Expr cond st)) as [ty s2]. simpl in H.
    change (context (exitLoop ?s)) with (context s).
    rewrite IHb. f_equal. change (context (enterLoop ?s)) with (context s).
    rewrite <- H.
    destruct (evaluateConstant cond) as [v | |].
    + destruct (v =? 0)%Z; rewrite ?context_warning;
        by destruct (negb (ty =? _)%string).
    + by destruct (negb (ty =? _)%string).
    + by destruct (negb (ty =? _)%string).
  - by destruct (isInLoop st).
  - by destruct (isInLoop st).
  - destruct oe as [e |].
    + pose proof (context_typed_visit e st) as H.
      destruct (getExprType e (visit_Expr e st)) as [ty s2]. simpl in H.
      unfold with_return. rewrite orb_true_r, <- H.
      by destruct (negb _).
    + unfold with_return. rewrite orb_true_r.
      by destruct (negb _).
Qed.

End AnalyzeStatements.

(** ** Calls to registered functions in the IR pipeline's analyzer *)

Section AnalyzeCalls.
Import Ast Analyze.

(** Has an ["Undefined function: ..."] error been recorded? *)
Definition reports_undefined_function (st : State) : bool :=
  existsb (String.prefix "Undefined function: ") (errorMessages (diag st)).

(** Do the two strings disagree at a position that both have? *)
Fixpoint differs (p m : string) : bool :=
  match p, m with
  | String a p', String b m' => if Ascii.eqb a b then differs p' m' else true
  | _, _ => false
  end.

Lemma differs_prefix p : forall m x,
  differs p m = true -> String.prefix p (m +:+ x) = false.
Proof.
  induction p as [| a p IH]; intros [| b m] x H; simpl in *; try discriminate.
  destruct (Ascii.eqb_spec a b) as [-> | Hab].
  - destruct (ascii_dec b b); [by apply IH | reflexivity].
  - by destruct (ascii_dec a b).
Qed.

Lemma differs_prefix_whole p : forall m,
  differs p m = true -> String.prefix p m = false.
Proof.
  induction p as [| a p IH]; intros [| b m] H; simpl in *; try discriminate.
  destruct (Ascii.eqb_spec a b) as [-> | Hab].
  - destruct (ascii_dec b b); [by apply IH | reflexivity].
  - by destruct (ascii_dec a b).
Qed.

Lemma differs_full_message p m l c :
  differs p m = true -> String.prefix p (full_message m l c) = false.
Proof.
  intros H. unfold full_message.
  destruct (0 <? l)%Z; [by apply differs_prefix | by apply differs_prefix_whole].
Qed.

Lemma reports_error m l c st :
  differs "Undefined function: " m = true ->
  reports_undefined_function (error m l c st) = reports_undefined_function st.
Proof.
  intros H. unfold reports_undefined_function. rewrite errorMessages_error.
  destruct (bool_decide _); rewrite existsb_app; cbn [existsb];
    rewrite ?(differs_full_message _ _ l c H); by rewrite ?orb_false_r.
Qed.

Lemma reports_warning m l c st :
  reports_undefined_function (warning m l c st) = reports_undefined_function st.
Proof. unfold reports_undefined_function. by rewrite errorMessages_warning. Qed.

Lemma reports_set_symbolTables ts st :
  reports_undefined_function (set_symbolTables ts st) = reports_undefined_function st.
Proof. reflexivity. Qed.

(** Rewrites the errors and warnings whose message is given in the source
    away from a goal about [reports_undefined_function]. *)
Ltac silence :=
  repeat first
    [ rewrite reports_warning
    | rewrite reports_set_symbolTables
    | rewrite reports_error by reflexivity ].

Lemma reports_getExprType e : forall st,
  reports_undefined_function (getExprType e st).2 = reports_undefined_function st.
Proof.
  induction e as [v l c | x l c | a op b l c IHa IHb | op e l c IHe | f args l c IHargs]
    using Expr_nested_ind; intros st; cbn [getExprType].
  - reflexivity.
  - by destruct (findSymbol x (symbolTables st)) as [[s |] ts].
  - specialize (IHa st). destruct (getExprType a st) as [ta sa]. cbn [snd] in IHa.
    specialize (IHb sa). destruct (getExprType b sa) as [tb sb]. cbn [snd] in IHb.
    destruct (negb _ || negb _); cbn [snd]; silence; congruence.
  - specialize (IHe st). destruct (getExprType e st) as [te se]. cbn [snd] in IHe.
    destruct (negb _); cbn [snd]; silence; congruence.
  - destruct (functionTable st !! f) as [info |]; [| reflexivity].
    set (st1 := match findSymbol f (symbolTables st) with
                | (Some symbol, tables) => _
                | (None, _) => st
                end).
    assert (H1 : reports_undefined_function st1 = reports_undefined_function st).
    { subst st1. destruct (findSymbol f (symbolTables st)) as [[sym |] ts]; [| done].
      by destruct (decide _). }
    destruct (negb _); cbn [snd]; [silence; exact H1 |].
    rewrite <- H1. generalize 0%nat as i. generalize st1 as s. clear H1 st1.
    induction IHargs as [| a args Ha _ IH]; intros s i; [reflexivity |].
    specialize (Ha s). destruct (getExprType a s) as [ta sa]. cbn [snd] in Ha.
    rewrite <- Ha, IH. destruct (String.eqb _ _); silence; reflexivity.
Qed.

Lemma reports_check_operand_types a op b l c st :
  reports_undefined_function (check_operand_types a op b l c st)
  = reports_undefined_function st.
Proof.
  unfold check_operand_types.
  pose proof (reports_getExprType a st) as Ha.
  destruct (getExprType a st) as [ta sa]. cbn [snd] in Ha.
  pose proof (reports_getExprType b sa) as Hb.
  destruct (getExprType b sa) as [tb sb]. cbn [snd] in Hb.
  destruct (negb _ || negb _); silence; congruence.
Qed.

Lemma reports_check_division op r l c st :
  reports_undefined_function (check_division op r l c st)
  = reports_undefined_function st.
Proof.
  rewrite check_division_spec. destruct (_ && _); [silence; reflexivity |].
  by destruct (_ && _).
Qed.

Lemma reports_check_constant_condition a op b l c st :
  reports_undefined_function (check_constant_condition a op b l c st)
  = reports_undefined_function st.
Proof.
  unfold reports_undefined_function.
  by rewrite errorMessages_check_constant_condition.
Qed.

(** Every callee of the expression satisfies [known]. *)
Fixpoint calls_known_expr (known : string -> bool) (e : Expr) : bool :=
  match e with
  | NumberExpr _ _ _ | VariableExpr _ _ _ => true
  | BinaryExpr l _ r _ _ => calls_known_expr known l && calls_known_expr known r
  | UnaryExpr _ operand _ _ => calls_known_expr known operand
  | CallExpr callee arguments _ _ =>
      known callee && forallb (calls_known_expr known) arguments
  end.

Definition calls_known_opt (known : string -> bool) (oe : option Expr) : bool :=
  match oe with
  | Some e => calls_known_expr known e
  | None => true
  end.

Fixpoint calls_known_stmt (known : string -> bool) (s : Stmt) : bool :=
  match s with
  | ExprStmt oe _ _ => calls_known_opt known oe
  | VarDeclStmt _ oe _ _ => calls_known_opt known oe
  | AssignStmt _ e _ _ => calls_known_expr known e
  | BlockStmt ss _ _ => forallb (calls_known_stmt known) ss
  | IfStmt cond t oe _ _ =>
      calls_known_expr known cond && calls_known_stmt known t
      && match oe with
         | Some e => calls_known_stmt known e
         | None => true
         end
  | WhileStmt cond b _ _ => calls_known_expr known cond && calls_known_stmt known b
  | BreakStmt _ _ | ContinueStmt _ _ => true
  | ReturnStmt oe _ _ => calls_known_opt known oe
  end.

(** The names that satisfy [known] are in the function table of [st], or
    name the function being analysed. *)
Definition knows (known : string -> bool) (st : State) : Prop :=
  forall f, known f = true ->
    is_Some (functionTable st !! f) \/ f = currentFunction st.

(** [st'] has the context of [st] and the same verdict on undefined
    functions. *)
Definition quiet (st st' : State) : Prop :=
  context st' = context st
  /\ reports_undefined_function st' = reports_undefined_function st.

Lemma quiet_refl st : quiet st st.
Proof. by split. Qed.

Lemma quiet_trans st1 st2 st3 : quiet st1 st2 -> quiet st2 st3 -> quiet st1 st3.
Proof. intros [H1 H2] [H3 H4]. split; congruence. Qed.

Lemma quiet_error m l c st :
  differs "Undefined function: " m = true -> quiet st (error m l c st).
Proof. intros H. split; [apply context_error | by apply reports_error]. Qed.

Lemma quiet_warning m l c st : quiet st (warning m l c st).
Proof. split; [apply context_warning | apply reports_warning]. Qed.

Lemma quiet_sigfpe st : quiet st (sigfpe st).
Proof. by split. Qed.

Lemma quiet_set_symbolTables ts st : quiet st (set_symbolTables ts st).
Proof. by split. Qed.

Lemma quiet_getExprType e st : quiet st (getExprType e st).2.
Proof. split; [apply context_getExprType | apply reports_getExprType]. Qed.

Lemma quiet_knows known st st' : quiet st st' -> knows known st -> knows known st'.
Proof.
  intros [Hc _] Hk f Hf. unfold context in Hc.
  injection Hc as Ht Hcur _ _. rewrite Ht, Hcur. by apply Hk.
Qed.

(** The look-up of the callee that [visit(CallExpr&)] and the type
    visitor start with. *)
Lemma quiet_mark_callee f st :
  quiet st
    (match findSymbol f (symbolTables st) with
     | (Some symbol, tables) =>
         if decide (kind symbol = FUNCTION)
         then set_symbolTables (mark_used f tables) st
         else set_symbolTables tables st
     | (None, _) => st
     end).
Proof.
  destruct (findSymbol f (symbolTables st)) as [[sym |] ts]; [| apply quiet_refl].
  destruct (decide _); apply quiet_set_symbolTables.
Qed.

(** A visit whose callees are all known reports no undefined function. *)
Lemma quiet_visit_Expr known e : forall st,
  calls_known_expr known e = true -> knows known st -> quiet st (visit_Expr e st).
Proof.
  induction e as [v l c | x l c | a op b l c IHa IHb | op e l c IHe | f args l c IHargs]
    using Expr_nested_ind; intros st He Hk; cbn [visit_Expr calls_known_expr] in *.
  - apply quiet_refl.
  - destruct (findSymbol x (symbolTables st)) as [[s |] ts];
      [apply quiet_set_symbolTables | by apply quiet_error].
  - apply andb_true_iff in He as [Ha Hb].
    pose proof (IHa st Ha Hk) as Q1.
    pose proof (IHb _ Hb (quiet_knows _ _ _ Q1 Hk)) as Q2.
    eapply quiet_trans; [exact Q1 |]. eapply quiet_trans; [exact Q2 |].
    split.
    + by rewrite context_check_constant_condition, context_check_division,
        context_check_operand_types.
    + by rewrite reports_check_constant_condition, reports_check_division,
        reports_check_operand_types.
  - pose proof (IHe st He Hk) as Q1.
    pose proof (quiet_getExprType e (visit_Expr e st)) as Q2.
    destruct (getExprType e (visit_Expr e st)) as [te se]. cbn [snd] in Q2.
    eapply quiet_trans; [exact Q1 |]. eapply quiet_trans; [exact Q2 |].
    destruct (negb _); [by apply quiet_error | apply quiet_refl].
  - apply andb_true_iff in He as [Hf Hargs].
    assert (G : bool_decide (functionTable st !! f = None)
                && negb (String.eqb f (currentFunction st)) = false).
    { destruct (Hk f Hf) as [[info Hinfo] | ->].
      - rewrite bool_decide_eq_false_2; [reflexivity | congruence].
      - by rewrite String.eqb_refl, andb_false_r. }
    rewrite G.
    pose proof (quiet_mark_callee f st) as Q1.
    set (st1 := match findSymbol f (symbolTables st) with
                | (Some symbol, tables) => _
                | (None, _) => st
                end) in *.
    set (funcInfo := function_info f st1).
    match goal with
    | |- context [getExprType _ (?loop args 0%nat _)] =>
        assert (Hloop : forall s i, knows known s -> quiet s (loop args i s))
    end.
    { clear Q1 G. clearbody funcInfo. clear st1.
      induction IHargs as [| a args Ha _ IH]; intros s i Hs; [apply quiet_refl |].
      cbn [forallb] in Hargs. apply andb_true_iff in Hargs as [Harg Hargs].
      specialize (IH Hargs).
      pose proof (Ha s Harg Hs) as Qa.
      assert (Qs : quiet s
                (if (i <? length (paramTypes funcInfo))%nat
                 then
                   let '(argType, s') := getExprType a (visit_Expr a s) in
                   if negb (String.eqb argType (nth i (paramTypes funcInfo) ""))
                   then error ("Function '" +:+ f +:+ "' argument "
                               +:+ pretty (S i)
                               +:+ " type mismatch, expected '"
                               +:+ nth i (paramTypes funcInfo) ""
                               +:+ "', got '" +:+ argType +:+ "'") l c s'
                   else s'
                 else visit_Expr a s)).
      { destruct (i <? _)%nat; [| exact Qa].
        pose proof (quiet_getExprType a (visit_Expr a s)) as Qg.
        destruct (getExprType a (visit_Expr a s)) as [ta sa]. cbn [snd] in Qg.
        eapply quiet_trans; [exact Qa |]. eapply quiet_trans; [exact Qg |].
        destruct (negb (ta =? _)%string); [by apply quiet_error | apply quiet_refl]. }
      eapply quiet_trans; [exact Qs |].
      apply IH. exact (quiet_knows _ _ _ Qs Hs). }
    set (st2 := if negb _ then _ else st1).
    assert (Q2 : quiet st1 st2).
    { subst st2.
      destruct (negb (_ =? _)%nat); [by apply quiet_error | apply quiet_refl]. }
    pose proof (quiet_knows _ _ _ (quiet_trans _ _ _ Q1 Q2) Hk) as Hk2.
    pose proof (Hloop st2 0%nat Hk2) as Q3.
    match goal with
    | |- context [getExprType ?e ?s3] =>
        pose proof (quiet_getExprType e s3) as Q4;
        destruct (getExprType e s3) as [tc s4]
    end.
    cbn [snd] in Q4.
    eapply quiet_trans; [exact Q1 |]. eapply quiet_trans; [exact Q2 |].
    eapply quiet_trans; [exact Q3 |]. eapply quiet_trans; [exact Q4 |].
    destruct (negb (tc =? _)%string); [by apply quiet_error | apply quiet_refl].
Qed.

Lemma quiet_typed_visit known e st :
  calls_known_expr known e = true -> knows known st ->
  quiet st (getExprType e (visit_Expr e st)).2.
Proof.
  intros He Hk. eapply quiet_trans; [by apply (quiet_visit_Expr known) |].
  apply quiet_getExprType.
Qed.

Lemma knows_with_return known b st st' :
  context st' = with_return b (context st) -> knows known st -> knows known st'.
Proof.
  intros Hc Hk f Hf. unfold context, with_return in Hc. cbn [fst snd] in Hc.
  injection Hc as Ht Hcur _ _. rewrite Ht, Hcur. by apply Hk.
Qed.

Lemma reports_fold_left {A} (f : State -> A -> State) (l : list A) :
  (forall s a, reports_undefined_function (f s a) = reports_undefined_function s) ->
  forall st,
    reports_undefined_function (fold_left f l st) = reports_undefined_function st.
Proof.
  intros Hf. induction l as [| a l IH]; intros st; simpl; [reflexivity |].
  by rewrite IH, Hf.
Qed.

Lemma reports_helper_checkUnusedVariables st :
  reports_undefined_function (helper_checkUnusedVariables st)
  = reports_undefined_function st.
Proof.
  unfold helper_checkUnusedVariables.
  destruct (symbolTables st) as [| scope outer]; [reflexivity |].
  apply reports_fold_left. intros s [name symbol].
  destruct (_ && _); silence; reflexivity.
Qed.

Lemma reports_exitScope st :
  reports_undefined_function (exitScope st) = reports_undefined_function st.
Proof.
  unfold exitScope. destruct (symbolTables st) as [| scope outer]; [reflexivity |].
  rewrite reports_set_symbolTables. apply reports_helper_checkUnusedVariables.
Qed.

Lemma reports_declareSymbol name symbol st :
  reports_undefined_function (declareSymbol name symbol st).1
  = reports_undefined_function st.
Proof.
  unfold declareSymbol. destruct (symbolTables st) as [| t outer]; [reflexivity |].
  by destruct (t !! name).
Qed.

Lemma reports_checkUnusedVariables st :
  reports_undefined_function (checkUnusedVariables st)
  = reports_undefined_function st.
Proof.
  unfold checkUnusedVariables. apply reports_fold_left. intros s scope.
  apply reports_fold_left. intros s' [name symbol].
  destruct (_ && _); silence; reflexivity.
Qed.

Lemma reports_declare_params ps l c st :
  reports_undefined_function (declare_params ps l c st)
  = reports_undefined_function st.
Proof.
  unfold declare_params. generalize 0%nat as i. revert st.
  induction ps as [| p ps IH]; intros st i; simpl; [reflexivity |].
  pose proof (reports_declareSymbol (param_name p)
                (mkSymbol PARAMETER "int" l c (Z.of_nat i) false) st) as Hd.
  destruct (declareSymbol _ _ st) as [s1 ok]. cbn [fst] in Hd.
  rewrite IH. destruct ok; silence; exact Hd.
Qed.

(** A statement whose callees are all known reports no undefined
    function. *)
Lemma reports_visit_Stmt known s : forall st,
  calls_known_stmt known s = true -> knows known st ->
  reports_undefined_function (visit_Stmt s st) = reports_undefined_function st.
Proof.
  induction s as [oe l c | x oe l c | x e l c | ss l c IHss | cond t l c IHt
                  | cond t e l c IHt IHe | cond b l c IHb | l c | l c | oe l c]
    using Stmt_nested_ind; intros st Hs Hk; cbn [visit_Stmt calls_known_stmt] in *.
  - destruct oe as [e |]; [| reflexivity].
    by apply (quiet_visit_Expr known).
  - rewrite reports_declareSymbol.
    set (st1 := match symbolTables st with [] => st | t :: _ => _ end).
    assert (Q1 : quiet st st1).
    { subst st1. destruct (symbolTables st) as [| t outer]; [apply quiet_refl |].
      destruct (bool_decide _); [by apply quiet_error | apply quiet_refl]. }
    destruct oe as [e |]; [| apply Q1].
    pose proof (quiet_typed_visit known e st1 Hs (quiet_knows _ _ _ Q1 Hk)) as Q2.
    destruct (getExprType e (visit_Expr e st1)) as [ty s2]. cbn [snd] in Q2.
    destruct (negb _); silence; rewrite (proj2 Q2); apply Q1.
  - destruct (findSymbol x (symbolTables st)) as [[symbol |] tables];
      [| silence; reflexivity].
    set (st2 := if negb _ && negb _ then _ else _).
    assert (Q2 : quiet st st2).
    { subst st2. destruct (negb _ && negb _).
      - eapply quiet_trans; [apply quiet_set_symbolTables | by apply quiet_error].
      - apply quiet_set_symbolTables. }
    pose proof (quiet_typed_visit known e st2 Hs (quiet_knows _ _ _ Q2 Hk)) as Q3.
    destruct (getExprType e (visit_Expr e st2)) as [ty s4]. cbn [snd] in Q3.
    destruct (negb (ty =? _)%string); silence; rewrite (proj2 Q3); apply Q2.
  - rewrite reports_exitScope.
    change (reports_undefined_function st)
      with (reports_undefined_function (enterScope st)).
    assert (Hk0 : knows known (enterScope st)) by exact Hk.
    revert Hk0. generalize (enterScope st) as s0.
    induction IHss as [| s ss Hs1 _ IH]; intros s0 Hk0; simpl; [reflexivity |].
    cbn [forallb] in Hs. apply andb_true_iff in Hs as [Hs2 Hss].
    rewrite (IH Hss).
    + by apply Hs1.
    + eapply knows_with_return; [apply context_visit_Stmt | exact Hk0].
  - rewrite andb_true_r in Hs. apply andb_true_iff in Hs as [Hc Ht].
    pose proof (quiet_typed_visit known cond st Hc Hk) as Q.
    destruct (getExprType cond (visit_Expr cond st)) as [ty s2]. cbn [snd] in Q.
    set (st4 := match evaluateConstant cond with
                | Constant _ => _ | NoConstant => _ | Sigfpe => _ end).
    assert (Q4 : quiet s2 st4).
    { subst st4.
      assert (Q3 : quiet s2
                (if negb (ty =? "int")%string
                 then error "If condition must be integer (used as boolean)" l c s2
                 else s2)).
      { destruct (negb _); [by apply quiet_error | apply quiet_refl]. }
      destruct (evaluateConstant cond) as [v | |];
        [| exact Q3 | eapply quiet_trans; [exact Q3 | apply quiet_sigfpe]].
      destruct (negb (v =? 0)%Z); [exact Q3 |].
      eapply quiet_trans; [exact Q3 | apply quiet_warning]. }
    rewrite IHt; [| exact Ht | exact (quiet_knows _ _ _ (quiet_trans _ _ _ Q Q4) Hk)].
    rewrite (proj2 Q4). apply Q.
  - apply andb_true_iff in Hs as [Hs He]. apply andb_true_iff in Hs as [Hc Ht].
    pose proof (quiet_typed_visit known cond st Hc Hk) as Q.
    destruct (getExprType cond (visit_Expr cond st)) as [ty s2]. cbn [snd] in Q.
    set (st4 := match evaluateConstant cond with
                | Constant _ => _ | NoConstant => _ | Sigfpe => _ end).
    assert (Q4 : quiet s2 st4).
    { subst st4.
      assert (Q3 : quiet s2
                (if negb (ty =? "int")%string
                 then error "If condition must be integer (used as boolean)" l c s2
                 else s2)).
      { destruct (negb _); [by apply quiet_error | apply quiet_refl]. }
      destruct (evaluateConstant cond) as [v | |];
        [| exact Q3 | eapply quiet_trans; [exact Q3 | apply quiet_sigfpe]].
      destruct (negb (v =? 0)%Z);
        (eapply quiet_trans; [exact Q3 | apply quiet_warning]). }
    pose proof (quiet_knows _ _ _ (quiet_trans _ _ _ Q Q4) Hk) as Hk4.
    rewrite IHe; [| exact He
                  | eapply knows_with_return; [apply context_visit_Stmt | exact Hk4]].
    rewrite IHt by assumption.
    rewrite (proj2 Q4). apply Q.
  - apply andb_true_iff in Hs as [Hc Hb].
    pose proof (quiet_typed_visit known cond st Hc Hk) as Q.
    destruct (getExprType cond (visit_Expr cond st)) as [ty s2]. cbn [snd] in Q.
    set (st4 := match evaluateConstant cond with
                | Constant _ => _ | NoConstant => _ | Sigfpe => _ end).
    assert (Q4 : quiet s2 st4).
    { subst st4.
      assert (Q3 : quiet s2
                (if negb (ty =? "int")%string
                 then error "While condition must be integer (used as boolean)" l c s2
                 else s2)).
      { destruct (negb _); [by apply quiet_error | apply quiet_refl]. }
      destruct (evaluateConstant cond) as [v | |];
        [| exact Q3 | eapply quiet_trans; [exact Q3 | apply quiet_sigfpe]].
      destruct (v =? 0)%Z; [| exact Q3].
      eapply quiet_trans; [exact Q3 | apply quiet_warning]. }
    change (reports_undefined_function (exitLoop ?s))
      with (reports_undefined_function s).
    rewrite IHb; [| exact Hb |].
    + change (reports_undefined_function (enterLoop st4))
        with (reports_undefined_function st4).
      rewrite (proj2 Q4). apply Q.
    + exact (quiet_knows _ _ _ (quiet_trans _ _ _ Q Q4) Hk).
  - destruct (isInLoop st); silence; reflexivity.
  - destruct (isInLoop st); silence; reflexivity.
  - change (reports_undefined_function (set_hasReturn true ?s))
      with (reports_undefined_function s).
    destruct oe as [e |].
    + pose proof (quiet_typed_visit known e st Hs Hk) as Q.
      destruct (getExprType e (visit_Expr e st)) as [ty s2]. cbn [snd] in Q.
      destruct (negb _); silence; apply Q.
    + destruct (negb _); silence; reflexivity.
Qed.

(** The entry [visit(FunctionDef&)] writes into the function table. *)
Definition function_info_of (f : FunctionDef) : FunctionInfo :=
  mkFunctionInfo (returnType f) (map (fun _ => "int") (params f))
    (map param_name (params f)) (line f) (column f).

(** Every call in the unit is to a function whose definition the visitor
    has reached: one of [known], the function the call stands in, or a
    function defined before it. *)
Fixpoint calls_defined_so_far (known : gset string) (fs : CompUnit) : bool :=
  match fs with
  | [] => true
  | f :: rest =>
      let known' := {[name f]} ∪ known in
      forallb (calls_known_stmt (fun g => bool_decide (g ∈ known'))) (body f)
      && calls_defined_so_far known' rest
  end.

Lemma quiet_isValidMainFunction f st : quiet st (isValidMainFunction f st).1.
Proof.
  unfold isValidMainFunction.
  destruct (negb (_ =? _)%string); [by apply quiet_error |].
  destruct (negb (bool_decide _)); [by apply quiet_error | apply quiet_refl].
Qed.

Lemma quiet_main_check f st :
  quiet st
    (if String.eqb (name f) "main" then
       let '(s, valid) := isValidMainFunction f st in
       if valid then s
       else error "Invalid main function declaration" (line f) (column f) s
     else st).
Proof.
  destruct (String.eqb (name f) "main"); [| apply quiet_refl].
  pose proof (quiet_isValidMainFunction f st) as Q.
  destruct (isValidMainFunction f st) as [s valid]. cbn [fst] in Q.
  destruct valid; [exact Q |].
  eapply quiet_trans; [exact Q | by apply quiet_error].
Qed.

Lemma functionTable_context st st' :
  context st' = context st -> functionTable st' = functionTable st.
Proof. unfold context. by intros [= -> _ _ _]. Qed.

Lemma functionTable_with_return b st st' :
  context st' = with_return b (context st) -> functionTable st' = functionTable st.
Proof. unfold context, with_return. cbn [fst snd]. by intros [= -> _ _ _]. Qed.

(** The state in which [visit(FunctionDef&)] visits the body: the entry
    of the function is in the table. *)
Lemma functionTable_before_body f st :
  let st1 :=
    if bool_decide (is_Some (functionTable st !! name f))
    then error "Duplicate function name" (line f) (column f) st
    else st in
  let st2 :=
    set_functionTable (<[name f := function_info_of f]> (functionTable st1)) st1 in
  let st3 :=
    if String.eqb (name f) "main" then
      let '(s, valid) := isValidMainFunction f st2 in
      if valid then s
      else error "Invalid main function declaration" (line f) (column f) s
    else st2 in
  let st7 :=
    declare_params (params f) (line f) (column f)
      (declareSymbol (name f)
         (mkSymbol FUNCTION (returnType f) (line f) (column f) (-1)
            (String.eqb (name f) "main"))
         (enterScope (set_function_context (name f) (returnType f) false st3))).1 in
  functionTable st7 = <[name f := function_info_of f]> (functionTable st)
  /\ reports_undefined_function st7 = reports_undefined_function st.
Proof.
  intros st1 st2 st3 st7.
  assert (Q1 : quiet st st1).
  { subst st1. destruct (bool_decide _); [by apply quiet_error | apply quiet_refl]. }
  pose proof (quiet_main_check f st2) as Q3. fold st3 in Q3.
  split.
  - subst st7.
    rewrite (functionTable_context _ _ (context_declare_params _ _ _ _)).
    rewrite (functionTable_context _ _ (context_declareSymbol _ _ _)).
    change (functionTable (enterScope (set_function_context ?a ?b ?c ?s)))
      with (functionTable s).
    rewrite (functionTable_context _ _ (proj1 Q3)).
    change (functionTable st2) with (<[name f := function_info_of f]> (functionTable st1)).
    by rewrite (functionTable_context _ _ (proj1 Q1)).
  - subst st7. rewrite reports_declare_params, reports_declareSymbol.
    change (reports_undefined_function
              (enterScope (set_function_context ?a ?b ?c ?s)))
      with (reports_undefined_function s).
    rewrite (proj2 Q3).
    change (reports_undefined_function st2) with (reports_undefined_function st1).
    apply Q1.
Qed.

(** A function is registered when the visitor reaches its definition,
    and the visit of its body leaves the table as it is. *)
Lemma functionTable_visit_FunctionDef f st :
  functionTable (visit_FunctionDef f st)
  = <[name f := function_info_of f]> (functionTable st).
Proof.
  unfold visit_FunctionDef. cbv zeta.
  change (functionTable (set_function_context ?a ?b ?c ?s)) with (functionTable s).
  rewrite (functionTable_context _ _ (context_exitScope _)).
  rewrite (functionTable_context _ _ (context_checkUnusedVariables _)).
  match goal with
  | |- functionTable (if ?b then error ?m ?l ?c ?s else ?s) = _ =>
      transitivity (functionTable s); [by destruct b |]
  end.
  rewrite (functionTable_with_return _ _ _ (context_visit_Stmt _ _)).
  apply (functionTable_before_body f st).
Qed.

Lemma reports_visit_FunctionDef f st :
  forallb
    (calls_known_stmt
       (fun g => bool_decide (g ∈ ({[name f]} ∪ dom (functionTable st) : gset string))))
    (body f) = true ->
  reports_undefined_function (visit_FunctionDef f st) = reports_undefined_function st.
Proof.
  intros Hbody. unfold visit_FunctionDef. cbv zeta.
  change (reports_undefined_function (set_function_context ?a ?b ?c ?s))
    with (reports_undefined_function s).
  rewrite reports_exitScope, reports_checkUnusedVariables.
  match goal with
  | |- reports_undefined_function (if ?b then error ?m ?l ?c ?s else ?s) = _ =>
      transitivity (reports_undefined_function s);
        [destruct b; silence; reflexivity |]
  end.
  pose proof (functionTable_before_body f st) as H.
  cbv zeta in H. unfold function_info_of in H. destruct H as [Ht Hr].
  rewrite (reports_visit_Stmt
             (fun g => bool_decide
                (g ∈ ({[name f]} ∪ dom (functionTable st) : gset string)))
             (BlockStmt (body f) (body_line f) (body_column f)) _ Hbody);
    [exact Hr |].
  intros g Hg. left. apply bool_decide_eq_true in Hg.
  rewrite Ht. apply lookup_insert_is_Some.
  apply elem_of_union in Hg as [Hg | Hg].
  - left. apply elem_of_singleton in Hg. by subst.
  - destruct (decide (name f = g)); [by left | right].
    split; [done |]. by apply elem_of_dom.
Qed.

Lemma reports_visit_functions fs : forall st,
  calls_defined_so_far (dom (functionTable st)) fs = true ->
  reports_undefined_function (visit_functions fs st) = reports_undefined_function st.
Proof.
  unfold visit_functions.
  induction fs as [| f fs IH]; intros st H; simpl; [reflexivity |].
  cbn [calls_defined_so_far] in H. apply andb_true_iff in H as [Hbody Hrest].
  rewrite IH.
  - by apply reports_visit_FunctionDef.
  - by rewrite functionTable_visit_FunctionDef, dom_insert_L.
Qed.

Lemma reports_detectDeadCode st :
  reports_undefined_function (detectDeadCode st) = reports_undefined_function st.
Proof.
  unfold detectDeadCode. apply reports_fold_left. intros s [name info].
  destruct (negb _); [| reflexivity].
  destruct (existsb _ _); silence; reflexivity.
Qed.

(** Where every call is to the function it stands in or to one defined
    before it, the analysis reports no undefined function. *)
Lemma calls_to_earlier_functions_resolve fs :
  calls_defined_so_far ∅ fs = true ->
  reports_undefined_function (analyze fs).1 = false.
Proof.
  intros H. unfold analyze. cbv zeta. cbn [fst].
  assert (Hv : reports_undefined_function (visit_CompUnit fs init) = false).
  { unfold visit_CompUnit. cbv zeta. rewrite reports_detectDeadCode.
    rewrite reports_visit_functions.
    - destruct (existsb _ fs); silence; reflexivity.
    - destruct (existsb _ fs);
        (change (calls_defined_so_far (dom (∅ : gmap string FunctionInfo)) fs = true);
         by rewrite dom_empty_L). }
  destruct (owner_success _); [| exact Hv].
  by rewrite reports_detectDeadCode, reports_checkUnusedVariables.
Qed.

End AnalyzeCalls.

(** ** Where functions are registered *)

Lemma call_to_unregistered_function callee args l c st :
  Analyze.functionTable st !! callee = None ->
  callee <> Analyze.currentFunction st ->
  Analyze.visit_Expr (Ast.CallExpr callee args l c) st
  = Analyze.error ("Undefined function: " +:+ callee) l c st.
Proof.
  intros Ht Hc. cbn [Analyze.visit_Expr].
  rewrite bool_decide_eq_true_2 by exact Ht.
  destruct (String.eqb_spec callee (Analyze.currentFunction st)); [done | reflexivity].
Qed.

(** C3 — where each analyzer registers the functions. The TOYC2
    analyzer defines every function of the unit in a first pass, so a
    unit whose calls all name functions of the unit, defined before or
    after the call, raises no [UNDEFINED_FUNCTION] error. The IR
    pipeline's analyzer enters a function into its table when it visits
    the definition, and the visit of the body leaves the table alone: a
    unit whose calls all name the function they stand in or a function
    defined before it has no ["Undefined function"] error, and a call to
    a name that is not in the table and is not the current function is
    answered with that error and nothing else. *)
Theorem C3_calls_resolve_to_registered_functions :
  (forall fs,
     Toyc2.calls_defined fs = true ->
     Toyc2.Semantic.has_error Toyc2.Semantic.UNDEFINED_FUNCTION
       (Toyc2.Semantic.visit_CompUnit fs Toyc2.Semantic.init) = false)
  /\ (forall f st,
        Analyze.functionTable (Analyze.visit_FunctionDef f st)
        = <[Ast.name f := function_info_of f]> (Analyze.functionTable st))
  /\ (forall fs,
        calls_defined_so_far ∅ fs = true ->
        reports_undefined_function (Analyze.analyze fs).1 = false)
  /\ (forall callee args l c st,
        Analyze.functionTable st !! callee = None ->
        callee <> Analyze.currentFunction st ->
        Analyze.visit_Expr (Ast.CallExpr callee args l c) st
        = Analyze.error ("Undefined function: " +:+ callee) l c st).
Proof.
  split; [exact toyc2_forward_calls_resolve |].
  split; [exact functionTable_visit_FunctionDef |].
  split; [exact calls_to_earlier_functions_resolve |].
  exact call_to_unregistered_function.
Qed.

(** The forward call of [forward_call_toyc2] in the TOYC2 analyzer, and
    the calls of [falls_off_the_end], all to functions defined above
    them, in the IR pipeline's. *)
Lemma C3_calls_resolve_to_registered_functions_witness :
  Toyc2.calls_defined forward_call_toyc2 = true
  /\ Toyc2.Semantic.has_error Toyc2.Semantic.UNDEFINED_FUNCTION
       (Toyc2.Semantic.visit_CompUnit forward_call_toyc2 Toyc2.Semantic.init) = false
  /\ calls_defined_so_far ∅ falls_off_the_end = true
  /\ reports_undefined_function (Analyze.analyze falls_off_the_end).1 = false.
Proof.
  split; [reflexivity |].
  split; [apply (proj1 C3_calls_resolve_to_registered_functions); reflexivity |].
  split; [vm_compute; reflexivity |].
  apply (proj1 (proj2 (proj2 C3_calls_resolve_to_registered_functions)));
    vm_compute; reflexivity.
Defined.

(** ** The return flag *)

Lemma hasReturn_visit_Stmt s st :
  Analyze.hasReturn (Analyze.visit_Stmt s st)
  = Analyze.hasReturn st || Ast.contains_return s.
Proof.
  pose proof (context_visit_Stmt s st) as H.
  unfold context, with_return in H. cbn [fst snd] in H.
  by injection H as _ _ _ ->.
Qed.

(** C1 — the claim asks for a [MissingReturn] error whenever a path
    through an [int] function does not return. Both analyzers raise a flag
    at every [return] statement they visit, wherever it stands, and
    report the error only if the flag was never raised; in the TOYC2
    analyzer this flag keeps [has_return_statement], whose comment states
    the both-branches rule for [if], from ever deciding. A function whose
    only [return] sits in the branch of an [if] without [else], or in the
    body of a [while], is accepted by both. In the IR pipeline's analyzer
    the flag after a statement is the flag before it or the presence of a
    [return] anywhere inside the statement. *)
Theorem C1_function_falling_off_the_end_is_accepted :
  Analyze.errorMessages (Analyze.diag (Analyze.analyze falls_off_the_end).1) = [] /\
  (Analyze.analyze falls_off_the_end).2 = true /\
  Toyc2.Semantic.errors (Toyc2.Semantic.analyze falls_off_the_end_toyc2).1 = [] /\
  (Toyc2.Semantic.analyze falls_off_the_end_toyc2).2 = true /\
  Toyc2.Semantic.has_return_statement (Toyc2.Block (Toyc2.fbody
    (Toyc2.mkFuncDef Toyc2.INT "f" ["x"]
       [Toyc2.IfStmt (Toyc2.VarExpr "x")
          (Toyc2.ReturnStmt (Some (Toyc2.NumberExpr 1))) None]))) = false /\
  (forall s st,
     Analyze.hasReturn (Analyze.visit_Stmt s st)
     = Analyze.hasReturn st || Ast.contains_return s).
Proof.
  repeat (split; [vm_compute; reflexivity |]).
  exact hasReturn_visit_Stmt.
Qed.

(* ================================================================= *)
(** * Further properties of the code *)

(** ** The register allocators ([codegen.cpp]) *)

Section AllocatorFacts.
Import RegAlloc.
Context {Instr : Type}.
Variable getDefinedVariables : Instr -> list string.
Variable getUsedVariables : Instr -> list string.

Lemma SMap_find_In {V} k (v : V) m : SMap.find k m = Some v -> In (k, v) m.
Proof.
  induction m as [| [k' v'] m IH]; simpl; [discriminate |].
  destruct (String.eqb_spec k k') as [-> | Hne].
  - intros [= ->]. by left.
  - intros H. right. by apply IH.
Qed.

(** [b] is in the adjacency set of [a]. *)
Definition has_edge (g : SMap.t (gset string)) (a b : string) : Prop :=
  exists na, SMap.find a g = Some na /\ b ∈ na.

Lemma insert_neighbour_new g a b :
  has_edge (SMap.insert a ({[b]} ∪ default ∅ (SMap.find a g)) g) a b.
Proof. eexists. split; [apply SMap.find_insert_eq | set_solver]. Qed.

Lemma insert_neighbour_mono g a b x y :
  has_edge g x y ->
  has_edge (SMap.insert a ({[b]} ∪ default ∅ (SMap.find a g)) g) x y.
Proof.
  intros (nx & Hx & Hy). destruct (decide (a = x)) as [-> | Hne].
  - eexists. split; [apply SMap.find_insert_eq |]. rewrite Hx. simpl. set_solver.
  - exists nx. split; [| exact Hy]. by rewrite SMap.find_insert_ne.
Qed.

Lemma add_edge_mono g a b x y :
  has_edge g x y -> has_edge (add_edge g a b) x y.
Proof.
  intros H. unfold add_edge. by do 2 apply insert_neighbour_mono.
Qed.

Lemma add_edge_new g a b :
  has_edge (add_edge g a b) a b /\ has_edge (add_edge g a b) b a.
Proof.
  unfold add_edge. split.
  - apply insert_neighbour_mono, insert_neighbour_new.
  - apply insert_neighbour_new.
Qed.

(** The inner loop of [buildInterferenceGraph] for [var1]. *)
Definition edges_of (var1 : string) (lifetime1 : Z * Z)
    (varLifetimes : SMap.t (Z * Z)) (g : SMap.t (gset string))
  : SMap.t (gset string) :=
  fold_left
    (fun g' '(var2, lifetime2) =>
       if negb (String.eqb var1 var2) && overlap lifetime1 lifetime2
       then add_edge g' var1 var2
       else g')
    varLifetimes g.

Lemma edges_of_mono var1 lifetime1 lts : forall g x y,
  has_edge g x y -> has_edge (edges_of var1 lifetime1 lts g) x y.
Proof.
  unfold edges_of. induction lts as [| [var2 lifetime2] lts IH]; intros g x y H;
    simpl; [exact H |].
  apply IH. destruct (_ && _); [by apply add_edge_mono | exact H].
Qed.

Lemma edges_of_new var1 lifetime1 lts var2 lifetime2 : forall g,
  In (var2, lifetime2) lts -> var1 <> var2 -> overlap lifetime1 lifetime2 = true ->
  has_edge (edges_of var1 lifetime1 lts g) var1 var2
  /\ has_edge (edges_of var1 lifetime1 lts g) var2 var1.
Proof.
  unfold edges_of. induction lts as [| [v l] lts IH]; intros g Hin Hne Ho;
    simpl; [done |].
  destruct Hin as [[= -> ->] | Hin]; [| by apply IH].
  rewrite Ho. destruct (String.eqb_spec var1 var2) as [E | _]; [done |]. simpl.
  split; apply (edges_of_mono var1 lifetime1 lts), add_edge_new.
Qed.

Lemma all_edges_mono lts0 lts : forall g x y,
  has_edge g x y ->
  has_edge
    (fold_left (fun g '(var1, lifetime1) => edges_of var1 lifetime1 lts0 g) lts g)
    x y.
Proof.
  induction lts as [| [v l] lts IH]; intros g x y H; simpl; [exact H |].
  by apply IH, edges_of_mono.
Qed.

Lemma all_edges_new lts0 lts a la b lb : forall g,
  In (a, la) lts -> In (b, lb) lts0 -> a <> b -> overlap la lb = true ->
  let g' :=
    fold_left (fun g '(var1, lifetime1) => edges_of var1 lifetime1 lts0 g) lts g in
  has_edge g' a b /\ has_edge g' b a.
Proof.
  induction lts as [| [v l] lts IH]; intros g Ha Hb Hne Ho; simpl; [done |].
  destruct Ha as [[= -> ->] | Ha]; [| by apply IH].
  destruct (edges_of_new a la lts0 b lb g Hb Hne Ho) as [H1 H2].
  split; by apply all_edges_mono.
Qed.

(** Two names with overlapping lifetimes are neighbours of each other in
    the interference graph. *)
Lemma buildInterferenceGraph_edges instructions a b la lb :
  let lts := lifetimes getDefinedVariables getUsedVariables instructions in
  let g := buildInterferenceGraph getDefinedVariables getUsedVariables instructions in
  SMap.find a lts = Some la -> SMap.find b lts = Some lb ->
  a <> b -> overlap la lb = true ->
  has_edge g a b /\ has_edge g b a.
Proof.
  intros lts g Ha Hb Hne Ho.
  apply (all_edges_new lts lts a la b lb); try done; by apply SMap_find_In.
Qed.

(** No two names that are neighbours of each other hold the same
    register. *)
Definition separates (g : SMap.t (gset string)) (alloc : SMap.t string) : Prop :=
  forall x y rx ry,
    x <> y -> has_edge g x y -> has_edge g y x ->
    SMap.find x alloc = Some rx -> SMap.find y alloc = Some ry -> rx <> ry.

Lemma color_step_separates g regNames alloc v :
  separates g alloc -> separates g (color_step g regNames alloc v).
Proof.
  intros Hs. unfold color_step.
  destruct (SMap.find v g) as [neighbors |] eqn:Hv; [| exact Hs].
  set (usedColors := list_to_set _ : gset string).
  destruct (List.find _ regNames) as [reg |] eqn:Hfind; simpl; [| exact Hs].
  destruct (String.eqb reg ""); simpl; [exact Hs |].
  apply find_some in Hfind as [_ Hfree]. apply bool_decide_eq_true in Hfree.
  assert (Hused : forall y ry,
            has_edge g v y -> SMap.find y alloc = Some ry -> ry ∈ usedColors).
  { intros y ry (nv & Hnv & Hy) Hry. rewrite Hv in Hnv. injection Hnv as <-.
    subst usedColors. apply elem_of_list_to_set, list_elem_of_omap.
    exists y. split; [by apply elem_of_elements | exact Hry]. }
  intros x y rx ry Hne Hxy Hyx Hx Hy.
  destruct (decide (x = v)) as [-> | Hvx]; destruct (decide (y = v)) as [-> | Hvy].
  - done.
  - rewrite SMap.find_insert_eq in Hx. injection Hx as <-.
    rewrite SMap.find_insert_ne in Hy by congruence.
    intros ->. apply Hfree. by eapply Hused.
  - rewrite SMap.find_insert_eq in Hy. injection Hy as <-.
    rewrite SMap.find_insert_ne in Hx by congruence.
    intros <-. apply Hfree. by eapply Hused.
  - rewrite SMap.find_insert_ne in Hx, Hy by congruence.
    exact (Hs x y rx ry Hne Hxy Hyx Hx Hy).
Qed.

Lemma color_separates order g availableRegs :
  separates g (color order g availableRegs).
Proof.
  unfold color. set (regNames := map name _).
  assert (H0 : separates g ([] : SMap.t string)) by (intros x y rx ry _ _ _; discriminate).
  revert H0. generalize ([] : SMap.t string) as alloc.
  induction order as [| v order IH]; intros alloc H; simpl; [exact H |].
  by apply IH, color_step_separates.
Qed.

End AllocatorFacts.

(** X1 — the graph-colouring allocator returns a valid colouring: whatever
    the instructions and the registers it is given, no two distinct names
    whose lifetimes overlap are mapped to the same register. *)
Theorem graph_coloring_has_no_conflict {Instr : Type}
    (getDefinedVariables getUsedVariables : Instr -> list string)
    (instructions : list Instr) (availableRegs : list RegAlloc.Register)
    (a b : string) :
  RegAlloc.conflict getDefinedVariables getUsedVariables instructions
    (RegAlloc.graph_coloring_allocate getDefinedVariables getUsedVariables
       instructions availableRegs) a b = false.
Proof.
  unfold RegAlloc.conflict.
  destruct (SMap.find a _) as [la |] eqn:Ha; [| reflexivity].
  destruct (SMap.find b _) as [lb |] eqn:Hb; [| reflexivity].
  destruct (SMap.find a (RegAlloc.graph_coloring_allocate _ _ _ _)) as [ra |] eqn:Hra;
    [| reflexivity].
  destruct (SMap.find b (RegAlloc.graph_coloring_allocate _ _ _ _)) as [rb |] eqn:Hrb;
    [| reflexivity].
  destruct (String.eqb_spec a b) as [| Hne]; [reflexivity |].
  destruct (RegAlloc.overlap la lb) eqn:Ho; [| reflexivity]. simpl.
  apply String.eqb_neq.
  destruct (buildInterferenceGraph_edges getDefinedVariables getUsedVariables
              instructions a b la lb Ha Hb Hne Ho) as [Hab Hba].
  unfold RegAlloc.graph_coloring_allocate in Hra, Hrb.
  destruct (RegAlloc.buildInterferenceGraph _ _ instructions) as [| n g] eqn:Hg;
    [discriminate |].
  by eapply (color_separates _ (n :: g) availableRegs a b ra rb).
Qed.

Section LifetimeFacts.
Import RegAlloc.
Context {Instr : Type}.
Variable getDefinedVariables : Instr -> list string.
Variable getUsedVariables : Instr -> list string.

Lemma SMap_Forall_insert {V} (P : string * V -> Prop) k v m :
  P (k, v) -> Forall P m -> Forall P (SMap.insert k v m).
Proof.
  intros Hk. induction 1 as [| [k' v'] m Hx Hm IH]; simpl.
  - by constructor.
  - destruct (String.eqb k k'); [by constructor |].
    destruct (SMap.key_ltb k k'); by repeat constructor.
Qed.

(** The lifetimes recorded so far start at 0 or later, end where they
    start or later, and end before [bound]. *)
Definition lifetimes_within (bound : Z) (m : SMap.t (Z * Z)) : Prop :=
  Forall (fun '(_, (s, e)) => (0 <= s /\ s <= e /\ e < bound)%Z) m.

Lemma lifetimes_within_weaken b b' m :
  (b <= b')%Z -> lifetimes_within b m -> lifetimes_within b' m.
Proof.
  intros Hb. unfold lifetimes_within. apply List.Forall_impl.
  intros [v [s e]]. lia.
Qed.

Lemma record_def_within i m v :
  (0 <= i)%Z -> lifetimes_within (i + 1) m ->
  lifetimes_within (i + 1) (record_def i m v).
Proof.
  intros Hi Hm. unfold record_def.
  destruct (SMap.find v m) as [[s e] |] eqn:Hv.
  - apply SMap_Forall_insert; [| exact Hm].
    apply SMap_find_In in Hv.
    pose proof (proj1 (List.Forall_forall _ _) Hm _ Hv) as H. simpl in H. lia.
  - apply SMap_Forall_insert; [lia | exact Hm].
Qed.

Lemma record_use_within i m v :
  (0 <= i)%Z -> lifetimes_within (i + 1) m ->
  lifetimes_within (i + 1) (record_use i m v).
Proof.
  intros Hi Hm. unfold record_use.
  destruct (SMap.find v m) as [[s e] |] eqn:Hv.
  - apply SMap_Forall_insert; [| exact Hm].
    apply SMap_find_In in Hv.
    pose proof (proj1 (List.Forall_forall _ _) Hm _ Hv) as H. simpl in H. lia.
  - apply SMap_Forall_insert; [lia | exact Hm].
Qed.

Lemma fold_left_within (f : SMap.t (Z * Z) -> string -> SMap.t (Z * Z)) b vs :
  (forall m v, lifetimes_within b m -> lifetimes_within b (f m v)) ->
  forall m, lifetimes_within b m -> lifetimes_within b (fold_left f vs m).
Proof.
  intros Hf. induction vs as [| v vs IH]; intros m Hm; simpl; [exact Hm |].
  by apply IH, Hf.
Qed.

Lemma lifetimes_from_within instructions : forall i m,
  (0 <= i)%Z -> lifetimes_within i m ->
  lifetimes_within (i + Z.of_nat (length instructions))
    (lifetimes_from getDefinedVariables getUsedVariables i instructions m).
Proof.
  induction instructions as [| instr rest IH]; intros i m Hi Hm.
  - simpl. by rewrite Z.add_0_r.
  - cbn [lifetimes_from length].
    replace (i + Z.of_nat (S (length rest)))%Z
      with ((i + 1) + Z.of_nat (length rest))%Z by lia.
    apply IH; [lia |].
    apply fold_left_within; [intros; by apply record_use_within |].
    apply fold_left_within; [intros; by apply record_def_within |].
    eapply lifetimes_within_weaken; [| exact Hm]. lia.
Qed.

End LifetimeFacts.

(** X2 — every live interval [computeLiveIntervals] returns lies inside
    the instruction list and is not empty: it starts at position 0 or
    later, ends where it starts or later, and ends before the number of
    instructions. *)
Theorem live_intervals_are_well_formed {Instr : Type}
    (getDefinedVariables getUsedVariables : Instr -> list string)
    (instructions : list Instr) :
  Forall
    (fun iv =>
       (0 <= RegAlloc.start iv /\ RegAlloc.start iv <= RegAlloc.end_ iv
        /\ RegAlloc.end_ iv < Z.of_nat (length instructions))%Z)
    (RegAlloc.computeLiveIntervals getDefinedVariables getUsedVariables instructions).
Proof.
  unfold RegAlloc.computeLiveIntervals. apply List.Forall_map.
  pose proof (lifetimes_from_within getDefinedVariables getUsedVariables
                instructions 0 [] ltac:(lia) ltac:(constructor)) as H.
  revert H. unfold lifetimes_within, RegAlloc.lifetimes. apply List.Forall_impl.
  intros [v [s e]]. simpl. lia.
Qed.

Section LinearScanFacts.
Import RegAlloc.

Lemma SMap_Forall_erase {V} (P : string * V -> Prop) k m :
  Forall P m -> Forall P (SMap.erase k m).
Proof.
  induction 1 as [| [k' v'] m Hx Hm IH]; simpl; [constructor |].
  destruct (String.eqb k k'); [exact Hm | by constructor].
Qed.

Lemma SMap_In_find {V} k (v : V) m :
  In (k, v) m -> exists v', SMap.find k m = Some v'.
Proof.
  induction m as [| [k' v0] m IH]; simpl; [done |].
  intros [[= -> ->] | Hin].
  - rewrite String.eqb_refl. by eexists.
  - destruct (String.eqb k k'); [by eexists | by apply IH].
Qed.

Variable allowed : string -> Prop.

(** Every register the scan holds, in the result, in the free list or
    with an active interval, is an allowed one. *)
Definition scan_within (st : ScanState) : Prop :=
  Forall (fun '(_, r) => allowed r) (allocation st)
  /\ Forall allowed (freeRegs st)
  /\ Forall (fun '(_, (_, r)) => allowed r) (active st).

Lemma expire_within interval st : scan_within st -> scan_within (expire interval st).
Proof.
  intros (Ha & Hf & Hact). unfold expire, scan_within. cbn [allocation freeRegs active].
  split; [exact Ha |]. split.
  - apply Forall_app. split; [exact Hf |].
    apply List.Forall_map.
    assert (H : Forall (fun '(_, (_, r)) => allowed r)
                  (List.filter (fun '(_, (iv, _)) => (end_ iv <? start interval)%Z)
                     (active st))).
    { apply List.Forall_forall. intros x Hx. apply filter_In in Hx as [Hx _].
      exact (proj1 (List.Forall_forall _ _) Hact x Hx). }
    revert H. apply List.Forall_impl. by intros [v [iv r]].
  - generalize (List.filter (fun '(_, (iv, _)) => (end_ iv <? start interval)%Z)
                  (active st)) as expired.
    intros expired. revert Hact. generalize (active st) as act.
    induction expired as [| [v x] expired IH]; intros act Hact; simpl; [exact Hact |].
    by apply IH, SMap_Forall_erase.
Qed.

Lemma find_victim_key act :
  (find_victim act).1 = ""
  \/ exists entry, In ((find_victim act).1, entry) act.
Proof.
  unfold find_victim.
  assert (H : forall acc : string * Z,
            (acc.1 = "" \/ exists entry, In (acc.1, entry) act) ->
            forall rest, (forall x, In x rest -> In x act) ->
              let res :=
                fold_left
                  (fun '(victimVar, latestEnd) '(v, (iv, _)) =>
                     if (latestEnd <? end_ iv)%Z then (v, end_ iv)
                     else (victimVar, latestEnd))
                  rest acc in
              res.1 = "" \/ exists entry, In (res.1, entry) act).
  { intros acc Hacc rest. revert acc Hacc.
    induction rest as [| [v [iv r]] rest IH]; intros [vv le] Hacc Hsub; simpl;
      [exact Hacc |].
    apply IH; [| intros x Hx; apply Hsub; by right].
    destruct (le <? end_ iv)%Z; [| exact Hacc].
    right. exists (iv, r). apply Hsub. by left. }
  apply (H ("", (-1)%Z)); [by left | done].
Qed.

Lemma scan_interval_within st interval :
  scan_within st -> scan_within (scan_interval st interval).
Proof.
  intros Hst. unfold scan_interval.
  pose proof (expire_within interval st Hst) as (Ha & Hf & Hact).
  destruct (freeRegs (expire interval st)) as [| r0 rs] eqn:Hfree.
  - pose proof (find_victim_key (active (expire interval st))) as Hkey.
    destruct (find_victim (active (expire interval st))) as [victimVar latestEnd].
    cbn [fst] in Hkey.
    destruct (end_ interval <? latestEnd)%Z; cbn [andb];
      [| unfold scan_within; by rewrite Hfree].
    destruct (String.eqb_spec victimVar "") as [| Hne]; cbn [negb];
      [unfold scan_within; by rewrite Hfree |].
    destruct Hkey as [| [entry Hin]]; [done |].
    apply SMap_In_find in Hin as [[iv r] Hfind]. rewrite Hfind.
    assert (Hr : allowed r).
    { apply SMap_find_In in Hfind.
      exact (proj1 (List.Forall_forall _ _) Hact _ Hfind). }
    unfold scan_within. cbn [allocation freeRegs active].
    split; [by apply SMap_Forall_insert |]. split.
    + by repeat constructor.
    + apply SMap_Forall_insert; [exact Hr | by apply SMap_Forall_erase].
  - assert (Hne : r0 :: rs <> []) by done.
    pose proof (app_removelast_last "" Hne) as Hsplit.
    rewrite Hsplit in Hf. apply Forall_app in Hf as [Hfront Hlast].
    apply Forall_inv in Hlast.
    unfold scan_within. cbn [allocation freeRegs active].
    split; [by apply SMap_Forall_insert |]. split; [exact Hfront |].
    by apply SMap_Forall_insert.
Qed.

End LinearScanFacts.

(** X3 — the linear scan hands out nothing but the registers it starts
    with: every register in the allocation it returns is the name of a
    callee-saved register of [availableRegs] other than [fp] and [s0]. *)
Theorem linear_scan_assigns_callee_saved_registers {Instr : Type}
    (getDefinedVariables getUsedVariables : Instr -> list string)
    (instructions : list Instr) (availableRegs : list RegAlloc.Register) :
  Forall
    (fun '(_, r) =>
       exists reg,
         In reg availableRegs /\ RegAlloc.name reg = r
         /\ RegAlloc.isCalleeSaved reg = true /\ r <> "fp" /\ r <> "s0")
    (RegAlloc.linear_scan_allocate getDefinedVariables getUsedVariables
       instructions availableRegs).
Proof.
  unfold RegAlloc.linear_scan_allocate.
  set (allowed := fun r : string =>
         exists reg,
           In reg availableRegs /\ RegAlloc.name reg = r
           /\ RegAlloc.isCalleeSaved reg = true /\ r <> "fp" /\ r <> "s0").
  set (st0 := RegAlloc.mkScanState [] _ []).
  assert (H0 : scan_within allowed st0).
  { subst st0. unfold scan_within. cbn [RegAlloc.allocation RegAlloc.freeRegs RegAlloc.active].
    split; [constructor |]. split; [| constructor].
    apply List.Forall_map, List.Forall_forall. intros reg Hreg.
    apply filter_In in Hreg as [Hin Hc].
    apply andb_true_iff in Hc as [Hc Hs0]. apply andb_true_iff in Hc as [Hc Hfp].
    exists reg. repeat split; try done.
    - intros E. rewrite E in Hfp. discriminate.
    - intros E. rewrite E in Hs0. discriminate. }
  revert H0. generalize st0. clear st0.
  generalize (RegAlloc.sort_intervals
                (RegAlloc.computeLiveIntervals getDefinedVariables getUsedVariables
                   instructions)) as intervals.
  induction intervals as [| iv intervals IH]; intros st Hst; simpl.
  - destruct Hst as (Ha & _). revert Ha. apply List.Forall_impl. by intros [v r].
  - by apply IH, scan_interval_within.
Qed.

(** ** The lexer ([lexer.cpp]) *)

Section TokenFacts.
Import Lexer.
Variable source : string.

(** The lexeme of the token types that have one spelling. *)
Definition spelling (ty : TokenType) : option string :=
  match ty with
  | INT => Some "int" | VOID => Some "void" | IF => Some "if"
  | ELSE => Some "else" | WHILE => Some "while" | BREAK => Some "break"
  | CONTINUE => Some "continue" | RETURN => Some "return"
  | PLUS => Some "+" | MINUS => Some "-" | MULTIPLY => Some "*"
  | DIVIDE => Some "/" | MODULO => Some "%" | ASSIGN => Some "="
  | EQ => Some "==" | NEQ => Some "!=" | LT => Some "<" | GT => Some ">"
  | LE => Some "<=" | GE => Some ">=" | AND => Some "&&" | OR => Some "||"
  | NOT => Some "!" | LPAREN => Some "(" | RPAREN => Some ")"
  | LBRACE => Some "{" | RBRACE => Some "}" | SEMICOLON => Some ";"
  | COMMA => Some ","
  | IDENTIFIER | NUMBER | END_OF_FILE | UNKNOWN => None
  end.

(** What [scanToken] guarantees of a token: it is not the end marker, a
    type with one spelling carries that spelling, and an identifier is
    not a keyword. *)
Definition scanned (tok : Token) : Prop :=
  tok_type tok <> END_OF_FILE
  /\ (forall s, spelling (tok_type tok) = Some s -> lexeme tok = s)
  /\ (tok_type tok = IDENTIFIER -> keywords (lexeme tok) = None).

Lemma keywords_spelling lx ty : keywords lx = Some ty -> spelling ty = Some lx.
Proof.
  unfold keywords.
  repeat match goal with
  | |- context [String.eqb lx ?k] =>
      destruct (String.eqb_spec lx k) as [-> |]; [by intros [= <-] |]
  end.
  discriminate.
Qed.

Lemma keywords_not_end lx : keywords lx <> Some END_OF_FILE.
Proof. intros H. by apply keywords_spelling in H. Qed.

Lemma keywords_not_identifier lx : keywords lx <> Some IDENTIFIER.
Proof. intros H. by apply keywords_spelling in H. Qed.

Lemma scanIdentifier_scanned st tok st' :
  scanIdentifier source st = Some (tok, st') -> scanned tok.
Proof.
  unfold scanIdentifier.
  destruct (identifier_loop _ _ _) as [st2 |]; [| discriminate].
  set (lx := String.substring _ _ _).
  destruct (keywords lx) as [ty |] eqn:Hk; intros [= <- <-]; unfold scanned; simpl.
  - split; [intros ->; by apply keywords_not_end in Hk |].
    split; [| intros ->; by apply keywords_not_identifier in Hk].
    intros s Hs. apply keywords_spelling in Hk. congruence.
  - by repeat split.
Qed.

Lemma scanNumber_scanned st tok st' :
  scanNumber source st = Some (tok, st') -> scanned tok.
Proof.
  unfold scanNumber.
  destruct (number_loop _ _ _) as [st2 |]; [| discriminate].
  intros [= <- <-]. by repeat split.
Qed.

Lemma scanToken_scanned st tok st' :
  scanToken source st = Some (tok, st') -> scanned tok.
Proof.
  unfold scanToken. destruct (advance source st) as [c st1].
  destruct (isalpha c || is_char c "_"); [apply scanIdentifier_scanned |].
  destruct (isdigit c); [apply scanNumber_scanned |].
  unfold two_char.
  repeat match goal with
  | |- context [if is_char ?a ?d then _ else _] => destruct (is_char a d)
  end;
  intros [= <- <-]; unfold scanned; simpl;
  (split; [discriminate |]; split; [by intros s [= <-] | discriminate]).
Qed.

Lemma tokenize_loop_scanned fuel : forall st tokens tokens' st',
  Forall scanned tokens ->
  tokenize_loop source fuel st tokens = Some (tokens', st') ->
  Forall scanned tokens'.
Proof.
  induction fuel as [| fuel IH]; intros st tokens tokens' st' Hs; [discriminate |].
  cbn [tokenize_loop].
  destruct (negb (isAtEnd source st)); [| by intros [= <- <-]].
  destruct (skipWhitespace source _ st) as [st1 |]; [| discriminate].
  destruct (isAtEnd source st1); [by intros [= <- <-] |].
  destruct (scanToken source st1) as [[tok st2] |] eqn:Htok; [| discriminate].
  apply IH. apply Forall_app. split; [exact Hs |].
  constructor; [| constructor]. by eapply scanToken_scanned.
Qed.

End TokenFacts.

(** X4 — the token sequence of every source ends with its one
    [END_OF_FILE] token, whose lexeme is empty; every token in front of
    it is of another type, carries the spelling of its type when the type
    has one (keywords, operators, punctuation), and is no keyword when it
    is an [IDENTIFIER]. *)
Theorem tokens_are_consistent_with_their_lexemes (source : string) :
  exists (body : list Lexer.Token) (line column : Z),
    Lexer.tokenize source
    = Some (body ++ [Lexer.mkToken Lexer.END_OF_FILE "" line column])
    /\ Forall
         (fun tok =>
            Lexer.tok_type tok <> Lexer.END_OF_FILE
            /\ (forall s, spelling (Lexer.tok_type tok) = Some s -> Lexer.lexeme tok = s)
            /\ (Lexer.tok_type tok = Lexer.IDENTIFIER ->
                Lexer.keywords (Lexer.lexeme tok) = None))
         body.
Proof.
  unfold Lexer.tokenize.
  destruct (tokenize_loop_total source (S (String.length source))
              (Lexer.mkLexState 0 1 1) [])
    as (tokens & st & Hr).
  - unfold within. simpl. lia.
  - simpl. lia.
  - rewrite Hr. exists tokens, (Lexer.line st), (Lexer.column st).
    split; [reflexivity |].
    exact (tokenize_loop_scanned source _ _ _ _ _ (List.Forall_nil _) Hr).
Qed.

(** The number of newline characters of a string. *)
Fixpoint count_newlines (s : string) : Z :=
  match s with
  | EmptyString => 0
  | String c s' => (if Lexer.is_char c "010" then 1 else 0) + count_newlines s'
  end.

Section LineFacts.
Import Lexer.

Definition newline_at (s : string) (i : nat) : Z :=
  match String.get i s with
  | Some c => if is_char c "010" then 1 else 0
  | None => 0
  end.

(** The newlines among the first [n] characters. *)
Fixpoint newlines_upto (s : string) (n : nat) : Z :=
  match n with
  | O => 0
  | S n' => newlines_upto s n' + newline_at s n'
  end.

Lemma newlines_upto_cons c s n :
  newlines_upto (String c s) (S n)
  = ((if is_char c "010" then 1 else 0) + newlines_upto s n)%Z.
Proof.
  induction n as [| n IH].
  - simpl. unfold newline_at. simpl. lia.
  - change (newlines_upto (String c s) (S (S n)))
      with (newlines_upto (String c s) (S n) + newline_at (String c s) (S n))%Z.
    rewrite IH. simpl. unfold newline_at at 1. simpl. fold (newline_at s n). lia.
Qed.

Lemma newlines_upto_length s : newlines_upto s (String.length s) = count_newlines s.
Proof.
  induction s as [| c s IH]; [reflexivity |].
  cbn [String.length count_newlines]. by rewrite newlines_upto_cons, IH.
Qed.

Lemma newline_at_beyond s i : (String.length s <= i)%nat -> newline_at s i = 0%Z.
Proof.
  unfold newline_at. intros H.
  destruct (String.get i s) as [c |] eqn:E; [| reflexivity].
  apply (get_Some_lt s) in E. lia.
Qed.

Lemma newlines_upto_beyond s n :
  (String.length s <= n)%nat -> newlines_upto s n = count_newlines s.
Proof.
  induction n as [| n IH]; intros H.
  - assert (String.length s = 0%nat) as E by lia.
    rewrite <- newlines_upto_length, E. reflexivity.
  - destruct (decide (String.length s = S n)) as [E | Hne].
    + by rewrite <- E, newlines_upto_length.
    + simpl. rewrite IH, newline_at_beyond by lia. lia.
Qed.

Lemma newline_at_bounds s i : (0 <= newline_at s i <= 1)%Z.
Proof.
  unfold newline_at. destruct (String.get i s) as [c |]; [| lia].
  destruct (is_char c "010"); lia.
Qed.

Lemma newlines_upto_bounds s n :
  (0 <= newlines_upto s n <= count_newlines s)%Z.
Proof.
  assert (Hmono : forall a b, (a <= b)%nat ->
            (newlines_upto s a <= newlines_upto s b)%Z).
  { intros a b Hab. induction Hab as [| b Hab IH]; [lia |].
    simpl. pose proof (newline_at_bounds s b). lia. }
  split.
  - apply (Hmono 0%nat n). lia.
  - destruct (Nat.le_ge_cases n (String.length s)) as [H | H].
    + rewrite <- newlines_upto_length. by apply Hmono.
    + rewrite newlines_upto_beyond by exact H. lia.
Qed.

Variable source : string.

#[local] Arguments advance : simpl never.
#[local] Arguments skip_two : simpl never.

(** The line counter is one more than the number of newlines passed. *)
Definition line_ok (st : LexState) : Prop :=
  line st = (1 + newlines_upto source (position st))%Z.

Lemma newline_at_peek st :
  newline_at source (position st)
  = if is_char (peek source st 0) "010" then 1%Z else 0%Z.
Proof.
  unfold newline_at, peek. rewrite Nat.add_0_r.
  by destruct (String.get (position st) source).
Qed.

Lemma line_ok_advance st : line_ok st -> line_ok (advance source st).2.
Proof.
  unfold line_ok, advance. intros H. cbn [snd].
  pose proof (newline_at_peek st) as Hp.
  destruct (is_char (peek source st 0) "010"); simpl; lia.
Qed.

Lemma line_ok_step st col :
  line_ok st ->
  line_ok (mkLexState (S (position st))
             (if is_char (peek source st 0) "010" then line st + 1 else line st) col).
Proof.
  unfold line_ok. intros H. pose proof (newline_at_peek st) as Hp.
  destruct (is_char (peek source st 0) "010"); simpl; lia.
Qed.

Lemma peek_next st :
  peek source st 1 = peek source (mkLexState (S (position st)) 0 0) 0.
Proof.
  unfold peek. cbn [position].
  by replace (position st + 1)%nat with (S (position st) + 0)%nat by lia.
Qed.

Lemma line_ok_skip_two st c d :
  c <> "010"%char -> d <> "010"%char ->
  is_char (peek source st 0) c = true -> is_char (peek source st 1) d = true ->
  line_ok st -> line_ok (skip_two st).
Proof.
  unfold line_ok, skip_two. intros Hc Hd H0 H1 H. simpl.
  replace (position st + 2)%nat with (S (S (position st))) by lia.
  pose proof (newline_at_peek st) as Hp0.
  pose proof (newline_at_peek (mkLexState (S (position st)) 0 0)) as Hp1.
  rewrite <- peek_next in Hp1. simpl in Hp1.
  apply Ascii.eqb_eq in H0, H1. rewrite H0 in Hp0. rewrite H1 in Hp1.
  destruct (Ascii.eqb_spec c "010"); [done |].
  destruct (Ascii.eqb_spec d "010"); [done |].
  unfold is_char in Hp0, Hp1.
  destruct (Ascii.eqb_spec c "010"); [done |].
  destruct (Ascii.eqb_spec d "010"); [done |].
  simpl. lia.
Qed.

Lemma line_comment_loop_line fuel : forall st st',
  line_comment_loop source fuel st = Some st' -> line_ok st -> line_ok st'.
Proof.
  induction fuel as [| fuel IH]; intros st st'; [discriminate |].
  cbn [line_comment_loop]. destruct (_ && _).
  - intros Hr Hl. by eapply IH, line_ok_advance.
  - by intros [= <-].
Qed.

Lemma block_comment_loop_line fuel : forall st st',
  block_comment_loop source fuel st = Some st' -> line_ok st -> line_ok st'.
Proof.
  induction fuel as [| fuel IH]; intros st st'; [discriminate |].
  cbn [block_comment_loop]. destruct (negb _); [| by intros [= <-]].
  destruct (is_char (peek source st 0) "*" && is_char (peek source st 1) "/") eqn:E.
  - apply andb_true_iff in E as [E0 E1]. intros [= <-] Hl.
    by apply (line_ok_skip_two st "*" "/").
  - pose proof (line_ok_step st 1) as H1.
    pose proof (line_ok_step st (column st + 1)) as H2.
    destruct (is_char (peek source st 0) "010"); intros Hr Hl; eapply IH; eauto.
Qed.

Lemma skipComment_line fuel st st' :
  skipComment source fuel st = Some st' -> line_ok st -> line_ok st'.
Proof.
  unfold skipComment.
  destruct (is_char (peek source st 0) "/") eqn:E0; [| by intros [= <-]].
  destruct (is_char (peek source st 1) "/") eqn:E1.
  { intros Hr Hl. eapply line_comment_loop_line; [exact Hr |].
    by apply (line_ok_skip_two st "/" "/"). }
  destruct (is_char (peek source st 1) "*") eqn:E2; [| by intros [= <-]].
  intros Hr Hl. eapply block_comment_loop_line; [exact Hr |].
  by apply (line_ok_skip_two st "/" "*").
Qed.

Lemma skipWhitespace_line fuel : forall st st',
  skipWhitespace source fuel st = Some st' -> line_ok st -> line_ok st'.
Proof.
  induction fuel as [| fuel IH]; intros st st'; [discriminate |].
  cbn [skipWhitespace]. destruct (negb _); [| by intros [= <-]].
  destruct (_ || _ || _).
  { intros Hr Hl. by eapply IH, line_ok_advance. }
  destruct (is_char (peek source st 0) "010").
  { intros Hr Hl. by eapply IH, line_ok_advance. }
  destruct (is_char (peek source st 0) "/"); [| by intros [= <-]].
  destruct (_ || _); [| by intros [= <-]].
  destruct (skipComment source _ st) as [st1 |] eqn:Hc; [| discriminate].
  intros Hr Hl. eapply IH; [exact Hr |]. by eapply skipComment_line.
Qed.

Lemma identifier_loop_line fuel : forall st st',
  identifier_loop source fuel st = Some st' -> line_ok st -> line_ok st'.
Proof.
  induction fuel as [| fuel IH]; intros st st'; [discriminate |].
  cbn [identifier_loop]. destruct (_ && _).
  - intros Hr Hl. by eapply IH, line_ok_advance.
  - by intros [= <-].
Qed.

Lemma number_loop_line fuel : forall st st',
  number_loop source fuel st = Some st' -> line_ok st -> line_ok st'.
Proof.
  induction fuel as [| fuel IH]; intros st st'; [discriminate |].
  cbn [number_loop]. destruct (_ && _).
  - intros Hr Hl. by eapply IH, line_ok_advance.
  - by intros [= <-].
Qed.

(** The line of the token is the line counter of some position. *)
Definition lined (tok : Token) : Prop :=
  exists p, tok_line tok = (1 + newlines_upto source p)%Z.

Lemma scanIdentifier_line st tok st' :
  scanIdentifier source st = Some (tok, st') -> line_ok st ->
  line_ok st' /\ lined tok.
Proof.
  unfold scanIdentifier.
  destruct (identifier_loop _ _ _) as [st2 |] eqn:Hloop; [| discriminate].
  intros Hr Hl.
  assert (H2 : line_ok st2).
  { eapply identifier_loop_line; [exact Hloop |].
    destruct (_ || _); [by apply line_ok_advance | exact Hl]. }
  assert (Ht : lined tok /\ st' = st2).
  { destruct (keywords _); injection Hr as <- <-; (split; [| reflexivity]);
      by exists (position st). }
  destruct Ht as [Ht ->]. by split.
Qed.

Lemma scanNumber_line st tok st' :
  scanNumber source st = Some (tok, st') -> line_ok st ->
  line_ok st' /\ lined tok.
Proof.
  unfold scanNumber.
  destruct (number_loop _ _ _) as [st2 |] eqn:Hloop; [| discriminate].
  intros [= <- <-] Hl. split; [| by exists (position st)].
  eapply number_loop_line; [exact Hloop |].
  destruct (is_char _ _); [by apply line_ok_advance | exact Hl].
Qed.

Lemma not_newline_word c :
  isalpha c || is_char c "_" || isdigit c = true -> is_char c "010" = false.
Proof.
  destruct (is_char c "010") eqn:E; [| done].
  apply Ascii.eqb_eq in E. by subst c.
Qed.

Lemma scanToken_line st0 tok st' :
  scanToken source st0 = Some (tok, st') -> line_ok st0 ->
  line_ok st' /\ lined tok.
Proof.
  unfold scanToken. intros Hr Hl.
  pose proof (line_ok_advance st0 Hl) as Hadv.
  unfold advance in Hr, Hadv. cbn [snd] in Hadv.
  set (c := peek source st0 0) in *.
  set (st := if is_char c "010" then _ else _) in *.
  assert (Hback : isalpha c || is_char c "_" || isdigit c = true ->
            line_ok (mkLexState (position st - 1) (line st) (column st - 1))).
  { intros Hw. apply not_newline_word in Hw. subst st. rewrite Hw. simpl.
    unfold line_ok in *. simpl. by rewrite Nat.sub_0_r. }
  destruct (isalpha c || is_char c "_") eqn:Hid.
  { eapply scanIdentifier_line; [exact Hr |]. apply Hback.
    by rewrite ?Hid. }
  destruct (isdigit c) eqn:Hdig.
  { eapply scanNumber_line; [exact Hr |]. apply Hback.
    by rewrite ?Hid, ?Hdig, ?orb_true_r. }
  assert (Hst : lined (mkToken UNKNOWN "" (line st) 0)) by (by exists (position st)).
  unfold two_char in Hr.
  pose proof (line_ok_advance st Hadv) as Hadv2.
  repeat match type of Hr with
  | context [if is_char ?a ?d then _ else _] => destruct (is_char a d)
  end;
  injection Hr as <- <-; (split; [assumption | by exists (position st)]).
Qed.

Lemma tokenize_loop_line fuel : forall st tokens tokens' st',
  tokenize_loop source fuel st tokens = Some (tokens', st') ->
  line_ok st -> Forall lined tokens ->
  line_ok st' /\ isAtEnd source st' = true /\ Forall lined tokens'.
Proof.
  induction fuel as [| fuel IH]; intros st tokens tokens' st'; [discriminate |].
  cbn [tokenize_loop].
  destruct (isAtEnd source st) eqn:Hend; cbn [negb];
    [intros [= <- <-] Hl Ht; by repeat split |].
  destruct (skipWhitespace source _ st) as [st1 |] eqn:Hws; [| discriminate].
  destruct (isAtEnd source st1) eqn:Hend1.
  { intros [= <- <-] Hl Ht. repeat split; try done.
    by eapply skipWhitespace_line. }
  destruct (scanToken source st1) as [[tok st2] |] eqn:Htok; [| discriminate].
  intros Hr Hl Ht.
  destruct (scanToken_line st1 tok st2 Htok) as [Hl2 Hlt];
    [by eapply skipWhitespace_line |].
  eapply IH; [exact Hr | exact Hl2 |].
  apply Forall_app. split; [exact Ht | by repeat constructor].
Qed.

End LineFacts.

(** X5 — the lexer counts lines correctly: the [END_OF_FILE] token of
    every source carries the line number one plus the number of newline
    characters of the source, and the line of every token lies between 1
    and that number. *)
Theorem token_lines_count_the_newlines (source : string) :
  exists (body : list Lexer.Token) (column : Z),
    Lexer.tokenize source
    = Some (body ++ [Lexer.mkToken Lexer.END_OF_FILE ""
                       (1 + count_newlines source) column])
    /\ Forall (fun tok => (1 <= Lexer.tok_line tok <= 1 + count_newlines source)%Z)
         body.
Proof.
  unfold Lexer.tokenize.
  destruct (tokenize_loop_total source (S (String.length source))
              (Lexer.mkLexState 0 1 1) [])
    as (tokens & st & Hr).
  - unfold within. simpl. lia.
  - simpl. lia.
  - rewrite Hr.
    destruct (tokenize_loop_line source _ _ _ _ _ Hr) as (Hl & Hend & Ht).
    { reflexivity. }
    { constructor. }
    exists tokens, (Lexer.column st). split.
    + unfold line_ok in Hl. rewrite Hl, newlines_upto_beyond; [reflexivity |].
      unfold Lexer.isAtEnd in Hend. by apply Nat.leb_le in Hend.
    + revert Ht. apply List.Forall_impl. intros tok [p Hp]. rewrite Hp.
      pose proof (newlines_upto_bounds source p). lia.
Qed.

(** ** The peephole pass ([codegen.cpp]) *)

Section PeepholeFacts.
Import Peephole.

(** Destructs what a handler branches on. *)
Ltac split_handler :=
  repeat match goal with
  | |- context [match ?x with _ => _ end] =>
      match type of x with
      | list _ => fail 1
      | _ => destruct x
      end
  end.

Lemma li_compare_shrinks w w' :
  li_compare w = Some (true, w') -> (length w' < length w)%nat.
Proof.
  unfold li_compare. destruct w as [| li [| branch rest]]; try discriminate.
  split_handler; intros [= <-]; simpl; lia.
Qed.

Lemma load_store_same_shrinks w w' :
  load_store_same w = Some (true, w') -> (length w' < length w)%nat.
Proof.
  unfold load_store_same. destruct w as [| load [| store rest]]; try discriminate.
  split_handler; intros [= <-]; simpl; lia.
Qed.

Lemma redundant_move_shrinks w w' :
  redundant_move w = Some (true, w') -> (length w' < length w)%nat.
Proof.
  unfold redundant_move. destruct w as [| move rest]; try discriminate.
  split_handler; intros [= <-]; simpl; lia.
Qed.

Lemma apply_patterns_shrinks w w' :
  apply_patterns peepholePatterns w = Some (Some w') -> (length w' < length w)%nat.
Proof.
  unfold peepholePatterns. cbn [apply_patterns].
  destruct (li_compare w) as [[[] w1] |] eqn:H1; try discriminate.
  { intros [= <-]. by apply li_compare_shrinks. }
  destruct (load_store_same w) as [[[] w2] |] eqn:H2; try discriminate.
  { intros [= <-]. by apply load_store_same_shrinks. }
  destruct (redundant_move w) as [[[] w3] |] eqn:H3; try discriminate.
  intros [= <-]. by apply redundant_move_shrinks.
Qed.

(** One run over the positions never lengthens the code, and shortens it
    when a pattern fires. *)
Lemma scan_length fuel : forall before rest changed out changed',
  scan fuel before rest changed = Some (out, changed') ->
  (length out <= length before + length rest)%nat
  /\ (changed = false -> changed' = true ->
      (length out < length before + length rest)%nat).
Proof.
  induction fuel as [| fuel IH]; intros before rest changed out changed';
    [discriminate |].
  cbn [scan]. destruct rest as [| first rest']; [intros [= <- <-]; split; [lia | congruence] |].
  set (windowSize := Nat.min 3 (length (first :: rest'))).
  destruct (apply_patterns peepholePatterns (firstn windowSize (first :: rest')))
    as [[window' |] |] eqn:Hp; [| | discriminate].
  - apply apply_patterns_shrinks in Hp. rewrite length_firstn in Hp.
    intros Hr. apply IH in Hr as [Hle _].
    rewrite length_app, length_skipn in Hle. split; [lia |]. intros _ _. lia.
  - intros Hr. apply IH in Hr as [Hle Hlt].
    rewrite length_app in Hle, Hlt. simpl in *. split; [lia |].
    intros H1 H2. specialize (Hlt H1 H2). lia.
Qed.

Lemma until_unchanged_length fuel : forall instructions out,
  until_unchanged fuel instructions = Some out ->
  (length out <= length instructions)%nat.
Proof.
  induction fuel as [| fuel IH]; intros instructions out; [discriminate |].
  cbn [until_unchanged].
  destruct (scan _ [] instructions false) as [[instructions' []] |] eqn:Hs;
    [| | discriminate].
  - intros Hr. apply IH in Hr. apply scan_length in Hs as [Hle _]. simpl in Hle. lia.
  - intros [= <-]. apply scan_length in Hs as [Hle _]. simpl in Hle. lia.
Qed.

(** A line the three patterns do not look at first. *)
Definition untouched (s : string) : bool :=
  negb (find_is_0 "lw " s) && negb (find_is_0 "li " s) && negb (find_is_0 "mv " s).

Lemma apply_patterns_untouched first rest :
  untouched first = true ->
  apply_patterns peepholePatterns (first :: rest) = Some None.
Proof.
  unfold untouched. intros H.
  apply andb_true_iff in H as [H Hmv]. apply andb_true_iff in H as [Hlw Hli].
  apply negb_true_iff in Hlw, Hli, Hmv.
  unfold peepholePatterns. cbn [apply_patterns].
  unfold li_compare, load_store_same, redundant_move.
  rewrite Hli, Hlw, Hmv. by destruct rest.
Qed.

Lemma scan_untouched fuel : forall before rest changed,
  (length rest < fuel)%nat -> forallb untouched rest = true ->
  scan fuel before rest changed = Some (before ++ rest, changed).
Proof.
  induction fuel as [| fuel IH]; intros before rest changed Hf Hu; [lia |].
  cbn [scan]. destruct rest as [| first rest']; [by rewrite app_nil_r |].
  cbn [forallb] in Hu. apply andb_true_iff in Hu as [Hfirst Hrest].
  assert (Hw : firstn (Nat.min 3 (length (first :: rest'))) (first :: rest')
               = first :: firstn (Nat.min 2 (length rest')) rest').
  { simpl. by destruct rest' as [| a [| b r]]. }
  rewrite Hw, apply_patterns_untouched by exact Hfirst.
  rewrite IH; [| simpl in Hf; lia | exact Hrest].
  by rewrite <- app_assoc.
Qed.

End PeepholeFacts.

(** X6 — the peephole pass never lengthens the code: whenever it runs to
    completion, the text it leaves has at most as many lines as the text
    it was given. *)
Theorem peephole_never_lengthens (instructions out : list string) :
  Peephole.peepholeOptimize instructions = Some out ->
  (length out <= length instructions)%nat.
Proof. apply until_unchanged_length. Qed.

Lemma peephole_never_lengthens_witness :
  Peephole.peepholeOptimize
    ["lw t0, -12(fp)"; "sw t0, -12(fp)"; "add t1, t0, t2"; "ret"] = Some ["ret"]
  /\ (length ["ret"] <= length ["lw t0, -12(fp)"; "sw t0, -12(fp)";
                                 "add t1, t0, t2"; "ret"])%nat.
Proof.
  split; [vm_compute; reflexivity |].
  apply (peephole_never_lengthens
           ["lw t0, -12(fp)"; "sw t0, -12(fp)"; "add t1, t0, t2"; "ret"] ["ret"]).
  vm_compute. reflexivity.
Defined.

(** X7 — code in which no line starts with [lw ], [li ] or [mv ] passes
    through the peephole pass unchanged. *)
Theorem peephole_leaves_other_code_alone (instructions : list string) :
  forallb untouched instructions = true ->
  Peephole.peepholeOptimize instructions = Some instructions.
Proof.
  intros H. unfold Peephole.peepholeOptimize. cbn [Peephole.until_unchanged].
  rewrite scan_untouched; [reflexivity | lia | exact H].
Qed.

Lemma peephole_leaves_other_code_alone_witness :
  Peephole.peepholeOptimize ["add t0, t1, t2"; "sw t0, -12(fp)"; "ret"]
  = Some ["add t0, t1, t2"; "sw t0, -12(fp)"; "ret"].
Proof.
  apply (peephole_leaves_other_code_alone
           ["add t0, t1, t2"; "sw t0, -12(fp)"; "ret"]).
  vm_compute. reflexivity.
Defined.

(** ** The AST optimizer of the TOYC2 compiler ([optimizer.cpp]) *)

Section DeadCodeFacts.
Import Toyc2 Toyc2.Optimizer.

(** A statement [eliminate_dead_code] keeps when it reaches it: anything
    but an expression statement without a call. *)
Definition worth_keeping (s : Stmt) : bool :=
  match s with
  | ExprStmt (Some e) => has_side_effects e
  | _ => true
  end.

Lemma eliminate_dead_code_from_spec rest : forall kept applied,
  Forall (fun s => is_unreachable_after s = false) (tail kept) ->
  Forall (fun s => worth_keeping s = true) kept ->
  exists kept',
    (eliminate_dead_code_from kept rest applied).1 = rev kept'
    /\ Forall (fun s => is_unreachable_after s = false) (tail kept')
    /\ Forall (fun s => worth_keeping s = true) kept'
    /\ sublist (rev kept') (rev kept ++ rest)
    /\ ((eliminate_dead_code_from kept rest applied).2 + length kept'
        = applied + length kept + length rest)%nat.
Proof.
  induction rest as [| s rest IH]; intros kept applied Hj Hk.
  - exists kept. simpl. rewrite app_nil_r. repeat split; done || lia.
  - assert (Hdrop : exists kept',
              (eliminate_dead_code_from kept rest (S applied)).1 = rev kept'
              /\ Forall (fun s => is_unreachable_after s = false) (tail kept')
              /\ Forall (fun s => worth_keeping s = true) kept'
              /\ sublist (rev kept') (rev kept ++ s :: rest)
              /\ ((eliminate_dead_code_from kept rest (S applied)).2 + length kept'
                  = applied + length kept + length (s :: rest))%nat).
    { destruct (IH kept (S applied) Hj Hk) as (k' & E & H1 & H2 & H3 & H4).
      exists k'. repeat split; try done.
      - etransitivity; [exact H3 |].
        apply sublist_app; [done | by apply sublist_cons].
      - simpl. lia. }
    assert (Hkeep : worth_keeping s = true ->
              match kept with
              | prev :: _ => is_unreachable_after prev = false
              | [] => True
              end ->
              exists kept',
                (eliminate_dead_code_from (s :: kept) rest applied).1 = rev kept'
                /\ Forall (fun s => is_unreachable_after s = false) (tail kept')
                /\ Forall (fun s => worth_keeping s = true) kept'
                /\ sublist (rev kept') (rev kept ++ s :: rest)
                /\ ((eliminate_dead_code_from (s :: kept) rest applied).2
                    + length kept'
                    = applied + length kept + length (s :: rest))%nat).
    { intros Hs Hprev.
      destruct (IH (s :: kept) applied) as (k' & E & H1 & H2 & H3 & H4).
      - simpl. destruct kept as [| prev kept0]; [constructor |].
        constructor; [exact Hprev | exact Hj].
      - by constructor.
      - exists k'. repeat split; try done.
        + simpl in H3. by rewrite <- app_assoc in H3.
        + simpl in *. lia. }
    cbn [eliminate_dead_code_from].
    destruct kept as [| prev kept0].
    + destruct s as [ss | [e |] | x e | x e | c t e | c b | | | oe];
        try (by apply Hkeep).
      destruct (has_side_effects e) eqn:He; simpl; [by apply Hkeep | exact Hdrop].
    + destruct (is_unreachable_after prev) eqn:Hprev; [exact Hdrop |].
      destruct s as [ss | [e |] | x e | x e | c t e | c b | | | oe];
        try (by apply Hkeep).
      destruct (has_side_effects e) eqn:He; simpl; [by apply Hkeep | exact Hdrop].
Qed.

End DeadCodeFacts.

(** X8 — [eliminate_dead_code] only deletes: what it returns is a
    subsequence of the statements it was given, the counter grows by the
    number of statements deleted, no statement is left behind a [return],
    [break] or [continue], and no expression statement without a call is
    left at all. *)
Theorem eliminate_dead_code_only_deletes
    (statements : list Toyc2.Stmt) (applied : nat) :
  let kept := (Toyc2.Optimizer.eliminate_dead_code statements applied).1 in
  let applied' := (Toyc2.Optimizer.eliminate_dead_code statements applied).2 in
  sublist kept statements
  /\ (applied' + length kept = applied + length statements)%nat
  /\ Forall (fun s => Toyc2.Optimizer.is_unreachable_after s = false) (removelast kept)
  /\ Forall (fun s => worth_keeping s = true) kept.
Proof.
  intros kept applied'. subst kept applied'. unfold Toyc2.Optimizer.eliminate_dead_code.
  destruct (eliminate_dead_code_from_spec statements [] applied)
    as (k' & E & H1 & H2 & H3 & H4); [constructor | constructor |].
  rewrite E. simpl in H3, H4. repeat split.
  - exact H3.
  - rewrite length_rev. lia.
  - destruct k' as [| s k']; [constructor |].
    simpl. rewrite removelast_last. simpl in H1.
    apply Forall_rev. exact H1.
  - by apply Forall_rev.
Qed.

Section SimplifyFacts.
Import Toyc2 Toyc2.Optimizer Toyc2.Semantics.




End SimplifyFacts.

(** X9 — [simplify_expression] is sound wherever the expression has a
    value and the call is not killed: if the expression evaluates to [v]
    (no division by zero, no division of the least integer by -1 and no
    call on the way), with 32-bit literals and variables, and no constant
    operand that [simplify_expression] evaluates divides the least
    integer by -1, then the expression it returns evaluates to [v]
    too. *)
Theorem simplify_expression_keeps_the_value
    (env : string -> Z) (e : Toyc2.Expr) (applied : nat) (v : Z) :
  Toyc2.Semantics.env_in_range env ->
  Toyc2.Semantics.literals_in_range e = true ->
  Toyc2.Optimizer.simplify_expression_traps e = false ->
  Toyc2.Semantics.eval env e = Toyc2.Semantics.Value v ->
  Toyc2.Semantics.eval env (Toyc2.Optimizer.simplify_expression e applied).1
  = Toyc2.Semantics.Value v.
Proof. intros Henv Hlit _. by apply simplify_expression_preserves_value. Qed.

Lemma simplify_expression_keeps_the_value_witness :
  Toyc2.Semantics.eval (fun _ => 7%Z)
    (Toyc2.Optimizer.simplify_expression
       (Toyc2.BinaryExpr Toyc2.MUL (Toyc2.NumberExpr 1) (Toyc2.VarExpr "x")) 0).1
  = Toyc2.Semantics.Value 7.
Proof.
  apply (simplify_expression_keeps_the_value (fun _ => 7%Z)
           (Toyc2.BinaryExpr Toyc2.MUL (Toyc2.NumberExpr 1) (Toyc2.VarExpr "x"))
           0 7%Z).
  - intros x. unfold Int32.in_range, Int32.min_signed, Int32.max_signed. lia.
  - reflexivity.
  - reflexivity.
  - reflexivity.
Defined.

(** X10 — on a constant expression whose evaluation divides by no zero
    and is not killed by the division of the least integer by -1, the
    optimizer's evaluator [evaluate_constant_expr] computes the value the
    language gives the expression, short-circuit operators included. *)
Theorem evaluate_constant_expr_is_the_value
    (env : string -> Z) (e : Toyc2.Expr) (v : Z) :
  Toyc2.Optimizer.is_constant_expr e = true ->
  Toyc2.Optimizer.evaluate_constant_expr_traps e = false ->
  Toyc2.Semantics.eval env e = Toyc2.Semantics.Value v ->
  Toyc2.Optimizer.evaluate_constant_expr e = v.
Proof. intros Hc _. by apply evaluate_constant_expr_eval. Qed.

Lemma evaluate_constant_expr_is_the_value_witness :
  Toyc2.Optimizer.evaluate_constant_expr
    (Toyc2.BinaryExpr Toyc2.OR (Toyc2.NumberExpr 3)
       (Toyc2.BinaryExpr Toyc2.DIV (Toyc2.NumberExpr 1) (Toyc2.NumberExpr 0)))
  = 1%Z.
Proof.
  apply (evaluate_constant_expr_is_the_value (fun _ => 0%Z)
           (Toyc2.BinaryExpr Toyc2.OR (Toyc2.NumberExpr 3)
              (Toyc2.BinaryExpr Toyc2.DIV (Toyc2.NumberExpr 1) (Toyc2.NumberExpr 0)))
           1%Z); reflexivity.
Defined.

(** The evaluator does not short-circuit: [0 && (-2147483648 / -1)] has
    the value 0 in the language, and the evaluator is killed on it. *)
Lemma evaluate_constant_expr_evaluates_both_operands :
  let e :=
    Toyc2.BinaryExpr Toyc2.AND (Toyc2.NumberExpr 0)
      (Toyc2.BinaryExpr Toyc2.DIV (Toyc2.NumberExpr (-2147483648))
         (Toyc2.NumberExpr (-1))) in
  Toyc2.Semantics.eval (fun _ => 0%Z) e = Toyc2.Semantics.Value 0
  /\ Toyc2.Optimizer.is_constant_expr e = true
  /\ Toyc2.Optimizer.evaluate_constant_expr_traps e = true
  /\ Toyc2.Optimizer.simplify_expression_traps e = true.
Proof. vm_compute. repeat split. Qed.


(** ** The symbol table of the TOYC2 compiler ([symbol_table.cpp]) *)

Section SymbolTableFacts.
Import Toyc2 Toyc2.SymbolTableOps.

Lemma lookup_set_current_scope t sc name :
  lookup_symbol (set_current_scope t sc) name
  = match lookup_local sc name with
    | Some s => Some s
    | None =>
        match inner_scopes t with
        | _ :: rest => lookup_chain rest (global_scope t) name
        | [] => None
        end
    end.
Proof.
  unfold lookup_symbol, set_current_scope.
  destruct (inner_scopes t) as [| sc0 rest]; simpl; [| reflexivity].
  by destruct (lookup_local sc name).
Qed.

Lemma lookup_symbol_current t name :
  lookup_symbol t name
  = match lookup_local (current_scope t) name with
    | Some s => Some s
    | None =>
        match inner_scopes t with
        | _ :: rest => lookup_chain rest (global_scope t) name
        | [] => None
        end
    end.
Proof.
  unfold lookup_symbol, current_scope.
  destruct (inner_scopes t) as [| sc0 rest]; simpl; [| reflexivity].
  by destruct (lookup_local (global_scope t) name).
Qed.

(** The table after [allocate_stack_space], before the scope is asked. *)
Definition allocated (kind : SymbolType) (t : SymbolTable) : SymbolTable :=
  mkSymbolTable (inner_scopes t) (global_scope t) (next_scope_level t)
    (allocate_stack_space kind (scope_stack_size t)).1.

Lemma define_local_unfold kind name type t :
  define_local kind name type t
  = match define (current_scope t)
            (mkSymbol name kind type (level (current_scope t))
               (allocate_stack_space kind (scope_stack_size t)).2 []) with
    | Some sc => (set_current_scope (allocated kind t) sc, true)
    | None => (allocated kind t, false)
    end.
Proof.
  unfold define_local, allocated.
  by destruct (allocate_stack_space kind (scope_stack_size t)) as [sizes offset].
Qed.

Lemma define_local_spec kind name type t :
  (define_local kind name type t).2
  = bool_decide (lookup_local (current_scope t) name = None)
  /\ ((define_local kind name type t).2 = true ->
      exists s,
        lookup_symbol (define_local kind name type t).1 name = Some s
        /\ sym_name s = name /\ symbol_type s = kind /\ data_type s = type
        /\ scope_level s = level (current_scope t))
  /\ ((define_local kind name type t).2 = false ->
      lookup_symbol (define_local kind name type t).1 name = lookup_symbol t name)
  /\ (forall other,
        other <> name ->
        lookup_symbol (define_local kind name type t).1 other = lookup_symbol t other).
Proof.
  rewrite define_local_unfold. unfold define, lookup_local. cbn [sym_name].
  destruct (symbols (current_scope t) !! name) as [old |] eqn:Hold; cbn [fst snd].
  - split; [by rewrite bool_decide_eq_false_2 |].
    split; [discriminate |]. by split.
  - split; [by rewrite bool_decide_eq_true_2 |].
    split; [| split; [discriminate |]].
    + intros _. eexists. split.
      * rewrite lookup_set_current_scope. unfold lookup_local. cbn [symbols].
        by rewrite lookup_insert_eq.
      * by repeat split.
    + intros other Hne. rewrite lookup_set_current_scope, (lookup_symbol_current t).
      unfold lookup_local. cbn [symbols]. by rewrite lookup_insert_ne.
Qed.

(** A run of local definitions. *)
Definition define_all (defs : list (SymbolType * string * DataType))
    (t : SymbolTable) : SymbolTable :=
  fold_left (fun t '(kind, name, type) => (define_local kind name type t).1) defs t.

Lemma allocate_stack_space_back kind sizes k :
  exists k', (allocate_stack_space kind (sizes ++ [k])).1 = sizes ++ [k'].
Proof.
  unfold allocate_stack_space, bump_back.
  destruct kind; cbn [fst]; rewrite ?removelast_last; by eexists.
Qed.

Lemma define_all_inside defs : forall t outer sc k,
  inner_scopes t = sc :: inner_scopes outer ->
  global_scope t = global_scope outer ->
  scope_stack_size t = scope_stack_size outer ++ [k] ->
  exists sc' k',
    inner_scopes (define_all defs t) = sc' :: inner_scopes outer
    /\ global_scope (define_all defs t) = global_scope outer
    /\ next_scope_level (define_all defs t) = next_scope_level t
    /\ scope_stack_size (define_all defs t) = scope_stack_size outer ++ [k'].
Proof.
  induction defs as [| [[kind name] type] defs IH]; intros t outer sc k Hi Hg Hs.
  - exists sc, k. by repeat split.
  - cbn [define_all fold_left]. fold (define_all defs).
    destruct (allocate_stack_space_back kind (scope_stack_size outer) k) as [k' Hk'].
    rewrite <- Hs in Hk'.
    rewrite define_local_unfold.
    destruct (define _ _) as [sc1 |]; cbn [fst].
    + destruct (IH (set_current_scope (allocated kind t) sc1) outer sc1 k')
        as (sc' & k'' & H1 & H2 & H3 & H4).
      * unfold set_current_scope, allocated. cbn [inner_scopes]. by rewrite Hi.
      * unfold set_current_scope, allocated. cbn [inner_scopes]. by rewrite Hi.
      * unfold set_current_scope, allocated. cbn [inner_scopes]. by rewrite Hi.
      * exists sc', k''. split; [exact H1 |]. split; [exact H2 |].
        split; [| exact H4].
        etransitivity; [exact H3 |].
        unfold set_current_scope, allocated. cbn [inner_scopes].
        by rewrite Hi.
    + destruct (IH (allocated kind t) outer sc k')
        as (sc' & k'' & H1 & H2 & H3 & H4); try done.
      by exists sc', k''.
Qed.

End SymbolTableFacts.

(** X12 — [define_variable] and [define_parameter] succeed exactly when
    the name is new in the current scope. On success the name resolves to
    the new symbol, with its kind, type and scope level; on failure it
    resolves as before and no scope has changed; every other name
    resolves as before in both cases. The stack slot is taken before the
    scope is asked: the size of the innermost frame has grown by one
    whether the definition succeeded or not. *)
Theorem define_then_lookup
    (kind : Toyc2.SymbolType) (name : string) (type : Toyc2.DataType)
    (t : Toyc2.SymbolTable) :
  let r := Toyc2.SymbolTableOps.define_local kind name type t in
  r.2 = bool_decide
          (Toyc2.SymbolTableOps.lookup_local
             (Toyc2.SymbolTableOps.current_scope t) name = None)
  /\ (r.2 = true ->
      exists s,
        Toyc2.SymbolTableOps.lookup_symbol r.1 name = Some s
        /\ Toyc2.sym_name s = name /\ Toyc2.symbol_type s = kind
        /\ Toyc2.data_type s = type
        /\ Toyc2.scope_level s
           = Toyc2.level (Toyc2.SymbolTableOps.current_scope t))
  /\ (r.2 = false ->
      Toyc2.SymbolTableOps.lookup_symbol r.1 name
      = Toyc2.SymbolTableOps.lookup_symbol t name)
  /\ (forall other,
        other <> name ->
        Toyc2.SymbolTableOps.lookup_symbol r.1 other
        = Toyc2.SymbolTableOps.lookup_symbol t other)
  /\ (r.2 = false ->
      Toyc2.inner_scopes r.1 = Toyc2.inner_scopes t
      /\ Toyc2.global_scope r.1 = Toyc2.global_scope t
      /\ Toyc2.next_scope_level r.1 = Toyc2.next_scope_level t)
  /\ (kind <> Toyc2.FUNCTION ->
      Toyc2.scope_stack_size r.1
      = removelast (Toyc2.scope_stack_size t)
        ++ [(List.last (Toyc2.scope_stack_size t) 0 + 1)%Z]).
Proof.
  intros r. subst r.
  destruct (define_local_spec kind name type t) as (H1 & H2 & H3 & H4).
  split; [exact H1 |]. split; [exact H2 |]. split; [exact H3 |].
  split; [exact H4 |]. clear H1 H2 H3 H4.
  rewrite define_local_unfold.
  destruct (Toyc2.SymbolTableOps.define _ _) as [sc |]; cbn [fst snd].
  - split; [discriminate |]. intros Hk.
    unfold Toyc2.SymbolTableOps.set_current_scope, allocated.
    cbn [Toyc2.inner_scopes].
    destruct (Toyc2.inner_scopes t); cbn [Toyc2.scope_stack_size];
      by destruct kind.
  - split; [by intros _ |]. intros Hk.
    unfold allocated. cbn [Toyc2.scope_stack_size]. by destruct kind.
Qed.

(** X13 — leaving a scope undoes it: after [enter_scope], any run of
    variable and parameter definitions and [exit_scope], the chain of
    scopes, the global scope and the stack sizes are those from before
    ([next_scope_level] alone has moved on), so every name resolves as it
    did before the scope was entered. *)
Theorem exit_scope_restores_the_table
    (defs : list (Toyc2.SymbolType * string * Toyc2.DataType))
    (t : Toyc2.SymbolTable) :
  Toyc2.SymbolTableOps.exit_scope
    (define_all defs (Toyc2.SymbolTableOps.enter_scope t))
  = Toyc2.mkSymbolTable (Toyc2.inner_scopes t) (Toyc2.global_scope t)
      (S (Toyc2.next_scope_level t)) (Toyc2.scope_stack_size t).
Proof.
  destruct (define_all_inside defs (Toyc2.SymbolTableOps.enter_scope t) t
              (Toyc2.mkScope (Toyc2.next_scope_level t) ∅) 0%Z)
    as (sc' & k' & H1 & H2 & H3 & H4); try reflexivity.
  unfold Toyc2.SymbolTableOps.exit_scope. rewrite H1, H2, H3, H4.
  by rewrite removelast_last.
Qed.

Section FunctionLookupFacts.
Import Toyc2 Toyc2.SymbolTableOps.

Lemma lookup_function_define_local kind name type t f :
  kind <> FUNCTION ->
  lookup_function (define_local kind name type t).1 f = lookup_function t f.
Proof.
  intros Hkind. rewrite define_local_unfold. unfold define. cbn [sym_name].
  destruct (symbols (current_scope t) !! name) as [old |] eqn:Hold; cbn [fst];
    [reflexivity |].
  unfold lookup_function, set_current_scope, allocated, lookup_local, current_scope in *.
  destruct (inner_scopes t) as [| sc rest]; cbn [inner_scopes global_scope symbols];
    [| reflexivity].
  destruct (decide (f = name)) as [-> | Hne].
  - rewrite lookup_insert_eq, Hold. cbn [symbol_type].
    by destruct (decide (kind = FUNCTION)).
  - by rewrite lookup_insert_ne.
Qed.

End FunctionLookupFacts.

(** X14 — function lookup looks at the global scope only. A definition
    of a function succeeds exactly when the name is new in the global
    scope, and the function then resolves with its return type and
    parameter types; a failed definition changes nothing. Entering or
    leaving a scope and defining variables or parameters, of whatever
    name, never change what [lookup_function] finds. *)
Theorem functions_are_looked_up_globally :
  (forall t name ret ptypes,
     let r := Toyc2.SymbolTableOps.define_function name ret ptypes t in
     r.2 = bool_decide
             (Toyc2.SymbolTableOps.lookup_local (Toyc2.global_scope t) name = None)
     /\ (r.2 = true ->
         exists s,
           Toyc2.SymbolTableOps.lookup_function r.1 name = Some s
           /\ Toyc2.data_type s = ret /\ Toyc2.param_types s = ptypes)
     /\ (r.2 = false -> r.1 = t))
  /\ (forall t f,
        Toyc2.SymbolTableOps.lookup_function (Toyc2.SymbolTableOps.enter_scope t) f
        = Toyc2.SymbolTableOps.lookup_function t f
        /\ Toyc2.SymbolTableOps.lookup_function (Toyc2.SymbolTableOps.exit_scope t) f
           = Toyc2.SymbolTableOps.lookup_function t f)
  /\ (forall t name type f,
        Toyc2.SymbolTableOps.lookup_function
          (Toyc2.SymbolTableOps.define_variable name type t).1 f
        = Toyc2.SymbolTableOps.lookup_function t f
        /\ Toyc2.SymbolTableOps.lookup_function
             (Toyc2.SymbolTableOps.define_parameter name type t).1 f
           = Toyc2.SymbolTableOps.lookup_function t f).
Proof.
  split; [| split].
  - intros t name ret ptypes r. subst r.
    unfold Toyc2.SymbolTableOps.define_function, Toyc2.SymbolTableOps.define,
      Toyc2.SymbolTableOps.lookup_local. cbn [Toyc2.sym_name].
    destruct (Toyc2.symbols (Toyc2.global_scope t) !! name) as [old |] eqn:Hold;
      cbn [fst snd].
    + split; [by rewrite bool_decide_eq_false_2 |]. by split.
    + split; [by rewrite bool_decide_eq_true_2 |]. split; [| discriminate].
      intros _. eexists. split.
      * unfold Toyc2.SymbolTableOps.lookup_function, Toyc2.SymbolTableOps.lookup_local.
        cbn [Toyc2.global_scope Toyc2.symbols]. rewrite lookup_insert_eq.
        reflexivity.
      * by split.
  - intros t f. split; [reflexivity |].
    unfold Toyc2.SymbolTableOps.exit_scope.
    by destruct (Toyc2.inner_scopes t).
  - intros t name type f.
    split; by apply lookup_function_define_local.
Qed.

(** ** The diagnostics of the IR pipeline's analyzer ([semantic.cpp]) *)

Section AnalyzeLogs.
Import Ast Analyze.

































End AnalyzeLogs.

Section AnalyzeVerdict.
Import Ast Analyze.











End AnalyzeVerdict.


Section AnalyzeRejections.
Import Ast Analyze.






Lemma functionTable_visit_functions fs : forall st n,
  is_Some (functionTable st !! n) ->
  is_Some (functionTable (visit_functions fs st) !! n).
Proof.
  unfold visit_functions.
  induction fs as [| f fs IH]; intros st n H; simpl; [exact H |].
  apply IH. rewrite functionTable_visit_FunctionDef.
  apply lookup_insert_is_Some. destruct (decide (name f = n)); [by left | by right].
Qed.












End AnalyzeRejections.





(** ** Loop depth in the IR pipeline's analyzer *)

Section LoopFacts.
Import Ast Analyze.




Lemma depth_error m l c st : loopDepth (error m l c st) = loopDepth st.
Proof. reflexivity. Qed.

Lemma depth_warning m l c st : loopDepth (warning m l c st) = loopDepth st.
Proof. reflexivity. Qed.

Lemma depth_set_symbolTables ts st : loopDepth (set_symbolTables ts st) = loopDepth st.
Proof. reflexivity. Qed.

Lemma depth_getExprType e : forall st, loopDepth (getExprType e st).2 = loopDepth st.
Proof.
  induction e as [v l c | x l c | a op b l c IHa IHb | op e l c IHe | f args l c IHargs]
    using Expr_nested_ind; intros st; simpl.
  - reflexivity.
  - by destruct (findSymbol x (symbolTables st)) as [[s |] ts].
  - specialize (IHa st). destruct (getExprType a st) as [ta sa]. simpl in IHa.
    specialize (IHb sa). destruct (getExprType b sa) as [tb sb]. simpl in IHb.
    destruct (negb _ || negb _); cbn [snd]; rewrite ?depth_error; congruence.
  - specialize (IHe st). destruct (getExprType e st) as [te se]. simpl in IHe.
    destruct (negb _); cbn [snd]; rewrite ?depth_error; congruence.
  - destruct (functionTable st !! f) as [info |]; [| reflexivity].
    set (st1 := match findSymbol f (symbolTables st) with
                | (Some symbol, tables) => _
                | (None, _) => st
                end).
    assert (H1 : loopDepth st1 = loopDepth st).
    { subst st1. destruct (findSymbol f (symbolTables st)) as [[sym |] ts]; [| done].
      by destruct (decide _). }
    destruct (negb _); simpl; [exact H1 |].
    rewrite <- H1. generalize 0%nat as i. generalize st1 as s. clear H1 st1.
    induction IHargs as [| a args Ha _ IH]; intros s i; simpl; [reflexivity |].
    specialize (Ha s). destruct (getExprType a s) as [ta sa]. simpl in Ha.
    rewrite IH. destruct (String.eqb _ _); cbn [snd]; rewrite ?depth_error; congruence.
Qed.

Lemma depth_check_operand_types a op b l c st :
  loopDepth (check_operand_types a op b l c st) = loopDepth st.
Proof.
  unfold check_operand_types.
  pose proof (depth_getExprType a st) as Ha.
  destruct (getExprType a st) as [ta sa]. simpl in Ha.
  pose proof (depth_getExprType b sa) as Hb.
  destruct (getExprType b sa) as [tb sb]. simpl in Hb.
  destruct (negb _ || negb _); cbn [snd]; rewrite ?depth_error; congruence.
Qed.

Lemma depth_check_division op r l c st :
  loopDepth (check_division op r l c st) = loopDepth st.
Proof.
  unfold check_division. destruct (_ || _); [| reflexivity].
  destruct (evaluateConstant r) as [v | |]; [| reflexivity | reflexivity].
  by destruct (v =? 0)%Z.
Qed.

Lemma depth_check_constant_condition a op b l c st :
  loopDepth (check_constant_condition a op b l c st) = loopDepth st.
Proof.
  unfold check_constant_condition. destruct (is_condition_operator op); [| reflexivity].
  destruct (evaluateConstant a), (evaluateConstant b); try reflexivity.
  by destruct (isAlwaysTrue _ _ _).
Qed.

Lemma depth_visit_Expr e : forall st, loopDepth (visit_Expr e st) = loopDepth st.
Proof.
  induction e as [v l c | x l c | a op b l c IHa IHb | op e l c IHe | f args l c IHargs]
    using Expr_nested_ind; intros st.
  - reflexivity.
  - simpl. by destruct (findSymbol x (symbolTables st)) as [[s |] ts].
  - simpl. rewrite depth_check_constant_condition, depth_check_division,
      depth_check_operand_types, IHb, IHa. reflexivity.
  - simpl. pose proof (depth_getExprType e (visit_Expr e st)) as H.
    destruct (getExprType e (visit_Expr e st)) as [te se]. simpl in H.
    destruct (negb _); rewrite ?depth_error, H; apply IHe.
  - cbn [visit_Expr].
    destruct (bool_decide _ && negb _); [reflexivity |].
    set (st1 := match findSymbol f (symbolTables st) with
                | (Some symbol, tables) => _
                | (None, _) => st
                end).
    assert (H1 : loopDepth st1 = loopDepth st).
    { subst st1. destruct (findSymbol f (symbolTables st)) as [[sym |] ts]; [| done].
      by destruct (decide _). }
    set (funcInfo := function_info f st1).
    match goal with
    | |- context [getExprType _ (?loop args 0%nat _)] =>
        assert (Hloop : forall s i, loopDepth (loop args i s) = loopDepth s)
    end.
    { clear H1. clearbody funcInfo. clear st1.
      induction IHargs as [| a args Ha _ IH]; intros s i; simpl; [reflexivity |].
      rewrite IH. destruct (i <? _)%nat; [| apply Ha].
      pose proof (depth_getExprType a (visit_Expr a s)) as Hg.
      destruct (getExprType a (visit_Expr a s)) as [ta sa]. simpl in Hg.
      destruct (negb (ta =? _)%string); rewrite ?depth_error, Hg; apply Ha. }
    set (st2 := if negb _ then _ else st1).
    assert (H2 : loopDepth st2 = loopDepth st).
    { subst st2. by destruct (negb _). }
    match goal with
    | |- context [getExprType ?e ?s3] =>
        pose proof (depth_getExprType e s3) as H4;
        destruct (getExprType e s3) as [tc s4] eqn:E4
    end.
    simpl in H4. rewrite Hloop in H4.
    destruct (negb (tc =? _)%string); rewrite ?depth_error; congruence.
Qed.

Lemma depth_fold_left {A} (f : State -> A -> State) (l : list A) :
  (forall s a, loopDepth (f s a) = loopDepth s) ->
  forall st, loopDepth (fold_left f l st) = loopDepth st.
Proof.
  intros Hf. induction l as [| a l IH]; intros st; simpl; [reflexivity |].
  by rewrite IH, Hf.
Qed.

Lemma depth_exitScope st : loopDepth (exitScope st) = loopDepth st.
Proof.
  unfold exitScope. destruct (symbolTables st) as [| scope outer] eqn:E; [reflexivity |].
  rewrite depth_set_symbolTables. unfold helper_checkUnusedVariables. rewrite E.
  apply depth_fold_left. intros s [name symbol]. by destruct (_ && _).
Qed.

Lemma depth_declareSymbol name symbol st :
  loopDepth (declareSymbol name symbol st).1 = loopDepth st.
Proof.
  unfold declareSymbol. destruct (symbolTables st) as [| t outer]; [reflexivity |].
  by destruct (t !! name).
Qed.

Lemma depth_checkUnusedVariables st :
  loopDepth (checkUnusedVariables st) = loopDepth st.
Proof.
  unfold checkUnusedVariables. apply depth_fold_left. intros s scope.
  apply depth_fold_left. intros s' [name symbol]. by destruct (_ && _).
Qed.

Lemma depth_declare_params ps l c st :
  loopDepth (declare_params ps l c st) = loopDepth st.
Proof.
  unfold declare_params. generalize 0%nat as i. revert st.
  induction ps as [| p ps IH]; intros st i; simpl; [reflexivity |].
  pose proof (depth_declareSymbol (param_name p)
                (mkSymbol PARAMETER "int" l c (Z.of_nat i) false) st) as Hd.
  destruct (declareSymbol _ _ st) as [s1 ok]. simpl in Hd.
  rewrite IH. by destruct ok.
Qed.

Lemma depth_typed_visit e st :
  loopDepth (getExprType e (visit_Expr e st)).2 = loopDepth st.
Proof. by rewrite depth_getExprType, depth_visit_Expr. Qed.

(** The state in which [visit(IfStmt&)] and [visit(WhileStmt&)] reach
    the branches: the condition has been visited and typed. *)
Lemma depth_condition cond (after : string -> State -> State) st :
  (forall ty s, loopDepth (after ty s) = loopDepth s) ->
  loopDepth (let '(ty, s2) := getExprType cond (visit_Expr cond st) in after ty s2)
  = loopDepth st.
Proof.
  intros H. pose proof (depth_typed_visit cond st) as Hc.
  destruct (getExprType cond (visit_Expr cond st)) as [ty s2]. simpl in Hc.
  by rewrite H.
Qed.

(** Every statement leaves the loop depth as it found it. *)
Lemma depth_visit_Stmt s : forall st, loopDepth (visit_Stmt s st) = loopDepth st.
Proof.
  induction s as [oe l c | x oe l c | x e l c | ss l c IHss | cond t l c IHt
                  | cond t e l c IHt IHe | cond b l c IHb | l c | l c | oe l c]
    using Stmt_nested_ind; intros st; cbn [visit_Stmt].
  - destruct oe as [e |]; [apply depth_visit_Expr | reflexivity].
  - rewrite depth_declareSymbol.
    set (st1 := match symbolTables st with [] => st | t :: _ => _ end).
    assert (H1 : loopDepth st1 = loopDepth st).
    { subst st1. destruct (symbolTables st) as [| t outer]; [reflexivity |].
      by destruct (bool_decide _). }
    destruct oe as [e |]; [| exact H1].
    pose proof (depth_typed_visit e st1) as H.
    destruct (getExprType e (visit_Expr e st1)) as [ty s2]. simpl in H.
    destruct (negb _); rewrite ?depth_error; congruence.
  - destruct (findSymbol x (symbolTables st)) as [[symbol |] tables]; [| reflexivity].
    set (st2 := if negb _ && negb _ then _ else _).
    assert (H2 : loopDepth st2 = loopDepth st).
    { subst st2. by destruct (negb _ && negb _). }
    pose proof (depth_typed_visit e st2) as H.
    destruct (getExprType e (visit_Expr e st2)) as [ty s4]. simpl in H.
    destruct (negb (ty =? _)%string); rewrite ?depth_error; congruence.
  - rewrite depth_exitScope.
    change (loopDepth st) with (loopDepth (enterScope st)).
    generalize (enterScope st) as s0.
    induction IHss as [| s ss Hs _ IH]; intros s0; simpl; [reflexivity |].
    by rewrite IH, Hs.
  - pose proof (depth_typed_visit cond st) as H.
    destruct (getExprType cond (visit_Expr cond st)) as [ty s2]. simpl in H.
    rewrite IHt, <- H.
    destruct (evaluateConstant cond) as [v | |].
    + destruct (negb (v =? 0)%Z); rewrite ?depth_warning;
        by destruct (negb (ty =? _)%string).
    + by destruct (negb (ty =? _)%string).
    + by destruct (negb (ty =? _)%string).
  - pose proof (depth_typed_visit cond st) as H.
    destruct (getExprType cond (visit_Expr cond st)) as [ty s2]. simpl in H.
    rewrite IHe, IHt, <- H.
    destruct (evaluateConstant cond) as [v | |].
    + destruct (negb (v =? 0)%Z); rewrite depth_warning;
        by destruct (negb (ty =? _)%string).
    + by destruct (negb (ty =? _)%string).
    + by destruct (negb (ty =? _)%string).
  - pose proof (depth_typed_visit cond st) as H.
    destruct (getExprType cond (visit_Expr cond st)) as [ty s2]. simpl in H.
    unfold exitLoop at 1. cbn [loopDepth set_loopDepth]. rewrite IHb.
    unfold enterLoop. cbn [loopDepth set_loopDepth].
    assert (loopDepth
              match evaluateConstant cond with
              | Constant condValue =>
                  if (condValue =? 0)%Z
                  then warning "This while loop will never execute (condition always false)"
                         l c (if negb (ty =? "int")%string
                              then error "While condition must be integer (used as boolean)"
                                     l c s2
                              else s2)
                  else (if negb (ty =? "int")%string
                        then error "While condition must be integer (used as boolean)"
                               l c s2
                        else s2)
              | NoConstant => (if negb (ty =? "int")%string
                         then error "While condition must be integer (used as boolean)"
                                l c s2
                         else s2)
              | Sigfpe =>
                  sigfpe (if negb (ty =? "int")%string
                          then error "While condition must be integer (used as boolean)"
                                 l c s2
                          else s2)
              end = loopDepth st) as ->; [| lia].
    rewrite <- H.
    destruct (evaluateConstant cond) as [v | |].
    + destruct (v =? 0)%Z; rewrite ?depth_warning;
        by destruct (negb (ty =? _)%string).
    + by destruct (negb (ty =? _)%string).
    + by destruct (negb (ty =? _)%string).
  - by destruct (isInLoop st).
  - by destruct (isInLoop st).
  - destruct oe as [e |].
    + pose proof (depth_typed_visit e st) as H.
      destruct (getExprType e (visit_Expr e st)) as [ty s2]. simpl in H.
      cbn [loopDepth set_hasReturn]. rewrite <- H. by destruct (negb _).
    + cbn [loopDepth set_hasReturn]. by destruct (negb _).
Qed.

Lemma depth_visit_FunctionDef f st :
  loopDepth (visit_FunctionDef f st) = loopDepth st.
Proof.
  unfold visit_FunctionDef. cbv zeta.
  change (loopDepth (set_function_context ?a ?b ?c ?s)) with (loopDepth s).
  rewrite depth_exitScope, depth_checkUnusedVariables.
  match goal with
  | |- loopDepth (if ?b then error ?m ?l ?c ?s else ?s) = _ =>
      transitivity (loopDepth s); [by destruct b |]
  end.
  rewrite depth_visit_Stmt, depth_declare_params, depth_declareSymbol.
  change (loopDepth (enterScope ?s)) with (loopDepth s).
  change (loopDepth (set_function_context ?a ?b ?c ?s)) with (loopDepth s).
  destruct (name f =? "main")%string.
  - unfold isValidMainFunction.
    destruct (negb (returnType f =? "int")%string); [by destruct (bool_decide _) |].
    destruct (negb (bool_decide _)); by destruct (bool_decide _).
  - by destruct (bool_decide _).
Qed.

Lemma depth_visit_functions fs : forall st,
  loopDepth (visit_functions fs st) = loopDepth st.
Proof.
  unfold visit_functions. apply depth_fold_left.
  intros s f. apply depth_visit_FunctionDef.
Qed.




End LoopFacts.



(** ** Units the TOYC2 analyzer always rejects *)

Section Toyc2Rejections.
Import Toyc2 Toyc2.SymbolTableOps Toyc2.Semantic.

(** A [break] or [continue] that no [while] of the statement encloses. *)
Fixpoint toyc2_stray_jump (s : Stmt) : bool :=
  match s with
  | BreakStmt | ContinueStmt => true
  | Block ss => existsb toyc2_stray_jump ss
  | IfStmt _ t oe =>
      toyc2_stray_jump t
      || match oe with
         | Some e => toyc2_stray_jump e
         | None => false
         end
  | _ => false
  end.

(** Two functions of the unit have the same name. *)
Fixpoint toyc2_duplicate_names (fs : CompUnit) : bool :=
  match fs with
  | [] => false
  | f :: rest =>
      existsb (fun g => String.eqb (fname g) (fname f)) rest
      || toyc2_duplicate_names rest
  end.

Definition toyc2_ill_formed (fs : CompUnit) : bool :=
  negb (existsb (fun f => String.eqb (fname f) "main") fs)
  || toyc2_duplicate_names fs
  || existsb (fun f => toyc2_stray_jump (Block (fbody f))) fs.

(** Errors are only ever appended. *)
Definition grows (st st' : SemanticAnalyzer) : Prop :=
  exists more, errors st' = errors st ++ more.

(** What the visitors of expressions, statements and function bodies
    leave as it was: the stack of loops and the functions of the global
    scope. *)
Definition steady (st st' : SemanticAnalyzer) : Prop :=
  in_loop_stack st' = in_loop_stack st
  /\ (forall f, lookup_function (symbol_table st') f
                = lookup_function (symbol_table st) f)
  /\ grows st st'.

Lemma grows_refl st : grows st st.
Proof. exists []. by rewrite app_nil_r. Qed.

Lemma grows_trans st1 st2 st3 : grows st1 st2 -> grows st2 st3 -> grows st1 st3.
Proof.
  intros [m1 H1] [m2 H2]. exists (m1 ++ m2). by rewrite H2, H1, app_assoc.
Qed.

Lemma grows_same st st' : errors st' = errors st -> grows st st'.
Proof. intros H. exists []. by rewrite app_nil_r. Qed.

Lemma grows_report ty msg st : grows st (report_error ty msg st).
Proof. by eexists. Qed.

Lemma grows_failed st st' : grows st st' -> errors st <> [] -> errors st' <> [].
Proof.
  intros [more H] Hne. rewrite H. destruct (errors st); [done | discriminate].
Qed.

Lemma report_failed ty msg st : errors (report_error ty msg st) <> [].
Proof. cbn [errors report_error]. by destruct (errors st). Qed.

Lemma steady_refl st : steady st st.
Proof. split; [reflexivity |]. split; [reflexivity | apply grows_refl]. Qed.

Lemma steady_trans st1 st2 st3 : steady st1 st2 -> steady st2 st3 -> steady st1 st3.
Proof.
  intros (A1 & B1 & C1) (A2 & B2 & C2). split; [congruence |].
  split; [intros f; by rewrite B2, B1 | by eapply grows_trans].
Qed.

Lemma steady_same st st' :
  in_loop_stack st' = in_loop_stack st -> symbol_table st' = symbol_table st ->
  errors st' = errors st -> steady st st'.
Proof.
  intros A B C. split; [exact A |]. split; [by rewrite B | by apply grows_same].
Qed.

Lemma steady_report ty msg st : steady st (report_error ty msg st).
Proof. split; [reflexivity |]. split; [reflexivity | apply grows_report]. Qed.

Lemma steady_if_report (b : bool) ty msg st :
  steady st (if b then report_error ty msg st else st).
Proof. destruct b; [apply steady_report | apply steady_refl]. Qed.

Lemma steady_if_not_report (b : bool) ty msg st :
  steady st (if b then st else report_error ty msg st).
Proof. destruct b; [apply steady_refl | apply steady_report]. Qed.

Lemma steady_set_last ty st : steady st (set_last_expr_type ty st).
Proof. by apply steady_same. Qed.

Lemma steady_set_last_after ty st st' :
  steady st st' -> steady st (set_last_expr_type ty st').
Proof. intros H. eapply steady_trans; [exact H | apply steady_set_last]. Qed.

Lemma steady_visit_Expr e : forall st, steady st (visit_Expr e st).
Proof.
  induction e as [n | x | op l r IHl IHr | op e IHe | f args IHargs] using Expr_ind';
    intros st; simpl.
  - apply steady_set_last.
  - destruct (lookup_symbol _ _) as [var |];
      [| apply steady_set_last_after, steady_report].
    destruct (negb _ && negb _);
      [apply steady_set_last_after, steady_report | apply steady_set_last].
  - assert (H : steady st (set_last_expr_type DT_INT (visit_Expr r (visit_Expr l st)))).
    { apply steady_set_last_after. eapply steady_trans; [apply IHl | apply IHr]. }
    destruct (bool_decide (op = DIV) || bool_decide (op = MOD)); [| exact H].
    destruct r; try exact H.
    destruct (_ =? _)%Z; [| exact H].
    eapply steady_trans; [exact H | apply steady_report].
  - apply steady_set_last_after, IHe.
  - destruct (lookup_function _ _) as [func |];
      [| apply steady_set_last_after, steady_report].
    destruct (negb _); [apply steady_set_last_after, steady_report |].
    apply steady_set_last_after.
    generalize 0%nat as i. generalize st as s.
    induction IHargs as [| a args Ha _ IH]; intros s i; simpl; [apply steady_refl |].
    eapply steady_trans; [| apply IH].
    eapply steady_trans; [apply Ha | apply steady_if_not_report].
Qed.

Lemma steady_analyze_expression e st : steady st (analyze_expression e st).2.
Proof. apply steady_visit_Expr. Qed.

Lemma steady_with_table (f : SymbolTable -> SymbolTable) st :
  (forall n, lookup_function (f (symbol_table st)) n
             = lookup_function (symbol_table st) n) ->
  steady st (with_table f st).
Proof.
  intros H. split; [reflexivity |]. split; [exact H | by apply grows_same].
Qed.

Lemma steady_enter_scope st : steady st (with_table enter_scope st).
Proof. by apply steady_with_table. Qed.

Lemma steady_exit_scope st : steady st (with_table exit_scope st).
Proof.
  apply steady_with_table. intros n. unfold exit_scope.
  by destruct (inner_scopes (symbol_table st)).
Qed.

Lemma steady_define_local kind name ty st :
  kind <> FUNCTION ->
  steady st (set_table (define_local kind name ty (symbol_table st)).1 st).
Proof.
  intros Hk. apply steady_with_table. intros n.
  by apply lookup_function_define_local.
Qed.

Lemma steady_fold_left {A} (f : SemanticAnalyzer -> A -> SemanticAnalyzer)
    (l : list A) :
  (forall s a, steady s (f s a)) -> forall st, steady st (fold_left f l st).
Proof.
  intros Hf. induction l as [| a l IH]; intros st; simpl; [apply steady_refl |].
  eapply steady_trans; [apply Hf | apply IH].
Qed.

(** The state in which the branches of an [if] and the body of a [while]
    are reached. *)
Lemma steady_condition c msg st :
  steady st
    (let '(cond_type, st1) := analyze_expression c st in
     if bool_decide (cond_type = DT_INT) then st1
     else report_error TYPE_MISMATCH msg st1).
Proof.
  pose proof (steady_analyze_expression c st) as H.
  destruct (analyze_expression c st) as [ty st1]. cbn [snd] in H.
  eapply steady_trans; [exact H | apply steady_if_not_report].
Qed.

Lemma visit_IfStmt_unfold c t oe st :
  visit_Stmt (IfStmt c t oe) st
  = let st2 :=
      let '(cond_type, st1) := analyze_expression c st in
      if bool_decide (cond_type = DT_INT) then st1
      else report_error TYPE_MISMATCH "If condition must be of int type" st1 in
    let st3 := visit_Stmt t st2 in
    match oe with
    | Some e => visit_Stmt e st3
    | None => st3
    end.
Proof. cbn [visit_Stmt]. by destruct (analyze_expression c st). Qed.

Lemma visit_WhileStmt_unfold c b st :
  visit_Stmt (WhileStmt c b) st
  = let st2 :=
      let '(cond_type, st1) := analyze_expression c st in
      if bool_decide (cond_type = DT_INT) then st1
      else report_error TYPE_MISMATCH "While condition must be of int type" st1 in
    exit_loop (visit_Stmt b (enter_loop st2)).
Proof. cbn [visit_Stmt]. by destruct (analyze_expression c st). Qed.

Lemma steady_loop (body : SemanticAnalyzer -> SemanticAnalyzer) st :
  steady (enter_loop st) (body (enter_loop st)) ->
  steady st (exit_loop (body (enter_loop st))).
Proof.
  intros (A & B & C).
  split; [cbn [in_loop_stack exit_loop set_in_loop_stack]; by rewrite A |].
  split; [exact B |].
  destruct C as [more C]. exists more. exact C.
Qed.

Lemma steady_visit_Stmt s : forall st, steady st (visit_Stmt s st).
Proof.
  induction s as [ss IHss | oe | x e | x e | c t IHt | c t e IHt IHe | c b IHb
                  | | | oe] using Stmt_ind'; intros st.
  - cbn [visit_Stmt].
    eapply steady_trans; [apply steady_enter_scope |].
    eapply steady_trans; [| apply steady_exit_scope].
    generalize (with_table enter_scope st) as s0.
    induction IHss as [| s ss Hs _ IH]; intros s0; simpl; [apply steady_refl |].
    eapply steady_trans; [apply Hs | apply IH].
  - destruct oe as [e |]; [apply steady_analyze_expression | apply steady_refl].
  - cbn [visit_Stmt]. unfold define_variable.
    pose proof (steady_define_local VARIABLE x DT_INT st) as Hd.
    destruct (define_local VARIABLE x DT_INT (symbol_table st)) as [t ok].
    cbn [fst] in Hd. specialize (Hd ltac:(discriminate)).
    destruct (negb ok); [eapply steady_trans; [exact Hd | apply steady_report] |].
    pose proof (steady_analyze_expression e (set_table t st)) as He.
    destruct (analyze_expression e (set_table t st)) as [ty st2]. cbn [snd] in He.
    eapply steady_trans; [exact Hd |].
    eapply steady_trans; [exact He | apply steady_if_not_report].
  - cbn [visit_Stmt].
    destruct (lookup_symbol _ _) as [var |]; [| apply steady_report].
    destruct (negb _ && negb _); [apply steady_report |].
    pose proof (steady_analyze_expression e st) as He.
    destruct (analyze_expression e st) as [ty st1]. cbn [snd] in He.
    eapply steady_trans; [exact He | apply steady_if_not_report].
  - rewrite visit_IfStmt_unfold. cbv zeta.
    eapply steady_trans; [apply steady_condition | apply IHt].
  - rewrite visit_IfStmt_unfold. cbv zeta.
    eapply steady_trans; [apply steady_condition |].
    eapply steady_trans; [apply IHt | apply IHe].
  - rewrite visit_WhileStmt_unfold. cbv zeta.
    eapply steady_trans; [apply steady_condition |].
    apply steady_loop, IHb.
  - cbn [visit_Stmt]. apply steady_if_not_report.
  - cbn [visit_Stmt]. apply steady_if_not_report.
  - cbn [visit_Stmt].
    assert (H0 : steady st (set_has_return true st)) by by apply steady_same.
    eapply steady_trans; [exact H0 |].
    destruct oe as [e |]; [| apply steady_if_not_report].
    destruct (bool_decide _); [apply steady_report |].
    pose proof (steady_analyze_expression e (set_has_return true st)) as He.
    destruct (analyze_expression e (set_has_return true st)) as [ty st2].
    cbn [snd] in He.
    eapply steady_trans; [exact He | apply steady_if_not_report].
Qed.

Lemma steady_define_parameters ps st : steady st (define_parameters ps st).
Proof.
  unfold define_parameters. apply steady_fold_left. intros s p.
  unfold define_parameter.
  pose proof (steady_define_local PARAMETER p DT_INT s) as Hd.
  destruct (define_local PARAMETER p DT_INT (symbol_table s)) as [t ok].
  cbn [fst] in Hd. specialize (Hd ltac:(discriminate)).
  eapply steady_trans; [exact Hd | apply steady_if_not_report].
Qed.

(** [visit(FuncDef&)] up to the visit of the body. *)
Definition before_body (f : FuncDef) (st : SemanticAnalyzer) : SemanticAnalyzer :=
  define_parameters (params f)
    (with_table enter_scope
       (enter_function_scope (fname f) (data_type_of (return_type f)) st)).

Lemma steady_before_body f st : steady st (before_body f st).
Proof.
  unfold before_body.
  eapply steady_trans; [| apply steady_define_parameters].
  eapply steady_trans; [| apply steady_enter_scope].
  by apply steady_same.
Qed.

Lemma steady_after_body f st :
  steady (visit_Stmt (Block (fbody f)) (before_body f st)) (visit_FuncDef f st).
Proof.
  unfold visit_FuncDef, before_body. cbv zeta.
  match goal with
  | |- steady ?s4 (exit_function_scope (with_table exit_scope ?s5)) =>
      assert (H5 : steady s4 s5)
  end.
  { destruct (_ && _); [| apply steady_refl]. apply steady_if_report. }
  eapply steady_trans; [exact H5 |].
  eapply steady_trans; [apply steady_exit_scope |].
  by apply steady_same.
Qed.

Lemma steady_visit_FuncDef f st : steady st (visit_FuncDef f st).
Proof.
  eapply steady_trans; [apply steady_before_body |].
  eapply steady_trans; [apply steady_visit_Stmt | apply steady_after_body].
Qed.

Lemma steady_analyze_bodies fs st : steady st (analyze_bodies fs st).
Proof. apply steady_fold_left. intros s f. apply steady_visit_FuncDef. Qed.

(** Outside of every loop, a statement with a stray jump is an error. *)
Lemma toyc2_stray_jump_fails s : forall st,
  in_loop_stack st = [] -> toyc2_stray_jump s = true ->
  errors (visit_Stmt s st) <> [].
Proof.
  induction s as [ss IHss | oe | x e | x e | c t IHt | c t e IHt IHe | c b IHb
                  | | | oe] using Stmt_ind'; intros st Hd Hj;
    cbn [toyc2_stray_jump] in Hj; try discriminate.
  - cbn [visit_Stmt]. change (errors (with_table exit_scope ?s)) with (errors s).
    assert (Hd0 : in_loop_stack (with_table enter_scope st) = []) by exact Hd.
    revert Hd0. generalize (with_table enter_scope st) as s0.
    induction IHss as [| s ss Hhead _ IH]; intros s0 Hd0; [discriminate |].
    cbn [existsb] in Hj. cbn [fold_left].
    destruct (toyc2_stray_jump s) eqn:Ej.
    + eapply grows_failed; [| by apply Hhead].
      apply (steady_fold_left (fun s1 stmt => visit_Stmt stmt s1)).
      intros; apply steady_visit_Stmt.
    + apply IH; [exact Hj |].
      destruct (steady_visit_Stmt s s0) as (A & _). by rewrite A.
  - rewrite orb_false_r in Hj. rewrite visit_IfStmt_unfold. cbv zeta.
    apply IHt; [| exact Hj].
    destruct (steady_condition c "If condition must be of int type" st) as (A & _).
    by rewrite A.
  - rewrite visit_IfStmt_unfold. cbv zeta.
    destruct (steady_condition c "If condition must be of int type" st) as (A & _).
    rewrite <- A in Hd.
    apply orb_true_iff in Hj as [Hj | Hj].
    + eapply grows_failed; [apply steady_visit_Stmt | by apply IHt].
    + apply IHe; [| exact Hj].
      match goal with
      | |- in_loop_stack (visit_Stmt t ?s2) = [] =>
          destruct (steady_visit_Stmt t s2) as (B & _); by rewrite B
      end.
  - cbn [visit_Stmt]. unfold is_in_loop. rewrite Hd. apply report_failed.
  - cbn [visit_Stmt]. unfold is_in_loop. rewrite Hd. apply report_failed.
Qed.

Lemma visit_FuncDef_stray_jump f st :
  in_loop_stack st = [] -> toyc2_stray_jump (Block (fbody f)) = true ->
  errors (visit_FuncDef f st) <> [].
Proof.
  intros Hd Hj. eapply grows_failed; [apply steady_after_body |].
  apply toyc2_stray_jump_fails; [| exact Hj].
  destruct (steady_before_body f st) as (A & _). by rewrite A.
Qed.

Lemma analyze_bodies_stray_jump fs : forall st,
  in_loop_stack st = [] ->
  existsb (fun f => toyc2_stray_jump (Block (fbody f))) fs = true ->
  errors (analyze_bodies fs st) <> [].
Proof.
  induction fs as [| f fs IH]; intros st Hd H; [discriminate |].
  cbn [existsb] in H.
  change (analyze_bodies (f :: fs) st) with (analyze_bodies fs (visit_FuncDef f st)).
  destruct (toyc2_stray_jump (Block (fbody f))) eqn:Hf.
  - eapply grows_failed; [apply steady_analyze_bodies |].
    by apply visit_FuncDef_stray_jump.
  - apply IH; [| exact H].
    destruct (steady_visit_FuncDef f st) as (A & _). by rewrite A.
Qed.

(** One step of the first pass of [visit(CompUnit&)]. *)
Definition register (s : SemanticAnalyzer) (func : FuncDef) : SemanticAnalyzer :=
  let ptypes := map (fun _ => DT_INT) (params func) in
  let '(t, ok) := define_function (fname func)
                    (data_type_of (return_type func)) ptypes (symbol_table s) in
  let s1 := set_table t s in
  if ok then s1
  else report_error REDEFINED_FUNCTION
         ("Function '" +:+ fname func +:+ "' is already defined") s1.

Lemma register_functions_cons f fs st :
  register_functions (f :: fs) st = register_functions fs (register st f).
Proof. reflexivity. Qed.

Lemma register_in_loop_stack st f : in_loop_stack (register st f) = in_loop_stack st.
Proof.
  unfold register. destruct (define_function _ _ _ _) as [t ok]. by destruct ok.
Qed.

Lemma register_grows st f : grows st (register st f).
Proof.
  unfold register. destruct (define_function _ _ _ _) as [t ok].
  destruct ok; [by apply grows_same |].
  eapply grows_trans; [| apply grows_report]. by apply grows_same.
Qed.

Lemma register_functions_in_loop_stack fs : forall st,
  in_loop_stack (register_functions fs st) = in_loop_stack st.
Proof.
  induction fs as [| f fs IH]; intros st; [reflexivity |].
  by rewrite register_functions_cons, IH, register_in_loop_stack.
Qed.

Lemma register_functions_grows fs : forall st, grows st (register_functions fs st).
Proof.
  induction fs as [| f fs IH]; intros st; [apply grows_refl |].
  rewrite register_functions_cons.
  eapply grows_trans; [apply register_grows | apply IH].
Qed.

(** The name is taken in the global scope. *)
Definition registered (n : string) (st : SemanticAnalyzer) : bool :=
  bool_decide (is_Some (lookup_local (global_scope (symbol_table st)) n)).

Lemma register_registered st f n :
  registered n (register st f)
  = registered n st || String.eqb n (fname f).
Proof.
  unfold register, registered, define_function, define, lookup_local.
  cbn [sym_name].
  destruct (symbols (global_scope (symbol_table st)) !! fname f) as [old |] eqn:E;
    cbn [symbol_table set_table with_table report_error global_scope symbols].
  - destruct (String.eqb_spec n (fname f)) as [-> | Hne].
    + rewrite E, orb_true_r. by apply bool_decide_eq_true_2.
    + by rewrite orb_false_r.
  - destruct (String.eqb_spec n (fname f)) as [-> | Hne].
    + rewrite lookup_insert_eq, orb_true_r. by apply bool_decide_eq_true_2.
    + rewrite lookup_insert_ne by done. by rewrite orb_false_r.
Qed.

Lemma register_taken st f :
  registered (fname f) st = true -> errors (register st f) <> [].
Proof.
  unfold register, registered, define_function, define, lookup_local.
  cbn [sym_name]. intros H. apply bool_decide_eq_true in H as [old H].
  rewrite H. apply report_failed.
Qed.

Lemma register_functions_taken fs : forall st,
  existsb (fun g => registered (fname g) st) fs = true ->
  errors (register_functions fs st) <> [].
Proof.
  induction fs as [| f fs IH]; intros st H; [discriminate |].
  cbn [existsb] in H. rewrite register_functions_cons.
  destruct (registered (fname f) st) eqn:Hf.
  - eapply grows_failed; [apply register_functions_grows | by apply register_taken].
  - apply IH. cbn [orb] in H.
    apply existsb_exists in H as (g & Hg & Hin). apply existsb_exists.
    exists g. split; [exact Hg |]. by rewrite register_registered, Hin.
Qed.

Lemma register_functions_duplicate fs : forall st,
  toyc2_duplicate_names fs = true -> errors (register_functions fs st) <> [].
Proof.
  induction fs as [| f fs IH]; intros st H; [discriminate |].
  cbn [toyc2_duplicate_names] in H. rewrite register_functions_cons.
  apply orb_true_iff in H as [H | H]; [| by apply IH].
  apply register_functions_taken.
  apply existsb_exists in H as (g & Hg & E). apply existsb_exists.
  exists g. split; [exact Hg |].
  by rewrite register_registered, E, orb_true_r.
Qed.

Lemma register_lookup_function st f n :
  n <> fname f ->
  lookup_function (symbol_table (register st f)) n
  = lookup_function (symbol_table st) n.
Proof.
  intros Hne. unfold register, define_function, define, lookup_function, lookup_local.
  cbn [sym_name].
  destruct (symbols (global_scope (symbol_table st)) !! fname f) as [old |] eqn:E;
    cbn [symbol_table set_table with_table report_error global_scope symbols];
    [reflexivity |].
  by rewrite lookup_insert_ne.
Qed.

Lemma register_functions_lookup_function fs n : forall st,
  existsb (fun f => String.eqb (fname f) n) fs = false ->
  lookup_function (symbol_table (register_functions fs st)) n
  = lookup_function (symbol_table st) n.
Proof.
  induction fs as [| f fs IH]; intros st H; [reflexivity |].
  cbn [existsb] in H. apply orb_false_iff in H as [Hf H].
  rewrite register_functions_cons, IH by exact H.
  apply register_lookup_function. apply String.eqb_neq in Hf. congruence.
Qed.

Lemma analyze_fails_after fs :
  errors (visit_CompUnit fs init) <> [] -> (analyze fs).2 = false.
Proof.
  intros H. unfold analyze. cbv zeta. cbn [snd].
  apply bool_decide_eq_false_2.
  eapply grows_failed; [| exact H].
  destruct (lookup_function _ _) as [m |]; [| apply grows_report].
  destruct (negb _ || negb _); [apply grows_report | apply grows_refl].
Qed.

End Toyc2Rejections.

(** X19 — the TOYC2 analyzer rejects a unit outright when it has no
    function called [main], when two of its functions have the same name,
    or when a [break] or [continue] of one of its functions is not
    enclosed by a [while]: whatever else the unit holds, the analysis
    fails. *)
Theorem toyc2_ill_formed_units_are_rejected (fs : Toyc2.CompUnit) :
  toyc2_ill_formed fs = true -> (Toyc2.Semantic.analyze fs).2 = false.
Proof.
  intros H. unfold toyc2_ill_formed in H.
  apply orb_true_iff in H as [H | H]; [apply orb_true_iff in H as [H | H] |].
  - apply negb_true_iff in H.
    unfold Toyc2.Semantic.analyze. cbv zeta. cbn [snd].
    unfold Toyc2.Semantic.visit_CompUnit.
    destruct (steady_analyze_bodies fs
                (Toyc2.Semantic.register_functions fs Toyc2.Semantic.init))
      as (_ & B & _).
    rewrite B, (register_functions_lookup_function fs "main") by exact H.
    apply bool_decide_eq_false_2. apply report_failed.
  - apply analyze_fails_after. unfold Toyc2.Semantic.visit_CompUnit.
    eapply grows_failed; [apply steady_analyze_bodies |].
    by apply register_functions_duplicate.
  - apply analyze_fails_after. unfold Toyc2.Semantic.visit_CompUnit.
    apply analyze_bodies_stray_jump; [| exact H].
    by rewrite register_functions_in_loop_stack.
Qed.

Lemma toyc2_ill_formed_units_are_rejected_witness :
  (Toyc2.Semantic.analyze
     [Toyc2.mkFuncDef Toyc2.INT "main" []
        [Toyc2.WhileStmt (Toyc2.NumberExpr 1) (Toyc2.Block [Toyc2.BreakStmt]);
         Toyc2.IfStmt (Toyc2.NumberExpr 1) Toyc2.ContinueStmt None;
         Toyc2.ReturnStmt (Some (Toyc2.NumberExpr 0))]]).2 = false.
Proof.
  apply (toyc2_ill_formed_units_are_rejected
           [Toyc2.mkFuncDef Toyc2.INT "main" []
              [Toyc2.WhileStmt (Toyc2.NumberExpr 1) (Toyc2.Block [Toyc2.BreakStmt]);
               Toyc2.IfStmt (Toyc2.NumberExpr 1) Toyc2.ContinueStmt None;
               Toyc2.ReturnStmt (Some (Toyc2.NumberExpr 0))]]).
  vm_compute. reflexivity.
Defined.

(** ** Frame slots of the IR pipeline's code generator *)

Section FrameSlotFacts.
Import IR Codegen.

(** Every slot handed out lies above the next free one, and no slot was
    handed out twice. *)
Definition slots_ok (g : CodeGenerator) : Prop :=
  Forall (fun '(_, offset) => (currentStackOffset g < offset)%Z) (localVars g)
  /\ List.NoDup (map snd (localVars g)).

(** The operands get their slots in turn. *)
Definition place_operands (ops : list Operand) (g : CodeGenerator) : CodeGenerator :=
  fold_left (fun s op => (getOperandOffset op s).2) ops g.

Lemma SMap_insert_In {V} k (v : V) m x :
  In x (SMap.insert k v m) -> x = (k, v) \/ In x m.
Proof.
  induction m as [| [k' v'] m IH]; simpl.
  - intros [<- | []]. by left.
  - destruct (String.eqb k k'); [| destruct (SMap.key_ltb k k')]; simpl.
    + intros [<- | H]; [by left | right; by right].
    + intros [<- | H]; [by left | by right].
    + intros [<- | H]; [right; by left |].
      destruct (IH H) as [-> | H']; [by left | right; by right].
Qed.

Lemma SMap_insert_NoDup k (v : Z) m :
  ~ In v (map snd m) -> List.NoDup (map snd m) ->
  List.NoDup (map snd (SMap.insert k v m)).
Proof.
  induction m as [| [k' v'] m IH]; simpl; intros Hv Hm.
  - constructor; [by intros [] | constructor].
  - apply List.NoDup_cons_iff in Hm as [Hv' Hm].
    destruct (String.eqb k k'); [| destruct (SMap.key_ltb k k')]; simpl.
    + constructor; [tauto | exact Hm].
    + constructor; [exact Hv |]. by constructor.
    + constructor; [| apply IH; tauto].
      intros Hin. apply in_map_iff in Hin as ([k0 v0] & <- & Hin).
      apply SMap_insert_In in Hin as [[= _ <-] | Hin]; simpl in *; [tauto |].
      apply Hv'. apply in_map_iff. by exists (k0, v0).
Qed.

Lemma getOperandOffset_slots_ok op g :
  slots_ok g -> slots_ok (getOperandOffset op g).2.
Proof.
  intros [Hlow Hdup]. unfold getOperandOffset.
  destruct (negb _ && negb _); [by split |].
  destruct (SMap.find (op_name op) (localVars g)) as [offset |]; [by split |].
  cbn [snd]. split; cbn [localVars currentStackOffset].
  - apply SMap_Forall_insert; [lia |].
    eapply List.Forall_impl; [| exact Hlow]. intros [k off] H. lia.
  - apply SMap_insert_NoDup; [| exact Hdup].
    intros Hin. apply in_map_iff in Hin as ([k off] & E & Hin). simpl in E. subst off.
    rewrite List.Forall_forall in Hlow. specialize (Hlow _ Hin). simpl in Hlow. lia.
Qed.

Lemma place_operands_slots_ok ops : forall g,
  slots_ok g -> slots_ok (place_operands ops g).
Proof.
  unfold place_operands.
  induction ops as [| op ops IH]; intros g H; simpl; [exact H |].
  by apply IH, getOperandOffset_slots_ok.
Qed.

Lemma slots_distinct (m : SMap.t Z) a b o :
  List.NoDup (map snd m) -> In (a, o) m -> In (b, o) m -> a = b.
Proof.
  induction m as [| [k v] m IH]; simpl; [done |].
  intros Hm. apply List.NoDup_cons_iff in Hm as [Hv Hm].
  intros [Ea | Ha] [Eb | Hb].
  - congruence.
  - injection Ea as -> ->. exfalso. apply Hv. apply in_map_iff. by exists (b, o).
  - injection Eb as -> ->. exfalso. apply Hv. apply in_map_iff. by exists (a, o).
  - by apply IH.
Qed.

End FrameSlotFacts.

(** X20 — [getOperandOffset] never hands out a frame slot twice. From a
    generator whose slots are distinct and above the next free slot,
    however many operands are placed, two different names have different
    offsets; an operand that has a slot keeps it, and asking for it
    changes nothing. *)
Theorem frame_slots_are_distinct
    (ops : list IR.Operand) (g0 : Codegen.CodeGenerator) :
  slots_ok g0 ->
  let g := place_operands ops g0 in
  (forall a b oa ob,
     SMap.find a (Codegen.localVars g) = Some oa ->
     SMap.find b (Codegen.localVars g) = Some ob ->
     a <> b -> oa <> ob)
  /\ (forall name o,
        SMap.find name (Codegen.localVars g0) = Some o ->
        SMap.find name (Codegen.localVars g) = Some o)
  /\ (forall op o,
        IR.op_type op = IR.VARIABLE \/ IR.op_type op = IR.TEMP ->
        SMap.find (IR.op_name op) (Codegen.localVars g) = Some o ->
        Codegen.getOperandOffset op g = (o, g)).
Proof.
  intros H0 g. split; [| split].
  - intros a b oa ob Ha Hb Hne ->. apply Hne.
    destruct (place_operands_slots_ok ops g0 H0) as [_ Hdup].
    eapply slots_distinct; [exact Hdup | |]; by apply SMap_find_In.
  - subst g. clear H0. revert g0. unfold place_operands.
    induction ops as [| op ops IH]; intros g0 name o H; simpl; [exact H |].
    apply IH. unfold Codegen.getOperandOffset.
    destruct (negb _ && negb _); [exact H |].
    destruct (SMap.find (IR.op_name op) (Codegen.localVars g0)) as [offset |] eqn:E;
      [exact H |].
    cbn [snd Codegen.localVars]. rewrite SMap.find_insert_ne; [exact H |].
    intros <-. congruence.
  - intros op o Hty Hfind. unfold Codegen.getOperandOffset. rewrite Hfind.
    by destruct Hty as [-> | ->].
Qed.

Lemma frame_slots_are_distinct_witness :
  SMap.find "x"
    (Codegen.localVars
       (place_operands [IR.Var "x"; IR.Temp "t1"; IR.Var "x"; IR.Var "y"]
          (Codegen.in_function ["x"]))) = Some (-12)%Z
  /\ SMap.find "y"
       (Codegen.localVars
          (place_operands [IR.Var "x"; IR.Temp "t1"; IR.Var "x"; IR.Var "y"]
             (Codegen.in_function ["x"]))) = Some (-20)%Z
  /\ (-12 <> -20)%Z.
Proof.
  assert (H0 : slots_ok (Codegen.in_function ["x"])).
  { split; [apply List.Forall_nil | apply List.NoDup_nil]. }
  pose proof (frame_slots_are_distinct
                [IR.Var "x"; IR.Temp "t1"; IR.Var "x"; IR.Var "y"]
                (Codegen.in_function ["x"]) H0) as (Hd & _ & _).
  assert (Hx : SMap.find "x"
                 (Codegen.localVars
                    (place_operands [IR.Var "x"; IR.Temp "t1"; IR.Var "x"; IR.Var "y"]
                       (Codegen.in_function ["x"]))) = Some (-12)%Z)
    by (vm_compute; reflexivity).
  assert (Hy : SMap.find "y"
                 (Codegen.localVars
                    (place_operands [IR.Var "x"; IR.Temp "t1"; IR.Var "x"; IR.Var "y"]
                       (Codegen.in_function ["x"]))) = Some (-20)%Z)
    by (vm_compute; reflexivity).
  split; [exact Hx |]. split; [exact Hy |].
  apply (Hd "x" "y" (-12)%Z (-20)%Z Hx Hy). discriminate.
Defined.

(** ** Labels in the code the TOYC2 generator emits for an expression *)

Section LabelFacts.
Import Toyc2 Toyc2Codegen.

(** The label an instruction defines, and the label it jumps to. *)
Definition defines (i : Asm.Instr) : list string :=
  match i with
  | Asm.LabelDef l => [l]
  | _ => []
  end.

Definition jumps_to (i : Asm.Instr) : list string :=
  match i with
  | Asm.Beqz _ l | Asm.Bnez _ l | Asm.J l => [l]
  | _ => []
  end.

Definition labels_of (code : list Asm.Instr) : list string := flat_map defines code.
Definition targets_of (code : list Asm.Instr) : list string := flat_map jumps_to code.

(** The label [generate_label] makes of a prefix and a number. *)
Definition label_name (prefix : string) (id : nat) : string :=
  prefix +:+ "_" +:+ pretty id.

Definition label_prefixes : list string :=
  ["and_false"; "and_end"; "or_true"; "or_end"].

(** A label of the expression generator numbered from [lo] up to, not
    including, [hi]. *)
Definition numbered (lo hi : nat) (l : string) : Prop :=
  exists p k, In p label_prefixes /\ l = label_name p k /\ (lo <= k < hi)%nat.

(** Code whose labels are numbered in the range and defined once each,
    and whose jumps stay inside the code. *)
Definition well_labelled (lo hi : nat) (code : list Asm.Instr) : Prop :=
  List.NoDup (labels_of code)
  /\ Forall (numbered lo hi) (labels_of code)
  /\ (forall l, In l (targets_of code) -> In l (labels_of code)).

Lemma label_name_inj p p' k k' :
  In p label_prefixes -> In p' label_prefixes ->
  label_name p k = label_name p' k' -> k = k'.
Proof.
  unfold label_prefixes, label_name.
  intros Hp Hp' H.
  assert (E : pretty k = pretty k'); [| by apply (inj pretty) in E].
  simpl in Hp, Hp'.
  destruct Hp as [<- | [<- | [<- | [<- | []]]]];
    destruct Hp' as [<- | [<- | [<- | [<- | []]]]];
    cbv [String.append] in H; congruence.
Qed.

Lemma numbered_id lo hi p k :
  In p label_prefixes -> numbered lo hi (label_name p k) -> (lo <= k < hi)%nat.
Proof.
  intros Hp (p' & k' & Hp' & E & Hk).
  by rewrite (label_name_inj p p' k k' Hp Hp' E).
Qed.

Lemma numbered_weaken lo hi lo' hi' l :
  (lo' <= lo)%nat -> (hi <= hi')%nat -> numbered lo hi l -> numbered lo' hi' l.
Proof.
  intros H1 H2 (p & k & Hp & E & Hk). exists p, k. repeat split; [done | done | lia | lia].
Qed.

Lemma numbered_apart lo mid hi l :
  numbered lo mid l -> numbered mid hi l -> False.
Proof.
  intros (p & k & Hp & -> & Hk) H. apply numbered_id in H; [lia | exact Hp].
Qed.

Lemma well_labelled_plain lo hi code :
  labels_of code = [] -> targets_of code = [] -> well_labelled lo hi code.
Proof.
  intros Hl Ht. unfold well_labelled. rewrite Hl, Ht.
  split; [apply List.NoDup_nil |]. split; [apply List.Forall_nil | by intros l []].
Qed.

Lemma well_labelled_app lo mid hi a b :
  (lo <= mid)%nat -> (mid <= hi)%nat ->
  well_labelled lo mid a -> well_labelled mid hi b -> well_labelled lo hi (a ++ b).
Proof.
  intros H1 H2 (Na & Fa & Ta) (Nb & Fb & Tb). unfold well_labelled, labels_of, targets_of.
  rewrite !flat_map_app. fold (labels_of a) (labels_of b) (targets_of a) (targets_of b).
  split; [| split].
  - apply List.NoDup_app; [exact Na | exact Nb |].
    intros x Hxa Hxb.
    rewrite List.Forall_forall in Fa, Fb.
    exact (numbered_apart lo mid hi x (Fa x Hxa) (Fb x Hxb)).
  - apply Forall_app. split.
    + eapply List.Forall_impl; [| exact Fa]. intros l. by apply numbered_weaken.
    + eapply List.Forall_impl; [| exact Fb]. intros l. by apply numbered_weaken.
  - intros l Hl. apply in_app_iff in Hl as [Hl | Hl]; apply in_app_iff;
      [left; by apply Ta | right; by apply Tb].
Qed.

(** The code of a short-circuit operator: the two operands, the jump
    between them, and the two labels at the end. *)
Lemma well_labelled_short_circuit lo mid hi p a b br mv li pf pe :
  In pf label_prefixes -> In pe label_prefixes ->
  (S (S lo) <= mid)%nat -> (mid <= hi)%nat ->
  labels_of p = [] -> targets_of p = [] ->
  well_labelled (S (S lo)) mid a -> well_labelled mid hi b ->
  defines br = [] -> jumps_to br = [label_name pf lo] ->
  defines mv = [] -> jumps_to mv = [] ->
  defines li = [] -> jumps_to li = [] ->
  well_labelled lo hi
    (p ++ a ++ [br] ++ b
       ++ [mv; Asm.J (label_name pe (S lo)); Asm.LabelDef (label_name pf lo);
           li; Asm.LabelDef (label_name pe (S lo))]).
Proof.
  intros Hpf Hpe H1 H2 Hpl Hpt (Na & Fa & Ta) (Nb & Fb & Tb) Hbd Hbj Hmd Hmj Hld Hlj.
  set (fl := label_name pf lo). set (el := label_name pe (S lo)).
  assert (El : labels_of (p ++ a ++ [br] ++ b
                            ++ [mv; Asm.J el; Asm.LabelDef fl; li; Asm.LabelDef el])
               = labels_of a ++ labels_of b ++ [fl; el]).
  { unfold labels_of in *. rewrite !flat_map_app. cbn [flat_map].
    rewrite Hpl, Hbd, Hmd, Hld. cbn [defines app]. reflexivity. }
  assert (Et : targets_of (p ++ a ++ [br] ++ b
                             ++ [mv; Asm.J el; Asm.LabelDef fl; li; Asm.LabelDef el])
               = targets_of a ++ fl :: targets_of b ++ [el]).
  { unfold targets_of in *. rewrite !flat_map_app. cbn [flat_map].
    rewrite Hpt, Hbj, Hmj, Hlj. cbn [jumps_to app]. reflexivity. }
  rewrite List.Forall_forall in Fa, Fb.
  assert (Hfl : numbered lo hi fl) by (exists pf, lo; repeat split; [done | lia | lia]).
  assert (Hel : numbered lo hi el) by (exists pe, (S lo); repeat split; [done | lia | lia]).
  assert (Hfa : ~ In fl (labels_of a)).
  { intros H. apply Fa, numbered_id in H; [lia | exact Hpf]. }
  assert (Hea : ~ In el (labels_of a)).
  { intros H. apply Fa, numbered_id in H; [lia | exact Hpe]. }
  assert (Hfb : ~ In fl (labels_of b)).
  { intros H. apply Fb, numbered_id in H; [lia | exact Hpf]. }
  assert (Heb : ~ In el (labels_of b)).
  { intros H. apply Fb, numbered_id in H; [lia | exact Hpe]. }
  assert (Hne : fl <> el).
  { intros E. apply label_name_inj in E; [lia | exact Hpf | exact Hpe]. }
  unfold well_labelled. rewrite El, Et. split; [| split].
  - apply List.NoDup_app; [exact Na | |].
    + apply List.NoDup_app; [exact Nb | |].
      * constructor; [by intros [E | []] |]. constructor; [by intros [] | constructor].
      * intros x Hx [<- | [<- | []]]; tauto.
    + intros x Hxa Hx. apply in_app_iff in Hx as [Hxb | [<- | [<- | []]]]; [| tauto | tauto].
      exact (numbered_apart (S (S lo)) mid hi x (Fa x Hxa) (Fb x Hxb)).
  - apply Forall_app. split; [| apply Forall_app; split].
    + apply List.Forall_forall. intros x Hx. eapply numbered_weaken; [| | apply Fa, Hx]; lia.
    + apply List.Forall_forall. intros x Hx. eapply numbered_weaken; [| | apply Fb, Hx]; lia.
    + constructor; [exact Hfl |]. constructor; [exact Hel | constructor].
  - intros l Hl. apply in_app_iff in Hl as [Hl | [<- | Hl]].
    + apply in_app_iff. left. by apply Ta.
    + apply in_app_iff. right. apply in_app_iff. right. by left.
    + apply in_app_iff in Hl as [Hl | [<- | []]].
      * apply in_app_iff. right. apply in_app_iff. left. by apply Tb.
      * apply in_app_iff. right. apply in_app_iff. right. right. by left.
Qed.

(** Steps of the generator that define no label and jump nowhere. *)
Definition unlabelled (g g' : CodeGenerator) : Prop :=
  next_label_id g' = next_label_id g
  /\ exists new,
       output g' = output g ++ new /\ labels_of new = [] /\ targets_of new = [].

(** Steps whose code is well labelled from the counter of labels. *)
Definition labelled (g g' : CodeGenerator) : Prop :=
  (next_label_id g <= next_label_id g')%nat
  /\ exists new,
       output g' = output g ++ new
       /\ well_labelled (next_label_id g) (next_label_id g') new.

Lemma unlabelled_refl g : unlabelled g g.
Proof. split; [reflexivity |]. exists []. by rewrite app_nil_r. Qed.

Lemma unlabelled_trans g1 g2 g3 :
  unlabelled g1 g2 -> unlabelled g2 g3 -> unlabelled g1 g3.
Proof.
  intros (N1 & c1 & O1 & L1 & T1) (N2 & c2 & O2 & L2 & T2).
  split; [congruence |]. exists (c1 ++ c2).
  split; [by rewrite O2, O1, app_assoc |].
  unfold labels_of, targets_of in *. rewrite !flat_map_app, L1, L2, T1, T2. by split.
Qed.

Lemma unlabelled_same g g' :
  next_label_id g' = next_label_id g -> output g' = output g -> unlabelled g g'.
Proof. intros N O. split; [exact N |]. exists []. by rewrite app_nil_r. Qed.

Lemma unlabelled_emit i g :
  defines i = [] -> jumps_to i = [] -> unlabelled g (emit i g).
Proof.
  intros D J. split; [reflexivity |]. exists [i]. split; [reflexivity |].
  unfold labels_of, targets_of. cbn [flat_map]. by rewrite D, J.
Qed.

Lemma unlabelled_fold_left {A} (f : CodeGenerator -> A -> CodeGenerator)
    (l : list A) :
  (forall s a, unlabelled s (f s a)) -> forall g, unlabelled g (fold_left f l g).
Proof.
  intros Hf. induction l as [| a l IH]; intros g; simpl; [apply unlabelled_refl |].
  eapply unlabelled_trans; [apply Hf | apply IH].
Qed.

Lemma unlabelled_push_register reg g : unlabelled g (push_register reg g).
Proof.
  unfold push_register. eapply unlabelled_trans; by apply unlabelled_emit.
Qed.

Lemma unlabelled_pop_register reg g : unlabelled g (pop_register reg g).
Proof.
  unfold pop_register. eapply unlabelled_trans; by apply unlabelled_emit.
Qed.

Lemma unlabelled_allocate g : unlabelled g (allocate_temp_register g).2.
Proof.
  unfold allocate_temp_register.
  destruct (index_where negb (register_used g)) as [i |]; cbn [snd].
  - by apply unlabelled_same.
  - apply unlabelled_push_register.
Qed.

Lemma unlabelled_free reg g : unlabelled g (free_temp_register reg g).
Proof.
  unfold free_temp_register.
  destruct (index_where _ temp_registers) as [i |];
    [by apply unlabelled_same | apply unlabelled_refl].
Qed.

Lemma unlabelled_load_variable name g : unlabelled g (load_variable name g).2.
Proof.
  unfold load_variable.
  pose proof (unlabelled_allocate g) as H.
  destruct (SymbolTableOps.lookup_symbol (symbol_table g) name) as [symbol |];
    destruct (allocate_temp_register g) as [reg g1]; cbn [snd] in *;
    (eapply unlabelled_trans; [exact H | by apply unlabelled_emit]).
Qed.

Lemma unlabelled_emit_all instrs g :
  labels_of instrs = [] -> targets_of instrs = [] -> unlabelled g (emit_all instrs g).
Proof.
  revert g. unfold emit_all.
  induction instrs as [| i instrs IH]; intros g L T; simpl; [apply unlabelled_refl |].
  unfold labels_of, targets_of in L, T. cbn [flat_map] in L, T.
  apply app_eq_nil in L as [L1 L2]. apply app_eq_nil in T as [T1 T2].
  eapply unlabelled_trans; [by apply unlabelled_emit | by apply IH].
Qed.

Lemma unlabelled_save g : unlabelled g (save_caller_saved_registers g).
Proof.
  unfold save_caller_saved_registers. generalize (used_temporaries g) as regs.
  intros regs. apply unlabelled_fold_left. intros s reg. apply unlabelled_push_register.
Qed.

Lemma unlabelled_restore g : unlabelled g (restore_caller_saved_registers g).
Proof.
  unfold restore_caller_saved_registers. generalize (rev (used_temporaries g)) as regs.
  intros regs. apply unlabelled_fold_left. intros s reg. apply unlabelled_pop_register.
Qed.

Lemma labelled_of_unlabelled g g' : unlabelled g g' -> labelled g g'.
Proof.
  intros (N & c & O & L & T). split; [lia |]. exists c. split; [exact O |].
  by apply well_labelled_plain.
Qed.

Lemma labelled_trans g1 g2 g3 : labelled g1 g2 -> labelled g2 g3 -> labelled g1 g3.
Proof.
  intros (N1 & c1 & O1 & W1) (N2 & c2 & O2 & W2). split; [lia |].
  exists (c1 ++ c2). split; [by rewrite O2, O1, app_assoc |].
  by eapply well_labelled_app.
Qed.

Lemma labelled_then_unlabelled g1 g2 g3 :
  labelled g1 g2 -> unlabelled g2 g3 -> labelled g1 g3.
Proof. intros H1 H2. eapply labelled_trans; [exact H1 | by apply labelled_of_unlabelled]. Qed.

Lemma binary_instructions_plain op a b c :
  labels_of (binary_instructions op a b c) = []
  /\ targets_of (binary_instructions op a b c) = [].
Proof. by destruct op. Qed.

(** The code of an operator that is not short-circuited. *)
Lemma labelled_plain_binary op (gl gr : CodeGenerator -> string * CodeGenerator) g :
  (forall s, labelled s (gl s).2) -> (forall s, labelled s (gr s).2) ->
  labelled g
    (let '(left_reg, g1) := gl g in
     let '(right_reg, g2) := gr g1 in
     let '(result_reg, g3) := allocate_temp_register g2 in
     let g4 := emit_all (binary_instructions op result_reg left_reg right_reg) g3 in
     (result_reg, free_temp_register right_reg (free_temp_register left_reg g4))).2.
Proof.
  intros Hl Hr.
  pose proof (Hl g) as H1. destruct (gl g) as [left_reg g1]. cbn [snd] in H1.
  pose proof (Hr g1) as H2. destruct (gr g1) as [right_reg g2]. cbn [snd] in H2.
  pose proof (unlabelled_allocate g2) as H3.
  destruct (allocate_temp_register g2) as [result_reg g3]. cbn [snd] in H3 |- *.
  eapply labelled_trans; [exact H1 |].
  eapply labelled_then_unlabelled; [exact H2 |].
  eapply unlabelled_trans; [exact H3 |].
  eapply unlabelled_trans;
    [apply unlabelled_emit_all; apply binary_instructions_plain |].
  eapply unlabelled_trans; apply unlabelled_free.
Qed.

(** The code of [generate_short_circuit_and] and
    [generate_short_circuit_or]. *)
Lemma labelled_short_circuit pf pe (br : string -> string -> Asm.Instr) (v : Z)
    (gl gr : CodeGenerator -> string * CodeGenerator) g :
  In pf label_prefixes -> In pe label_prefixes ->
  (forall r l, defines (br r l) = [] /\ jumps_to (br r l) = [l]) ->
  (forall s, labelled s (gl s).2) -> (forall s, labelled s (gr s).2) ->
  labelled g
    (let '(short_label, g1) := generate_label pf g in
     let '(end_label, g2) := generate_label pe g1 in
     let '(result_reg, g3) := allocate_temp_register g2 in
     let '(left_reg, g4) := gl g3 in
     let g5 := emit (br left_reg short_label) g4 in
     let '(right_reg, g6) := gr g5 in
     let g7 := emit (Asm.Mv result_reg right_reg) g6 in
     let g8 := emit (Asm.J end_label) g7 in
     let g9 := emit_label short_label g8 in
     let g10 := emit (Asm.Li result_reg v) g9 in
     let g11 := emit_label end_label g10 in
     (result_reg, free_temp_register right_reg (free_temp_register left_reg g11))).2.
Proof.
  intros Hpf Hpe Hbr Hl Hr. unfold generate_label. cbv beta iota.
  cbn [next_label_id output register_used symbol_table].
  set (n := next_label_id g).
  set (g2 := mkCodeGenerator (output g) (S (S n)) (register_used g) (symbol_table g)).
  destruct (unlabelled_allocate g2) as (N3 & p & O3 & Lp & Tp).
  destruct (allocate_temp_register g2) as [result_reg g3]. cbn [snd] in N3, O3.
  destruct (Hl g3) as (N4 & a & O4 & Wa).
  destruct (gl g3) as [left_reg g4]. cbn [snd] in N4, O4, Wa.
  set (g5 := emit (br left_reg (pf +:+ "_" +:+ pretty n)) g4).
  destruct (Hr g5) as (N6 & b & O6 & Wb).
  destruct (gr g5) as [right_reg g6]. cbn [snd] in N6, O6, Wb.
  cbv zeta. cbn [snd].
  eapply labelled_then_unlabelled;
    [| eapply unlabelled_trans; apply unlabelled_free].
  change (next_label_id g2) with (S (S n)) in N3.
  change (next_label_id g5) with (next_label_id g4) in N6, Wb.
  change (output g2) with (output g) in O3.
  change (output g5) with (output g4 ++ [br left_reg (label_name pf n)]) in O6.
  rewrite N3 in N4, Wa.
  split; [cbn [next_label_id emit emit_label]; fold n; lia |].
  exists (p ++ a ++ [br left_reg (label_name pf n)] ++ b
            ++ [Asm.Mv result_reg right_reg; Asm.J (label_name pe (S n));
                Asm.LabelDef (label_name pf n); Asm.Li result_reg v;
                Asm.LabelDef (label_name pe (S n))]).
  split.
  - cbn [output emit emit_label]. rewrite O6, O4, O3. unfold label_name.
    by rewrite <- !app_assoc.
  - cbn [next_label_id emit emit_label]. fold n.
    apply (well_labelled_short_circuit n (next_label_id g4) (next_label_id g6));
      try done; try apply Hbr; lia.
Qed.

Lemma generate_expr_labelled e : forall g, labelled g (generate_expr e g).2.
Proof.
  induction e as [v | x | op l r IHl IHr | op e IHe | f args IHargs] using Expr_ind';
    intros g.
  - cbn [generate_expr].
    pose proof (unlabelled_allocate g) as H.
    destruct (allocate_temp_register g) as [reg g1]. cbn [snd] in *.
    apply labelled_of_unlabelled.
    eapply unlabelled_trans; [exact H | by apply unlabelled_emit].
  - apply labelled_of_unlabelled, unlabelled_load_variable.
  - destruct op;
      try exact (labelled_plain_binary _ (generate_expr l) (generate_expr r) g IHl IHr).
    + apply (labelled_short_circuit "and_false" "and_end" Asm.Beqz 0
               (generate_expr l) (generate_expr r) g);
        [by left | right; by left | by intros | exact IHl | exact IHr].
    + apply (labelled_short_circuit "or_true" "or_end" Asm.Bnez 1
               (generate_expr l) (generate_expr r) g);
        [right; right; by left | right; right; right; by left | by intros
        | exact IHl | exact IHr].
  - cbn [generate_expr].
    pose proof (IHe g) as H1. destruct (generate_expr e g) as [operand_reg g1].
    cbn [snd] in H1.
    pose proof (unlabelled_allocate g1) as H2.
    destruct (allocate_temp_register g1) as [result_reg g2]. cbn [snd] in H2 |- *.
    eapply labelled_then_unlabelled; [exact H1 |].
    eapply unlabelled_trans; [exact H2 |].
    eapply unlabelled_trans; [| apply unlabelled_free].
    apply unlabelled_emit; by destruct op.
  - cbn [generate_expr snd].
    eapply labelled_then_unlabelled; [| apply unlabelled_restore].
    eapply labelled_then_unlabelled; [| by apply unlabelled_emit].
    eapply labelled_trans; [apply labelled_of_unlabelled, unlabelled_save |].
    match goal with
    | |- labelled _ (?loop args 0%nat _) => set (pass_args := loop)
    end.
    assert (Hstep : forall a l i s,
               pass_args (a :: l) i s
               = if (i <? 8)%nat then
                   let '(arg_reg, s1) := generate_expr a s in
                   pass_args l (S i)
                     (free_temp_register arg_reg
                        (if String.eqb arg_reg ("a" +:+ pretty i) then s1
                         else emit (Asm.Mv ("a" +:+ pretty i) arg_reg) s1))
                 else s) by reflexivity.
    assert (Hnil : forall i s, pass_args [] i s = s) by reflexivity.
    clearbody pass_args.
    generalize 0%nat as i. generalize (save_caller_saved_registers g) as s.
    induction IHargs as [| a args Ha _ IH]; intros s i.
    { rewrite Hnil. apply labelled_of_unlabelled, unlabelled_refl. }
    rewrite Hstep.
    destruct (i <? 8)%nat; [| apply labelled_of_unlabelled, unlabelled_refl].
    pose proof (Ha s) as H1. destruct (generate_expr a s) as [arg_reg s1].
    cbn [snd] in H1.
    eapply labelled_trans; [| apply IH].
    eapply labelled_then_unlabelled; [exact H1 |].
    eapply unlabelled_trans; [| apply unlabelled_free].
    destruct (String.eqb arg_reg _); [apply unlabelled_refl | by apply unlabelled_emit].
Qed.

End LabelFacts.

(** X21 — in the code the TOYC2 generator emits for an expression, from
    whatever state of the generator, every label is defined once, is a
    short-circuit label numbered from the generator's counter, and every
    branch or jump goes to a label defined in that code; the counter
    never goes back. *)
Theorem generated_labels_are_unique
    (e : Toyc2.Expr) (g : Toyc2Codegen.CodeGenerator) :
  let g' := (Toyc2Codegen.generate_expr e g).2 in
  exists code,
    Toyc2Codegen.output g' = Toyc2Codegen.output g ++ code
    /\ (Toyc2Codegen.next_label_id g <= Toyc2Codegen.next_label_id g')%nat
    /\ List.NoDup (labels_of code)
    /\ Forall (numbered (Toyc2Codegen.next_label_id g)
                 (Toyc2Codegen.next_label_id g')) (labels_of code)
    /\ (forall l, In l (targets_of code) -> In l (labels_of code)).
Proof.
  intros g'. destruct (generate_expr_labelled e g) as (N & code & O & W1 & W2 & W3).
  exists code. by repeat split.
Qed.

(** ** The naive register allocator *)

Section NaiveAllocatorFacts.
Import RegAlloc NaiveAlloc.

Lemma NoDup_map_filter {A B} (f : A -> B) (p : A -> bool) (l : list A) :
  List.NoDup (map f l) -> List.NoDup (map f (List.filter p l)).
Proof.
  induction l as [| a l IH]; simpl; intros H; [constructor |].
  apply List.NoDup_cons_iff in H as [Ha Hl].
  destruct (p a); simpl; [| by apply IH].
  constructor; [| by apply IH].
  intros Hin. apply Ha. apply in_map_iff in Hin as (x & E & Hx).
  apply filter_In in Hx as [Hx _]. apply in_map_iff. by exists x.
Qed.

(** One step of the loop over the caller-saved registers. *)
Definition add_caller_saved (regs : list string) (reg : Register) : list string :=
  if isAllocatable reg && isCallerSaved reg
     && negb (existsb (String.eqb (name reg)) regs)
  then regs ++ [name reg]
  else regs.

Lemma add_caller_saved_NoDup regs reg :
  List.NoDup regs -> List.NoDup (add_caller_saved regs reg).
Proof.
  intros H. unfold add_caller_saved.
  destruct (isAllocatable reg && isCallerSaved reg); cbn [andb]; [| exact H].
  destruct (existsb _ regs) eqn:E; cbn [negb]; [exact H |].
  apply List.NoDup_app; [exact H | |].
  - constructor; [by intros [] | constructor].
  - intros x Hx [<- | []].
    assert (existsb (String.eqb (name reg)) regs = true); [| congruence].
    apply existsb_exists. exists (name reg). split; [exact Hx | apply String.eqb_refl].
Qed.

Lemma candidates_NoDup availableRegs count :
  List.NoDup (map name availableRegs) -> List.NoDup (candidates availableRegs count).
Proof.
  intros H. unfold candidates. cbv zeta.
  pose proof (NoDup_map_filter name
                (fun reg => isAllocatable reg && isCalleeSaved reg) availableRegs H) as H0.
  destruct (_ <? count)%nat; [| exact H0].
  revert H0. generalize (map name (List.filter
                 (fun reg => isAllocatable reg && isCalleeSaved reg) availableRegs)).
  clear H. induction availableRegs as [| reg l IH]; intros regs H0; simpl; [exact H0 |].
  apply IH. by apply (add_caller_saved_NoDup regs reg).
Qed.

(** The name of an allocatable register of the list. *)
Definition allocatable_in (availableRegs : list Register) (r : string) : Prop :=
  exists reg, In reg availableRegs /\ name reg = r /\ isAllocatable reg = true.

Lemma add_caller_saved_Forall (P : string -> Prop) (l : list Register) :
  (forall reg, In reg l -> isAllocatable reg = true -> P (name reg)) ->
  forall regs,
    Forall P regs ->
    Forall P
      (fold_left
         (fun regs reg =>
            if isAllocatable reg && isCallerSaved reg
               && negb (existsb (String.eqb (name reg)) regs)
            then regs ++ [name reg]
            else regs)
         l regs).
Proof.
  induction l as [| reg l IH]; intros Hl regs H0; simpl; [exact H0 |].
  apply IH; [intros x Hx; apply Hl; by right |].
  destruct (isAllocatable reg) eqn:Ea; cbn [andb]; [| exact H0].
  destruct (isCallerSaved reg && negb _); [| exact H0].
  apply Forall_app. split; [exact H0 |]. constructor; [| constructor].
  apply Hl; [by left | exact Ea].
Qed.

Lemma candidates_allocatable availableRegs count :
  Forall (allocatable_in availableRegs) (candidates availableRegs count).
Proof.
  unfold candidates. cbv zeta.
  assert (H0 : Forall (allocatable_in availableRegs)
                 (map name (List.filter
                    (fun reg => isAllocatable reg && isCalleeSaved reg) availableRegs))).
  { apply List.Forall_forall. intros r Hr.
    apply in_map_iff in Hr as (reg & E & Hreg). apply filter_In in Hreg as [Hin Hp].
    apply andb_true_iff in Hp as [Hp _]. by exists reg. }
  destruct (_ <? count)%nat; [| exact H0].
  apply add_caller_saved_Forall; [| exact H0].
  intros reg Hin Ha. by exists reg.
Qed.

Lemma assign_In vars : forall regs allocation x,
  In x (assign vars regs allocation) -> In x allocation \/ In x (combine vars regs).
Proof.
  induction vars as [| v vars IH]; intros [| r regs] allocation x H; simpl in *;
    try by left.
  apply IH in H as [H | H]; [| right; by right].
  apply SMap_insert_In in H as [-> | H]; [right; by left | by left].
Qed.

Lemma combine_injective (regs : list string) : List.NoDup regs ->
  forall (vars : list string) a b r,
    In (a, r) (combine vars regs) -> In (b, r) (combine vars regs) -> a = b.
Proof.
  induction 1 as [| r0 regs Hr0 Hregs IH]; intros [| v vars] a b r Ha Hb;
    simpl in *; try done.
  destruct Ha as [Ea | Ha], Hb as [Eb | Hb].
  - congruence.
  - injection Ea as -> ->. apply in_combine_r in Hb. done.
  - injection Eb as -> ->. apply in_combine_r in Ha. done.
  - by apply (IH vars a b r).
Qed.

Lemma assign_keeps vars : forall regs allocation v,
  is_Some (SMap.find v allocation) ->
  is_Some (SMap.find v (assign vars regs allocation)).
Proof.
  induction vars as [| x vars IH]; intros [| r regs] allocation v H; simpl;
    try exact H.
  apply IH. destruct (decide (x = v)) as [-> | Hne].
  - rewrite SMap.find_insert_eq. by eexists.
  - by rewrite SMap.find_insert_ne.
Qed.

Lemma assign_covers vars : forall regs allocation v,
  (length vars <= length regs)%nat -> In v vars ->
  is_Some (SMap.find v (assign vars regs allocation)).
Proof.
  induction vars as [| x vars IH]; intros [| r regs] allocation v Hlen Hin;
    simpl in *; try done; try lia.
  destruct Hin as [-> | Hin].
  - apply assign_keeps. rewrite SMap.find_insert_eq. by eexists.
  - apply IH; [lia | exact Hin].
Qed.

End NaiveAllocatorFacts.

(** X22 — with a register file whose names are distinct, the naive
    allocator never gives one register to two variables; every register
    it assigns is an allocatable register of the file; and when the
    candidates are at least as many as the variables, every variable
    gets a register. *)
Theorem naive_allocation_is_injective {Instr : Type}
    (getDefinedVariables getUsedVariables : Instr -> list string)
    (instructions : list Instr) (availableRegs : list RegAlloc.Register) :
  List.NoDup (map RegAlloc.name availableRegs) ->
  let vars := NaiveAlloc.variables getDefinedVariables getUsedVariables instructions in
  let alloc :=
    NaiveAlloc.naive_allocate getDefinedVariables getUsedVariables
      instructions availableRegs in
  (forall a b ra rb,
     SMap.find a alloc = Some ra -> SMap.find b alloc = Some rb ->
     a <> b -> ra <> rb)
  /\ Forall (fun '(_, r) => allocatable_in availableRegs r) alloc
  /\ ((length vars <= length (NaiveAlloc.candidates availableRegs (length vars)))%nat ->
      forall v, In v vars -> is_Some (SMap.find v alloc)).
Proof.
  intros Hnames vars alloc. split; [| split].
  - intros a b ra rb Ha Hb Hne ->. apply Hne.
    apply SMap_find_In, assign_In in Ha as [[] | Ha].
    apply SMap_find_In, assign_In in Hb as [[] | Hb].
    eapply combine_injective; [| exact Ha | exact Hb].
    by apply candidates_NoDup.
  - apply List.Forall_forall. intros [v r] Hin.
    apply assign_In in Hin as [[] | Hin]. apply in_combine_r in Hin.
    pose proof (candidates_allocatable availableRegs (length vars)) as H.
    rewrite List.Forall_forall in H. by apply H.
  - intros Hlen v Hv. by apply assign_covers.
Qed.

Lemma naive_allocation_is_injective_witness :
  Forall (fun '(_, r) => allocatable_in RegAlloc.registers r)
    (NaiveAlloc.naive_allocate (fun instr : list string => instr) (fun _ => [])
       [["b"; "a"]; ["c"; "a"]] RegAlloc.registers).
Proof.
  apply (naive_allocation_is_injective (fun instr : list string => instr)
           (fun _ => []) [["b"; "a"]; ["c"; "a"]] RegAlloc.registers).
  apply NoDup_ListNoDup. apply (bool_decide_unpack _). vm_compute. reflexivity.
Defined.
